(* ===== verification/_CoqProject ===== *)
-Q . S2P
Prelude.v
CString.v
AegisH.v
Kernel.v
State.v
RefKernel.v
PolicyList.v
Process.v
SyscallList.v
FileHash.v
File.v
Lsm.v
Sysctl.v
Control.v
Securityfs.v
System.v
Scenario.v
HookProgs.v
HookTheorems.v
Interference.v
Counters.v
Decisions.v
ListTheorems.v
SystemTheorems.v
Types.v
TextSizes.v
ControlTheorems.v
ShowTheorems.v
Concurrency.v
Linearize.v
Duplicates.v
Aegisctl.v
AegisctlTheorems.v
AegisctlFiles.v
Session.v
DevInit.v
InitRun.v
DevInitTheorems.v
RefOs.v
