(* ===== verification/Prelude.v ===== *)
(** * AEGIS: a verification development

    AEGIS is a Linux security module (src/aegis) with a command-line tool and a
    test image (src/devkit).  The module keeps three lists, protected processes,
    protected files and blocked system calls, and a configuration of switches
    and counters.  The security hooks consult the lists and the switches to
    grant or refuse a request; an operator changes the lists by writing to
    securityfs endpoints and the switches by writing to sysctl files, and reads
    them back through securityfs read files; [aegisctl] is a front end to these
    files.

    ** How the code is modelled

    The embedding is shallow: a C function is a Rocq function of the same name.
    Static variables, the resources held, and the log are the record [sys], and
    code that touches them runs in the monad [M] (State.v), state passing with
    [None] for a loop whose fuel ran out.  A negative errno is a value of [Z];
    ints and 64-bit counters wrap at their width.  The kernel the module is
    linked into and the C library and system calls of the two programs are not
    part of the repository: they are the class parameters [Kernel] (Kernel.v),
    [Userland] (Aegisctl.v) and [OS] (InitRun.v).  A theorem that needs a
    documented fact about them takes it as a law class, all of which RefKernel.v,
    AegisctlTheorems.v, AegisctlFiles.v and RefOs.v discharge for a concrete
    instance; the witnesses of the theorems run on that instance.  The init
    process of the test image, which is all interaction and not meant to return,
    is an interaction tree of its calls.

    ** Files

    - Prelude.v (this file): machine integers, errno, list and option lemmas,
      tactics and hints.
    - CString.v: the C string functions and printf and scanf conversions used.
    - AegisH.v: aegis.h, the limits, feature bits, records and macros.
    - Kernel.v, RefKernel.v: the kernel interface with its laws, and an instance.
    - State.v: [sys], the monad, and the rules of [wp] (total correctness) and
      [wlp] (partial correctness).
    - PolicyList.v: the interface of the three lists, its laws, the abstract
      bounded list, and the refinement proved once against the interface.
    - Process.v, File.v, FileHash.v, SyscallList.v: aegis_process.c, aegis_file.c
      (list, and digest) and aegis_audit.c; each list discharges the laws.
    - Lsm.v: the hooks of aegis_lsm.c and the table that pairs hook points with
      functions, with a reference verdict for each hook.
    - Sysctl.v, Control.v, Securityfs.v: aegis_sysctl.c, aegis_control.c and
      aegis_securityfs.c, with their tables of file operations; an entry of
      securityfs refers to its table by address ([fops_ptr]).
    - System.v: [aegis_init] and the LSM descriptor of aegis_lsm.c,
      aegis_module.c, the entry points
      of the module as events (a hook is called through the table of Lsm.v, a
      sysctl handler through its table entry), reachability, and the invariant
      [sys_inv].
    - Scenario.v: concrete runs from boot, used by the witnesses.
    - HookProgs.v: the hooks as programs of atomic accesses, equal to those of
      Lsm.v when nothing interferes; Interference.v: other code that changes
      switches and lists between any two accesses of a hook, and rely-style rules
      for what a hook then returns; Counters.v: hooks that run at once, and what
      they count; Decisions.v: what they decide.
    - Concurrency.v: the critical sections of the list routines (additions,
      deletions, lookups, listings, exits) as steps of interleaved threads over
      entries with addresses; Linearize.v: histories of atomic operations that
      explain the interleavings; Duplicates.v: how often a key can be listed.
    - Aegisctl.v: devkit/src/aegisctl.c.
    - DevInit.v: devkit/src/init/aegis_init.c; InitRun.v: what it means for such
      a program to run on a system, with the rules of [eventually].
    - Types.v: the C types of the fields of [sys]; TextSizes.v: how long the texts
      of the read files get.
    - HookTheorems.v, ListTheorems.v, SystemTheorems.v, ControlTheorems.v,
      ShowTheorems.v, AegisctlTheorems.v, AegisctlFiles.v, Session.v,
      DevInitTheorems.v: the properties; RefOs.v: a concrete system on which init runs.

    ** What the theorems show

    - Whole module: every state reachable from boot satisfies [sys_inv], and its
      fields hold values of their C types; boot installs the defaults and fails
      exactly when the sysctl table cannot be registered; only a task with
      CAP_MAC_ADMIN changes a list and only a sysctl write changes a switch; the
      securityfs tree is complete, with every file served by the routine of its
      name, or absent; the exit routines release everything.
    - Hooks: each returns and implements its verdict (result, counters, log) and
      changes nothing else; protected files are not written, protected
      processes not traced, blocked system calls not passed while auditing is on,
      and denied module requests fail closed (firmware loaded from memory is
      granted all the same); nothing else is refused, and nothing at all when the master
      switch is off.
    - Hooks among other code: a denial survives every interference that leaves
      its switches on and its entry on the list, whatever happens store by store
      meanwhile, so that the number of files read without the lock decides
      nothing; the counters of hooks that run at once add up, do not wrap, lose no
      increment, and are exactly the denials when no module is loaded; and hooks
      that run at once each return their reference verdict.
    - Lists: each list refines a bounded list without duplicates; the digest
      routine terminates on finite files, computes the digest of the whole
      content and releases what it acquires on every exit.
    - Operator side: the text written to an endpoint is parsed into the key it
      prints, copies from user space stay inside their arrays, a path protected
      through its endpoint cannot be written until it is released; the five
      read files read back as the lists, digests, counters and switches they
      show; aegisctl runs the endpoint its command names and reports its answer;
      its audit command releases its buffer on every path and lists a tail of the log, its other listings are the read
      files as far as its buffer reaches; what it adds or removes shows up in its
      next listing; its disable and enable commands switch the hooks off and back on.
      The laws of the files behind aegisctl hold where the securityfs tree and the
      sysctl table are in place, and refuse to open a file of an absent tree; the
      theorems say what the commands do in both cases.
    - Init process: whatever fails, it comes to start a shell, with all set-up
      calls made in a fixed order and everything closed; its writes lose nothing
      silently; it shows the whole status text when the tree can be reached.
    - Concurrency: every interleaving keeps the list and its count consistent,
      with a bounded overshoot of the capacity, and is explained by atomic
      operations on the plain list, in an order that respects real time; hence
      a lookup never misses an entry nobody deletes nor finds one nobody adds; a
      key is listed more than once only where additions of that key race.
    - Limits of the code, stated as theorems: racing additions can duplicate a
      key; an addition can read an entry already freed; the digest of an endless
      file is never finished; a path of exactly 256 bytes is cut; a long name
      can be split into name and pid; aegisctl drops the pid of proc-add and cuts
      long lists of files; init mounts /sys over the trees mounted below it and
      makes no device nodes.

    ** Fuel

    The read loop of the digest is the only loop of the module without a bound
    in the source.  It takes fuel, passed down from the callers:
    length + 1 iterations are enough for a file of that length ([file_hash_correct]),
    and none are enough for an endless one ([file_add_endless]).  All theorems
    about list additions hold for every amount of fuel; those that say an
    addition returns give the fuel it needs.  The loops of aegisctl and of
    decimal printing get fuel from the length of their input and from the
    logarithm of the number, and are proved not to run out of it.  The loops of
    init are iterations of interaction trees and need none: [eventually] holds
    only of programs that get to an end after finitely many calls.

    ** Not modelled

    The launch script, the build files, the kernel patches and the CI
    configuration: they hold no logic of the programs, or patch code that is not
    part of the repository.  Of the C files nothing with a behaviour is left out:
    the lines no definition stands for are comments, includes, prototypes and
    lock declarations.  The calls of the digest routine into the file system do
    not come back to the module's own file hooks, which in a running kernel they
    pass: a hook changes neither lists nor switches, so that only counters and
    log lines could differ.  A sysctl entry is one int, as [maxlen] says.  Critical sections of different threads interleave in
    Concurrency.v, where each is one atomic step, and in Interference.v, where a
    hook meets the single stores of another thread's section; elsewhere routines
    run one after another.  Memory is sequentially consistent throughout: the
    reorderings a weak memory could show for the plain reads of the switches are
    not represented.  The seq_file layer under the read files is a law of the
    readers ([ReadFiles], [AegisTree]); what stdio does with the text init
    prints, and the arrival of signals, are up to the class [OS]. *)

From Stdlib Require Export Ascii.
From Stdlib Require String.
From stdpp Require Export prelude strings.

#[export] Set Default Goal Selector "!".

(** ** Machine integers *)

Declare Scope aegis_scope.
Delimit Scope aegis_scope with aegis.
Open Scope Z_scope.

(** Two's complement reading of [z] at width [w]. *)
Definition wrap_s (w z : Z) : Z := (z + 2 ^ (w - 1)) `mod` 2 ^ w - 2 ^ (w - 1).

(** Unsigned reading of [z] at width [w]. *)
Definition wrap_u (w z : Z) : Z := z `mod` 2 ^ w.

Definition i32 (z : Z) : Z := wrap_s 32 z.
Definition s64 (z : Z) : Z := wrap_s 64 z.
Definition u32 (z : Z) : Z := wrap_u 32 z.

Definition INT_MAX : Z := 2147483647.
Definition INT_MIN : Z := -2147483648.

(** ** Error numbers (errno.h) *)

Definition EPERM : Z := 1.
Definition ENOENT : Z := 2.
Definition ENOMEM : Z := 12.
Definition EACCES : Z := 13.
Definition EFAULT : Z := 14.
Definition EEXIST : Z := 17.
Definition EINVAL : Z := 22.
Definition ENOSPC : Z := 28.

(** ** Lists traversed by the kernel's list iterators *)

(** [list_for_each_entry_safe] with a [list_del] and a [break] on the first
    entry that satisfies [f]: [None] when no entry does. *)
Fixpoint remove_first {A} (f : A → bool) (l : list A) : option (list A) :=
  match l with
  | [] => None
  | x :: l' => if f x then Some l' else (x ::.) <$> remove_first f l'
  end.

(** ** Generic lemmas *)

Create HintDb aegis.

Lemma wrap_s_small w z :
  1 <= w → - 2 ^ (w - 1) <= z < 2 ^ (w - 1) → wrap_s w z = z.
Proof.
  intros Hw Hz. unfold wrap_s.
  assert (2 ^ w = 2 * 2 ^ (w - 1)) as E.
  { rewrite <- Z.pow_succ_r by lia. f_equal. lia. }
  rewrite Z.mod_small by lia. lia.
Qed.

Lemma wrap_s_range w z :
  1 <= w → - 2 ^ (w - 1) <= wrap_s w z < 2 ^ (w - 1).
Proof.
  intros Hw. unfold wrap_s.
  assert (2 ^ w = 2 * 2 ^ (w - 1)) as E.
  { rewrite <- Z.pow_succ_r by lia. f_equal. lia. }
  pose proof (Z.pow_pos_nonneg 2 (w - 1) ltac:(lia) ltac:(lia)).
  pose proof (Z.mod_pos_bound (z + 2 ^ (w - 1)) (2 ^ w) ltac:(lia)). lia.
Qed.

Lemma i32_small z : INT_MIN <= z <= INT_MAX → i32 z = z.
Proof.
  intros Hz. unfold i32. apply wrap_s_small; [lia|].
  change (2 ^ (32 - 1)) with 2147483648. unfold INT_MIN, INT_MAX in Hz. lia.
Qed.

Lemma i32_range z : INT_MIN <= i32 z <= INT_MAX.
Proof.
  pose proof (wrap_s_range 32 z ltac:(lia)) as H.
  change (2 ^ (32 - 1)) with 2147483648 in H. fold (i32 z) in H.
  unfold INT_MIN, INT_MAX. lia.
Qed.

Lemma s64_small z : - 2 ^ 63 <= z < 2 ^ 63 → s64 z = z.
Proof. intros Hz. apply wrap_s_small; [lia|]. exact Hz. Qed.

Section remove_first.
Context {A : Type} (f : A → bool).
Implicit Types l : list A.

Lemma remove_first_None l : remove_first f l = None ↔ existsb f l = false.
Proof.
  induction l as [|x l IH]; cbn; [tauto|].
  destruct (f x); cbn; [split; discriminate|].
  rewrite <- IH. destruct (remove_first f l); cbn; split; intros; congruence.
Qed.

Lemma remove_first_is_Some l : is_Some (remove_first f l) ↔ existsb f l = true.
Proof.
  rewrite <- not_eq_None_Some, remove_first_None.
  destruct (existsb f l); split; congruence.
Qed.

(** The removed entry is the first match, everything else is kept in order. *)
Lemma remove_first_Some l l' :
  remove_first f l = Some l' →
  ∃ l1 x l2, l = l1 ++ x :: l2 ∧ l' = l1 ++ l2 ∧ f x = true ∧
             Forall (λ y, f y = false) l1.
Proof.
  revert l'. induction l as [|x l IH]; cbn; intros l' H; [discriminate|].
  destruct (f x) eqn:E.
  - injection H as <-. exists [], x, l. repeat split; auto.
  - destruct (remove_first f l) as [l0|] eqn:R; [|discriminate].
    injection H as <-. destruct (IH _ eq_refl) as (l1 & y & l2 & -> & -> & Hy & Hl).
    exists (x :: l1), y, l2. repeat split; auto.
Qed.

Lemma remove_first_length l l' :
  remove_first f l = Some l' → length l = S (length l').
Proof.
  intros (l1 & x & l2 & -> & -> & _)%remove_first_Some.
  rewrite !length_app. cbn. lia.
Qed.

Lemma remove_first_sublist l l' : remove_first f l = Some l' → l' `sublist_of` l.
Proof.
  intros (l1 & x & l2 & -> & -> & _)%remove_first_Some.
  apply sublist_app; [done|]. by apply sublist_cons.
Qed.

Lemma remove_first_Forall (P : A → Prop) l l' :
  remove_first f l = Some l' → Forall P l → Forall P l'.
Proof.
  intros (l1 & x & l2 & -> & -> & _)%remove_first_Some. rewrite !Forall_app, Forall_cons_iff. tauto.
Qed.

End remove_first.

Lemma existsb_false_iff {A} (f : A → bool) l :
  existsb f l = false ↔ ∀ x, x ∈ l → f x = false.
Proof.
  rewrite <- not_true_iff_false, existsb_exists. setoid_rewrite <- list_elem_of_In.
  split.
  - intros H x Hx. destruct (f x) eqn:E; [|done]. exfalso. apply H. eauto.
  - intros H (x & Hx & E). rewrite (H x Hx) in E. discriminate.
Qed.

Lemma existsb_true_iff {A} (f : A → bool) l :
  existsb f l = true ↔ ∃ x, x ∈ l ∧ f x = true.
Proof. rewrite existsb_exists. by setoid_rewrite list_elem_of_In. Qed.

Lemma filter_ne_notin {A} `{EqDecision A} (k : A) (l : list A) :
  k ∉ l → filter (λ k', k' ≠ k) l = l.
Proof.
  induction l as [|x l IH]; intros Hx; [done|].
  rewrite filter_cons_True by (intros ->; set_solver). f_equal. apply IH. set_solver.
Qed.

Lemma filter_ne_single {A} `{EqDecision A} (k : A) (l : list A) :
  filter (λ k', k' ≠ k) (k :: l) = filter (λ k', k' ≠ k) l.
Proof. apply filter_cons_False. intros H. by apply H. Qed.

Lemma sum_list_with_insert {A} (f : A → nat) l i x y :
  l !! i = Some x → (sum_list_with f (<[i := y]> l) + f x = sum_list_with f l + f y)%nat.
Proof.
  revert i. induction l as [|z l IH]; intros [|i] H; [done..| |].
  - injection H as ->. cbn. lia.
  - apply IH in H. change (<[S i := y]> (z :: l)) with (z :: <[i := y]> l). cbn [sum_list_with]. lia.
Qed.

(** ** Tactics *)

(** Decide the tests of a literal return code against zero. *)
Ltac errno :=
  repeat match goal with
  | |- context [- ?e =? 0] => change (- e =? 0) with false
  | |- context [0 =? 0] => change (0 =? 0) with true
  | H : context [- ?e =? 0] |- _ => change (- e =? 0) with false in H
  | H : context [0 =? 0] |- _ => change (0 =? 0) with true in H
  end; cbv beta iota in *.

(** Rewrite with the hypotheses that fix a boolean or the result of a call. *)
Ltac rewrite_eqs :=
  repeat match goal with
  | H : _ = true |- _ => rewrite H
  | H : _ = false |- _ => rewrite H
  | H : _ = (_, _) |- _ => rewrite H
  end.

(** Goals made of conjunctions, disjunctions and reflexive facts. *)
Ltac outcome := errno; cbn in *; subst; try done; auto 14.
