(* ===== verification/CString.v ===== *)
(** * C strings, byte arrays and printf-style formatting

    The parts of the C string library that the sources use, on byte lists.
    A [bytes] value is memory read through a [char *]: reading past the end of
    the list reads the terminating NUL.  [cstr] is the string such memory
    holds.  The theorems relate [strncmp] and [strscpy] to equality of the
    strings held, and decimal printing to decimal reading. *)

From S2P Require Import Prelude.

Notation bytes := (list ascii).

Definition NUL : ascii := "000"%char.
Definition LF : ascii := "010"%char.
Definition CR : ascii := "013"%char.

(** A string literal as bytes (its terminating NUL is implicit). *)
Definition str (s : string) : bytes := String.list_ascii_of_string s.

Definition byte_val (c : ascii) : Z := Z.of_N (N_of_ascii c).

(** The string held by memory: the bytes before the first NUL. *)
Fixpoint cstr (m : bytes) : bytes :=
  match m with
  | [] => []
  | c :: m' => if decide (c = NUL) then [] else c :: cstr m'
  end.

Definition no_nul (s : bytes) : Prop := Forall (λ c, c ≠ NUL) s.

#[export] Instance no_nul_dec s : Decision (no_nul s).
Proof. unfold no_nul. apply _. Defined.

Definition strlen (m : bytes) : Z := Z.of_nat (length (cstr m)).

Definition strnlen (m : bytes) (n : nat) : nat := length (cstr (take n m)).

(** [strncmp]: sign of the first difference within [n] bytes, stopping at NUL. *)
Fixpoint strncmp (s1 s2 : bytes) (n : nat) : Z :=
  match n with
  | O => 0
  | S n' =>
      let c1 := hd NUL s1 in
      let c2 := hd NUL s2 in
      if decide (c1 = c2)
      then if decide (c1 = NUL) then 0 else strncmp (tl s1) (tl s2) n'
      else if byte_val c1 <? byte_val c2 then -1 else 1
  end.

(** [strcmp(a, b) == 0]. *)
Definition streq (s1 s2 : bytes) : bool := bool_decide (cstr s1 = cstr s2).

(** [strstr] and its prefix test. *)
Fixpoint prefix_b (p s : bytes) : bool :=
  match p, s with
  | [], _ => true
  | a :: p', b :: s' => bool_decide (a = b) && prefix_b p' s'
  | _ :: _, [] => false
  end.

(** The rest of [s] from the first occurrence of [p]. *)
Fixpoint strstr (s p : bytes) : option bytes :=
  if prefix_b p s then Some s
  else match s with
       | _ :: s' => strstr s' p
       | [] => None
       end.

Definition memset0 (n : nat) : bytes := replicate n NUL.

(** [strscpy(dst, src, size)] on an array [dst]: at most [size - 1] bytes of
    the string are copied and a NUL is stored after them. *)
Definition strscpy (dst src : bytes) (size : nat) : bytes :=
  let s := take (size - 1) (cstr src) in
  s ++ NUL :: drop (S (length s)) dst.

(** A [char a[n]] array that holds a terminated string. *)
Definition carray (n : nat) (a : bytes) : Prop :=
  length a = n ∧ (length (cstr a) < n)%nat.

(** ** Numbers as text *)

Definition digit_char (d : Z) : ascii :=
  ascii_of_N (Z.to_N (if d <? 10 then 48 + d else 87 + d)).

Fixpoint digits_fuel (base : Z) (fuel : nat) (n : Z) : bytes :=
  match fuel with
  | O => []
  | S fuel' =>
      (if n <? base then [] else digits_fuel base fuel' (n / base))
        ++ [digit_char (n `mod` base)]
  end.

(** Digits of [n >= 0]; [log2 n + 1] divisions are enough for any base >= 2. *)
Definition digits (base n : Z) : bytes :=
  digits_fuel base (S (Z.to_nat (Z.log2 n))) n.

(** ["%d"] / ["%lld"]. *)
Definition fmt_d (n : Z) : bytes :=
  if n <? 0 then "-"%char :: digits 10 (- n) else digits 10 n.

(** ["%x"] of an unsigned value. *)
Definition fmt_x (n : Z) : bytes := digits 16 n.

Definition pad_left (fill : ascii) (w : nat) (s : bytes) : bytes :=
  replicate (w - length s) fill ++ s.
Definition pad_right (w : nat) (s : bytes) : bytes :=
  s ++ replicate (w - length s) " "%char.

(** ["0x%08x"] and ["%02x"]. *)
Definition fmt_08x (n : Z) : bytes := pad_left "0" 8 (fmt_x n).
Definition fmt_02x (c : ascii) : bytes := pad_left "0" 2 (fmt_x (byte_val c)).

Definition isdigit (c : ascii) : bool :=
  (48 <=? byte_val c) && (byte_val c <=? 57).

(** Blanks of the kernel's ctype table (160: no-break space). *)
Definition isspace (c : ascii) : bool :=
  (byte_val c =? 32) || ((9 <=? byte_val c) && (byte_val c <=? 13)) || (byte_val c =? 160).

(** A string without blanks. *)
Definition word (s : bytes) : Prop := Forall (λ c, isspace c = false) s.

#[global] Instance word_dec s : Decision (word s).
Proof. unfold word. apply _. Defined.

(** The decimal digits at the head of [s]: their value added to [acc], how
    many there are, and what follows. *)
Fixpoint scan_digits (acc : Z) (cnt : nat) (s : bytes) : Z * nat * bytes :=
  match s with
  | c :: s' =>
      if isdigit c then scan_digits (10 * acc + (byte_val c - 48)) (S cnt) s'
      else (acc, cnt, s)
  | [] => (acc, cnt, [])
  end.

Fixpoint skip_spaces (s : bytes) : bytes :=
  match s with
  | c :: s' => if isspace c then skip_spaces s' else s
  | [] => []
  end.

(** ** Lemmas *)

Lemma cstr_no_nul m : no_nul (cstr m).
Proof. induction m as [|c m IH]; cbn; [constructor|]. case_decide; constructor; auto. Qed.

Lemma cstr_id s : no_nul s → cstr s = s.
Proof.
  induction 1 as [|c s Hc Hs IH]; cbn; [done|]. rewrite decide_False by done. by f_equal.
Qed.

Lemma cstr_idemp s : cstr (cstr s) = cstr s.
Proof. apply cstr_id, cstr_no_nul. Qed.

Lemma cstr_app_nul s m : no_nul s → cstr (s ++ NUL :: m) = s.
Proof.
  induction 1 as [|c s Hc Hs IH]; cbn; [done|]. rewrite decide_False by done. by f_equal.
Qed.

Lemma cstr_length m : (length (cstr m) <= length m)%nat.
Proof. induction m as [|c m IH]; cbn; [lia|]. case_decide; cbn; lia. Qed.

Lemma no_nul_take n s : no_nul s → no_nul (take n s).
Proof. apply Forall_take. Qed.

Lemma no_nul_app s1 s2 : no_nul (s1 ++ s2) ↔ no_nul s1 ∧ no_nul s2.
Proof. apply Forall_app. Qed.

#[export] Hint Resolve cstr_no_nul no_nul_take : aegis.

(** [strncmp] decides equality of the first [n] bytes of the strings held. *)
Lemma strncmp_zero s1 s2 n :
  strncmp s1 s2 n = 0 ↔ take n (cstr s1) = take n (cstr s2).
Proof.
  revert s1 s2. induction n as [|n IH]; intros s1 s2; [done|].
  assert (∀ s, cstr s = if decide (hd NUL s = NUL) then [] else hd NUL s :: cstr (tl s))
    as Hc by (by intros []).
  cbn [strncmp]. rewrite (Hc s1), (Hc s2). specialize (IH (tl s1) (tl s2)).
  generalize dependent (hd NUL s1); intros c1. generalize dependent (hd NUL s2); intros c2.
  destruct (decide (c1 = c2)) as [<-|Hne].
  - case_decide; [done|]. rewrite IH. cbn. split; congruence.
  - split; [case_match; discriminate|].
    repeat case_decide; cbn; congruence.
Qed.

Lemma strncmp_carray n a q :
  carray n a → no_nul q → strncmp a q n = 0 ↔ cstr a = q.
Proof.
  intros [_ Ha] Hq. rewrite strncmp_zero, (cstr_id q Hq), (take_ge (cstr a)) by lia.
  split; [|intros <-; by rewrite take_ge by lia].
  intros E. rewrite E in Ha |- *. rewrite length_take in Ha.
  apply take_ge. lia.
Qed.

(** Against other memory: no bound on the string it holds is needed. *)
Lemma strncmp_carray_mem n a m :
  carray n a → strncmp a m n = 0 ↔ cstr a = cstr m.
Proof.
  intros Ha. rewrite <- (strncmp_carray n a (cstr m)) by auto with aegis.
  by rewrite !strncmp_zero, cstr_idemp.
Qed.

Lemma strscpy_cstr dst src size :
  cstr (strscpy dst src size) = take (size - 1) (cstr src).
Proof. unfold strscpy. apply cstr_app_nul. auto with aegis. Qed.

Lemma strscpy_carray dst src size :
  (0 < size)%nat → length dst = size → carray size (strscpy dst src size).
Proof.
  intros Hs Hd. split.
  - unfold strscpy. rewrite length_app. cbn. rewrite length_drop, length_take. lia.
  - rewrite strscpy_cstr, length_take. lia.
Qed.

Lemma streq_spec s1 s2 : streq s1 s2 = true ↔ cstr s1 = cstr s2.
Proof. apply bool_decide_eq_true. Qed.

(** ** Printing and reading numbers *)

Lemma byte_val_ascii n : 0 <= n < 256 → byte_val (ascii_of_N (Z.to_N n)) = n.
Proof. intros Hn. unfold byte_val. rewrite N_ascii_embedding; lia. Qed.

Lemma digit_char_val d : 0 <= d < 10 → byte_val (digit_char d) = 48 + d.
Proof.
  intros Hd. unfold digit_char. replace (d <? 10) with true by lia.
  apply byte_val_ascii. lia.
Qed.

Lemma isdigit_digit_char d : 0 <= d < 10 → isdigit (digit_char d) = true.
Proof. intros Hd. unfold isdigit. rewrite digit_char_val by done. lia. Qed.

Lemma scan_digits_app s1 s2 acc cnt :
  Forall (λ c, isdigit c = true) s1 →
  scan_digits acc cnt (s1 ++ s2) =
    scan_digits (scan_digits acc cnt s1).1.1 (cnt + length s1) s2.
Proof.
  intros H. revert acc cnt. induction H as [|c s1 Hc H IH]; intros acc cnt; cbn.
  - by rewrite Nat.add_0_r.
  - rewrite Hc, IH. f_equal. cbn. lia.
Qed.

Lemma digits_fuel_spec fuel n acc cnt rest :
  0 <= n < 2 ^ Z.of_nat fuel →
  (∀ c, hd_error rest = Some c → isdigit c = false) →
  Forall (λ c, isdigit c = true) (digits_fuel 10 fuel n) ∧
  scan_digits acc cnt (digits_fuel 10 fuel n ++ rest) =
    (10 ^ Z.of_nat (length (digits_fuel 10 fuel n)) * acc + n,
     (cnt + length (digits_fuel 10 fuel n))%nat, rest).
Proof.
  revert n acc cnt rest. induction fuel as [|fuel IH]; intros n acc cnt rest Hn Hrest.
  { cbn in Hn. cbn. assert (n = 0) as -> by lia.
    split; [constructor|]. destruct rest as [|c rest]; cbn.
    - repeat f_equal; lia.
    - rewrite (Hrest c eq_refl). repeat f_equal; lia. }
  pose proof (Z.mod_pos_bound n 10 ltac:(lia)) as Hm.
  cbn [digits_fuel]. destruct (n <? 10) eqn:E.
  - cbn. rewrite isdigit_digit_char by done.
    split; [by apply Forall_singleton, isdigit_digit_char|].
    rewrite digit_char_val, Z.mod_small by lia.
    destruct rest as [|c rest]; cbn; [|rewrite (Hrest c eq_refl)]; repeat f_equal; lia.
  - rewrite Nat2Z.inj_succ, Z.pow_succ_r in Hn by lia.
    assert (0 <= n / 10 < 2 ^ Z.of_nat fuel) as Hd.
    { split; [apply Z.div_pos; lia|]. apply Z.div_lt_upper_bound; lia. }
    destruct (IH (n / 10) acc cnt [] Hd ltac:(done)) as [HF IH'].
    rewrite app_nil_r in IH'.
    split.
    { apply Forall_app. split; [done|]. rewrite Forall_singleton.
      by apply isdigit_digit_char. }
    rewrite <- app_assoc, scan_digits_app, IH' by done. cbn.
    rewrite isdigit_digit_char, digit_char_val by done.
    rewrite length_app. cbn [length].
    assert (10 * (10 ^ Z.of_nat (length (digits_fuel 10 fuel (n / 10))) * acc + n / 10)
            + (48 + n `mod` 10 - 48)
            = 10 ^ Z.of_nat (length (digits_fuel 10 fuel (n / 10)) + 1) * acc + n) as ->.
    { rewrite Nat2Z.inj_add, Z.pow_add_r by lia.
      pose proof (Z.div_mod n 10 ltac:(lia)). lia. }
    destruct rest as [|c rest]; cbn; [|rewrite (Hrest c eq_refl)]; repeat f_equal; lia.
Qed.

Lemma digits_spec n acc cnt rest :
  0 <= n → (∀ c, hd_error rest = Some c → isdigit c = false) →
  Forall (λ c, isdigit c = true) (digits 10 n) ∧
  scan_digits acc cnt (digits 10 n ++ rest) =
    (10 ^ Z.of_nat (length (digits 10 n)) * acc + n,
     (cnt + length (digits 10 n))%nat, rest).
Proof.
  intros Hn Hr. apply digits_fuel_spec; [|done]. split; [done|].
  rewrite Nat2Z.inj_succ, Z2Nat.id by apply Z.log2_nonneg.
  destruct (decide (n = 0)) as [->|]; [done|]. apply Z.log2_spec. lia.
Qed.

(** Reading back what ["%d"] prints. *)
Lemma scan_fmt_d n :
  0 <= n → scan_digits 0 0 (fmt_d n) = (n, length (fmt_d n), []).
Proof.
  intros Hn. unfold fmt_d. replace (n <? 0) with false by lia.
  destruct (digits_spec n 0 0 [] Hn ltac:(done)) as [_ H].
  rewrite app_nil_r in H. rewrite H. repeat f_equal; lia.
Qed.

Lemma fmt_d_digits n : 0 <= n → Forall (λ c, isdigit c = true) (fmt_d n).
Proof.
  intros Hn. unfold fmt_d. replace (n <? 0) with false by lia.
  by apply (digits_spec n 0 0 []).
Qed.

Lemma digits_length base n : (0 < length (digits base n))%nat.
Proof. unfold digits. cbn. rewrite length_app. cbn. lia. Qed.

Lemma fmt_d_length n : (0 < length (fmt_d n))%nat.
Proof.
  unfold fmt_d. destruct (n <? 0); [cbn; lia | apply digits_length].
Qed.

Lemma digits_fuel_length base fuel k n :
  2 <= base → (1 <= k)%nat → 0 <= n < base ^ Z.of_nat k →
  (length (digits_fuel base fuel n) <= k)%nat.
Proof.
  intros Hb. revert k n. induction fuel as [|fuel IH]; intros k n Hk Hn; cbn [digits_fuel]; [cbn; lia|].
  rewrite length_app. cbn [length]. destruct (n <? base) eqn:E; [cbn; lia|].
  destruct k as [|[|k]]; [lia|rewrite Z.pow_1_r in Hn; lia|].
  assert (length (digits_fuel base fuel (n / base)) <= S k)%nat; [|lia].
  apply IH; [lia|]. split; [apply Z.div_pos; lia|]. apply Z.div_lt_upper_bound; [lia|].
  rewrite (Nat2Z.inj_succ (S k)), Z.pow_succ_r in Hn by lia. lia.
Qed.

(** ["%08x"] of a 32-bit value has eight characters. *)
Lemma fmt_08x_length n : 0 <= n < 2 ^ 32 → length (fmt_08x n) = 8%nat.
Proof.
  intros Hn. unfold fmt_08x, pad_left, fmt_x, digits. rewrite length_app, length_replicate.
  assert (length (digits_fuel 16 (S (Z.to_nat (Z.log2 n))) n) <= 8)%nat; [|lia].
  apply digits_fuel_length; [lia|lia|exact Hn].
Qed.

Lemma digit_char_no_nul d : 0 <= d < 16 → digit_char d ≠ NUL.
Proof.
  intros Hd. assert (d ∈ seqZ 0 16) as Hi by (apply elem_of_seqZ; lia).
  repeat (apply elem_of_cons in Hi as [->|Hi]; [done|]). by apply elem_of_nil in Hi.
Qed.

Lemma digits_fuel_no_nul base fuel n :
  2 <= base <= 16 → 0 <= n → no_nul (digits_fuel base fuel n).
Proof.
  intros Hb. revert n. induction fuel as [|fuel IH]; intros n Hn; cbn [digits_fuel]; [constructor|].
  apply Forall_app. split; [case_match; [constructor|apply IH, Z.div_pos; lia]|].
  constructor; [|constructor]. apply digit_char_no_nul. pose proof (Z.mod_pos_bound n base). lia.
Qed.

Lemma fmt_08x_no_nul n : 0 <= n → no_nul (fmt_08x n).
Proof.
  intros Hn. apply Forall_app. split; [by apply Forall_replicate|]. by apply digits_fuel_no_nul.
Qed.

(** A non-negative int has at most ten digits. *)
Lemma fmt_d_int_length n : 0 <= n <= INT_MAX → (length (fmt_d n) <= 10)%nat.
Proof.
  intros Hn. unfold fmt_d. replace (n <? 0) with false by lia.
  apply digits_fuel_length; [lia|lia|]. unfold INT_MAX in Hn. cbn. lia.
Qed.

Lemma isdigit_not_nul c : isdigit c = true → c ≠ NUL.
Proof. intros H ->. discriminate. Qed.

Lemma digits_no_nul s : Forall (λ c, isdigit c = true) s → no_nul s.
Proof. intros H. eapply Forall_impl; [exact H|]. intros c. apply isdigit_not_nul. Qed.

Lemma fmt_d_inj n m : 0 <= n → 0 <= m → fmt_d n = fmt_d m → n = m.
Proof.
  intros Hn Hm E. pose proof (scan_fmt_d n Hn) as H1. pose proof (scan_fmt_d m Hm) as H2.
  rewrite E in H1. congruence.
Qed.

#[global] Arguments str : simpl never.
#[global] Arguments fmt_d : simpl never.
#[global] Arguments fmt_x : simpl never.
#[global] Arguments digits : simpl never.
#[global] Arguments memset0 : simpl never.
#[global] Arguments strscpy : simpl never.
#[global] Arguments strncmp : simpl never.
