(* ===== verification/AegisH.v ===== *)
(** * aegis.h: constants, configuration and list entries

    The compile-time limits, the feature bits, [struct aegis_config] with its
    statistics counters, and the three kinds of list entry.  The feature test
    macro and the counter macro are functions on the configuration. *)

From S2P Require Import Prelude CString.

Definition AEGIS_VERSION : bytes := str "1.0.0".
Definition AEGIS_NAME : bytes := str "aegis".

Definition AEGIS_MAX_PROTECTED_PROCS : Z := 64.
Definition AEGIS_MAX_PROTECTED_FILES : Z := 128.
Definition AEGIS_MAX_BLOCKED_SYSCALLS : Z := 256.
Definition AEGIS_COMM_LEN : nat := 16.
Definition AEGIS_PATH_LEN : nat := 256.
Definition AEGIS_HASH_SIZE : nat := 32.

(** ** Feature bits *)

Definition AEGIS_FEATURE_PROCESS_PROTECT : Z := Z.shiftl 1 0.
Definition AEGIS_FEATURE_FILE_INTEGRITY : Z := Z.shiftl 1 1.
Definition AEGIS_FEATURE_SYSCALL_AUDIT : Z := Z.shiftl 1 2.
Definition AEGIS_FEATURE_MODULE_CONTROL : Z := Z.shiftl 1 3.
Definition AEGIS_FEATURE_PTRACE_RESTRICT : Z := Z.shiftl 1 4.
Definition AEGIS_FEATURE_FULL_SHIELD : Z := Z.shiftl 1 5.

Definition AEGIS_FEATURE_ALL : Z :=
  Z.lor AEGIS_FEATURE_PROCESS_PROTECT
    (Z.lor AEGIS_FEATURE_FILE_INTEGRITY
      (Z.lor AEGIS_FEATURE_SYSCALL_AUDIT
        (Z.lor AEGIS_FEATURE_MODULE_CONTROL AEGIS_FEATURE_PTRACE_RESTRICT))).

(** ** struct aegis_config *)

Record aegis_config := mkConfig {
  enabled : bool;
  features : Z;                     (* u32 *)
  ptrace_restrict_all : bool;
  ptrace_scope : Z;
  file_integrity_enforce : bool;
  file_integrity_log : bool;
  syscall_audit_enable : bool;
  syscall_deny_unlisted : bool;
  module_loading_denied : bool;
  module_force_loading : bool;
  ptrace_blocked : Z;               (* atomic64_t *)
  file_violations : Z;
  syscall_violations : Z;
  module_violations : Z;
  total_events : Z;
}.

(** The initializer of the global [aegis_cfg]. *)
Definition aegis_cfg_init : aegis_config := {|
  enabled := true;
  features := AEGIS_FEATURE_ALL;
  ptrace_restrict_all := false;
  ptrace_scope := 1;
  file_integrity_enforce := true;
  file_integrity_log := true;
  syscall_audit_enable := true;
  syscall_deny_unlisted := false;
  module_loading_denied := false;
  module_force_loading := false;
  ptrace_blocked := 0;
  file_violations := 0;
  syscall_violations := 0;
  module_violations := 0;
  total_events := 0;
|}.

(** ** List entries *)

Record aegis_protected_proc := mkProc { pp_comm : bytes; pp_pid : Z }.

Record aegis_protected_file := mkFile {
  pf_path : bytes;
  pf_hash : bytes;
  pf_hash_valid : bool;
}.

Record aegis_blocked_syscall := mkSyscall { bs_syscall_nr : Z }.

(** ** Utility macros *)

Definition AEGIS_FEATURE_CHECK (c : aegis_config) (feature : Z) : bool :=
  enabled c && negb (Z.land (features c) feature =? 0).

(** The argument of [AEGIS_STAT_INC]: a counter field. *)
Inductive stat :=
  | st_ptrace_blocked | st_file_violations | st_syscall_violations
  | st_module_violations | st_total_events.

Definition stat_get (k : stat) (c : aegis_config) : Z :=
  match k with
  | st_ptrace_blocked => ptrace_blocked c
  | st_file_violations => file_violations c
  | st_syscall_violations => syscall_violations c
  | st_module_violations => module_violations c
  | st_total_events => total_events c
  end.

(** The configuration with its five counters replaced. *)
Definition set_stats (c : aegis_config) (v : stat → Z) : aegis_config := {|
  enabled := enabled c;
  features := features c;
  ptrace_restrict_all := ptrace_restrict_all c;
  ptrace_scope := ptrace_scope c;
  file_integrity_enforce := file_integrity_enforce c;
  file_integrity_log := file_integrity_log c;
  syscall_audit_enable := syscall_audit_enable c;
  syscall_deny_unlisted := syscall_deny_unlisted c;
  module_loading_denied := module_loading_denied c;
  module_force_loading := module_force_loading c;
  ptrace_blocked := v st_ptrace_blocked;
  file_violations := v st_file_violations;
  syscall_violations := v st_syscall_violations;
  module_violations := v st_module_violations;
  total_events := v st_total_events;
|}.

#[export] Instance stat_eq_dec : EqDecision stat.
Proof. solve_decision. Defined.

(** [atomic64_inc] wraps around at 64 bits. *)
Definition AEGIS_STAT_INC (k : stat) (c : aegis_config) : aegis_config :=
  set_stats c (λ k', if decide (k' = k) then s64 (stat_get k c + 1) else stat_get k' c).

(** The fields the operator sets, without the counters. *)
Definition cfg_flags (c : aegis_config) : aegis_config := set_stats c (λ _, 0).

(** ** Lemmas *)

Lemma stat_inc_flags k c : cfg_flags (AEGIS_STAT_INC k c) = cfg_flags c.
Proof. done. Qed.

Lemma stat_get_inc k k' c :
  stat_get k' (AEGIS_STAT_INC k c) =
    if decide (k' = k) then s64 (stat_get k c + 1) else stat_get k' c.
Proof. by destruct k'. Qed.

Lemma feature_check_flags c c' f :
  cfg_flags c = cfg_flags c' → AEGIS_FEATURE_CHECK c f = AEGIS_FEATURE_CHECK c' f.
Proof. destruct c, c'. unfold cfg_flags, set_stats. cbn. intros [=]. by subst. Qed.

(** A feature constant [1 << i] tests bit [i] of the mask. *)
Lemma feature_check_bit c i :
  0 <= i → AEGIS_FEATURE_CHECK c (Z.shiftl 1 i) = enabled c && Z.testbit (features c) i.
Proof.
  intros Hi. unfold AEGIS_FEATURE_CHECK. f_equal.
  rewrite Z.shiftl_1_l. destruct (Z.testbit (features c) i) eqn:E.
  - apply negb_true_iff, Z.eqb_neq. intros H.
    assert (Z.testbit (Z.land (features c) (2 ^ i)) i = true) as H'.
    { by rewrite Z.land_spec, E, Z.pow2_bits_true. }
    rewrite H, Z.bits_0 in H'. discriminate.
  - apply negb_false_iff, Z.eqb_eq. apply Z.bits_inj'. intros n Hn.
    rewrite Z.land_spec, Z.bits_0, Z.pow2_bits_eqb by done.
    destruct (Z.eqb_spec i n) as [->|]; [by rewrite E|by rewrite andb_false_r].
Qed.
