(* ===== verification/Kernel.v ===== *)
(** * The kernel as the module sees it

    AEGIS is linked into a kernel whose sources are not part of this
    repository.  [Kernel] is the interface the module calls: one field per
    kernel function or header constant the sources name.  Functions that may
    observe or change the rest of the kernel take and return a [kworld].
    Nothing is assumed of a [Kernel] beyond its type; the documented facts that
    particular theorems rely on are the law classes at the end of the file. *)

From S2P Require Import Prelude CString.

(** The fields of [struct task_struct] the hooks read. *)
Record task_struct := mkTask {
  task_comm : bytes;
  task_pid : Z;
  task_leader_comm : bytes;         (* task->group_leader->comm *)
}.

(** The enumerators the sources name, and [LOADING_FIRMWARE], which linux/security.h
    has beside them; [READING_OTHER] and [LOADING_OTHER] stand for the rest of the
    enumerations. *)
Inductive kernel_read_file_id :=
  | READING_MODULE | READING_KEXEC_IMAGE | READING_KEXEC_INITRAMFS
  | READING_FIRMWARE | READING_OTHER (n : Z).

Inductive kernel_load_data_id :=
  | LOADING_FIRMWARE | LOADING_MODULE | LOADING_KEXEC_IMAGE | LOADING_OTHER (n : Z).

#[export] Instance read_id_eq_dec : EqDecision kernel_read_file_id.
Proof. solve_decision. Defined.
#[export] Instance load_id_eq_dec : EqDecision kernel_load_data_id.
Proof. solve_decision. Defined.

(** The user side of a sysctl access: buffer, length and file position. *)
Record ctl_io := mkIo { io_buffer : bytes; io_len : Z; io_pos : Z }.

(** What [sscanf(buf, "%15s %d", comm, &pid)] leaves behind: the number of
    conversions, the word, and the integer when it was converted. *)
Record scan_result := mkScan { sc_count : Z; sc_comm : bytes; sc_pid : option Z }.

Class Kernel := {
  kworld : Type;
  kfile : Type;                     (* struct file * *)
  kpath : Type;                     (* struct path *)
  kshash : Type;                    (* struct shash_desc contents *)
  (* memory *)
  kmalloc_ok : kworld → bool * kworld;
  page_ok : kworld → bool * kworld;
  uninit : nat → bytes;             (* contents of fresh memory *)
  (* tasks and credentials *)
  current : kworld → task_struct;
  capable_mac_admin : kworld → bool;
  (* files *)
  f_mode : kfile → Z;
  d_path : kfile → kworld → (Z + bytes) * kworld;
  kern_path : bytes → kworld → (Z + kpath) * kworld;
  dentry_open : kpath → kworld → (Z + kfile) * kworld;
  kernel_read : kfile → Z → kworld → (Z + bytes) * Z * kworld;
  (* crypto_shash_* for "sha256" *)
  shash_alloc : kworld → (Z + unit) * kworld;
  shash_init : kworld → (Z * kshash) * kworld;
  shash_update : kshash → bytes → kworld → (Z * kshash) * kworld;
  shash_final : kshash → kworld → (Z * bytes) * kworld;
  (* text *)
  sscanf_s15_d : bytes → scan_result;
  kstrtoint10 : bytes → Z + Z;
  (* sysctl and securityfs *)
  proc_dointvec : Z → bool → ctl_io → kworld → (Z * Z) * kworld;
  register_sysctl_ok : kworld → bool * kworld;
  securityfs_create : bytes → kworld → option Z * kworld;   (* Some err: failed *)
  (* header constants *)
  MAY_READ : Z; MAY_WRITE : Z; MAY_APPEND : Z;
  FMODE_READ : Z; FMODE_WRITE : Z;
  PTRACE_MODE_NOAUDIT : Z;
  NR_kexec_load : Z; NR_kexec_file_load : Z;
  NR_init_module : Z; NR_finit_module : Z; NR_delete_module : Z;
  read_id_val : kernel_read_file_id → Z;
  load_id_val : kernel_load_data_id → Z;
}.

(** ** Documented facts about the kernel *)

(** Fresh memory has the size asked for. *)
Class UninitLaws `{Kernel} : Prop := {
  uninit_length n : length (uninit n) = n;
}.

(** The access-mask bits: writing is a bit of its own, reading is another. *)
Class MaskLaws `{Kernel} : Prop := {
  may_write_set : Z.land MAY_WRITE (Z.lor MAY_WRITE MAY_APPEND) ≠ 0;
  may_rw_set : Z.land (Z.lor MAY_WRITE MAY_READ) (Z.lor MAY_WRITE MAY_APPEND) ≠ 0;
  may_read_apart : Z.land MAY_READ (Z.lor MAY_WRITE MAY_APPEND) = 0;
  may_write_nz : MAY_WRITE ≠ 0;
  may_read_nz : MAY_READ ≠ 0;
}.

(** System call numbers are distinct non-negative ints. *)
Class NrLaws `{Kernel} : Prop := {
  nr_nodup : NoDup [NR_kexec_load; NR_kexec_file_load; NR_init_module;
                    NR_finit_module; NR_delete_module];
  nr_range : Forall (λ n, 0 <= n <= INT_MAX)
               [NR_kexec_load; NR_kexec_file_load; NR_init_module;
                NR_finit_module; NR_delete_module];
}.

(** [proc_dointvec] on one int: a read leaves the variable alone, and so does
    a write that fails; a value it stores is an int. *)
Class SysctlLaws `{Kernel} : Prop := {
  dointvec_read v io w : (proc_dointvec v false io w).1.2 = v;
  dointvec_error v io w :
    (proc_dointvec v true io w).1.1 ≠ 0 → (proc_dointvec v true io w).1.2 = v;
  dointvec_int v b io w :
    INT_MIN <= v <= INT_MAX → INT_MIN <= (proc_dointvec v b io w).1.2 <= INT_MAX;
}.

(** [kstrtoint] in base 10 accepts the decimal text of an int and rejects the
    empty string and text that starts with neither a digit nor a sign. *)
Class KstrtoLaws `{Kernel} : Prop := {
  kstrtoint_decimal n : 0 <= n <= INT_MAX → kstrtoint10 (fmt_d n) = inr n;
  kstrtoint_int s n : kstrtoint10 s = inr n → INT_MIN <= n <= INT_MAX;
  kstrtoint_junk c s :
    isdigit c = false → c ≠ "+"%char → c ≠ "-"%char →
    ∃ e, kstrtoint10 (c :: s) = inl e;
}.

(** Failed securityfs calls return a negative errno as an error pointer. *)
Class SecfsLaws `{Kernel} : Prop := {
  securityfs_errno name w err w' : securityfs_create name w = (Some err, w') → err < 0;
}.

(** The reading of ["%15s %d"] on text that starts with a word character:
    a word of at most 15 characters, blanks, an optionally signed number.  It
    is the documented behaviour when the number, if any, fits an int. *)
Fixpoint word_prefix (s : bytes) : bytes :=
  match s with
  | c :: s' => if isspace c then [] else c :: word_prefix s'
  | [] => []
  end.

Definition scan_word (s : bytes) : bytes := take 15 (word_prefix s).

Definition scan_int (s : bytes) : option Z :=
  let '(neg, s) := match s with
                   | c :: s' => if decide (c = "-"%char) then (true, s') else (false, s)
                   | [] => (false, s)
                   end in
  let '(v, cnt, _) := scan_digits 0 0 s in
  if (cnt =? 0)%nat then None else Some (if neg : bool then - v else v).

Definition scan_comm_pid (s : bytes) : scan_result :=
  let w := scan_word s in
  match scan_int (skip_spaces (drop (length w) s)) with
  | Some n => {| sc_count := 2; sc_comm := w; sc_pid := Some n |}
  | None => {| sc_count := 1; sc_comm := w; sc_pid := None |}
  end.

Definition scan_in_range (s : bytes) : Prop :=
  match s with
  | c :: _ => isspace c = false
  | [] => False
  end ∧
  match sc_pid (scan_comm_pid s) with
  | Some n => INT_MIN <= n <= INT_MAX
  | None => True
  end.

Class ScanLaws `{Kernel} : Prop := {
  sscanf_comm_pid s : no_nul s → scan_in_range s → sscanf_s15_d s = scan_comm_pid s;
  sscanf_word s : 1 <= sc_count (sscanf_s15_d s) →
    no_nul (sc_comm (sscanf_s15_d s)) ∧ (length (sc_comm (sscanf_s15_d s)) <= 15)%nat ∧
    word (sc_comm (sscanf_s15_d s));
}.

(** Results have the width of the C object they are stored in: ["%d"] stores an
    int, and the SHA-256 driver stores 32 bytes. *)
Class WidthLaws `{Kernel} : Prop := {
  sscanf_int s n : sc_pid (sscanf_s15_d s) = Some n → INT_MIN <= n <= INT_MAX;
  shash_final_length h w : length (shash_final h w).1.2 = 32%nat;
}.

(** Streaming hash: updates accumulate, [final] is a function of all the bytes
    fed since [init]. *)
Class ShashLaws `{Kernel} := {
  sha256 : bytes → bytes;
  shash_fed : kshash → bytes → Prop;         (* bytes fed so far *)
  sha256_length b : length (sha256 b) = 32%nat;
  shash_init_fed w : (shash_init w).1.1 = 0 → shash_fed (shash_init w).1.2 [];
  shash_update_fed h b c w : shash_fed h b → (shash_update h c w).1.1 = 0 →
    shash_fed (shash_update h c w).1.2 (b ++ c);
  shash_final_fed h b w : shash_fed h b → (shash_final h w).1.1 = 0 →
    (shash_final h w).1.2 = sha256 b;
}.
