(* ===== verification/State.v ===== *)
(** * The module's state and its effects

    [sys] is everything the C files keep in static storage, the resources they
    hold, the kernel log they write and the rest of the kernel ([world]).
    Code runs in the monad [M]: state passing, with [None] for a loop whose
    fuel ran out.  [wp] is total correctness of a computation (it returns, and
    its result satisfies the postcondition), [wlp] partial correctness. *)

From S2P Require Import Prelude CString AegisH Kernel.

(** ** Static state *)

(** aegis_process.c, aegis_file.c, aegis_audit.c: lists and counts. *)
Record registries := mkReg {
  protected_procs : list aegis_protected_proc;
  protected_proc_count : Z;
  protected_files : list aegis_protected_file;
  protected_file_count : Z;
  blocked_syscalls : list aegis_blocked_syscall;
  blocked_syscall_count : Z;
}.

(** aegis_sysctl.c: the variables the sysctl table exposes. *)
Record sysctl_vars := mkVars {
  aegis_enabled : Z;
  aegis_features_val : Z;
  aegis_ptrace_restrict_all : Z;
  aegis_file_integrity_enforce : Z;
  aegis_file_integrity_log : Z;
  aegis_module_loading_denied : Z;
  aegis_syscall_audit_enable : Z;
  aegis_sysctl_header : bool;       (* the pointer is not NULL *)
  sysctl_tables : Z;                (* tables registered and not unregistered *)
}.

(** The hook functions of aegis_lsm.c, by address. *)
Inductive hook_fn :=
  | F_aegis_task_alloc | F_aegis_task_free | F_aegis_ptrace_access_check
  | F_aegis_ptrace_traceme | F_aegis_file_permission | F_aegis_file_open
  | F_aegis_kernel_read_file | F_aegis_kernel_load_data | F_aegis_bprm_check_security
  | F_aegis_socket_create | F_aegis_inode_permission.

(** struct lsm_id. *)
Record lsm_id := mkLsmId { lsmid_name : bytes; lsmid_id : Z }.

(** A [struct dentry *] variable. *)
Inductive dptr := D_NULL | D_ERR (e : Z) | D_PTR (d : nat).

(** A [const struct file_operations *]: the address of one of the tables of
    aegis_securityfs.c and aegis_control.c. *)
Inductive fops_ptr :=
  | P_status_fops | P_stats_fops | P_protected_procs_fops | P_protected_files_fops
  | P_blocked_syscalls_fops
  | P_files_add_fops | P_files_del_fops | P_procs_add_fops | P_procs_del_fops
  | P_syscalls_add_fops | P_syscalls_del_fops.

(** A directory has no mode argument and no table. *)
Record dentry := mkDentry {
  d_id : nat;
  d_name : bytes;
  d_mode : option Z;
  d_parent : option nat;
  d_fops : option fops_ptr;
}.

(** aegis_securityfs.c and aegis_control.c: dentry variables, and what exists
    in securityfs: entries alive, entries removed so far (oldest first). *)
Record secfs := mkSecfs {
  aegis_dir : dptr;
  aegis_status_d : dptr;
  aegis_stats_d : dptr;
  aegis_protected_procs_d : dptr;
  aegis_protected_files_d : dptr;
  aegis_blocked_syscalls_d : dptr;
  aectl_dentries : list dptr;
  sf_next : nat;
  sf_live : list dentry;
  sf_removed : list nat;
}.

(** References held: pages, kmalloc'd blocks, hash transforms, paths, files. *)
Record resources := mkRes {
  r_pages : Z; r_kmem : Z; r_tfms : Z; r_paths : Z; r_files : Z;
}.

Inductive loglevel := KERN_WARNING | KERN_INFO | KERN_ERR.

Record sys `{Kernel} := mkSys {
  cfg : aegis_config;
  reg : registries;
  vars : sysctl_vars;
  sfs : secfs;
  res : resources;
  klog : list (loglevel * bytes);
  world : kworld;
  hooks : list (string * hook_fn * lsm_id);   (* registered with the framework, and for whom *)
}.

(** ** Monad *)

Section monad.
Context `{K : Kernel}.

Definition M (A : Type) : Type := sys → option (A * sys).

#[global] Instance M_ret : MRet M := λ A a s, Some (a, s).
#[global] Instance M_bind : MBind M := λ A B f m s,
  match m s with
  | Some (a, s') => f a s'
  | None => None
  end.

Definition out_of_fuel {A} : M A := λ _, None.

Definition gets {A} (f : sys → A) : M A := λ s, Some (f s, s).
Definition modify (f : sys → sys) : M unit := λ s, Some (tt, f s).

Definition set_cfg (c : aegis_config) (s : sys) : sys :=
  mkSys _ c (reg s) (vars s) (sfs s) (res s) (klog s) (world s) (hooks s).
Definition set_reg (r : registries) (s : sys) : sys :=
  mkSys _ (cfg s) r (vars s) (sfs s) (res s) (klog s) (world s) (hooks s).
Definition set_vars (v : sysctl_vars) (s : sys) : sys :=
  mkSys _ (cfg s) (reg s) v (sfs s) (res s) (klog s) (world s) (hooks s).
Definition set_sfs (f : secfs) (s : sys) : sys :=
  mkSys _ (cfg s) (reg s) (vars s) f (res s) (klog s) (world s) (hooks s).
Definition set_res (r : resources) (s : sys) : sys :=
  mkSys _ (cfg s) (reg s) (vars s) (sfs s) r (klog s) (world s) (hooks s).
Definition add_log (l : loglevel) (m : bytes) (s : sys) : sys :=
  mkSys _ (cfg s) (reg s) (vars s) (sfs s) (res s) (klog s ++ [(l, m)]) (world s) (hooks s).
Definition set_world (w : kworld) (s : sys) : sys :=
  mkSys _ (cfg s) (reg s) (vars s) (sfs s) (res s) (klog s) w (hooks s).
Definition set_hooks (h : list (string * hook_fn * lsm_id)) (s : sys) : sys :=
  mkSys _ (cfg s) (reg s) (vars s) (sfs s) (res s) (klog s) (world s) h.

(** A call into the rest of the kernel. *)
Definition kcall {A} (f : kworld → A * kworld) : M A := λ s,
  let '(a, w) := f (world s) in Some (a, set_world w s).

(** ** Macros and resource primitives *)

Definition stat_inc (k : stat) : M unit :=
  modify (λ s, set_cfg (AEGIS_STAT_INC k (cfg s)) s).

Definition feature_check (f : Z) : M bool := gets (λ s, AEGIS_FEATURE_CHECK (cfg s) f).

Definition current_task : M task_struct := gets (λ s, current (world s)).

(** [AEGIS_LOG]: the line ["aegis: " fmt "\n"] at a level. *)
Definition AEGIS_LOG (l : loglevel) (msg : bytes) : M unit :=
  modify (add_log l (str "aegis: " ++ msg ++ [LF])).
Definition AEGIS_WARN := AEGIS_LOG KERN_WARNING.
Definition AEGIS_INFO := AEGIS_LOG KERN_INFO.
Definition AEGIS_ERR := AEGIS_LOG KERN_ERR.
Definition AEGIS_AUDIT := AEGIS_LOG KERN_WARNING.

Definition add_pages (d : Z) (r : resources) : resources :=
  mkRes (r_pages r + d) (r_kmem r) (r_tfms r) (r_paths r) (r_files r).
Definition add_kmem (d : Z) (r : resources) : resources :=
  mkRes (r_pages r) (r_kmem r + d) (r_tfms r) (r_paths r) (r_files r).
Definition add_tfms (d : Z) (r : resources) : resources :=
  mkRes (r_pages r) (r_kmem r) (r_tfms r + d) (r_paths r) (r_files r).
Definition add_paths (d : Z) (r : resources) : resources :=
  mkRes (r_pages r) (r_kmem r) (r_tfms r) (r_paths r + d) (r_files r).
Definition add_files (d : Z) (r : resources) : resources :=
  mkRes (r_pages r) (r_kmem r) (r_tfms r) (r_paths r) (r_files r + d).

Definition upd_res (f : resources → resources) : M unit :=
  modify (λ s, set_res (f (res s)) s).

(** Allocations that may fail, and their releases. *)
Definition get_free_page : M bool :=
  ok ← kcall page_ok; (if ok : bool then upd_res (add_pages 1) else mret tt);; mret ok.
Definition free_page : M unit := upd_res (add_pages (-1)).
Definition kmalloc : M bool :=
  ok ← kcall kmalloc_ok; (if ok : bool then upd_res (add_kmem 1) else mret tt);; mret ok.
Definition kfree : M unit := upd_res (add_kmem (-1)).

(** Everything but the lists, the resources, the log and the world is kept. *)
Definition keeps (s s' : sys) : Prop :=
  cfg s' = cfg s ∧ vars s' = vars s ∧ sfs s' = sfs s ∧ hooks s' = hooks s.

(** ** Weakest preconditions *)

(** The computation either exhausts its fuel, which [d] must allow, or returns
    with a result and a state that satisfy [Q]. *)
Definition wpx (d : Prop) {A} (m : M A) (Q : A → sys → Prop) (s : sys) : Prop :=
  match m s with
  | Some (a, s') => Q a s'
  | None => d
  end.

Lemma wp_ret d {A} (a : A) Q s : Q a s → wpx d (mret a) Q s.
Proof. done. Qed.

Lemma wp_bind d {A B} (m : M A) (f : A → M B) Q s :
  wpx d m (λ a, wpx d (f a) Q) s → wpx d (m ≫= f) Q s.
Proof. unfold wpx, mbind, M_bind. by destruct (m s) as [[a s']|]. Qed.

Lemma wp_mono d {A} (m : M A) (Q Q' : A → sys → Prop) s :
  wpx d m Q s → (∀ a s', Q a s' → Q' a s') → wpx d m Q' s.
Proof. unfold wpx. destruct (m s) as [[a s']|]; auto. Qed.

Lemma wp_and d {A} (m : M A) (Q Q' : A → sys → Prop) s :
  wpx d m Q s → wpx d m Q' s → wpx d m (λ a s', Q a s' ∧ Q' a s') s.
Proof. unfold wpx. destruct (m s) as [[a s']|]; auto. Qed.

Lemma wp_gets d {A} (f : sys → A) Q s : Q (f s) s → wpx d (gets f) Q s.
Proof. done. Qed.

Lemma wp_modify d f Q s : Q tt (f s) → wpx d (modify f) Q s.
Proof. done. Qed.

Lemma wp_kcall d {A} (f : kworld → A * kworld) Q s :
  (∀ a w, f (world s) = (a, w) → Q a (set_world w s)) → wpx d (kcall f) Q s.
Proof. intros H. unfold wpx, kcall. destruct (f (world s)) as [a w]. auto. Qed.

Lemma wp_of_run d {A} (m : M A) a s s' (Q : A → sys → Prop) :
  m s = Some (a, s') → Q a s' → wpx d m Q s.
Proof. unfold wpx. by intros ->. Qed.

Lemma wp_kmalloc d Q s :
  (∀ w, kmalloc_ok (world s) = (false, w) → Q false (set_world w s)) →
  (∀ w, kmalloc_ok (world s) = (true, w) →
        Q true (set_res (add_kmem 1 (res (set_world w s))) (set_world w s))) →
  wpx d kmalloc Q s.
Proof.
  intros H0 H1. unfold kmalloc. apply wp_bind, wp_kcall. intros [] w E; [exact (H1 w E)|exact (H0 w E)].
Qed.

Lemma wp_get_free_page d Q s :
  (∀ w, page_ok (world s) = (false, w) → Q false (set_world w s)) →
  (∀ w, page_ok (world s) = (true, w) →
        Q true (set_res (add_pages 1 (res (set_world w s))) (set_world w s))) →
  wpx d get_free_page Q s.
Proof.
  intros H0 H1. unfold get_free_page. apply wp_bind, wp_kcall. intros [] w E; [exact (H1 w E)|exact (H0 w E)].
Qed.

Lemma wp_upd_res d f Q s : Q tt (set_res (f (res s)) s) → wpx d (upd_res f) Q s.
Proof. done. Qed.

(** From [s] to [s'] only the rest of the kernel changed, and the resources
    held became [r]. *)
Definition holds (r : resources) (s s' : sys) : Prop :=
  s' = set_res r (set_world (world s') s).

Lemma holds_refl s : holds (res s) s s.
Proof. by destruct s. Qed.
Lemma holds_world r s s' w : holds r s s' → holds r s (set_world w s').
Proof. unfold holds. by intros ->. Qed.
Lemma holds_res r s s' f : holds r s s' → holds (f r) s (set_res (f (res s')) s').
Proof. unfold holds. by intros ->. Qed.
Lemma holds_kmem d r s s' :
  holds r s s' → holds (add_kmem d r) s (set_res (add_kmem d (res s')) s').
Proof. apply (holds_res r s s' (add_kmem d)). Qed.
Lemma holds_tfms d r s s' :
  holds r s s' → holds (add_tfms d r) s (set_res (add_tfms d (res s')) s').
Proof. apply (holds_res r s s' (add_tfms d)). Qed.
Lemma holds_pages d r s s' :
  holds r s s' → holds (add_pages d r) s (set_res (add_pages d (res s')) s').
Proof. apply (holds_res r s s' (add_pages d)). Qed.
Lemma holds_paths d r s s' :
  holds r s s' → holds (add_paths d r) s (set_res (add_paths d (res s')) s').
Proof. apply (holds_res r s s' (add_paths d)). Qed.
Lemma holds_files d r s s' :
  holds r s s' → holds (add_files d r) s (set_res (add_files d (res s')) s').
Proof. apply (holds_res r s s' (add_files d)). Qed.
Lemma holds_trans r s1 s2 s3 : holds r s1 s2 → holds r s2 s3 → holds r s1 s3.
Proof. unfold holds. intros -> ->. done. Qed.
Lemma holds_res_eq r s s' : holds r s s' → res s' = r.
Proof. unfold holds. by intros ->. Qed.

(** Cleanup code at the end of a block: what the block holds is released and
    its result returned. *)
Lemma wp_release d {A} (k : M A) g r' r s0 (Q : A → Prop) s1 :
  g r' = r → wpx d k (λ a s', holds r' s0 s' ∧ Q a) s1 →
  wpx d (x ← k; upd_res g;; mret x) (λ a s', holds r s0 s' ∧ Q a) s1.
Proof.
  intros <- Hk. apply wp_bind. eapply wp_mono; [exact Hk|]. intros a s' [Hh Hq].
  apply wp_bind, wp_upd_res, wp_ret. split; [by apply holds_res|done].
Qed.

Lemma add_kmem_inv r : add_kmem (-1) (add_kmem 1 r) = r.
Proof. destruct r. unfold add_kmem. cbn. f_equal; lia. Qed.
Lemma add_tfms_inv r : add_tfms (-1) (add_tfms 1 r) = r.
Proof. destruct r. unfold add_tfms. cbn. f_equal; lia. Qed.
Lemma add_pages_inv r : add_pages (-1) (add_pages 1 r) = r.
Proof. destruct r. unfold add_pages. cbn. f_equal; lia. Qed.
Lemma add_paths_inv r : add_paths (-1) (add_paths 1 r) = r.
Proof. destruct r. unfold add_paths. cbn. f_equal; lia. Qed.
Lemma add_files_inv r : add_files (-1) (add_files 1 r) = r.
Proof. destruct r. unfold add_files. cbn. f_equal; lia. Qed.

(** A total specification is also a partial one. *)
Lemma wp_weaken d {A} (m : M A) Q s : wpx False m Q s → wpx d m Q s.
Proof. unfold wpx. by destruct (m s) as [[a s']|]. Qed.

Lemma wp_total {A} (m : M A) Q s :
  wpx False m Q s ↔ ∃ a s', m s = Some (a, s') ∧ Q a s'.
Proof.
  unfold wpx. destruct (m s) as [[a s']|].
  - split; [eauto|]. intros (?&?&[=]&?). by subst.
  - split; [done|]. by intros (?&?&?&?).
Qed.

(** The result of a computation known to return. *)
Lemma wp_eq d {A} (m : M A) Q s a s' : m s = Some (a, s') → wpx d m Q s → Q a s'.
Proof. unfold wpx. by intros ->. Qed.

End monad.

(** Total and partial correctness. *)
Notation wp := (wpx False).
Notation wlp := (wpx True).

#[export] Hint Resolve wp_ret wp_gets wp_modify : aegis.
#[export] Hint Resolve holds_refl holds_world holds_kmem holds_tfms holds_pages holds_paths
  holds_files : aegis.

(** One step of symbolic execution. *)
Ltac wp_step :=
  match goal with
  | |- wpx _ (mbind _ _) _ _ => apply wp_bind
  | |- wpx _ (mret _) _ _ => apply wp_ret
  | |- wpx _ (gets _) _ _ => apply wp_gets
  | |- wpx _ (modify _) _ _ => apply wp_modify
  | |- wpx _ (kcall _) _ _ => apply wp_kcall; intros ? ? ?
  | |- wpx _ (stat_inc _) _ _ => apply wp_modify
  | |- wpx _ (feature_check _) _ _ => apply wp_gets
  | |- wpx _ current_task _ _ => apply wp_gets
  | |- wpx _ (AEGIS_LOG _ _) _ _ => apply wp_modify
  | |- wpx _ (AEGIS_AUDIT _) _ _ => apply wp_modify
  | |- wpx _ (AEGIS_INFO _) _ _ => apply wp_modify
  | |- wpx _ (AEGIS_ERR _) _ _ => apply wp_modify
  | |- wpx _ (upd_res _) _ _ => apply wp_upd_res
  | |- wpx _ free_page _ _ => apply wp_upd_res
  | |- wpx _ kfree _ _ => apply wp_upd_res
  | |- wpx _ get_free_page _ _ => apply wp_get_free_page; intros ? ?
  | |- wpx _ kmalloc _ _ => apply wp_kmalloc; intros ? ?
  | |- wpx _ (if ?b then _ else _) _ _ => destruct b eqn:?
  | |- wpx _ (match ?x with _ => _ end) _ _ => destruct x eqn:?
  end.

Ltac wp_go := repeat (wp_step; cbn beta iota).
