(* ===== verification/RefKernel.v ===== *)
(** * A concrete kernel

    An instance of the [Kernel] interface small enough to run: files are paths
    with contents, memory is never short, and the header constants have their
    x86-64 values.  It satisfies every law class, so none of the laws the
    theorems assume is contradictory, and the model can be evaluated on it. *)

From S2P Require Import Prelude CString AegisH Kernel State.

(** ** Data *)

Record rfile := mkRfile {
  rf_path : bytes;
  rf_mode : Z;
  rf_content : bytes;
  rf_endless : bool;                (* reads never reach the end *)
}.

Record rworld := mkRworld {
  rw_page : bool;
  rw_current : task_struct;
  rw_admin : bool;
  rw_sysctl : bool;
  rw_secfs : list (option Z);       (* outcomes of the next securityfs calls; then success *)
}.

Definition rw_set_secfs (l : list (option Z)) (w : rworld) : rworld :=
  mkRworld (rw_page w) (rw_current w) (rw_admin w) (rw_sysctl w) l.

(** The files that exist. *)
Definition passwd : rfile := mkRfile (str "/etc/passwd") 3 (str "root:x:0:0") false.
Definition devzero : rfile := mkRfile (str "/dev/zero") 1 [] true.
Definition ref_fs : list rfile := [passwd; devzero].

(** ** Text *)

Definition ref_sscanf (s : bytes) : scan_result :=
  match skip_spaces (cstr s) with
  | [] => {| sc_count := -1; sc_comm := []; sc_pid := None |}
  | s' => let r := scan_comm_pid s' in
          {| sc_count := sc_count r; sc_comm := sc_comm r; sc_pid := i32 <$> sc_pid r |}
  end.

(** An optional sign, digits, an optional newline, in the range of an int. *)
Definition ref_kstrtoint (s : bytes) : Z + Z :=
  let '(neg, s) := match s with
                   | c :: s' => if decide (c = "-"%char) then (true, s')
                                else if decide (c = "+"%char) then (false, s') else (false, s)
                   | [] => (false, s)
                   end in
  let '(v, cnt, rest) := scan_digits 0 0 s in
  let v := if neg : bool then - v else v in
  if (cnt =? 0)%nat || negb (bool_decide (rest = [] ∨ rest = [LF])) then inl (- EINVAL)
  else if (INT_MIN <=? v) && (v <=? INT_MAX) then inr v else inl (-34).

(** A stand-in for SHA-256: the first 32 bytes, padded. *)
Definition ref_digest (b : bytes) : bytes := take 32 (b ++ replicate 32 NUL).

(** ** The instance *)

#[global] Instance ref_kernel : Kernel := {|
  kworld := rworld;
  kfile := rfile;
  kpath := rfile;
  kshash := bytes;
  kmalloc_ok w := (true, w);
  page_ok w := (rw_page w, w);
  uninit n := replicate n "Z"%char;
  current := rw_current;
  capable_mac_admin := rw_admin;
  f_mode := rf_mode;
  d_path f w := (inr (rf_path f), w);
  kern_path p w := (match List.find (λ f, bool_decide (rf_path f = p)) ref_fs with
                    | Some f => inr f
                    | None => inl (- ENOENT)
                    end, w);
  dentry_open f w := (inr f, w);
  kernel_read f pos w :=
    let chunk := if rf_endless f then [NUL] else take 4096 (drop (Z.to_nat pos) (rf_content f)) in
    (inr chunk, pos + Z.of_nat (length chunk), w);
  shash_alloc w := (inr tt, w);
  shash_init w := ((0, []), w);
  shash_update h b w := ((0, h ++ b), w);
  shash_final h w := ((0, ref_digest h), w);
  sscanf_s15_d := ref_sscanf;
  kstrtoint10 := ref_kstrtoint;
  proc_dointvec v write io w :=
    (if write : bool then match ref_kstrtoint (io_buffer io) with
                          | inr x => (0, x)
                          | inl e => (e, v)
                          end
     else (0, v), w);
  register_sysctl_ok w := (rw_sysctl w, w);
  securityfs_create _ w := match rw_secfs w with
                           | [] => (None, w)
                           | e :: l => ((λ err, - Z.abs err - 1) <$> e, rw_set_secfs l w)
                           end;
  MAY_READ := 4; MAY_WRITE := 2; MAY_APPEND := 8;
  FMODE_READ := 1; FMODE_WRITE := 2;
  PTRACE_MODE_NOAUDIT := 4;
  NR_kexec_load := 246; NR_kexec_file_load := 320;
  NR_init_module := 175; NR_finit_module := 313; NR_delete_module := 176;
  read_id_val id := match id with
                    | READING_FIRMWARE => 1 | READING_MODULE => 2
                    | READING_KEXEC_IMAGE => 3 | READING_KEXEC_INITRAMFS => 4
                    | READING_OTHER n => n
                    end;
  load_id_val id := match id with
                    | LOADING_FIRMWARE => 1 | LOADING_MODULE => 2 | LOADING_KEXEC_IMAGE => 3 | LOADING_OTHER n => n
                    end;
|}.

(** ** Its laws *)

#[global] Instance ref_uninit_laws : UninitLaws.
Proof. split. intros n. apply length_replicate. Qed.

#[global] Instance ref_mask_laws : MaskLaws.
Proof. by split. Qed.

#[global] Instance ref_nr_laws : NrLaws.
Proof.
  split; [|by repeat constructor].
  eapply bool_decide_eq_true_1. by vm_compute.
Qed.

Lemma ref_kstrtoint_int s n : ref_kstrtoint s = inr n → INT_MIN <= n <= INT_MAX.
Proof.
  unfold ref_kstrtoint. destruct (match s with [] => _ | _ => _ end) as [neg s'].
  destruct (scan_digits 0 0 s') as [[v cnt] rest]. destruct (_ || _); [discriminate|].
  destruct (_ && _) eqn:E; [|discriminate]. intros [= <-].
  apply andb_true_iff in E as [?%Z.leb_le ?%Z.leb_le]. by split.
Qed.

#[global] Instance ref_sysctl_laws : SysctlLaws.
Proof.
  split.
  - done.
  - intros v io w. cbn. by destruct (ref_kstrtoint (io_buffer io)).
  - intros v [] io w Hv; cbn; [|done]. destruct (ref_kstrtoint _) eqn:E; [done|].
    by eapply ref_kstrtoint_int.
Qed.

Lemma isdigit_not_sign c : isdigit c = true → c ≠ "-"%char ∧ c ≠ "+"%char.
Proof. intros H. split; intros ->; discriminate. Qed.

#[global] Instance ref_kstrto_laws : KstrtoLaws.
Proof.
  split.
  - intros n Hn. unfold kstrtoint10, ref_kernel, ref_kstrtoint.
    pose proof (fmt_d_digits n (proj1 Hn)) as Hd. pose proof (fmt_d_length n) as Hl.
    pose proof (scan_fmt_d n (proj1 Hn)) as Hs.
    destruct (fmt_d n) as [|c s] eqn:E; [cbn in Hl; lia|].
    apply Forall_cons in Hd as [[H1 H2]%isdigit_not_sign _].
    rewrite !decide_False, Hs by done. cbn [length Nat.eqb orb].
    rewrite bool_decide_true by by left. cbn [negb].
    unfold INT_MIN, INT_MAX in *. by replace (_ && _) with true by lia.
  - apply ref_kstrtoint_int.
  - intros c s Hd H1 H2. unfold kstrtoint10, ref_kernel, ref_kstrtoint.
    rewrite !decide_False by done. cbn. rewrite Hd. cbn. by eexists.
Qed.

#[global] Instance ref_secfs_laws : SecfsLaws.
Proof.
  split. intros name w err w'. cbn. destruct (rw_secfs w) as [|[e|] l]; cbn; intros [=]. lia.
Qed.

Lemma skip_spaces_no_nul s : no_nul s → no_nul (skip_spaces s).
Proof. induction 1 as [|c s Hc H IH]; cbn; [constructor|]. destruct (isspace c); [done|by constructor]. Qed.

Lemma scan_word_word s : word (scan_word s).
Proof.
  apply Forall_take. induction s as [|c s IH]; cbn; [constructor|].
  destruct (isspace c) eqn:E; by constructor.
Qed.

Lemma scan_word_ok s :
  no_nul s → no_nul (scan_word s) ∧ (length (scan_word s) <= 15)%nat ∧ word (scan_word s).
Proof.
  intros Hs. split; [|split; [unfold scan_word; rewrite length_take; lia|apply scan_word_word]].
  apply no_nul_take. induction Hs as [|c s Hc H IH]; [constructor|]. cbn.
  destruct (isspace c); [constructor|by constructor].
Qed.

Lemma scan_comm_pid_word s : sc_comm (scan_comm_pid s) = scan_word s.
Proof. unfold scan_comm_pid. by destruct (scan_int _). Qed.

#[global] Instance ref_scan_laws : ScanLaws.
Proof.
  split.
  - intros s Hn [Hh Hr]. unfold sscanf_s15_d, ref_kernel, ref_sscanf. rewrite cstr_id by done.
    destruct s as [|c s]; [done|]. cbn [skip_spaces]. rewrite Hh.
    destruct (scan_comm_pid (c :: s)) as [n w [p|]]; [|done]. cbn in *. by rewrite i32_small.
  - intros s. unfold sscanf_s15_d, ref_kernel, ref_sscanf.
    pose proof (skip_spaces_no_nul _ (cstr_no_nul s)) as Hn.
    destruct (skip_spaces (cstr s)) as [|c t]; [cbn; lia|]. intros _.
    cbn [sc_comm]. rewrite scan_comm_pid_word. by apply scan_word_ok.
Qed.

#[global] Instance ref_width_laws : WidthLaws.
Proof.
  split.
  - intros s n. unfold sscanf_s15_d, ref_kernel, ref_sscanf.
    destruct (skip_spaces (cstr s)) as [|c t]; [done|]. cbn [sc_pid].
    destruct (sc_pid (scan_comm_pid (c :: t))); cbn; intros [= <-]. apply i32_range.
  - intros h w. cbn. unfold ref_digest. rewrite length_take, length_app, length_replicate. lia.
Qed.

#[global] Instance ref_shash_laws : ShashLaws.
Proof.
  refine {| sha256 := ref_digest; shash_fed h b := h = b |}.
  - intros b. unfold ref_digest. rewrite length_take, length_app, length_replicate. lia.
  - done.
  - by intros h b c w -> _.
  - by intros h b w -> _.
Defined.

(** ** Sample worlds *)

Definition task (comm : string) (pid : Z) : task_struct := mkTask (str comm) pid (str comm).

(** Root's shell, everything granted. *)
Definition world0 : rworld :=
  mkRworld true (task "bash" 100) true true [].
(** The same without CAP_MAC_ADMIN. *)
Definition world_user : rworld :=
  mkRworld true (task "bash" 100) false true [].
