(* ===== verification/PolicyList.v ===== *)
(** * The list interface and its abstract specification

    The process, file and system-call subsystems each keep a list of entries
    with a count, a capacity, and add and delete operations on a key.
    [PolicyList] and [PolicyOps] are that interface and [PolicyListLaws] what an implementation
    promises; the abstract specification is a bounded list without duplicates,
    and the section [refinement] shows, against the interface only, that the
    operations implement it. *)

From S2P Require Import Prelude CString AegisH Kernel State.

(** ** Abstract specification *)

Section spec.
Context {Key : Type} `{EqDecision Key}.

(** [alloc]: whether the allocator grants the memory. *)
Definition spec_add (cap : Z) (alloc : bool) (k : Key) (l : list Key) : Z * list Key :=
  if cap <=? Z.of_nat (length l) then (- ENOSPC, l)
  else if decide (k ∈ l) then (- EEXIST, l)
  else if alloc then (0, l ++ [k])
  else (- ENOMEM, l).

Definition spec_del (k : Key) (l : list Key) : Z * list Key :=
  if decide (k ∈ l) then (0, filter (λ k', k' ≠ k) l) else (- ENOENT, l).

(** A bounded list without duplicates. *)
Definition spec_wf (cap : Z) (l : list Key) : Prop :=
  NoDup l ∧ Z.of_nat (length l) <= cap.

Inductive spec_op := SpecAdd (alloc : bool) (k : Key) | SpecDel (k : Key).

Definition spec_step (cap : Z) (o : spec_op) (l : list Key) : Z * list Key :=
  match o with
  | SpecAdd a k => spec_add cap a k l
  | SpecDel k => spec_del k l
  end.

Lemma spec_step_wf cap o l : spec_wf cap l → spec_wf cap (spec_step cap o l).2.
Proof.
  intros [Hd Hl]. destruct o as [a k|k]; cbn; unfold spec_add, spec_del.
  - destruct (cap <=? Z.of_nat (length l)) eqn:E; [done|].
    case_decide; [done|]. destruct a; [|done]. split; cbn.
    + apply NoDup_app. repeat split; [done| |apply NoDup_singleton].
      intros x Hx ->%list_elem_of_singleton. done.
    + rewrite length_app. cbn. lia.
  - case_decide; [|done]. split; cbn.
    + by apply NoDup_filter.
    + pose proof (length_filter (λ k', k' ≠ k) l). lia.
Qed.

End spec.

(** ** Interface *)

Class PolicyList `{Kernel} (E Key : Type) := {
  pl_entries : sys → list E;
  pl_count : sys → Z;
  pl_cap : Z;
  pl_key : E → Key;
  pl_wf : E → Prop;                 (* the entry's arrays are terminated *)
  pl_valid : Key → Prop;            (* keys the arrays can hold *)
}.

(** The operations that change a list. *)
Class PolicyOps `{Kernel} (Key : Type) := {
  pl_add : Key → M Z;
  pl_del : Key → M Z;
}.

Section interface.
Context `{K : Kernel} {E Key : Type} `{EqDecision Key} `{!PolicyList E Key}.

(** The keys on the list, in order. *)
Definition pl_abs (s : sys) : list Key := pl_key <$> pl_entries s.

(** The list invariant: the count is exact, within capacity, without
    duplicate keys, and every entry is well formed. *)
Definition pl_inv (s : sys) : Prop :=
  pl_count s = Z.of_nat (length (pl_entries s)) ∧
  spec_wf pl_cap (pl_abs s) ∧
  Forall pl_wf (pl_entries s) ∧ Forall pl_valid (pl_abs s).

End interface.

(** What an implementation promises: from a state satisfying the invariant,
    an operation that returns behaves as the specification on the keys and
    restores the invariant. *)
Class PolicyListLaws `{Kernel} (E Key : Type) `{EqDecision Key} `{!PolicyList E Key}
    (Ops : PolicyOps Key) : Prop := {
  pl_cap_pos : 0 < pl_cap;
  pl_add_ok k s :
    pl_inv s → pl_valid k →
    wlp (pl_add k) (λ rc s', pl_inv s' ∧
      (rc, pl_abs s') = spec_add pl_cap (kmalloc_ok (world s)).1 k (pl_abs s)) s;
  pl_del_ok k s :
    pl_inv s → pl_valid k →
    wp (pl_del k) (λ rc s', pl_inv s' ∧ (rc, pl_abs s') = spec_del k (pl_abs s)) s;
}.

(** ** Lemmas shared by the implementations *)

Section lists.
Context {E Key : Type} `{EqDecision Key} (key : E → Key).

Lemma existsb_key (k : Key) (m : E → bool) (l : list E) :
  (∀ e, e ∈ l → m e = true ↔ key e = k) →
  existsb m l = true ↔ k ∈ key <$> l.
Proof.
  intros Hm. rewrite existsb_true_iff, list_elem_of_fmap. split.
  - intros (e & He & E1%Hm); [eauto|done].
  - intros (e & -> & He). exists e. split; [done|]. by apply Hm.
Qed.

(** Without duplicate keys, removing the first match removes the key. *)
Lemma remove_first_key (k : Key) (m : E → bool) (l l' : list E) :
  NoDup (key <$> l) →
  (∀ e, e ∈ l → m e = true ↔ key e = k) →
  remove_first m l = Some l' →
  key <$> l' = filter (λ k', k' ≠ k) (key <$> l) ∧ k ∉ key <$> l'.
Proof.
  intros Hnd Hm Hr. destruct (remove_first_Some _ _ _ Hr) as (l1 & e & l2 & -> & -> & He & _).
  assert (key e = k) as <- by (apply Hm; set_solver).
  rewrite !fmap_app in *. csimpl in *.
  assert (key e ∉ (key <$> l1) ++ (key <$> l2)) as Hnot.
  { apply NoDup_app in Hnd as (_ & H1 & [H2 _]%NoDup_cons). set_solver. }
  split; [|done].
  by rewrite filter_app, filter_ne_single, !filter_ne_notin by set_solver.
Qed.

End lists.

Section outcomes.
Context `{K : Kernel} {E Key : Type} `{EqDecision Key} `{!PolicyList E Key}.

(** The four outcomes of the add routines, for the comparison [m] of their
    duplicate scan and the entry [e] they build. *)
Definition add_outcome (m : E → bool) (e : E) (s : sys) (rc : Z) (s' : sys) : Prop :=
  let full := pl_cap <=? pl_count s in
  let dup := existsb m (pl_entries s) in
  let same := pl_entries s' = pl_entries s ∧ pl_count s' = pl_count s in
  let alloc := (kmalloc_ok (world s)).1 in
  (rc = - ENOSPC ∧ full = true ∧ same) ∨
  (rc = - EEXIST ∧ full = false ∧ dup = true ∧ same) ∨
  (rc = - ENOMEM ∧ full = false ∧ dup = false ∧ alloc = false ∧ same) ∨
  (rc = 0 ∧ full = false ∧ dup = false ∧ alloc = true ∧
   pl_entries s' = pl_entries s ++ [e] ∧ pl_count s' = i32 (pl_count s + 1)).

(** The outcomes of the delete routines. *)
Definition del_outcome (m : E → bool) (s : sys) (rc : Z) (s' : sys) : Prop :=
  match remove_first m (pl_entries s) with
  | None => rc = - ENOENT ∧ pl_entries s' = pl_entries s ∧ pl_count s' = pl_count s
  | Some l => rc = 0 ∧ pl_entries s' = l ∧ pl_count s' = i32 (pl_count s - 1)
  end.

Lemma pl_inv_keep s s' :
  pl_entries s' = pl_entries s → pl_count s' = pl_count s → pl_inv s → pl_inv s'.
Proof. unfold pl_inv, pl_abs. by intros -> ->. Qed.

Lemma add_outcome_law m e k s rc s' :
  pl_cap < INT_MAX → pl_inv s → pl_valid k →
  (∀ e, e ∈ pl_entries s → m e = true ↔ pl_key e = k) →
  pl_wf e → pl_key e = k → add_outcome m e s rc s' →
  pl_inv s' ∧ (rc, pl_abs s') = spec_add pl_cap (kmalloc_ok (world s)).1 k (pl_abs s).
Proof.
  intros Hmax Hinv Hv Hm Hwe Hke Ho. pose proof Hinv as (Hc & Hspec & Hwf & Hval).
  pose proof (spec_step_wf _ (SpecAdd true k) _ Hspec) as Hstep.
  pose proof (existsb_key pl_key k m _ Hm) as Hdup. fold (pl_abs s) in Hdup.
  assert (pl_count s = Z.of_nat (length (pl_abs s))) as Hlen.
  { unfold pl_abs. by rewrite length_fmap. }
  cbn in Hstep. unfold spec_add in *. rewrite <- Hlen in *.
  destruct Ho as [(->&Hf&He&Hn)|[(->&Hf&Hd&He&Hn)|[(->&Hf&Hd&Ha&He&Hn)|(->&Hf&Hd&Ha&He&Hn)]]].
  - split; [by eapply pl_inv_keep|]. rewrite Hf. unfold pl_abs. congruence.
  - split; [by eapply pl_inv_keep|].
    rewrite Hf, decide_True by tauto. unfold pl_abs. congruence.
  - split; [by eapply pl_inv_keep|].
    rewrite Hf, Ha, decide_False by (rewrite <- Hdup; congruence). unfold pl_abs. congruence.
  - assert (k ∉ pl_abs s) as Hk by (rewrite <- Hdup; congruence).
    rewrite Hf, decide_False in Hstep by done. cbn in Hstep.
    assert (pl_abs s' = pl_abs s ++ [k]) as Habs.
    { unfold pl_abs. rewrite He, fmap_app. cbn. by rewrite Hke. }
    split; [|by rewrite Habs, Hf, Ha, decide_False].
    unfold pl_inv. rewrite Habs, He, Hn, length_app. cbn [length].
    split; [|split; [done|split]].
    + rewrite i32_small; unfold INT_MIN, INT_MAX in *; lia.
    + apply Forall_app. by rewrite Forall_singleton.
    + apply Forall_app. by rewrite Forall_singleton.
Qed.

Lemma del_outcome_law m k s rc s' :
  pl_cap < INT_MAX → pl_inv s →
  (∀ e, e ∈ pl_entries s → m e = true ↔ pl_key e = k) →
  del_outcome m s rc s' →
  pl_inv s' ∧ (rc, pl_abs s') = spec_del k (pl_abs s).
Proof.
  intros Hmax Hinv Hm Ho. pose proof Hinv as (Hc & [Hnd Hcap] & Hwf & Hval).
  pose proof (existsb_key pl_key k m _ Hm) as Hex. fold (pl_abs s) in Hex.
  unfold del_outcome in Ho. unfold spec_del.
  destruct (remove_first m (pl_entries s)) as [l|] eqn:R; destruct Ho as (-> & H1 & H2).
  - assert (existsb m (pl_entries s) = true) as Hin.
    { apply remove_first_is_Some. by rewrite R. }
    destruct (remove_first_key pl_key k m _ _ Hnd Hm R) as [Hf Hk].
    rewrite decide_True by tauto.
    assert (pl_abs s' = filter (λ k', k' ≠ k) (pl_abs s)) as Habs.
    { unfold pl_abs at 1. by rewrite H1. }
    split; [|by rewrite Habs].
    destruct (spec_step_wf _ (SpecDel k) _ (conj Hnd Hcap)) as [H3 H4].
    cbn in H3, H4. unfold spec_del in H3, H4. rewrite decide_True in H3, H4 by tauto.
    pose proof (remove_first_length _ _ _ R) as Hlen.
    unfold pl_inv. rewrite Habs, H1, H2, Hc, Hlen. repeat split; [|done|done| |].
    + unfold pl_abs in Hcap. rewrite length_fmap in Hcap.
      rewrite i32_small; [lia|]. unfold INT_MIN, INT_MAX in *. lia.
    + by eapply remove_first_Forall.
    + rewrite <- Habs. unfold pl_abs. rewrite H1. rewrite Forall_fmap.
      eapply remove_first_Forall; [done|]. by rewrite <- Forall_fmap.
  - apply remove_first_None in R.
    rewrite decide_False by (rewrite <- Hex; congruence).
    split; [by eapply pl_inv_keep|]. unfold pl_abs. congruence.
Qed.

End outcomes.

(** ** Refinement, against the interface *)

Section refinement.
Context `{K : Kernel} {E Key : Type} `{EqDecision Key} `{!PolicyList E Key}
        {Ops : PolicyOps Key} `{!PolicyListLaws E Key Ops}.

Inductive pl_op := PlAdd (k : Key) | PlDel (k : Key).

Definition pl_op_key (o : pl_op) : Key := match o with PlAdd k | PlDel k => k end.

Definition pl_run (o : pl_op) : M Z :=
  match o with PlAdd k => pl_add k | PlDel k => pl_del k end.

(** A sequence of operations that all returned. *)
Inductive pl_trace : sys → list (pl_op * Z) → sys → Prop :=
  | pl_trace_nil s : pl_trace s [] s
  | pl_trace_cons s o rc s1 t s2 :
      pl_run o s = Some (rc, s1) → pl_trace s1 t s2 → pl_trace s ((o, rc) :: t) s2.

(** The same sequence at the abstract level. *)
Inductive spec_trace : list Key → list (pl_op * Z) → list Key → Prop :=
  | spec_trace_nil l : spec_trace l [] l
  | spec_trace_add l k alloc rc l1 t l2 :
      spec_add pl_cap alloc k l = (rc, l1) → spec_trace l1 t l2 →
      spec_trace l ((PlAdd k, rc) :: t) l2
  | spec_trace_del l k rc l1 t l2 :
      spec_del k l = (rc, l1) → spec_trace l1 t l2 →
      spec_trace l ((PlDel k, rc) :: t) l2.

Lemma pl_trace_refines s t s' :
  pl_inv s → Forall (λ o, pl_valid (pl_op_key o.1)) t → pl_trace s t s' →
  pl_inv s' ∧ spec_trace (pl_abs s) t (pl_abs s').
Proof.
  intros Hinv Hv Ht. induction Ht as [s|s o rc s1 t s2 Hrun Ht IH].
  { split; [done|constructor]. }
  apply Forall_cons in Hv as [Hk Hv]. cbn in Hk.
  destruct o as [k|k]; cbn in Hrun, Hk.
  - destruct (wp_eq _ _ _ _ _ _ Hrun (pl_add_ok k s Hinv Hk)) as [Hinv1 Ha].
    destruct (IH Hinv1 Hv) as [Hinv2 Hs]. split; [done|]. econstructor; eauto.
  - destruct (wp_eq _ _ _ _ _ _ Hrun (pl_del_ok k s Hinv Hk)) as [Hinv1 Ha].
    destruct (IH Hinv1 Hv) as [Hinv2 Hs]. split; [done|]. econstructor; eauto.
Qed.

(** A successful add followed by a successful delete restores the keys. *)
Lemma pl_add_del s k s1 s2 rc :
  pl_inv s → pl_valid k →
  pl_add k s = Some (0, s1) → pl_del k s1 = Some (rc, s2) →
  rc = 0 ∧ pl_abs s2 = pl_abs s ∧ k ∈ pl_abs s1 ∧ k ∉ pl_abs s2.
Proof.
  intros Hinv Hk H1 H2.
  destruct (wp_eq _ _ _ _ _ _ H1 (pl_add_ok k s Hinv Hk)) as [Hinv1 Ha].
  destruct (wp_eq _ _ _ _ _ _ H2 (pl_del_ok k s1 Hinv1 Hk)) as [Hinv2 Hd].
  unfold spec_add in Ha.
  destruct (_ <=? _); [discriminate|]. case_decide as Hni; [discriminate|].
  destruct (kmalloc_ok _).1; [|discriminate]. injection Ha as Ha. rewrite Ha in Hd |- *.
  unfold spec_del in Hd. rewrite decide_True in Hd by set_solver.
  injection Hd as -> Hd.
  rewrite Hd, filter_app, filter_ne_single, filter_nil, app_nil_r, filter_ne_notin by done.
  repeat split; [|done]. set_solver.
Qed.

End refinement.
