(* ===== verification/Process.v ===== *)
(** * aegis_process.c: the protected-process list

    Entries are a 16-byte name and a pid.  A pid of 0 means "every process with
    this name"; any other pid names one process.  The list implements the
    interface of PolicyList.v with keys (name, pid); the membership test used by
    the ptrace hook is characterised in terms of those keys. *)

From S2P Require Import Prelude CString AegisH Kernel State PolicyList.

(** ** Operations *)

Section process.
Context `{K : Kernel}.

Definition set_procs (l : list aegis_protected_proc) (n : Z) (r : registries) : registries :=
  mkReg l n (protected_files r) (protected_file_count r)
        (blocked_syscalls r) (blocked_syscall_count r).

(** The comparison of the add and delete loops. *)
Definition proc_match (comm : bytes) (pid : Z) (proc : aegis_protected_proc) : bool :=
  (pp_pid proc =? pid) && (strncmp (pp_comm proc) comm AEGIS_COMM_LEN =? 0).

(** memset, strscpy and the pid store into the new entry. *)
Definition new_proc (comm : bytes) (pid : Z) : aegis_protected_proc := {|
  pp_comm := strscpy (memset0 AEGIS_COMM_LEN) comm AEGIS_COMM_LEN;
  pp_pid := pid;
|}.

Definition aegis_protect_process_add (comm : option bytes) (pid : Z) : M Z :=
  match comm with
  | None => mret (- EINVAL)
  | Some comm =>
      r ← gets reg;
      if AEGIS_MAX_PROTECTED_PROCS <=? protected_proc_count r then mret (- ENOSPC)
      else if existsb (proc_match comm pid) (protected_procs r) then mret (- EEXIST)
      else
        ok ← kmalloc;
        if negb ok then mret (- ENOMEM)
        else
          modify (λ s, set_reg (set_procs (protected_procs (reg s) ++ [new_proc comm pid])
                                          (i32 (protected_proc_count (reg s) + 1)) (reg s)) s);;
          AEGIS_INFO (str "Protected process added: " ++ cstr comm ++ str " (pid="
                      ++ fmt_d pid ++ str ")");;
          mret 0
  end.

Definition aegis_protect_process_del (comm : option bytes) (pid : Z) : M Z :=
  match comm with
  | None => mret (- EINVAL)
  | Some comm =>
      r ← gets reg;
      match remove_first (proc_match comm pid) (protected_procs r) with
      | None => mret (- ENOENT)
      | Some l =>
          modify (λ s, set_reg (set_procs l (i32 (protected_proc_count (reg s) - 1)) (reg s)) s);;
          kfree;;
          AEGIS_INFO (str "Protected process removed: " ++ cstr comm ++ str " (pid="
                      ++ fmt_d pid ++ str ")");;
          mret 0
      end
  end.

(** The three tests of the lookup loop for one entry. *)
Definition proc_covers (task : task_struct) (entry : aegis_protected_proc) : bool :=
  (negb (pp_pid entry =? 0) && (pp_pid entry =? task_pid task))
  || ((pp_pid entry =? 0) && (strncmp (pp_comm entry) (task_comm task) AEGIS_COMM_LEN =? 0))
  || ((pp_pid entry =? 0)
      && (strncmp (pp_comm entry) (task_leader_comm task) AEGIS_COMM_LEN =? 0)).

Definition aegis_is_process_protected (task : option task_struct) : M bool :=
  match task with
  | None => mret false
  | Some task =>
      on ← feature_check AEGIS_FEATURE_PROCESS_PROTECT;
      if negb on then mret false
      else gets (λ s, existsb (proc_covers task) (protected_procs (reg s)))
  end.

Definition aegis_process_init : M Z :=
  modify (λ s, set_reg (set_procs (protected_procs (reg s)) 0 (reg s)) s);;
  aegis_protect_process_add (Some (str "sshd")) 0;;
  aegis_protect_process_add (Some (str "init")) 1;;
  aegis_protect_process_add (Some (str "systemd")) 1;;
  mret 0.

(** list_for_each_entry_safe with list_del and kfree on every entry. *)
Fixpoint process_free_all (l : list aegis_protected_proc) : M unit :=
  match l with
  | [] => mret tt
  | _ :: l' =>
      modify (λ s, set_reg (set_procs l' (protected_proc_count (reg s)) (reg s)) s);;
      kfree;;
      process_free_all l'
  end.

Definition aegis_process_exit : M unit :=
  l ← gets (λ s, protected_procs (reg s));
  process_free_all l;;
  modify (λ s, set_reg (set_procs (protected_procs (reg s)) 0 (reg s)) s).

(** seq_printf output appended to [m]. *)
Definition proc_line (entry : aegis_protected_proc) : bytes :=
  pad_right 20 (cstr (pp_comm entry)) ++ str " " ++ pad_left " " 8 (fmt_d (pp_pid entry)) ++ [LF].

Definition aegis_protected_process_show (r : registries) (m : bytes) : bytes :=
  m ++ str "AEGIS Protected Processes (" ++ fmt_d (protected_proc_count r) ++ str " entries):" ++ [LF]
    ++ pad_right 20 (str "COMM") ++ str " " ++ pad_left " " 8 (str "PID") ++ [LF]
    ++ pad_right 20 (str "----") ++ str " " ++ pad_left " " 8 (str "---") ++ [LF]
    ++ concat (proc_line <$> protected_procs r).

(** ** Keys *)

Definition proc_key (e : aegis_protected_proc) : bytes * Z := (cstr (pp_comm e), pp_pid e).
Definition proc_wf (e : aegis_protected_proc) : Prop := carray AEGIS_COMM_LEN (pp_comm e).
Definition proc_valid (k : bytes * Z) : Prop := no_nul k.1 ∧ (length k.1 < AEGIS_COMM_LEN)%nat.

#[global] Instance proc_valid_dec k : Decision (proc_valid k).
Proof. unfold proc_valid. apply _. Defined.

#[global] Instance proc_list : PolicyList aegis_protected_proc (bytes * Z) := {|
  pl_entries s := protected_procs (reg s);
  pl_count s := protected_proc_count (reg s);
  pl_cap := AEGIS_MAX_PROTECTED_PROCS;
  pl_key := proc_key;
  pl_wf := proc_wf;
  pl_valid := proc_valid;
|}.

#[global] Instance proc_ops : PolicyOps (bytes * Z) := {|
  pl_add k := aegis_protect_process_add (Some k.1) k.2;
  pl_del k := aegis_protect_process_del (Some k.1) k.2;
|}.

(** A key covers a task: by pid when it has one, otherwise by the name of the
    task or of its thread-group leader. *)
Definition key_covers (task : task_struct) (k : bytes * Z) : Prop :=
  (k.2 ≠ 0 ∧ k.2 = task_pid task) ∨
  (k.2 = 0 ∧ (k.1 = cstr (task_comm task) ∨ k.1 = cstr (task_leader_comm task))).

(** ** Lemmas *)

Lemma proc_match_spec comm pid e :
  proc_wf e → no_nul comm → proc_match comm pid e = true ↔ proc_key e = (comm, pid).
Proof.
  intros Hw Hc. unfold proc_match, proc_key.
  rewrite andb_true_iff, !Z.eqb_eq, strncmp_carray by done. split; [intros []|intros [=]]; subst; auto.
Qed.

Lemma new_proc_wf comm pid : proc_wf (new_proc comm pid).
Proof. apply strscpy_carray; [unfold AEGIS_COMM_LEN; lia|apply length_replicate]. Qed.

Lemma new_proc_key comm pid : proc_valid (comm, pid) → proc_key (new_proc comm pid) = (comm, pid).
Proof.
  intros [Hn Hl]. unfold proc_key. cbn [new_proc pp_comm pp_pid fst snd] in *.
  rewrite strscpy_cstr, cstr_id, take_ge; [done| |done]. unfold AEGIS_COMM_LEN in *. cbn in Hl. lia.
Qed.

Lemma proc_covers_spec task e :
  proc_wf e → proc_covers task e = true ↔ key_covers task (proc_key e).
Proof.
  intros Hw. unfold proc_covers, key_covers, proc_key. cbn [fst snd].
  rewrite !orb_true_iff, !andb_true_iff, negb_true_iff, !Z.eqb_eq, Z.eqb_neq.
  rewrite !strncmp_carray_mem by done. tauto.
Qed.

(** Every outcome of an add, with the resulting state. *)
Definition process_add_post (comm : bytes) (pid : Z) (s : sys) (rc : Z) (s' : sys) : Prop :=
  keeps s s' ∧ add_outcome (proc_match comm pid) (new_proc comm pid) s rc s' ∧
  (if rc =? 0
   then res s' = add_kmem 1 (res s) ∧
        reg s' = set_procs (protected_procs (reg s) ++ [new_proc comm pid])
                           (i32 (protected_proc_count (reg s) + 1)) (reg s)
   else res s' = res s ∧ reg s' = reg s).

Lemma process_add_spec comm pid s :
  wp (aegis_protect_process_add (Some comm) pid) (process_add_post comm pid s) s.
Proof.
  unfold aegis_protect_process_add.
  wp_go; unfold process_add_post, keeps, add_outcome; cbn in *; rewrite_eqs; outcome.
Qed.

Definition process_del_post (comm : bytes) (pid : Z) (s : sys) (rc : Z) (s' : sys) : Prop :=
  keeps s s' ∧ del_outcome (proc_match comm pid) s rc s' ∧
  (if rc =? 0
   then res s' = add_kmem (-1) (res s) ∧
        reg s' = set_procs (protected_procs (reg s'))
                           (i32 (protected_proc_count (reg s) - 1)) (reg s)
   else res s' = res s ∧ reg s' = reg s).

Lemma process_del_spec comm pid s :
  wp (aegis_protect_process_del (Some comm) pid) (process_del_post comm pid s) s.
Proof.
  unfold aegis_protect_process_del.
  wp_go; unfold process_del_post, keeps, del_outcome; cbn in *; rewrite ?Heqo; outcome.
Qed.

Lemma process_match_all comm pid s :
  pl_inv (E := aegis_protected_proc) s → no_nul comm →
  ∀ e, e ∈ protected_procs (reg s) → proc_match comm pid e = true ↔ proc_key e = (comm, pid).
Proof.
  intros (_ & _ & Hwf & _) Hn e He. apply proc_match_spec; [|done].
  rewrite Forall_forall in Hwf. by apply Hwf.
Qed.

#[global] Instance proc_list_laws : PolicyListLaws aegis_protected_proc (bytes * Z) proc_ops.
Proof.
  split; [done| |]; intros [comm pid] s Hinv Hv.
  - apply wp_weaken, (wp_mono _ _ _ _ _ (process_add_spec comm pid s)). intros rc s' (_ & Ho & _).
    eapply (add_outcome_law _ _ (comm, pid));
      [done|done|done| |apply new_proc_wf|by apply new_proc_key|exact Ho].
    apply process_match_all; [done|apply Hv].
  - apply (wp_mono _ _ _ _ _ (process_del_spec comm pid s)). intros rc s' (_ & Ho & _).
    eapply (del_outcome_law _ (comm, pid)); [done|done| |exact Ho].
    apply process_match_all; [done|apply Hv].
Qed.

(** With the feature on, a task is protected exactly when a key covers it. *)
Lemma is_process_protected_spec task s :
  pl_inv (E := aegis_protected_proc) s →
  ∃ b, aegis_is_process_protected (Some task) s = Some (b, s) ∧
    (b = true ↔ AEGIS_FEATURE_CHECK (cfg s) AEGIS_FEATURE_PROCESS_PROTECT = true ∧
                ∃ k, k ∈ pl_abs (E := aegis_protected_proc) s ∧ key_covers task k).
Proof.
  intros (_ & _ & Hwf & _). unfold aegis_is_process_protected, feature_check, gets, mbind, M_bind.
  destruct (AEGIS_FEATURE_CHECK _ _) eqn:Hf; cbn.
  - eexists. split; [done|]. rewrite existsb_true_iff. unfold pl_abs. cbn. rewrite Forall_forall in Hwf.
    setoid_rewrite list_elem_of_fmap. split.
    + intros (e & He & Hc). split; [done|]. exists (proc_key e). split; [eauto|].
      apply proc_covers_spec; [by apply Hwf|done].
    + intros (_ & k & (e & -> & He) & Hc). exists e. split; [done|].
      apply proc_covers_spec; [by apply Hwf|done].
  - exists false. split; [done|]. split; [done|]. intros [? _]. done.
Qed.

End process.
