(* ===== verification/SyscallList.v ===== *)
(** * aegis_audit.c: the blocked-system-call list

    Keys are system call numbers.  The list implements the interface of
    PolicyList.v; the test used by the module-loading hooks is membership,
    provided the audit feature and its sysctl are on. *)

From S2P Require Import Prelude CString AegisH Kernel State PolicyList.

(** ** Operations *)

Section audit.
Context `{K : Kernel}.

Definition set_syscalls (l : list aegis_blocked_syscall) (n : Z) (r : registries) : registries :=
  mkReg (protected_procs r) (protected_proc_count r)
        (protected_files r) (protected_file_count r) l n.

(** The comparison of the add, delete and lookup loops. *)
Definition syscall_match (nr : Z) (sc : aegis_blocked_syscall) : bool :=
  bs_syscall_nr sc =? nr.

Definition aegis_syscall_block_add (syscall_nr : Z) : M Z :=
  if syscall_nr <? 0 then mret (- EINVAL)
  else
    r ← gets reg;
    if AEGIS_MAX_BLOCKED_SYSCALLS <=? blocked_syscall_count r then mret (- ENOSPC)
    else if existsb (syscall_match syscall_nr) (blocked_syscalls r) then mret (- EEXIST)
    else
      ok ← kmalloc;
      if negb ok then mret (- ENOMEM)
      else
        modify (λ s, set_reg (set_syscalls (blocked_syscalls (reg s) ++ [mkSyscall syscall_nr])
                                           (i32 (blocked_syscall_count (reg s) + 1)) (reg s)) s);;
        AEGIS_INFO (str "Blocked syscall added: " ++ fmt_d syscall_nr);;
        mret 0.

Definition aegis_syscall_block_del (syscall_nr : Z) : M Z :=
  r ← gets reg;
  match remove_first (syscall_match syscall_nr) (blocked_syscalls r) with
  | None => mret (- ENOENT)
  | Some l =>
      modify (λ s, set_reg (set_syscalls l (i32 (blocked_syscall_count (reg s) - 1)) (reg s)) s);;
      kfree;;
      AEGIS_INFO (str "Blocked syscall removed: " ++ fmt_d syscall_nr);;
      mret 0
  end.

Definition aegis_is_syscall_blocked (syscall_nr : Z) : M bool :=
  on ← feature_check AEGIS_FEATURE_SYSCALL_AUDIT;
  if negb on then mret false
  else
    en ← gets (λ s, syscall_audit_enable (cfg s));
    if negb en then mret false
    else gets (λ s, existsb (syscall_match syscall_nr) (blocked_syscalls (reg s))).

Definition aegis_audit_init : M Z :=
  modify (λ s, set_reg (set_syscalls (blocked_syscalls (reg s)) 0 (reg s)) s);;
  aegis_syscall_block_add NR_kexec_load;;
  aegis_syscall_block_add NR_kexec_file_load;;
  aegis_syscall_block_add NR_init_module;;
  aegis_syscall_block_add NR_finit_module;;
  aegis_syscall_block_add NR_delete_module;;
  mret 0.

Fixpoint audit_free_all (l : list aegis_blocked_syscall) : M unit :=
  match l with
  | [] => mret tt
  | _ :: l' =>
      modify (λ s, set_reg (set_syscalls l' (blocked_syscall_count (reg s)) (reg s)) s);;
      kfree;;
      audit_free_all l'
  end.

Definition aegis_audit_exit : M unit :=
  l ← gets (λ s, blocked_syscalls (reg s));
  audit_free_all l;;
  modify (λ s, set_reg (set_syscalls (blocked_syscalls (reg s)) 0 (reg s)) s).

Definition syscall_line (entry : aegis_blocked_syscall) : bytes :=
  pad_left " " 8 (fmt_d (bs_syscall_nr entry)) ++ [LF].

Definition aegis_blocked_syscall_show (r : registries) (m : bytes) : bytes :=
  m ++ str "AEGIS Blocked Syscalls (" ++ fmt_d (blocked_syscall_count r) ++ str " entries):" ++ [LF]
    ++ pad_left " " 8 (str "NR") ++ [LF]
    ++ pad_left " " 8 (str "--") ++ [LF]
    ++ concat (syscall_line <$> blocked_syscalls r).

(** ** Keys *)

#[global] Instance syscall_list : PolicyList aegis_blocked_syscall Z := {|
  pl_entries s := blocked_syscalls (reg s);
  pl_count s := blocked_syscall_count (reg s);
  pl_cap := AEGIS_MAX_BLOCKED_SYSCALLS;
  pl_key := bs_syscall_nr;
  pl_wf _ := True;
  pl_valid nr := 0 <= nr;
|}.

#[global] Instance syscall_ops : PolicyOps Z := {|
  pl_add := aegis_syscall_block_add;
  pl_del := aegis_syscall_block_del;
|}.

(** ** Lemmas *)

Lemma syscall_match_spec nr sc : syscall_match nr sc = true ↔ bs_syscall_nr sc = nr.
Proof. apply Z.eqb_eq. Qed.

Definition syscall_add_post (nr : Z) (s : sys) (rc : Z) (s' : sys) : Prop :=
  keeps s s' ∧ add_outcome (syscall_match nr) (mkSyscall nr) s rc s' ∧
  (if rc =? 0
   then res s' = add_kmem 1 (res s) ∧
        reg s' = set_syscalls (blocked_syscalls (reg s) ++ [mkSyscall nr])
                              (i32 (blocked_syscall_count (reg s) + 1)) (reg s)
   else res s' = res s ∧ reg s' = reg s).

Lemma syscall_add_spec nr s :
  0 <= nr → wp (aegis_syscall_block_add nr) (syscall_add_post nr s) s.
Proof.
  intros Hn. unfold aegis_syscall_block_add. replace (nr <? 0) with false by lia.
  wp_go; unfold syscall_add_post, keeps, add_outcome; cbn in *; rewrite_eqs; outcome.
Qed.

Definition syscall_del_post (nr : Z) (s : sys) (rc : Z) (s' : sys) : Prop :=
  keeps s s' ∧ del_outcome (syscall_match nr) s rc s' ∧
  (if rc =? 0
   then res s' = add_kmem (-1) (res s) ∧
        reg s' = set_syscalls (blocked_syscalls (reg s'))
                              (i32 (blocked_syscall_count (reg s) - 1)) (reg s)
   else res s' = res s ∧ reg s' = reg s).

Lemma syscall_del_spec nr s : wp (aegis_syscall_block_del nr) (syscall_del_post nr s) s.
Proof.
  unfold aegis_syscall_block_del.
  wp_go; unfold syscall_del_post, keeps, del_outcome; cbn in *; rewrite ?Heqo; outcome.
Qed.

#[global] Instance syscall_list_laws : PolicyListLaws aegis_blocked_syscall Z syscall_ops.
Proof.
  split; [done| |]; intros nr s Hinv Hv.
  - apply wp_weaken, (wp_mono _ _ _ _ _ (syscall_add_spec nr s Hv)). intros rc s' (_ & Ho & _).
    eapply (add_outcome_law _ (mkSyscall nr) nr); [done|done|done| |done|done|exact Ho].
    intros e _. apply syscall_match_spec.
  - apply (wp_mono _ _ _ _ _ (syscall_del_spec nr s)). intros rc s' (_ & Ho & _).
    eapply (del_outcome_law _ nr); [done|done| |exact Ho].
    intros e _. apply syscall_match_spec.
Qed.

(** Auditing is active: the feature bit and the sysctl are on. *)
Definition audit_on (c : aegis_config) : bool :=
  AEGIS_FEATURE_CHECK c AEGIS_FEATURE_SYSCALL_AUDIT && syscall_audit_enable c.

Definition blocked (s : sys) (nr : Z) : bool :=
  audit_on (cfg s) && bool_decide (nr ∈ pl_abs (E := aegis_blocked_syscall) s).

Lemma is_syscall_blocked_run nr s :
  aegis_is_syscall_blocked nr s = Some (blocked s nr, s).
Proof.
  unfold aegis_is_syscall_blocked, blocked, audit_on, feature_check, gets, mbind, M_bind.
  destruct (AEGIS_FEATURE_CHECK _ _); cbn; [|done].
  destruct (syscall_audit_enable _); cbn; [|done]. f_equal. f_equal.
  apply eq_iff_eq_true. rewrite bool_decide_eq_true.
  apply (existsb_key bs_syscall_nr). intros e _. apply syscall_match_spec.
Qed.

End audit.
