(* ===== verification/FileHash.v ===== *)
(** * aegis_compute_file_hash (aegis_file.c)

    The streaming SHA-256 of a file: transform, descriptor and page buffer are
    acquired in turn, the file is read chunk by chunk, and the labels
    [out_buf], [out_desc], [out_tfm] release what was acquired.  The read loop
    has no bound in the source; it is modelled with fuel.  Shown: every exit
    releases everything; for a file of finite content the loop ends and a zero
    return means the digest of the whole content; for a file that never reports
    end of file no amount of fuel suffices. *)

From S2P Require Import Prelude CString AegisH Kernel State.

Section hash.
Context `{K : Kernel}.

(** The while loop with the code after it up to [out_buf]: the return value and
    the contents of [hash_out]. *)
Fixpoint hash_loop (fuel : nat) (file : kfile) (desc : kshash) (pos : Z) (out : bytes)
    : M (Z * bytes) :=
  match fuel with
  | O => out_of_fuel
  | S fuel' =>
      x ← kcall (kernel_read file pos);
      match x.1 with
      | inl err => mret (err, out)
      | inr [] => kcall (shash_final desc)
      | inr buf =>
          u ← kcall (shash_update desc buf);
          if u.1 =? 0 then hash_loop fuel' file u.2 x.2 out else mret (u.1, out)
      end
  end.

Definition aegis_compute_file_hash (fuel : nat) (file : option kfile) (hash_out : option bytes)
    : M (Z * bytes) :=
  match file, hash_out with
  | Some file, Some out =>
      t ← kcall shash_alloc;
      match t with
      | inl err => mret (err, out)
      | inr _ =>
          upd_res (add_tfms 1);;
          ok ← kmalloc;                                     (* desc *)
          r ← (if negb ok then mret (- ENOMEM, out)
               else
                 i ← kcall shash_init;
                 r ← (if negb (i.1 =? 0) then mret (i.1, out)
                      else
                        ok ← kmalloc;                       (* buf *)
                        if negb ok then mret (- ENOMEM, out)
                        else
                          r ← hash_loop fuel file i.2 0 out;
                          kfree;;                           (* out_buf *)
                          mret r);
                 kfree;;                                    (* out_desc *)
                 mret r);
          upd_res (add_tfms (-1));;                         (* out_tfm *)
          mret r
      end
  | _, _ => mret (- EINVAL, default [] hash_out)
  end.

(** ** Files *)

(** A file with finite content: a read at [pos] yields a chunk of it, and
    yields nothing only at the end. *)
Definition reads_as (f : kfile) (content : bytes) : Prop :=
  ∀ pos w, 0 <= pos <= Z.of_nat (length content) →
    ∃ chunk, (kernel_read f pos w).1 = (inr chunk, pos + Z.of_nat (length chunk)) ∧
      chunk `prefix_of` drop (Z.to_nat pos) content ∧
      (chunk = [] → pos = Z.of_nat (length content)).

(** A file that always has more data, such as /dev/zero. *)
Definition endless (f : kfile) : Prop :=
  ∀ pos w, ∃ c chunk, (kernel_read f pos w).1.1 = inr (c :: chunk).

(** ** Lemmas *)

Lemma hash_loop_world fuel file desc pos out s :
  wlp (hash_loop fuel file desc pos out) (λ _ s', holds (res s) s s') s.
Proof.
  revert desc pos s. induction fuel as [|fuel IH]; intros desc pos s; [done|].
  cbn [hash_loop]. apply wp_bind, wp_kcall. intros [[err|[|c buf]] pos'] w _; cbn [fst snd].
  - apply wp_ret. auto 12 with aegis.
  - apply wp_kcall. auto 12 with aegis.
  - apply wp_bind, wp_kcall. intros [rc desc'] w' _. cbn [fst snd].
    destruct (rc =? 0); [|apply wp_ret; auto 12 with aegis].
    eapply wp_mono; [apply IH|]. intros r s'. cbn. apply holds_trans. auto 12 with aegis.
Qed.

(** Whatever the loop establishes, the routine releases what it acquired and
    returns the loop's result or an error. *)
Lemma compute_file_hash_frame d fuel f out s (Q : Z * bytes → Prop) :
  (∀ err, err ≠ 0 ∨ (∃ w, (shash_alloc w).1 = inl err) → Q (err, out)) →
  (∀ w s', (shash_init w).1.1 = 0 →
     wpx d (hash_loop fuel f (shash_init w).1.2 0 out)
           (λ r s'', holds (res s') s' s'' ∧ Q r) s') →
  wpx d (aegis_compute_file_hash fuel (Some f) (Some out))
        (λ r s', holds (res s) s s' ∧ Q r) s.
Proof.
  intros Herr Hloop. cbn [aegis_compute_file_hash].
  apply wp_bind, wp_kcall. intros [err|[]] w Et.
  { apply wp_ret. split; [auto 12 with aegis|]. apply Herr. right. exists (world s). by rewrite Et. }
  apply wp_bind, wp_upd_res.
  assert (∃ r1, r1 = add_tfms 1 (res s)) as [r1 Hr1] by eauto.
  assert (holds r1 s (set_res (add_tfms 1 (res (set_world w s))) (set_world w s))) as H1
    by (subst; auto 12 with aegis).
  assert (add_tfms (-1) r1 = res s) as Hinv by (subst; apply add_tfms_inv).
  apply wp_bind, wp_kmalloc; intros w1 _; cbn [negb];
    (apply (wp_release _ _ _ r1); [done|]).
  { apply wp_ret. split; [auto 12 with aegis|]. apply Herr. by left. }
  apply wp_bind, wp_kcall. intros i w2 Ei.
  apply (wp_release _ _ _ (add_kmem 1 r1)); [apply add_kmem_inv|]. destruct (i.1 =? 0) eqn:E0; cbn [negb].
  2: { apply wp_ret. split; [auto 12 with aegis|]. apply Herr. left. by apply Z.eqb_neq. }
  apply wp_bind, wp_kmalloc; intros w3 _; cbn [negb].
  { apply wp_ret. split; [auto 12 with aegis|]. apply Herr. by left. }
  apply (wp_release _ _ _ (add_kmem 1 (add_kmem 1 r1))); [apply add_kmem_inv|].
  match goal with |- wpx _ _ _ ?s' => set (s1 := s') in * end.
  assert (holds (add_kmem 1 (add_kmem 1 r1)) s s1) as H3 by (unfold s1; auto 12 with aegis).
  replace i with ((i, w2).1) by done. rewrite <- Ei.
  eapply wp_mono; [apply Hloop; rewrite Ei; by apply Z.eqb_eq|].
  intros r s2 [Hh Hq]. split; [|done]. rewrite (holds_res_eq _ _ _ H3) in Hh.
  by eapply holds_trans.
Qed.

(** Whatever the kernel does, a call that returns holds nothing afterwards. *)
Lemma compute_file_hash_holds fuel f out s :
  wlp (aegis_compute_file_hash fuel (Some f) (Some out)) (λ _ s', holds (res s) s s') s.
Proof.
  eapply wp_mono; [apply (compute_file_hash_frame _ _ _ _ _ (λ _, True))|];
    [done| |by intros r s' []].
  intros w s' _. eapply wp_mono; [apply hash_loop_world|]. done.
Qed.

Section digest.
Context `{L : !ShashLaws}.

(** The loop feeds the rest of the file to the hash. *)
Lemma hash_loop_digest f content fuel desc pos out s :
  reads_as f content → shash_fed desc (take (Z.to_nat pos) content) →
  0 <= pos <= Z.of_nat (length content) →
  Z.of_nat (length content) - pos < Z.of_nat fuel →
  wp (hash_loop fuel f desc pos out)
     (λ r s', holds (res s) s s' ∧ (r.1 = 0 → r.2 = sha256 content)) s.
Proof.
  intros Hf. revert desc pos s. induction fuel as [|fuel IH]; intros desc pos s Hfed Hpos Hfuel;
    [lia|].
  cbn [hash_loop]. apply wp_bind, wp_kcall. intros x w Ex.
  destruct (Hf pos (world s) Hpos) as (chunk & Hr & Hpre & Hend). rewrite Ex in Hr. cbn in Hr.
  subst x. cbn [fst snd]. destruct chunk as [|c chunk].
  - apply wp_kcall. intros r w' Er. split; [auto 12 with aegis|]. intros H0.
    pose proof (shash_final_fed _ _ (world (set_world w s)) Hfed) as Hfin.
    rewrite Er in Hfin. cbn in Hfin. rewrite (Hfin H0). f_equal. apply take_ge.
    rewrite (Hend eq_refl). lia.
  - apply wp_bind, wp_kcall. intros u w' Eu.
    destruct (u.1 =? 0) eqn:E0.
    2: { apply wp_ret. split; [auto 12 with aegis|]. apply Z.eqb_neq in E0. intros H. by destruct E0. }
    destruct Hpre as [rest Hrest].
    assert (length (drop (Z.to_nat pos) content) = (S (length chunk) + length rest)%nat) as Hlen.
    { rewrite Hrest, length_app. done. }
    rewrite length_drop in Hlen.
    eapply wp_mono; [apply (IH u.2 (pos + Z.of_nat (length (c :: chunk))))|].
    + pose proof (shash_update_fed _ _ (c :: chunk) (world (set_world w s)) Hfed) as Hupd.
      rewrite Eu in Hupd. cbn in Hupd.
      replace (take (Z.to_nat (pos + Z.of_nat (length (c :: chunk)))) content)
        with (take (Z.to_nat pos) content ++ c :: chunk).
      { apply Hupd. by apply Z.eqb_eq. }
      rewrite Z2Nat.inj_add, Nat2Z.id by lia.
      rewrite <- take_take_drop, Hrest. f_equal. by rewrite take_app_length.
    + cbn [length]. lia.
    + cbn [length] in *. lia.
    + intros r s' [Hh Hq]. split; [|done]. cbn in Hh. eapply holds_trans; [|done]. auto 12 with aegis.
Qed.

Lemma compute_file_hash_digest f content fuel out s :
  reads_as f content → (length content < fuel)%nat →
  (∀ w err, (shash_alloc w).1 = inl err → err ≠ 0) →
  wp (aegis_compute_file_hash fuel (Some f) (Some out))
     (λ r s', holds (res s) s s' ∧ (r.1 = 0 → r.2 = sha256 content)) s.
Proof.
  intros Hf Hfuel Halloc.
  apply (compute_file_hash_frame _ _ _ _ _ (λ r, r.1 = 0 → r.2 = sha256 content)).
  - intros err [H|[w H]] H0; [done|]. by destruct (Halloc w err H).
  - intros w s' Hi. eapply hash_loop_digest; [done| |lia|lia]. cbn.
    by apply shash_init_fed.
Qed.

End digest.

(** An endless file keeps the loop going while updates succeed. *)
Lemma hash_loop_endless f fuel desc pos out s :
  endless f → (∀ h b w, (shash_update h b w).1.1 = 0) →
  hash_loop fuel f desc pos out s = None.
Proof.
  intros Hf Hu. revert desc pos s. induction fuel as [|fuel IH]; intros desc pos s; [done|].
  cbn [hash_loop]. unfold mbind, M_bind, kcall.
  destruct (Hf pos (world s)) as (c & chunk & Hr).
  destruct (kernel_read f pos (world s)) as [[r pos'] w] eqn:E. cbn in Hr. subst r. cbn.
  specialize (Hu desc (c :: chunk) w). destruct (shash_update desc (c :: chunk) w) as [[rc h] w'].
  cbn in *. subst rc. apply IH.
Qed.

End hash.
