(* ===== verification/File.v ===== *)
(** * aegis_file.c: the protected-file list

    Entries are a 256-byte path with a digest of the file taken when it was
    added.  The list implements the interface of PolicyList.v with path strings
    as keys.  Paths that do not fit the array are stored truncated, and a lookup
    of the full path does not find them: keys are therefore valid up to 255
    bytes. *)

From S2P Require Import Prelude CString AegisH Kernel State PolicyList FileHash.

(** ** Operations *)

Section file.
Context `{K : Kernel}.

Definition set_files (l : list aegis_protected_file) (n : Z) (r : registries) : registries :=
  mkReg (protected_procs r) (protected_proc_count r) l n
        (blocked_syscalls r) (blocked_syscall_count r).

Definition aegis_file_init : M Z :=
  modify (λ s, set_reg (set_files (protected_files (reg s)) 0 (reg s)) s);;
  mret 0.

Fixpoint file_free_all (l : list aegis_protected_file) : M unit :=
  match l with
  | [] => mret tt
  | _ :: l' =>
      modify (λ s, set_reg (set_files l' (protected_file_count (reg s)) (reg s)) s);;
      kfree;;
      file_free_all l'
  end.

Definition aegis_file_exit : M unit :=
  l ← gets (λ s, protected_files (reg s));
  file_free_all l;;
  modify (λ s, set_reg (set_files (protected_files (reg s)) 0 (reg s)) s).

(** The comparison of the add, delete and lookup loops. *)
Definition file_match (path : bytes) (file : aegis_protected_file) : bool :=
  strncmp (pf_path file) path AEGIS_PATH_LEN =? 0.

(** The array the new entry's path is stored in. *)
Definition new_path (path : bytes) : bytes :=
  strscpy (memset0 AEGIS_PATH_LEN) path AEGIS_PATH_LEN.

(** "Try to compute initial hash": look the path up, open it, hash it.  The calls
    into the file system are those of [Kernel]: that opening and reading the file
    pass the module's own file hooks in turn is not represented. *)
Definition file_initial_hash (fuel : nat) (path : bytes) : M (bytes * bool) :=
  let unset := (uninit AEGIS_HASH_SIZE, false) in
  p ← kcall (kern_path (cstr path));
  match p with
  | inl _ => mret unset
  | inr fpath =>
      upd_res (add_paths 1);;
      f ← kcall (dentry_open fpath);
      upd_res (add_paths (-1));;                            (* path_put *)
      match f with
      | inl _ => mret unset
      | inr f =>
          upd_res (add_files 1);;
          h ← aegis_compute_file_hash fuel (Some f) (Some unset.1);
          upd_res (add_files (-1));;                        (* fput *)
          mret (h.2, h.1 =? 0)
      end
  end.

Definition aegis_protected_file_add (fuel : nat) (path : option bytes) : M Z :=
  match path with
  | None => mret (- EINVAL)
  | Some path =>
      r ← gets reg;
      if AEGIS_MAX_PROTECTED_FILES <=? protected_file_count r then mret (- ENOSPC)
      else if existsb (file_match path) (protected_files r) then mret (- EEXIST)
      else
        ok ← kmalloc;
        if negb ok then mret (- ENOMEM)
        else
          h ← file_initial_hash fuel path;
          let file := mkFile (new_path path) h.1 h.2 in
          modify (λ s, set_reg (set_files (protected_files (reg s) ++ [file])
                                          (i32 (protected_file_count (reg s) + 1)) (reg s)) s);;
          AEGIS_INFO (str "Protected file added: " ++ cstr path ++ str " (hash="
                      ++ (if h.2 : bool then str "valid" else str "pending") ++ str ")");;
          mret 0
  end.

Definition aegis_protected_file_del (path : option bytes) : M Z :=
  match path with
  | None => mret (- EINVAL)
  | Some path =>
      r ← gets reg;
      match remove_first (file_match path) (protected_files r) with
      | None => mret (- ENOENT)
      | Some l =>
          modify (λ s, set_reg (set_files l (i32 (protected_file_count (reg s) - 1)) (reg s)) s);;
          kfree;;
          AEGIS_INFO (str "Protected file removed: " ++ cstr path);;
          mret 0
      end
  end.

Definition aegis_protected_file_count : M Z := gets (λ s, protected_file_count (reg s)).

Definition aegis_is_file_protected (path : option bytes) : M bool :=
  match path with
  | None => mret false
  | Some path =>
      on ← feature_check AEGIS_FEATURE_FILE_INTEGRITY;
      if negb on then mret false
      else gets (λ s, existsb (file_match path) (protected_files (reg s)))
  end.

(** The digest column: hex digits of a valid hash. *)
Definition hash_str (entry : aegis_protected_file) : bytes :=
  if pf_hash_valid entry
  then concat (fmt_02x <$> take AEGIS_HASH_SIZE (pf_hash entry))
  else str "<pending>".

Definition file_line (entry : aegis_protected_file) : bytes :=
  pad_right 40 (cstr (pf_path entry)) ++ str " " ++ hash_str entry ++ [LF].

Definition aegis_protected_file_show (r : registries) (m : bytes) : bytes :=
  m ++ str "AEGIS Protected Files (" ++ fmt_d (protected_file_count r) ++ str " entries):" ++ [LF]
    ++ pad_right 40 (str "PATH") ++ str " " ++ str "HASH" ++ [LF]
    ++ pad_right 40 (str "----") ++ str " " ++ str "----" ++ [LF]
    ++ concat (file_line <$> protected_files r).

(** ** Keys *)

Definition file_key (e : aegis_protected_file) : bytes := cstr (pf_path e).
Definition file_wf (e : aegis_protected_file) : Prop := carray AEGIS_PATH_LEN (pf_path e).
Definition file_valid (p : bytes) : Prop := no_nul p ∧ (length p < AEGIS_PATH_LEN)%nat.

#[global] Instance file_valid_dec p : Decision (file_valid p).
Proof. unfold file_valid. apply _. Defined.

#[global] Instance file_list : PolicyList aegis_protected_file bytes := {|
  pl_entries s := protected_files (reg s);
  pl_count s := protected_file_count (reg s);
  pl_cap := AEGIS_MAX_PROTECTED_FILES;
  pl_key := file_key;
  pl_wf := file_wf;
  pl_valid := file_valid;
|}.

(** The operations, for a given bound on the hash loop. *)
Definition file_ops (fuel : nat) : PolicyOps bytes := {|
  pl_add p := aegis_protected_file_add fuel (Some p);
  pl_del p := aegis_protected_file_del (Some p);
|}.

Definition file_inv (s : sys) : Prop := pl_inv (E := aegis_protected_file) s.
Definition file_abs (s : sys) : list bytes := pl_abs (E := aegis_protected_file) s.

(** ** Lemmas *)

Lemma file_match_spec p e :
  file_wf e → file_match p e = true ↔ file_key e = cstr p.
Proof. intros Hw. unfold file_match. by rewrite Z.eqb_eq, strncmp_carray_mem. Qed.

Lemma new_path_wf p : carray AEGIS_PATH_LEN (new_path p).
Proof. apply strscpy_carray; [unfold AEGIS_PATH_LEN; lia|apply length_replicate]. Qed.

Lemma new_path_cstr p : cstr (new_path p) = take 255 (cstr p).
Proof. apply strscpy_cstr. Qed.

Lemma new_path_key p : file_valid p → cstr (new_path p) = p.
Proof.
  intros [Hn Hl]. rewrite new_path_cstr, cstr_id by done. apply take_ge.
  unfold AEGIS_PATH_LEN in Hl. lia.
Qed.

Lemma file_initial_hash_holds fuel path s :
  wlp (file_initial_hash fuel path) (λ _ s', holds (res s) s s') s.
Proof.
  unfold file_initial_hash. apply wp_bind, wp_kcall. intros [e|fp] w _.
  { apply wp_ret. auto with aegis. }
  apply wp_bind, wp_upd_res, wp_bind, wp_kcall. intros f w1 _. apply wp_bind, wp_upd_res.
  match goal with |- wpx _ _ _ ?s' => assert (holds (res s) s s') as H1 end.
  { rewrite <- (add_paths_inv (res s)) at 1. auto 12 with aegis. }
  destruct f as [e|f]; [by apply wp_ret|].
  apply wp_bind, wp_upd_res, wp_bind.
  eapply wp_mono; [apply compute_file_hash_holds|]. intros h s' Hh.
  apply wp_bind, wp_upd_res, wp_ret.
  rewrite <- (add_files_inv (res s)) at 1. apply holds_files.
  eapply holds_trans; [apply holds_files, H1|].
  by rewrite (holds_res_eq _ _ _ (holds_files 1 _ _ _ H1)) in Hh.
Qed.

(** Every outcome of an add that returns: the entry holds the truncated path
    and a digest that satisfies [P]. *)
Definition file_add_post (P : bytes * bool → Prop) (path : bytes) (s : sys) (rc : Z) (s' : sys)
    : Prop :=
  keeps s s' ∧ ∃ e, pf_path e = new_path path ∧
  (rc = 0 → P (pf_hash e, pf_hash_valid e)) ∧
  add_outcome (file_match path) e s rc s' ∧
  (if rc =? 0
   then res s' = add_kmem 1 (res s) ∧
        reg s' = set_files (protected_files (reg s) ++ [e])
                           (i32 (protected_file_count (reg s) + 1)) (reg s)
   else res s' = res s ∧ reg s' = reg s).

(** The add follows from what its hash step does. *)
Lemma file_add_spec_gen d P fuel path s :
  (∀ s', wpx d (file_initial_hash fuel path) (λ r s'', holds (res s') s' s'' ∧ P r) s') →
  wpx d (aegis_protected_file_add fuel (Some path)) (file_add_post P path s) s.
Proof.
  intros Hh. unfold aegis_protected_file_add.
  set (e0 := mkFile (new_path path) [] false).
  apply wp_bind, wp_gets. destruct (_ <=? _) eqn:Hfull; [|destruct (existsb _ _) eqn:Hdup].
  - apply wp_ret. split; [done|]. exists e0. do 2 (split; [done|]). unfold add_outcome. outcome.
  - apply wp_ret. split; [done|]. exists e0. do 2 (split; [done|]). unfold add_outcome. outcome.
  - apply wp_bind, wp_kmalloc; intros w Hw; cbn [negb].
    + apply wp_ret. split; [done|]. exists e0. do 2 (split; [done|]). unfold add_outcome. rewrite Hw. outcome.
    + apply wp_bind. eapply wp_mono; [apply Hh|]. intros [h v] s' [Hs' HP]. unfold holds in Hs'.
      rewrite Hs'. wp_go. split; [done|]. exists (mkFile (new_path path) h v).
      unfold add_outcome. rewrite Hw. outcome.
Qed.

Lemma file_add_spec fuel path s :
  wlp (aegis_protected_file_add fuel (Some path)) (file_add_post (λ _, True) path s) s.
Proof.
  apply file_add_spec_gen. intros s'.
  eapply wp_mono; [apply file_initial_hash_holds|]. done.
Qed.

Definition file_del_post (path : bytes) (s : sys) (rc : Z) (s' : sys) : Prop :=
  keeps s s' ∧ del_outcome (file_match path) s rc s' ∧
  (if rc =? 0
   then res s' = add_kmem (-1) (res s) ∧
        reg s' = set_files (protected_files (reg s'))
                           (i32 (protected_file_count (reg s) - 1)) (reg s)
   else res s' = res s ∧ reg s' = reg s).

Lemma file_del_spec path s :
  wp (aegis_protected_file_del (Some path)) (file_del_post path s) s.
Proof.
  unfold aegis_protected_file_del.
  wp_go; unfold file_del_post, keeps, del_outcome; cbn in *; rewrite ?Heqo; outcome.
Qed.

Lemma file_match_all path s :
  file_inv s →
  ∀ e, e ∈ protected_files (reg s) → file_match path e = true ↔ file_key e = cstr path.
Proof.
  intros (_ & _ & Hwf & _) e He. apply file_match_spec.
  rewrite Forall_forall in Hwf. by apply Hwf.
Qed.

(** The outcomes of add and delete, on the keys. *)
Lemma file_add_law P path s rc s' :
  file_inv s → file_valid (cstr path) → file_add_post P path s rc s' →
  file_inv s' ∧
  (rc, file_abs s') =
    spec_add AEGIS_MAX_PROTECTED_FILES (kmalloc_ok (world s)).1 (cstr path) (file_abs s).
Proof.
  intros Hinv Hv (_ & e & He & _ & Ho & _).
  refine (add_outcome_law (file_match path) e (cstr path) s rc s' _ Hinv Hv _ _ _ Ho); [done|..].
  - by apply file_match_all.
  - cbn. unfold file_wf. rewrite He. apply new_path_wf.
  - cbn. unfold file_key. rewrite He, new_path_cstr. apply take_ge.
    destruct Hv as [_ Hl]. unfold AEGIS_PATH_LEN in Hl. lia.
Qed.

Lemma file_del_law path s rc s' :
  file_inv s → file_del_post path s rc s' →
  file_inv s' ∧ (rc, file_abs s') = spec_del (cstr path) (file_abs s).
Proof.
  intros Hinv (_ & Ho & _).
  refine (del_outcome_law (file_match path) (cstr path) s rc s' _ Hinv _ Ho); [done|].
  by apply file_match_all.
Qed.

#[global] Instance file_list_laws fuel :
  PolicyListLaws aegis_protected_file bytes (file_ops fuel).
Proof.
  split; [done| |]; intros path s Hinv Hv; pose proof (cstr_id path (proj1 Hv)) as Hc.
  - apply (wp_mono _ _ _ _ _ (file_add_spec fuel path s)). intros rc s' Hp.
    rewrite <- Hc in Hv. rewrite <- Hc. by apply (file_add_law (λ _, True)).
  - apply (wp_mono _ _ _ _ _ (file_del_spec path s)). intros rc s' Hp.
    rewrite <- Hc. by apply file_del_law.
Qed.

(** The lookup, as a boolean function of the state. *)
Definition file_protected (s : sys) (p : bytes) : bool :=
  AEGIS_FEATURE_CHECK (cfg s) AEGIS_FEATURE_FILE_INTEGRITY && bool_decide (cstr p ∈ file_abs s).

Lemma is_file_protected_run p s :
  file_inv s → aegis_is_file_protected (Some p) s = Some (file_protected s p, s).
Proof.
  intros Hinv. unfold aegis_is_file_protected, file_protected, feature_check, gets, mbind, M_bind.
  destruct (AEGIS_FEATURE_CHECK _ _); cbn; [|done]. f_equal. f_equal.
  apply eq_iff_eq_true. rewrite bool_decide_eq_true.
  apply (existsb_key file_key). by apply file_match_all.
Qed.

(** ** The digest of an added file *)

(** The path leads to [f] at some point in time. *)
Definition opens (path : bytes) (f : kfile) : Prop :=
  ∃ w fp w1 w2, kern_path (cstr path) w = (inr fp, w1) ∧ dentry_open fp w1 = (inr f, w2).

(** What the path leads to has finite content, within the loop's bound. *)
Definition path_finite (fuel : nat) (path : bytes) : Prop :=
  ∀ f, opens path f → ∃ content, reads_as f content ∧ (length content < fuel)%nat.

(** A recorded digest is that of a file the path leads to. *)
Definition digest_of `{ShashLaws} (path : bytes) (r : bytes * bool) : Prop :=
  r.2 = true → ∃ f content, opens path f ∧ reads_as f content ∧ r.1 = sha256 content.

Section digest.
Context `{L : !ShashLaws} (Halloc : ∀ w err, (shash_alloc w).1 = inl err → err ≠ 0).

Lemma file_initial_hash_digest fuel path s :
  path_finite fuel path →
  wp (file_initial_hash fuel path) (λ r s', holds (res s) s s' ∧ digest_of path r) s.
Proof.
  intros Hfin. unfold file_initial_hash. apply wp_bind, wp_kcall. intros [e|fp] w Hkp.
  { apply wp_ret. split; [auto with aegis|done]. }
  apply wp_bind, wp_upd_res, wp_bind, wp_kcall. intros f w1 Hop. apply wp_bind, wp_upd_res.
  match goal with |- wpx _ _ _ ?s' => assert (holds (res s) s s') as H1 end.
  { rewrite <- (add_paths_inv (res s)) at 1. auto 12 with aegis. }
  destruct f as [e|f]; [by apply wp_ret|].
  assert (opens path f) as Ho by (by exists (world s), fp, w, w1).
  destruct (Hfin f Ho) as (content & Hc & Hlen).
  apply wp_bind, wp_upd_res, wp_bind.
  eapply wp_mono; [by apply (compute_file_hash_digest f content)|]. intros h s' [Hh Hd].
  apply wp_bind, wp_upd_res, wp_ret. split.
  - rewrite <- (add_files_inv (res s)) at 1. apply holds_files.
    eapply holds_trans; [apply holds_files, H1|].
    by rewrite (holds_res_eq _ _ _ (holds_files 1 _ _ _ H1)) in Hh.
  - cbn. intros H0%Z.eqb_eq. exists f, content. auto.
Qed.

Lemma file_add_digest fuel path s :
  path_finite fuel path →
  wp (aegis_protected_file_add fuel (Some path)) (file_add_post (digest_of path) path s) s.
Proof. intros Hf. apply file_add_spec_gen. intros s'. by apply file_initial_hash_digest. Qed.

End digest.

End file.
