(* ===== verification/Lsm.v ===== *)
(** * aegis_lsm.c: the security hooks

    One definition per registered hook, with the guards in the order of the
    code.  [verdict]s are the reference: for every hook a decision on the
    abstract policy (which keys are on which list, which switches are on) that
    says what is returned, which counters move and what is logged.  Each hook is
    shown to implement its verdict and to leave the policy itself alone. *)

From S2P Require Import Prelude CString AegisH Kernel State PolicyList.
From S2P Require Import Process FileHash File SyscallList.

(** ** Hooks *)

Section lsm.
Context `{K : Kernel}.

(** ["%s[%d]"] of a task. *)
Definition task_tag (t : task_struct) : bytes :=
  cstr (task_comm t) ++ str "[" ++ fmt_d (task_pid t) ++ str "]".

Definition aegis_task_alloc (task : task_struct) (clone_flags : Z) : M Z := mret 0.

Definition aegis_task_free (task : task_struct) : M unit :=
  en ← gets (λ s, enabled (cfg s));
  if negb en then mret tt else stat_inc st_total_events.

Definition aegis_ptrace_access_check (child : task_struct) (mode : Z) : M Z :=
  on ← feature_check AEGIS_FEATURE_PTRACE_RESTRICT;
  if negb on then mret 0
  else
    all ← gets (λ s, ptrace_restrict_all (cfg s));
    if all : bool then
      stat_inc st_ptrace_blocked;;
      stat_inc st_total_events;;
      if negb (Z.land mode PTRACE_MODE_NOAUDIT =? 0) then mret (- EPERM)
      else
        cur ← current_task;
        AEGIS_AUDIT (str "ptrace BLOCKED: " ++ task_tag cur ++ str " -> " ++ task_tag child
                     ++ str " (all ptrace restricted)");;
        mret (- EPERM)
    else
      pp ← feature_check AEGIS_FEATURE_PROCESS_PROTECT;
      prot ← (if pp : bool then aegis_is_process_protected (Some child) else mret false);
      if prot : bool then
        stat_inc st_ptrace_blocked;;
        stat_inc st_total_events;;
        cur ← current_task;
        AEGIS_AUDIT (str "ptrace BLOCKED: " ++ task_tag cur ++ str " -> PROTECTED "
                     ++ task_tag child);;
        mret (- EPERM)
      else mret 0.

Definition aegis_ptrace_traceme (parent : task_struct) : M Z :=
  on ← feature_check AEGIS_FEATURE_PTRACE_RESTRICT;
  if negb on then mret 0
  else
    all ← gets (λ s, ptrace_restrict_all (cfg s));
    if all : bool then
      stat_inc st_ptrace_blocked;;
      stat_inc st_total_events;;
      cur ← current_task;
      AEGIS_AUDIT (str "ptrace TRACEME BLOCKED: " ++ task_tag cur ++ str " from "
                   ++ task_tag parent);;
      mret (- EPERM)
    else mret 0.

Definition aegis_file_permission (file : kfile) (mask : Z) : M Z :=
  on ← feature_check AEGIS_FEATURE_FILE_INTEGRITY;
  if negb on then mret 0
  else
    n ← aegis_protected_file_count;
    if n =? 0 then mret 0
    else
      ok ← get_free_page;
      if negb ok then mret 0
      else
        p ← kcall (d_path file);
        match p with
        | inl _ => free_page;; mret 0
        | inr path_str =>
            prot ← aegis_is_file_protected (Some path_str);
            rc ← (if prot : bool then
                    enforce ← gets (λ s, file_integrity_enforce (cfg s));
                    rc ← (if negb (Z.land mask (Z.lor MAY_WRITE MAY_APPEND) =? 0) && enforce then
                            stat_inc st_file_violations;;
                            stat_inc st_total_events;;
                            cur ← current_task;
                            AEGIS_AUDIT (str "file WRITE BLOCKED: " ++ task_tag cur ++ str " -> "
                                         ++ cstr path_str ++ str " (protected)");;
                            mret (- EACCES)
                          else mret 0);
                    log ← gets (λ s, file_integrity_log (cfg s));
                    (if log && (rc =? 0) then
                       stat_inc st_total_events;;
                       cur ← current_task;
                       AEGIS_AUDIT (str "file ACCESS: " ++ task_tag cur ++ str " -> "
                                    ++ cstr path_str ++ str " (mask=0x" ++ fmt_x (u32 mask)
                                    ++ str ")")
                     else mret tt);;
                    mret rc
                  else mret 0);
            free_page;;
            mret rc
        end.

Definition open_mask (file : kfile) : Z :=
  let mask := if negb (Z.land (f_mode file) FMODE_WRITE =? 0) then Z.lor 0 MAY_WRITE else 0 in
  if negb (Z.land (f_mode file) FMODE_READ =? 0) then Z.lor mask MAY_READ else mask.

Definition aegis_file_open (file : kfile) : M Z :=
  let mask := open_mask file in
  if mask =? 0 then mret 0 else aegis_file_permission file mask.

Definition aegis_read_id_to_syscall (id : kernel_read_file_id) : Z :=
  match id with
  | READING_MODULE => NR_finit_module
  | READING_KEXEC_IMAGE | READING_KEXEC_INITRAMFS => NR_kexec_file_load
  | _ => -1
  end.

Definition aegis_kernel_read_file (file : option kfile) (id : kernel_read_file_id)
    (contents_only : bool) : M Z :=
  en ← gets (λ s, enabled (cfg s));
  if negb en then mret 0
  else
    let nr := aegis_read_id_to_syscall id in
    b ← (if 0 <=? nr then aegis_is_syscall_blocked nr else mret false);
    if b : bool then
      stat_inc st_syscall_violations;;
      stat_inc st_total_events;;
      AEGIS_AUDIT (str "BLOCKED syscall " ++ fmt_d nr ++ str " via kernel_read_file (id="
                   ++ fmt_d (read_id_val id) ++ str ")");;
      mret (- EPERM)
    else
      on ← feature_check AEGIS_FEATURE_MODULE_CONTROL;
      if negb on then mret 0
      else
        denied ← gets (λ s, module_loading_denied (cfg s));
        if bool_decide (id = READING_MODULE) && denied then
          match file with
          | None => mret (- EPERM)
          | Some file =>
              ok ← get_free_page;
              if negb ok then mret (- ENOMEM)
              else
                p ← kcall (d_path file);
                match p with
                | inr path_str =>
                    stat_inc st_module_violations;;
                    stat_inc st_total_events;;
                    cur ← current_task;
                    AEGIS_AUDIT (str "module LOAD BLOCKED: " ++ task_tag cur ++ str " -> "
                                 ++ cstr path_str)
                | inl _ => mret tt
                end;;
                free_page;;
                mret (- EPERM)
          end
        else if bool_decide (id = READING_FIRMWARE) && denied then
          stat_inc st_module_violations;;
          stat_inc st_total_events;;
          cur ← current_task;
          AEGIS_AUDIT (str "firmware LOAD BLOCKED: " ++ task_tag cur);;
          mret (- EPERM)
        else mret 0.

Definition aegis_kernel_load_data (id : kernel_load_data_id) (contents : bool) : M Z :=
  en ← gets (λ s, enabled (cfg s));
  if negb en then mret 0
  else
    au ← feature_check AEGIS_FEATURE_SYSCALL_AUDIT;
    b ← (if au : bool then
           b1 ← (if bool_decide (id = LOADING_MODULE)
                 then aegis_is_syscall_blocked NR_init_module else mret false);
           if b1 : bool then mret true
           else if bool_decide (id = LOADING_KEXEC_IMAGE)
                then aegis_is_syscall_blocked NR_kexec_load else mret false
         else mret false);
    if b : bool then
      stat_inc st_syscall_violations;;
      stat_inc st_total_events;;
      AEGIS_AUDIT (str "BLOCKED syscall via kernel_load_data (id=" ++ fmt_d (load_id_val id)
                   ++ str ")");;
      mret (- EPERM)
    else
      on ← feature_check AEGIS_FEATURE_MODULE_CONTROL;
      if negb on then mret 0
      else
        denied ← gets (λ s, module_loading_denied (cfg s));
        if bool_decide (id = LOADING_MODULE) && denied then
          stat_inc st_module_violations;;
          stat_inc st_total_events;;
          cur ← current_task;
          AEGIS_AUDIT (str "module LOAD DATA BLOCKED: " ++ task_tag cur);;
          mret (- EPERM)
        else mret 0.

Definition aegis_bprm_check_security : M Z :=
  en ← gets (λ s, enabled (cfg s));
  if negb en then mret 0
  else
    au ← feature_check AEGIS_FEATURE_SYSCALL_AUDIT;
    en ← gets (λ s, syscall_audit_enable (cfg s));
    (if au && en then stat_inc st_total_events else mret tt);;
    mret 0.

Definition aegis_socket_create (family type protocol kern : Z) : M Z :=
  en ← gets (λ s, enabled (cfg s));
  if negb en then mret 0 else mret 0.

Definition aegis_inode_permission (mask : Z) : M Z := mret 0.

(** The table: hook points and the functions installed there. *)
Definition aegis_hooks : list (string * hook_fn) :=
  [("task_alloc", F_aegis_task_alloc);
   ("task_free", F_aegis_task_free);
   ("ptrace_access_check", F_aegis_ptrace_access_check);
   ("ptrace_traceme", F_aegis_ptrace_traceme);
   ("file_permission", F_aegis_file_permission);
   ("file_open", F_aegis_file_open);
   ("kernel_read_file", F_aegis_kernel_read_file);
   ("kernel_load_data", F_aegis_kernel_load_data);
   ("bprm_check_security", F_aegis_bprm_check_security);
   ("socket_create", F_aegis_socket_create);
   ("inode_permission", F_aegis_inode_permission)].

(** include/uapi/linux/lsm.h, as the patch of the repository extends it. *)
Definition LSM_ID_AEGIS : Z := 114.

Definition aegis_lsmid : lsm_id := mkLsmId AEGIS_NAME LSM_ID_AEGIS.

(** What security_add_hooks enters into the framework's lists. *)
Definition registered_hooks : list (string * hook_fn * lsm_id) :=
  (λ h, (h, aegis_lsmid)) <$> aegis_hooks.

(** ** Reference decisions *)

(** What a hook returns, the counters it increments, the lines it logs. *)
Record verdict := mkVerdict { v_rc : Z; v_stats : list stat; v_log : list bytes }.

Definition allow : verdict := mkVerdict 0 [] [].

Definition bump (ks : list stat) (c : aegis_config) : aegis_config :=
  fold_left (λ c k, AEGIS_STAT_INC k c) ks c.

Definition audit_line (m : bytes) : loglevel * bytes :=
  (KERN_WARNING, str "aegis: " ++ m ++ [LF]).

(** A run implements a verdict: return value, counters and log are exactly
    those of the verdict, and no policy or resource has changed. *)
Definition implements (v : verdict) (s : sys) (rc : Z) (s' : sys) : Prop :=
  rc = v_rc v ∧ cfg s' = bump (v_stats v) (cfg s) ∧
  klog s' = klog s ++ (audit_line <$> v_log v) ∧
  reg s' = reg s ∧ vars s' = vars s ∧ sfs s' = sfs s ∧ res s' = res s ∧ hooks s' = hooks s.

#[global] Instance key_covers_dec task k : Decision (key_covers task k).
Proof. unfold key_covers. apply _. Defined.

(** The task is covered by a key of the process list. *)
Definition proc_protected (s : sys) (task : task_struct) : bool :=
  AEGIS_FEATURE_CHECK (cfg s) AEGIS_FEATURE_PROCESS_PROTECT &&
  bool_decide (Exists (key_covers task) (pl_abs (E := aegis_protected_proc) s)).

Definition ptrace_verdict (s : sys) (child : task_struct) (mode : Z) : verdict :=
  let who := task_tag (current (world s)) in
  if negb (AEGIS_FEATURE_CHECK (cfg s) AEGIS_FEATURE_PTRACE_RESTRICT) then allow
  else if ptrace_restrict_all (cfg s) then
    mkVerdict (- EPERM) [st_ptrace_blocked; st_total_events]
      (if Z.land mode PTRACE_MODE_NOAUDIT =? 0
       then [str "ptrace BLOCKED: " ++ who ++ str " -> " ++ task_tag child
             ++ str " (all ptrace restricted)"] else [])
  else if proc_protected s child then
    mkVerdict (- EPERM) [st_ptrace_blocked; st_total_events]
      [str "ptrace BLOCKED: " ++ who ++ str " -> PROTECTED " ++ task_tag child]
  else allow.

Definition traceme_verdict (s : sys) (parent : task_struct) : verdict :=
  if AEGIS_FEATURE_CHECK (cfg s) AEGIS_FEATURE_PTRACE_RESTRICT && ptrace_restrict_all (cfg s)
  then mkVerdict (- EPERM) [st_ptrace_blocked; st_total_events]
         [str "ptrace TRACEME BLOCKED: " ++ task_tag (current (world s)) ++ str " from "
          ++ task_tag parent]
  else allow.

(** The path of a file as a hook can learn it: it needs a page and [d_path]. *)
Definition path_seen (file : kfile) (w : kworld) : option bytes * kworld :=
  let '(ok, w1) := page_ok w in
  if ok : bool then
    match d_path file w1 with
    | (inr p, w2) => (Some p, w2)
    | (inl _, w2) => (None, w2)
    end
  else (None, w1).

Definition writes (mask : Z) : bool := negb (Z.land mask (Z.lor MAY_WRITE MAY_APPEND) =? 0).

Definition file_verdict (s : sys) (file : kfile) (mask : Z) : verdict :=
  match path_seen file (world s) with
  | (None, _) => allow
  | (Some p, w) =>
      if negb (file_protected s p) then allow
      else if writes mask && file_integrity_enforce (cfg s) then
        mkVerdict (- EACCES) [st_file_violations; st_total_events]
          [str "file WRITE BLOCKED: " ++ task_tag (current w) ++ str " -> " ++ cstr p
           ++ str " (protected)"]
      else if file_integrity_log (cfg s) then
        mkVerdict 0 [st_total_events]
          [str "file ACCESS: " ++ task_tag (current w) ++ str " -> " ++ cstr p
           ++ str " (mask=0x" ++ fmt_x (u32 mask) ++ str ")"]
      else allow
  end.

Definition open_verdict (s : sys) (file : kfile) : verdict :=
  if open_mask file =? 0 then allow else file_verdict s file (open_mask file).

(** The system calls a kernel read or load stands for. *)
Definition read_blocked (s : sys) (id : kernel_read_file_id) : bool :=
  (0 <=? aegis_read_id_to_syscall id) && blocked s (aegis_read_id_to_syscall id).

Definition load_blocked (s : sys) (id : kernel_load_data_id) : bool :=
  match id with
  | LOADING_MODULE => blocked s NR_init_module
  | LOADING_KEXEC_IMAGE => blocked s NR_kexec_load
  | LOADING_FIRMWARE | LOADING_OTHER _ => false
  end.

Definition modules_denied (c : aegis_config) : bool :=
  AEGIS_FEATURE_CHECK c AEGIS_FEATURE_MODULE_CONTROL && module_loading_denied c.

Definition read_verdict (s : sys) (file : option kfile) (id : kernel_read_file_id) : verdict :=
  if negb (enabled (cfg s)) then allow
  else if read_blocked s id then
    mkVerdict (- EPERM) [st_syscall_violations; st_total_events]
      [str "BLOCKED syscall " ++ fmt_d (aegis_read_id_to_syscall id)
       ++ str " via kernel_read_file (id=" ++ fmt_d (read_id_val id) ++ str ")"]
  else if negb (modules_denied (cfg s)) then allow
  else match id, file with
  | READING_MODULE, None => mkVerdict (- EPERM) [] []
  | READING_MODULE, Some f =>
      if negb (page_ok (world s)).1 then mkVerdict (- ENOMEM) [] []
      else match path_seen f (world s) with
      | (Some p, w) => mkVerdict (- EPERM) [st_module_violations; st_total_events]
          [str "module LOAD BLOCKED: " ++ task_tag (current w) ++ str " -> " ++ cstr p]
      | (None, _) => mkVerdict (- EPERM) [] []
      end
  | READING_FIRMWARE, _ => mkVerdict (- EPERM) [st_module_violations; st_total_events]
      [str "firmware LOAD BLOCKED: " ++ task_tag (current (world s))]
  | _, _ => allow
  end.

Definition load_verdict (s : sys) (id : kernel_load_data_id) : verdict :=
  if negb (enabled (cfg s)) then allow
  else if load_blocked s id then
    mkVerdict (- EPERM) [st_syscall_violations; st_total_events]
      [str "BLOCKED syscall via kernel_load_data (id=" ++ fmt_d (load_id_val id) ++ str ")"]
  else if modules_denied (cfg s) && bool_decide (id = LOADING_MODULE) then
    mkVerdict (- EPERM) [st_module_violations; st_total_events]
      [str "module LOAD DATA BLOCKED: " ++ task_tag (current (world s))]
  else allow.

Definition bprm_verdict (s : sys) : verdict :=
  if audit_on (cfg s) then mkVerdict 0 [st_total_events] [] else allow.

(** ** Each hook implements its verdict *)

Lemma implements_allow s : implements allow s 0 s.
Proof. unfold implements. cbn. by rewrite app_nil_r. Qed.

(** The closing step: everything the verdict speaks of is already computed. *)
Ltac verdict_done :=
  unfold implements, allow; cbn; rewrite ?app_nil_r, ?add_pages_inv; by auto 10.

Lemma is_process_protected_run task s :
  pl_inv (E := aegis_protected_proc) s →
  aegis_is_process_protected (Some task) s = Some (proc_protected s task, s).
Proof.
  intros Hinv. destruct (is_process_protected_spec task s Hinv) as (b & Hb & Hiff).
  rewrite Hb. f_equal. f_equal. apply eq_iff_eq_true. rewrite Hiff.
  unfold proc_protected. rewrite andb_true_iff, bool_decide_eq_true, Exists_exists. done.
Qed.

Lemma ptrace_access_check_ok child mode s :
  pl_inv (E := aegis_protected_proc) s →
  wp (aegis_ptrace_access_check child mode) (implements (ptrace_verdict s child mode) s) s.
Proof.
  intros Hinv. unfold aegis_ptrace_access_check, ptrace_verdict.
  wp_step. wp_step. destruct (AEGIS_FEATURE_CHECK _ AEGIS_FEATURE_PTRACE_RESTRICT); cbn [negb].
  2: { apply wp_ret, implements_allow. }
  wp_step. wp_step. destruct (ptrace_restrict_all (cfg s)).
  - wp_step. wp_step. wp_step. wp_step. destruct (Z.land _ _ =? 0); cbn [negb].
    + wp_go. verdict_done.
    + wp_go. verdict_done.
  - wp_step. wp_step. wp_step.
    assert (wp (if AEGIS_FEATURE_CHECK (cfg s) AEGIS_FEATURE_PROCESS_PROTECT
                then aegis_is_process_protected (Some child) else mret false)
               (λ b s', b = proc_protected s child ∧ s' = s) s) as Hp.
    { destruct (AEGIS_FEATURE_CHECK _ _) eqn:E.
      - eapply wp_of_run; [by apply is_process_protected_run|]. done.
      - apply wp_ret. unfold proc_protected. by rewrite E. }
    eapply wp_mono; [exact Hp|]. intros b s' [-> ->].
    destruct (proc_protected s child); [|apply wp_ret, implements_allow].
    wp_go. verdict_done.
Qed.

Lemma ptrace_traceme_ok parent s :
  wp (aegis_ptrace_traceme parent) (implements (traceme_verdict s parent) s) s.
Proof.
  unfold aegis_ptrace_traceme, traceme_verdict.
  wp_step. wp_step. destruct (AEGIS_FEATURE_CHECK _ _); cbn [negb andb].
  2: { apply wp_ret, implements_allow. }
  wp_step. wp_step. destruct (ptrace_restrict_all (cfg s)).
  - wp_go. verdict_done.
  - apply wp_ret, implements_allow.
Qed.

Lemma file_permission_ok file mask s :
  file_inv s → wp (aegis_file_permission file mask) (implements (file_verdict s file mask) s) s.
Proof.
  intros Hinv. unfold aegis_file_permission, aegis_protected_file_count, file_verdict.
  wp_step. wp_step. destruct (AEGIS_FEATURE_CHECK _ _) eqn:Hf; cbn [negb].
  2: { apply wp_ret. unfold path_seen, file_protected. rewrite Hf.
       destruct (page_ok _) as [[] ?]; [destruct (d_path _ _) as [[] ?]|]; apply implements_allow. }
  wp_step. wp_step. destruct (_ =? 0) eqn:Hn.
  { apply wp_ret. unfold path_seen.
    assert (file_abs s = []) as Habs.
    { destruct Hinv as [Hc _]. cbn in Hc. apply Z.eqb_eq in Hn. unfold file_abs, pl_abs. cbn.
      destruct (protected_files (reg s)); [done|]. cbn in Hc. lia. }
    assert (∀ p, file_protected s p = false) as Hp.
    { intros p. unfold file_protected. rewrite Habs. by rewrite andb_false_r. }
    destruct (page_ok _) as [[] ?]; [destruct (d_path _ _) as [[] ?]|]; rewrite ?Hp;
      apply implements_allow. }
  wp_step. unfold path_seen.
  apply wp_get_free_page; intros w Hw; rewrite Hw; cbn [negb].
  { apply wp_ret. verdict_done. }
  wp_step. apply wp_kcall. intros [e|p] w' Hd; cbn in Hd; rewrite Hd.
  { wp_go. verdict_done. }
  wp_step. eapply wp_of_run; [by apply is_file_protected_run|].
  change (file_protected _ p) with (file_protected s p).
  destruct (file_protected s p); cbn [negb].
  2: { wp_go. verdict_done. }
  unfold writes.
  wp_go; cbn in *; errno; rewrite ?andb_false_r, ?andb_true_r in *; try discriminate;
    repeat match goal with H : _ = true |- _ => rewrite H | H : _ = false |- _ => rewrite H end;
    verdict_done.
Qed.

Lemma file_open_ok file s :
  file_inv s → wp (aegis_file_open file) (implements (open_verdict s file) s) s.
Proof.
  intros Hinv. unfold aegis_file_open, open_verdict. destruct (_ =? 0).
  - apply wp_ret, implements_allow.
  - by apply file_permission_ok.
Qed.

(** Evaluate comparisons of enumerators. *)
Ltac decide_ids :=
  repeat match goal with
  | |- context [bool_decide ?P] =>
      let b := eval vm_compute in (bool_decide P) in change (bool_decide P) with b
  end; cbn [andb].

Lemma kernel_read_file_ok file id c s :
  wp (aegis_kernel_read_file file id c) (implements (read_verdict s file id) s) s.
Proof.
  unfold aegis_kernel_read_file, read_verdict.
  wp_step. wp_step. destruct (enabled (cfg s)); cbn [negb].
  2: { apply wp_ret, implements_allow. }
  wp_step.
  assert (wp (if 0 <=? aegis_read_id_to_syscall id
              then aegis_is_syscall_blocked (aegis_read_id_to_syscall id) else mret false)
             (λ b s', b = read_blocked s id ∧ s' = s) s) as Hb.
  { unfold read_blocked. destruct (0 <=? _); [|by apply wp_ret].
    eapply wp_of_run; [apply is_syscall_blocked_run|]. done. }
  eapply wp_mono; [exact Hb|]. intros b s' [-> ->].
  destruct (read_blocked s id). { wp_go. verdict_done. }
  wp_step. wp_step. unfold modules_denied.
  destruct (AEGIS_FEATURE_CHECK _ _); cbn [negb andb].
  2: { apply wp_ret, implements_allow. }
  wp_step. wp_step. destruct (module_loading_denied (cfg s)); cbn [negb].
  2: { rewrite !andb_false_r. apply wp_ret, implements_allow. }
  destruct id; decide_ids; try (apply wp_ret, implements_allow).
  - destruct file as [f|]; [|apply wp_ret; verdict_done].
    wp_step. unfold path_seen.
    apply wp_get_free_page; intros w Hw; rewrite Hw; cbn [negb fst].
    { apply wp_ret. verdict_done. }
    wp_step. apply wp_kcall. intros [e|p] w' Hd; cbn in Hd; rewrite Hd; wp_go; verdict_done.
  - wp_go. verdict_done.
Qed.

Lemma kernel_load_data_ok id c s :
  wp (aegis_kernel_load_data id c) (implements (load_verdict s id) s) s.
Proof.
  unfold aegis_kernel_load_data, load_verdict.
  wp_step. wp_step. destruct (enabled (cfg s)); cbn [negb].
  2: { apply wp_ret, implements_allow. }
  wp_step. wp_step. wp_step.
  match goal with |- wpx _ ?m _ _ =>
    assert (wp m (λ b s', b = load_blocked s id ∧ s' = s) s) as Hb end.
  { destruct (AEGIS_FEATURE_CHECK _ _) eqn:E.
    - destruct id; decide_ids; wp_step.
      + by repeat apply wp_ret.
      + eapply wp_of_run; [apply is_syscall_blocked_run|]. cbn. by destruct (blocked _ _).
      + apply wp_ret. eapply wp_of_run; [apply is_syscall_blocked_run|]. done.
      + by repeat apply wp_ret.
    - apply wp_ret. unfold load_blocked, blocked, audit_on. rewrite E. by destruct id. }
  eapply wp_mono; [exact Hb|]. intros b s' [-> ->].
  destruct (load_blocked s id). { wp_go. verdict_done. }
  wp_step. wp_step. unfold modules_denied.
  destruct (AEGIS_FEATURE_CHECK _ AEGIS_FEATURE_MODULE_CONTROL); cbn [negb andb].
  2: { apply wp_ret, implements_allow. }
  wp_step. wp_step. rewrite andb_comm. destruct (module_loading_denied (cfg s) && _).
  - wp_go. verdict_done.
  - apply wp_ret, implements_allow.
Qed.

Lemma bprm_check_security_ok s :
  wp aegis_bprm_check_security (implements (bprm_verdict s) s) s.
Proof.
  unfold aegis_bprm_check_security, bprm_verdict, audit_on.
  wp_step. wp_step. destruct (enabled (cfg s)) eqn:E; cbn [negb].
  2: { apply wp_ret. unfold AEGIS_FEATURE_CHECK. rewrite E. apply implements_allow. }
  wp_step. wp_step. wp_step. wp_step. wp_step.
  destruct (_ && _); wp_go; verdict_done.
Qed.

End lsm.
