(* ===== verification/Sysctl.v ===== *)
(** * aegis_sysctl.c: runtime switches

    Each file under /proc/sys/kernel/aegis exposes an int variable through
    [proc_dointvec]; a handler copies the variable into [aegis_cfg] after a
    successful write.  Shown: the configuration the hooks read and the variables
    the operator sees agree at all times, and a handler touches its own field
    only. *)

From S2P Require Import Prelude CString AegisH Kernel State.

(** The boolean switches of the configuration that have a sysctl file. *)
Inductive switch :=
  | sw_enabled | sw_ptrace_restrict_all | sw_file_integrity_enforce
  | sw_file_integrity_log | sw_module_loading_denied | sw_syscall_audit_enable.

#[export] Instance switch_eq_dec : EqDecision switch.
Proof. solve_decision. Defined.

(** ** Field access *)

Definition switch_get (k : switch) (c : aegis_config) : bool :=
  match k with
  | sw_enabled => enabled c
  | sw_ptrace_restrict_all => ptrace_restrict_all c
  | sw_file_integrity_enforce => file_integrity_enforce c
  | sw_file_integrity_log => file_integrity_log c
  | sw_module_loading_denied => module_loading_denied c
  | sw_syscall_audit_enable => syscall_audit_enable c
  end.

Definition switch_set (k : switch) (b : bool) (c : aegis_config) : aegis_config :=
  let upd k' old := if decide (k = k') then b else old in
  {| enabled := upd sw_enabled (enabled c);
     features := features c;
     ptrace_restrict_all := upd sw_ptrace_restrict_all (ptrace_restrict_all c);
     ptrace_scope := ptrace_scope c;
     file_integrity_enforce := upd sw_file_integrity_enforce (file_integrity_enforce c);
     file_integrity_log := upd sw_file_integrity_log (file_integrity_log c);
     syscall_audit_enable := upd sw_syscall_audit_enable (syscall_audit_enable c);
     syscall_deny_unlisted := syscall_deny_unlisted c;
     module_loading_denied := upd sw_module_loading_denied (module_loading_denied c);
     module_force_loading := module_force_loading c;
     ptrace_blocked := ptrace_blocked c;
     file_violations := file_violations c;
     syscall_violations := syscall_violations c;
     module_violations := module_violations c;
     total_events := total_events c |}.

Definition features_set (f : Z) (c : aegis_config) : aegis_config :=
  {| enabled := enabled c;
     features := f;
     ptrace_restrict_all := ptrace_restrict_all c;
     ptrace_scope := ptrace_scope c;
     file_integrity_enforce := file_integrity_enforce c;
     file_integrity_log := file_integrity_log c;
     syscall_audit_enable := syscall_audit_enable c;
     syscall_deny_unlisted := syscall_deny_unlisted c;
     module_loading_denied := module_loading_denied c;
     module_force_loading := module_force_loading c;
     ptrace_blocked := ptrace_blocked c;
     file_violations := file_violations c;
     syscall_violations := syscall_violations c;
     module_violations := module_violations c;
     total_events := total_events c |}.

Definition var_get (k : switch) (v : sysctl_vars) : Z :=
  match k with
  | sw_enabled => aegis_enabled v
  | sw_ptrace_restrict_all => aegis_ptrace_restrict_all v
  | sw_file_integrity_enforce => aegis_file_integrity_enforce v
  | sw_file_integrity_log => aegis_file_integrity_log v
  | sw_module_loading_denied => aegis_module_loading_denied v
  | sw_syscall_audit_enable => aegis_syscall_audit_enable v
  end.

Definition var_set (k : switch) (x : Z) (v : sysctl_vars) : sysctl_vars :=
  let upd k' old := if decide (k = k') then x else old in
  {| aegis_enabled := upd sw_enabled (aegis_enabled v);
     aegis_features_val := aegis_features_val v;
     aegis_ptrace_restrict_all := upd sw_ptrace_restrict_all (aegis_ptrace_restrict_all v);
     aegis_file_integrity_enforce := upd sw_file_integrity_enforce (aegis_file_integrity_enforce v);
     aegis_file_integrity_log := upd sw_file_integrity_log (aegis_file_integrity_log v);
     aegis_module_loading_denied := upd sw_module_loading_denied (aegis_module_loading_denied v);
     aegis_syscall_audit_enable := upd sw_syscall_audit_enable (aegis_syscall_audit_enable v);
     aegis_sysctl_header := aegis_sysctl_header v;
     sysctl_tables := sysctl_tables v |}.

Definition features_val_set (x : Z) (v : sysctl_vars) : sysctl_vars :=
  mkVars (aegis_enabled v) x (aegis_ptrace_restrict_all v) (aegis_file_integrity_enforce v)
         (aegis_file_integrity_log v) (aegis_module_loading_denied v)
         (aegis_syscall_audit_enable v) (aegis_sysctl_header v) (sysctl_tables v).

(** The static ints of the file, by address. *)
Inductive sysctl_int := I_switch (k : switch) | I_features_val.

Definition int_get (d : sysctl_int) (v : sysctl_vars) : Z :=
  match d with I_switch k => var_get k v | I_features_val => aegis_features_val v end.

Definition int_set (d : sysctl_int) (x : Z) (v : sysctl_vars) : sysctl_vars :=
  match d with I_switch k => var_set k x v | I_features_val => features_val_set x v end.

(** The header pointer and the number of registered tables. *)
Definition header_set (b : bool) (n : Z) (v : sysctl_vars) : sysctl_vars :=
  mkVars (aegis_enabled v) (aegis_features_val v) (aegis_ptrace_restrict_all v)
         (aegis_file_integrity_enforce v) (aegis_file_integrity_log v)
         (aegis_module_loading_denied v) (aegis_syscall_audit_enable v) b n.

(** Initial values of the static variables. *)
Definition sysctl_vars_init : sysctl_vars :=
  mkVars 1 AEGIS_FEATURE_ALL 0 1 1 0 1 false 0.

(** ** Handlers *)

Section sysctl.
Context `{K : Kernel}.

Definition aegis_proc_enable (data : sysctl_int) (write : bool) (io : ctl_io) : M Z :=
  v ← gets (λ s, int_get data (vars s));
  r ← kcall (proc_dointvec v write io);
  modify (λ s, set_vars (int_set data r.2 (vars s)) s);;
  (if write && (r.1 =? 0) then
     modify (λ s, set_cfg (switch_set sw_enabled (negb (aegis_enabled (vars s) =? 0)) (cfg s)) s);;
     en ← gets (λ s, enabled (cfg s));
     AEGIS_INFO (str "AEGIS " ++ if en : bool then str "ENABLED" else str "DISABLED")
   else mret tt);;
  mret r.1.

Definition aegis_proc_features (data : sysctl_int) (write : bool) (io : ctl_io) : M Z :=
  v ← gets (λ s, int_get data (vars s));
  r ← kcall (proc_dointvec v write io);
  modify (λ s, set_vars (int_set data r.2 (vars s)) s);;
  (if write && (r.1 =? 0) then
     modify (λ s, set_cfg (features_set (u32 (aegis_features_val (vars s))) (cfg s)) s);;
     f ← gets (λ s, features (cfg s));
     AEGIS_INFO (str "Features updated: 0x" ++ fmt_08x f)
   else mret tt);;
  mret r.1.

(** The body AEGIS_BOOL_HANDLER generates for a variable [aegis_##name], a field
    of the configuration and a description. *)
Definition AEGIS_BOOL_HANDLER (name cfg_field : switch) (desc : bytes)
    (data : sysctl_int) (write : bool) (io : ctl_io) : M Z :=
  v ← gets (λ s, int_get data (vars s));
  r ← kcall (proc_dointvec v write io);
  modify (λ s, set_vars (int_set data r.2 (vars s)) s);;
  (if write && (r.1 =? 0) then
     modify (λ s, set_cfg (switch_set cfg_field (negb (var_get name (vars s) =? 0)) (cfg s)) s);;
     on ← gets (λ s, switch_get cfg_field (cfg s));
     AEGIS_INFO (desc ++ str ": " ++ if on : bool then str "ON" else str "OFF")
   else mret tt);;
  mret r.1.

Definition aegis_proc_ptrace_restrict_all :=
  AEGIS_BOOL_HANDLER sw_ptrace_restrict_all sw_ptrace_restrict_all
    (str "Ptrace restriction (all processes)").
Definition aegis_proc_file_integrity_enforce :=
  AEGIS_BOOL_HANDLER sw_file_integrity_enforce sw_file_integrity_enforce
    (str "File integrity enforcement").
Definition aegis_proc_file_integrity_log :=
  AEGIS_BOOL_HANDLER sw_file_integrity_log sw_file_integrity_log (str "File integrity logging").
Definition aegis_proc_module_loading_denied :=
  AEGIS_BOOL_HANDLER sw_module_loading_denied sw_module_loading_denied
    (str "Module/kexec loading denial").
Definition aegis_proc_syscall_audit_enable :=
  AEGIS_BOOL_HANDLER sw_syscall_audit_enable sw_syscall_audit_enable (str "Syscall auditing").

(** struct ctl_table. *)
Record ctl_table := mkCtl {
  procname : string;
  data : sysctl_int;
  maxlen : Z;
  ct_mode : Z;
  proc_handler : sysctl_int → bool → ctl_io → M Z;
}.

(** [sizeof(int)]: each file holds one integer. *)
Definition sizeof_int : Z := 4.

Definition aegis_sysctl_table : list ctl_table :=
  [mkCtl "enabled" (I_switch sw_enabled) sizeof_int 420 aegis_proc_enable;
   mkCtl "features" I_features_val sizeof_int 420 aegis_proc_features;
   mkCtl "ptrace_restrict_all" (I_switch sw_ptrace_restrict_all) sizeof_int 420
     aegis_proc_ptrace_restrict_all;
   mkCtl "file_integrity_enforce" (I_switch sw_file_integrity_enforce) sizeof_int 420
     aegis_proc_file_integrity_enforce;
   mkCtl "file_integrity_log" (I_switch sw_file_integrity_log) sizeof_int 420
     aegis_proc_file_integrity_log;
   mkCtl "module_loading_denied" (I_switch sw_module_loading_denied) sizeof_int 420
     aegis_proc_module_loading_denied;
   mkCtl "syscall_audit_enable" (I_switch sw_syscall_audit_enable) sizeof_int 420
     aegis_proc_syscall_audit_enable].

(** An access to a file of the table: its handler gets its entry, of which
    [proc_dointvec] uses the data pointer. *)
Definition sysctl_access (t : ctl_table) (write : bool) (io : ctl_io) : M Z :=
  proc_handler t (data t) write io.

Definition aegis_sysctl_init : M Z :=
  ok ← kcall register_sysctl_ok;
  modify (λ s, set_vars (header_set ok (sysctl_tables (vars s) + Z.b2z ok) (vars s)) s);;
  if negb ok then
    AEGIS_ERR (str "Failed to register sysctl interface");;
    mret (- ENOMEM)
  else
    AEGIS_INFO (str "Sysctl interface created at /proc/sys/kernel/aegis/");;
    mret 0.

(** The header pointer keeps its value. *)
Definition aegis_sysctl_exit : M unit :=
  h ← gets (λ s, aegis_sysctl_header (vars s));
  if h : bool
  then modify (λ s, set_vars (header_set h (sysctl_tables (vars s) - 1) (vars s)) s)
  else mret tt.

(** ** Lemmas *)

(** What the operator reads is what the hooks use. *)
Definition in_sync (s : sys) : Prop :=
  (∀ k, switch_get k (cfg s) = negb (var_get k (vars s) =? 0)) ∧
  features (cfg s) = u32 (aegis_features_val (vars s)).

Lemma switch_get_set k k' b c :
  switch_get k' (switch_set k b c) = if decide (k = k') then b else switch_get k' c.
Proof. by destruct k'. Qed.

Lemma var_get_set k k' x v :
  var_get k' (var_set k x v) = if decide (k = k') then x else var_get k' v.
Proof. by destruct k'. Qed.

Lemma switch_get_flags k c c' : cfg_flags c = cfg_flags c' → switch_get k c = switch_get k c'.
Proof. destruct c, c'. unfold cfg_flags, set_stats. cbn. intros [=]. by subst. Qed.

(** What a handler leaves alone. *)
Definition sysctl_frame (s s' : sys) : Prop :=
  reg s' = reg s ∧ sfs s' = sfs s ∧ res s' = res s ∧ hooks s' = hooks s ∧
  (∀ k, stat_get k (cfg s') = stat_get k (cfg s)).

(** A boolean handler: the variable takes the value [proc_dointvec] gives it,
    and after a successful write the switch is "not zero". *)
Definition switch_post (k : switch) (write : bool) (io : ctl_io) (s : sys) (rc : Z) (s' : sys) : Prop :=
  let r := (proc_dointvec (var_get k (vars s)) write io (world s)).1 in
  rc = r.1 ∧ vars s' = var_set k r.2 (vars s) ∧ sysctl_frame s s' ∧
  cfg s' = if write && (r.1 =? 0) then switch_set k (negb (r.2 =? 0)) (cfg s) else cfg s.

Lemma bool_handler_spec k desc write io s :
  wp (AEGIS_BOOL_HANDLER k k desc (I_switch k) write io) (switch_post k write io s) s.
Proof.
  unfold AEGIS_BOOL_HANDLER, switch_post, sysctl_frame. wp_step. wp_step. wp_step.
  apply wp_kcall. intros r w Hr. cbn [int_get int_set] in *. rewrite Hr. cbn [fst].
  wp_step. wp_step. wp_step. destruct (write && _); wp_go; cbn; [|done].
  rewrite var_get_set, decide_True by done. split; [done|]. repeat split; by intros [].
Qed.

Lemma proc_enable_spec write io s :
  wp (aegis_proc_enable (I_switch sw_enabled) write io) (switch_post sw_enabled write io s) s.
Proof.
  unfold aegis_proc_enable, switch_post, sysctl_frame. wp_step. wp_step. wp_step.
  apply wp_kcall. intros r w Hr. cbn in Hr |- *. rewrite Hr. cbn [fst].
  wp_step. wp_step. wp_step. destruct (write && _); wp_go; cbn; [|done].
  split; [done|]. repeat split; by intros [].
Qed.

Lemma proc_features_spec write io s :
  wp (aegis_proc_features I_features_val write io) (λ rc s',
    let r := (proc_dointvec (aegis_features_val (vars s)) write io (world s)).1 in
    rc = r.1 ∧ vars s' = features_val_set r.2 (vars s) ∧ sysctl_frame s s' ∧
    cfg s' = if write && (r.1 =? 0) then features_set (u32 r.2) (cfg s) else cfg s) s.
Proof.
  unfold aegis_proc_features, sysctl_frame. wp_step. wp_step. wp_step.
  apply wp_kcall. intros r w Hr. cbn in Hr |- *. rewrite Hr. cbn [fst].
  wp_step. wp_step. wp_step. destruct (write && _); wp_go; cbn; [|done].
  split; [done|]. repeat split; by intros [].
Qed.

(** Reading a file changes no switch. *)
Lemma sysctl_read_keeps i h io s rc s' :
  aegis_sysctl_table !! i = Some h → sysctl_access h false io s = Some (rc, s') → cfg s' = cfg s.
Proof.
  intros Hh Hr.
  destruct i as [|[|[|[|[|[|[|i]]]]]]]; [injection Hh as <-; unfold sysctl_access in Hr; cbn in Hr..|discriminate Hh].
  1: apply (wp_eq _ _ _ _ _ _ Hr (proc_enable_spec false io s)).
  1: apply (wp_eq _ _ _ _ _ _ Hr (proc_features_spec false io s)).
  all: apply (wp_eq _ _ _ _ _ _ Hr (bool_handler_spec _ _ false io s)).
Qed.

Section sync.
Context `{!SysctlLaws}.

(** A value the handler does not copy into the configuration is unchanged. *)
Lemma dointvec_uncommitted v write io w :
  write && ((proc_dointvec v write io w).1.1 =? 0) = false →
  (proc_dointvec v write io w).1.2 = v.
Proof.
  destruct write; cbn; [|intros _; apply dointvec_read].
  intros E%Z.eqb_neq. by apply dointvec_error.
Qed.

Lemma switch_post_sync k write io s rc s' :
  in_sync s → switch_post k write io s rc s' → in_sync s'.
Proof.
  intros [Hk Hf] (_ & Hv & _ & Hc). unfold in_sync. rewrite Hv, Hc.
  destruct (write && _) eqn:E.
  - split; [|done]. intros k'. rewrite switch_get_set, var_get_set. by case_decide.
  - split; [|done]. intros k'. rewrite var_get_set, dointvec_uncommitted by done.
    case_decide; [by subst|done].
Qed.

Definition syncs (h : bool → ctl_io → M Z) : Prop :=
  ∀ write io s, in_sync s → wp (h write io) (λ rc s', in_sync s' ∧ sysctl_frame s s') s.

Lemma bool_handler_syncs k desc : syncs (AEGIS_BOOL_HANDLER k k desc (I_switch k)).
Proof.
  intros write io s Hs. eapply wp_mono; [apply bool_handler_spec|]. intros rc s' Hp.
  split; [by eapply switch_post_sync|]. apply Hp.
Qed.

Lemma proc_enable_syncs : syncs (aegis_proc_enable (I_switch sw_enabled)).
Proof.
  intros write io s Hs. eapply wp_mono; [apply proc_enable_spec|]. intros rc s' Hp.
  split; [by eapply switch_post_sync|]. apply Hp.
Qed.

Lemma proc_features_syncs : syncs (aegis_proc_features I_features_val).
Proof.
  intros write io s [Hk Hf]. eapply wp_mono; [apply proc_features_spec|].
  cbn. intros rc s' (_ & Hv & Hfr & Hc). split; [|done]. unfold in_sync. rewrite Hv, Hc.
  destruct (write && _) eqn:E; cbn.
  - split; [|done]. intros k. specialize (Hk k). by destruct k.
  - rewrite dointvec_uncommitted by done. split; [|done].
    intros k. specialize (Hk k). by destruct k.
Qed.

Lemma sysctl_table_syncs : Forall (λ t, syncs (sysctl_access t)) aegis_sysctl_table.
Proof.
  unfold aegis_sysctl_table. repeat apply Forall_cons_2; [..|apply Forall_nil_2]; unfold sysctl_access; cbn [proc_handler data].
  1: apply proc_enable_syncs.
  1: apply proc_features_syncs.
  all: apply bool_handler_syncs.
Qed.

End sync.
End sysctl.
