(* ===== verification/Control.v ===== *)
(** * aegis_control.c: the write endpoints

    Six write-only securityfs files change the three lists.  Every handler checks
    CAP_MAC_ADMIN, copies the user's bytes into a bounded buffer
    ([aectl_get_string]), parses them and calls one list operation.  The buffer
    is a byte array updated in place; [input_of] is the text the handlers extract
    from it, and each handler is shown equal to a program on that text. *)

From S2P Require Import Prelude CString AegisH Kernel State PolicyList.
From S2P Require Import Process FileHash File SyscallList.

(** ** Shared helpers *)

Definition is_newline (c : ascii) : bool := bool_decide (c = LF) || bool_decide (c = CR).

(** [while (n > 0 && (out[n-1] is '\n' or '\r')) out[--n] = '\0';] *)
Fixpoint strip_newlines (n : nat) (out : bytes) : nat * bytes :=
  match n with
  | O => (O, out)
  | S k =>
      if is_newline (default NUL (out !! k)) then strip_newlines k (<[k := NUL]> out) else (S k, out)
  end.

(** [ubuf]: the user memory readable at the pointer; copying past it faults. *)
Definition aectl_get_string (ubuf : bytes) (len : nat) (out : bytes) (max : nat) : Z * bytes :=
  let n := Nat.min len (max - 1) in
  if (length ubuf <? n)%nat then (- EFAULT, out)
  else
    let out := take n ubuf ++ drop n out in
    let out := <[n := NUL]> out in
    if negb (strnlen out n =? n)%nat then (- EINVAL, out)
    else
      let r := strip_newlines n out in
      (Z.of_nat r.1, r.2).

Section control.
Context `{K : Kernel}.

Definition aectl_authorized : M bool := gets (λ s, capable_mac_admin (world s)).

Definition aectl_write_op (ubuf : bytes) (len : nat) (op : option bytes → M Z) : M Z :=
  auth ← aectl_authorized;
  if negb auth then mret (- EPERM)
  else if (len =? 0)%nat || (AEGIS_PATH_LEN <? len)%nat then mret (- EINVAL)
  else
    ok ← kmalloc;
    if negb ok then mret (- ENOMEM)
    else
      let g := aectl_get_string ubuf len (uninit AEGIS_PATH_LEN) AEGIS_PATH_LEN in
      ret ← (if g.1 <=? 0 then mret g.1
             else
               ret ← op (Some g.2);
               if ret =? 0 then mret (Z.of_nat len) else mret ret);
      kfree;;
      mret ret.

(** ** Endpoints *)

Definition aectl_files_add_write (fuel : nat) (ubuf : bytes) (len : nat) : M Z :=
  aectl_write_op ubuf len (aegis_protected_file_add fuel).

Definition aectl_files_del_write (ubuf : bytes) (len : nat) : M Z :=
  aectl_write_op ubuf len aegis_protected_file_del.

Definition aectl_procs_add_write (ubuf : bytes) (len : nat) : M Z :=
  auth ← aectl_authorized;
  if negb auth then mret (- EPERM)
  else if (len =? 0)%nat || (AEGIS_PATH_LEN <=? len)%nat then mret (- EINVAL)
  else
    let g := aectl_get_string ubuf len (uninit AEGIS_PATH_LEN) AEGIS_PATH_LEN in
    if g.1 <=? 0 then mret g.1
    else
      let sc := sscanf_s15_d (cstr g.2) in
      if sc_count sc <? 1 then mret (- EINVAL)
      else
        ret ← aegis_protect_process_add (Some (sc_comm sc)) (default 0 (sc_pid sc));
        if ret =? 0 then mret (Z.of_nat len) else mret ret.

Definition aectl_procs_del_write (ubuf : bytes) (len : nat) : M Z :=
  auth ← aectl_authorized;
  if negb auth then mret (- EPERM)
  else if (len =? 0)%nat || (AEGIS_PATH_LEN <=? len)%nat then mret (- EINVAL)
  else
    let g := aectl_get_string ubuf len (uninit AEGIS_PATH_LEN) AEGIS_PATH_LEN in
    if g.1 <=? 0 then mret g.1
    else
      let sc := sscanf_s15_d (cstr g.2) in
      if sc_count sc <? 1 then mret (- EINVAL)
      else
        ret ← aegis_protect_process_del (Some (sc_comm sc)) (default 0 (sc_pid sc));
        if ret =? 0 then mret (Z.of_nat len) else mret ret.

Definition aectl_syscalls_add_write (ubuf : bytes) (len : nat) : M Z :=
  auth ← aectl_authorized;
  if negb auth then mret (- EPERM)
  else if (len =? 0)%nat || (16 <=? len)%nat then mret (- EINVAL)
  else
    let g := aectl_get_string ubuf len (uninit 16) 16 in
    if g.1 <=? 0 then mret g.1
    else
      match kstrtoint10 (cstr g.2) with
      | inl _ => mret (- EINVAL)
      | inr nr =>
          if nr <? 0 then mret (- EINVAL)
          else
            ret ← aegis_syscall_block_add nr;
            if ret =? 0 then mret (Z.of_nat len) else mret ret
      end.

Definition aectl_syscalls_del_write (ubuf : bytes) (len : nat) : M Z :=
  auth ← aectl_authorized;
  if negb auth then mret (- EPERM)
  else if (len =? 0)%nat || (16 <=? len)%nat then mret (- EINVAL)
  else
    let g := aectl_get_string ubuf len (uninit 16) 16 in
    if g.1 <=? 0 then mret g.1
    else
      match kstrtoint10 (cstr g.2) with
      | inl _ => mret (- EINVAL)
      | inr nr =>
          if nr <? 0 then mret (- EINVAL)
          else
            ret ← aegis_syscall_block_del nr;
            if ret =? 0 then mret (Z.of_nat len) else mret ret
      end.

(** ** File operations *)

(** The library routines the tables name. *)
Inductive seq_routine := seq_read | seq_lseek | single_release.

(** A table: [fo_open] is the text the open routine makes the file show, and
    [fo_write] the write handler; a member left out is NULL. *)
Record file_operations := mkFops {
  fo_open : option (sys → bytes);
  fo_read : option seq_routine;
  fo_llseek : option seq_routine;
  fo_release : option seq_routine;
  fo_write : option (bytes → nat → M Z);
}.

Definition write_fops (h : bytes → nat → M Z) : file_operations :=
  mkFops None None None None (Some h).

Definition aectl_files_add_fops (fuel : nat) : file_operations := write_fops (aectl_files_add_write fuel).
Definition aectl_files_del_fops : file_operations := write_fops aectl_files_del_write.
Definition aectl_procs_add_fops : file_operations := write_fops aectl_procs_add_write.
Definition aectl_procs_del_fops : file_operations := write_fops aectl_procs_del_write.
Definition aectl_syscalls_add_fops : file_operations := write_fops aectl_syscalls_add_write.
Definition aectl_syscalls_del_fops : file_operations := write_fops aectl_syscalls_del_write.

(** The tables of aegis_control.c by address. *)
Definition aectl_fops (fuel : nat) (p : fops_ptr) : option file_operations :=
  match p with
  | P_files_add_fops => Some (aectl_files_add_fops fuel)
  | P_files_del_fops => Some aectl_files_del_fops
  | P_procs_add_fops => Some aectl_procs_add_fops
  | P_procs_del_fops => Some aectl_procs_del_fops
  | P_syscalls_add_fops => Some aectl_syscalls_add_fops
  | P_syscalls_del_fops => Some aectl_syscalls_del_fops
  | _ => None
  end.

Record aectl_entry := mkEntry {
  ae_name : string;
  ae_fops : fops_ptr;
  ae_dentry_p : nat;                (* index into [aectl_dentries] *)
}.

Definition aectl_entries : list aectl_entry :=
  [mkEntry "protected_files_add" P_files_add_fops 0;
   mkEntry "protected_files_del" P_files_del_fops 1;
   mkEntry "protected_procs_add" P_procs_add_fops 2;
   mkEntry "protected_procs_del" P_procs_del_fops 3;
   mkEntry "blocked_syscalls_add" P_syscalls_add_fops 4;
   mkEntry "blocked_syscalls_del" P_syscalls_del_fops 5].

(** write(2) on a file with the table [f]: -EINVAL when it has no handler. *)
Definition vfs_write (f : option file_operations) (ubuf : bytes) (len : nat) : M Z :=
  match f with
  | Some (mkFops _ _ _ _ (Some h)) => h ubuf len
  | _ => mret (- EINVAL)
  end.

(** The endpoints by file name, with what a write to them runs. *)
Definition aectl_handlers (fuel : nat) : list (string * (bytes → nat → M Z)) :=
  (λ e, (ae_name e, vfs_write (aectl_fops fuel (ae_fops e)))) <$> aectl_entries.

Lemma aectl_handlers_eq fuel :
  aectl_handlers fuel =
    [("protected_files_add", aectl_files_add_write fuel);
     ("protected_files_del", aectl_files_del_write);
     ("protected_procs_add", aectl_procs_add_write);
     ("protected_procs_del", aectl_procs_del_write);
     ("blocked_syscalls_add", aectl_syscalls_add_write);
     ("blocked_syscalls_del", aectl_syscalls_del_write)].
Proof. done. Qed.

End control.

(** ** The text a handler extracts *)

(** Trailing newlines and carriage returns removed. *)
Fixpoint drop_newlines (s : bytes) : bytes :=
  match s with
  | c :: s' => if is_newline c then drop_newlines s' else s
  | [] => []
  end.
Definition trim (s : bytes) : bytes := rev (drop_newlines (rev s)).

(** [inl e]: rejected; [inr t]: the string left in the buffer. *)
Definition input_of (ubuf : bytes) (len max : nat) : Z + bytes :=
  let n := Nat.min len (max - 1) in
  if (length ubuf <? n)%nat then inl (- EFAULT)
  else if bool_decide (no_nul (take n ubuf)) then inr (trim (take n ubuf))
  else inl (- EINVAL).

(** ** Lemmas *)

Lemma trim_snoc s c : trim (s ++ [c]) = if is_newline c then trim s else s ++ [c].
Proof.
  unfold trim. rewrite rev_app_distr. cbn. destruct (is_newline c); [done|].
  cbn. by rewrite rev_involutive.
Qed.

Lemma trim_prefix s : trim s `prefix_of` s.
Proof.
  induction s as [|c s IH] using rev_ind; [done|]. rewrite trim_snoc.
  destruct (is_newline c); [|done]. etrans; [done|]. by apply prefix_app_r.
Qed.

Lemma trim_no_nul s : no_nul s → no_nul (trim s).
Proof. destruct (trim_prefix s) as [k Hk]. rewrite Hk at 1. by intros [H _]%no_nul_app. Qed.

Lemma trim_length s : (length (trim s) <= length s)%nat.
Proof. apply prefix_length, trim_prefix. Qed.

Lemma trim_id s c : is_newline c = false → trim (s ++ [c]) = s ++ [c].
Proof. intros H. by rewrite trim_snoc, H. Qed.

(** The in-place loop leaves the trimmed string, NUL terminated. *)
Lemma strip_newlines_spec s r :
  ∃ r', strip_newlines (length s) (s ++ NUL :: r) = (length (trim s), trim s ++ NUL :: r') ∧
        length (trim s ++ NUL :: r') = length (s ++ NUL :: r).
Proof.
  revert r. induction s as [|c s IH] using rev_ind; intros r; [by exists r|].
  rewrite length_app. cbn [length]. rewrite Nat.add_1_r. cbn [strip_newlines].
  rewrite <- app_assoc. cbn [app]. rewrite lookup_app_r, Nat.sub_diag by lia.
  change (default NUL ((c :: NUL :: r) !! 0%nat)) with c. rewrite trim_snoc.
  destruct (is_newline c).
  - rewrite insert_app_r_alt, Nat.sub_diag by lia.
    change (<[0%nat:=NUL]> (c :: NUL :: r)) with (NUL :: NUL :: r).
    destruct (IH (NUL :: r)) as (r' & Hr & Hl). exists r'. split; [done|].
    rewrite Hl, !length_app. cbn. lia.
  - exists r. rewrite length_app, Nat.add_1_r, <- app_assoc. by split.
Qed.

Lemma cstr_nul_iff s : (length (cstr s) = length s)%nat ↔ no_nul s.
Proof.
  split; [|intros H; by rewrite cstr_id].
  induction s as [|c s IH]; [constructor|]. cbn. case_decide; cbn; [lia|].
  intros [= Hl]. constructor; [done|]. by apply IH.
Qed.

(** The buffer never overflows, and what it holds is [input_of]. *)
Lemma get_string_spec ubuf len out max :
  (0 < max)%nat → length out = max →
  let g := aectl_get_string ubuf len out max in
  match input_of ubuf len max with
  | inl e => g.1 = e ∧ e < 0
  | inr t => g.1 = Z.of_nat (length t) ∧ cstr g.2 = t ∧ length g.2 = max ∧ no_nul t ∧
             (length t < max)%nat ∧ (length t <= len)%nat
  end.
Proof.
  intros Hmax Hout. unfold aectl_get_string, input_of.
  set (n := Nat.min len (max - 1)). destruct (length ubuf <? n)%nat eqn:Hf; [by split|].
  apply Nat.ltb_ge in Hf.
  assert (length (take n ubuf) = n) as Hn by (rewrite length_take; lia).
  assert (<[n:=NUL]> (take n ubuf ++ drop n out) = take n ubuf ++ NUL :: drop (S n) out) as ->.
  { rewrite insert_app_r_alt, Hn, Nat.sub_diag by lia. f_equal.
    destruct (drop n out) as [|c d] eqn:Hd.
    - apply (f_equal length) in Hd. rewrite length_drop in Hd. cbn in Hd. lia.
    - cbn. f_equal. change d with (drop 1 (c :: d)). rewrite <- Hd, drop_drop. f_equal. lia. }
  assert (strnlen (take n ubuf ++ NUL :: drop (S n) out) n = n ↔ no_nul (take n ubuf)) as Hs.
  { unfold strnlen. rewrite take_app_le, take_take, Nat.min_id by lia.
    rewrite <- cstr_nul_iff. by rewrite Hn. }
  case_bool_decide as Hb.
  - rewrite (proj2 (Nat.eqb_eq _ _) (proj2 Hs Hb)). cbn [negb].
    destruct (strip_newlines_spec (take n ubuf) (drop (S n) out)) as (r' & Hr & Hl).
    rewrite Hn in Hr. rewrite Hr. cbn [fst snd].
    pose proof (trim_no_nul _ Hb). pose proof (trim_length (take n ubuf)).
    rewrite cstr_app_nul, Hl by done.
    rewrite length_app in *. cbn [length]. rewrite length_drop.
    repeat split; [lia|done|lia|lia].
  - replace (_ =? _)%nat with false; [by split|].
    symmetry. apply Nat.eqb_neq. by rewrite Hs.
Qed.

Lemma strip_newlines_length n out : length (strip_newlines n out).2 = length out.
Proof.
  revert out. induction n as [|n IH]; intros out; [done|]. cbn [strip_newlines].
  destruct (is_newline _); [|done]. by rewrite IH, length_insert.
Qed.

(** The array keeps its size. *)
Lemma get_string_length ubuf len out max :
  (0 < max)%nat → length out = max → length (aectl_get_string ubuf len out max).2 = max.
Proof.
  intros Hmax Hout. unfold aectl_get_string. set (n := Nat.min len (max - 1)).
  destruct (length ubuf <? n)%nat eqn:E; [done|]. apply Nat.ltb_ge in E.
  assert (length (<[n := NUL]> (take n ubuf ++ drop n out)) = max) as Hl.
  { rewrite length_insert, length_app, length_take, length_drop. lia. }
  destruct (negb _); [done|]. cbn [snd]. by rewrite strip_newlines_length.
Qed.

(** ** Symbolic execution of the handlers *)

Section handlers.
Context `{K : Kernel} `{UL : !UninitLaws}.

Lemma input_of_inr ubuf len max t :
  (0 < max)%nat → input_of ubuf len max = inr t →
  no_nul t ∧ (length t < max)%nat ∧ (length t <= len)%nat.
Proof.
  intros Hmax Hi. pose proof (get_string_spec ubuf len (replicate max NUL) max Hmax
    (length_replicate _ _)) as H. cbn in H. rewrite Hi in H. tauto.
Qed.

(** The two handlers that go through [aectl_write_op]. *)
Lemma wp_write_op d ubuf len op Q s :
  (capable_mac_admin (world s) = false → Q (- EPERM) s) →
  (capable_mac_admin (world s) = true → (len = 0 ∨ 256 < len)%nat → Q (- EINVAL) s) →
  (capable_mac_admin (world s) = true → (0 < len <= 256)%nat →
   ∀ w, kmalloc_ok (world s) = (false, w) → Q (- ENOMEM) (set_world w s)) →
  (capable_mac_admin (world s) = true → (0 < len <= 256)%nat →
   ∀ w, kmalloc_ok (world s) = (true, w) →
   let s1 := set_res (add_kmem 1 (res (set_world w s))) (set_world w s) in
   let free s := set_res (add_kmem (-1) (res s)) s in
   match input_of ubuf len AEGIS_PATH_LEN with
   | inl e => Q e (free s1)
   | inr [] => Q 0 (free s1)
   | inr t => ∀ m, cstr m = t →
       wpx d (op (Some m)) (λ rc s2, Q (if rc =? 0 then Z.of_nat len else rc) (free s2)) s1
   end) →
  wpx d (aectl_write_op ubuf len op) Q s.
Proof.
  intros Hp Hl Hm Hok. unfold aectl_write_op. wp_step. apply wp_gets.
  destruct (capable_mac_admin (world s)); cbn [negb]; [|by apply wp_ret, Hp].
  change AEGIS_PATH_LEN with 256%nat in *.
  destruct (_ || _) eqn:E.
  { apply wp_ret, Hl; [done|]. apply orb_true_iff in E as [E|E].
    - left. by apply Nat.eqb_eq. - right. by apply Nat.ltb_lt. }
  apply orb_false_iff in E as [E1%Nat.eqb_neq E2%Nat.ltb_ge].
  wp_step. apply wp_kmalloc; intros w Hw; cbn [negb].
  { apply wp_ret, Hm; [done|lia|done]. }
  specialize (Hok eq_refl ltac:(lia) w Hw). cbn zeta in Hok.
  pose proof (get_string_spec ubuf len (uninit 256) 256 ltac:(lia) (uninit_length 256)) as G.
  cbn zeta in G. wp_step.
  destruct (input_of ubuf len 256) as [e|[|c t]].
  - destruct G as [-> He]. replace (e <=? 0) with true by lia. by wp_go.
  - destruct G as [-> _]. cbn [Z.of_nat length]. change (0 <=? 0) with true. by wp_go.
  - destruct G as (-> & Hc & _). destruct (Z.leb_spec (Z.of_nat (length (c :: t))) 0) as [Hle|_]; [cbn [length] in Hle; lia|].
    wp_step. eapply wp_mono; [by apply Hok|]. intros rc s2 HQ. cbn beta in HQ.
    destruct (rc =? 0); by wp_go.
Qed.

(** The four handlers with a buffer of [size] bytes on the stack. *)
Lemma wp_stack_op d ubuf len size (body : bytes → M Z) Q s :
  (0 < size)%nat →
  (capable_mac_admin (world s) = false → Q (- EPERM) s) →
  (capable_mac_admin (world s) = true → (len = 0 ∨ size <= len)%nat → Q (- EINVAL) s) →
  (capable_mac_admin (world s) = true → (0 < len < size)%nat →
   match input_of ubuf len size with
   | inl e => Q e s
   | inr [] => Q 0 s
   | inr t => wpx d (body t) Q s
   end) →
  wpx d (auth ← aectl_authorized;
         if negb auth then mret (- EPERM)
         else if (len =? 0)%nat || (size <=? len)%nat then mret (- EINVAL)
         else let g := aectl_get_string ubuf len (uninit size) size in
              if g.1 <=? 0 then mret g.1 else body (cstr g.2)) Q s.
Proof.
  intros Hsize Hp Hl Hok. wp_step. apply wp_gets.
  destruct (capable_mac_admin (world s)); cbn [negb]; [|by apply wp_ret, Hp].
  destruct (_ || _) eqn:E.
  { apply wp_ret, Hl; [done|]. apply orb_true_iff in E as [E|E].
    - left. by apply Nat.eqb_eq. - right. by apply Nat.leb_le. }
  apply orb_false_iff in E as [E1%Nat.eqb_neq E2%Nat.leb_gt].
  specialize (Hok eq_refl ltac:(lia)).
  pose proof (get_string_spec ubuf len (uninit size) size Hsize (uninit_length size)) as G.
  cbn zeta in G |- *. destruct (input_of ubuf len size) as [e|[|c t]].
  - destruct G as [-> He]. replace (e <=? 0) with true by lia. by apply wp_ret.
  - destruct G as [-> _]. cbn [Z.of_nat length]. change (0 <=? 0) with true. by apply wp_ret.
  - destruct G as (-> & -> & _). destruct (Z.leb_spec (Z.of_nat (length (c :: t))) 0) as [Hle|_]; [cbn [length] in Hle; lia|]. done.
Qed.

(** ** What every endpoint has in common *)

Lemma control_unauthorized fuel i h ubuf len s :
  aectl_handlers fuel !! i = Some h → capable_mac_admin (world s) = false →
  h.2 ubuf len s = Some (- EPERM, s).
Proof.
  rewrite aectl_handlers_eq. intros Hh Ha.
  destruct i as [|[|[|[|[|[|i]]]]]]; [injection Hh as <-; cbn [snd]..|discriminate Hh];
    unfold aectl_files_add_write, aectl_files_del_write, aectl_procs_add_write,
      aectl_procs_del_write, aectl_syscalls_add_write, aectl_syscalls_del_write,
      aectl_write_op, aectl_authorized, mbind, M_bind, gets; by rewrite Ha.
Qed.

Lemma keeps_trans s1 s2 s3 : keeps s1 s2 → keeps s2 s3 → keeps s1 s3.
Proof. unfold keeps. intros (?&?&?&?) (?&?&?&?). repeat split; congruence. Qed.

Lemma write_op_keeps d ubuf len op s :
  (∀ m s1, wpx d (op (Some m)) (λ _ s2, keeps s1 s2) s1) →
  wpx d (aectl_write_op ubuf len op) (λ _ s', keeps s s') s.
Proof.
  intros Hop. apply wp_write_op; try done. intros _ _ w _. cbn zeta.
  destruct (input_of _ _ _) as [e|[|c t]]; [done..|].
  intros m _. eapply wp_mono; [apply Hop|]. intros rc s2 Hk. cbn beta.
  eapply keeps_trans; [|eapply keeps_trans; [exact Hk|]]; done.
Qed.

(** No endpoint touches the switches, the counters or the securityfs tree. *)
Lemma control_keeps fuel i h ubuf len s :
  aectl_handlers fuel !! i = Some h → wlp (h.2 ubuf len) (λ _ s', keeps s s') s.
Proof.
  rewrite aectl_handlers_eq. intros Hh.
  destruct i as [|[|[|[|[|[|i]]]]]]; [injection Hh as <-; cbn [snd]..|discriminate Hh].
  - apply write_op_keeps. intros m s1. eapply wp_mono; [apply file_add_spec|]. by intros rc s2 [].
  - apply write_op_keeps. intros m s1. eapply wp_weaken, wp_mono; [apply file_del_spec|]. by intros rc s2 [].
  - unfold aectl_procs_add_write. wp_step. apply wp_gets.
    repeat (wp_step; cbn beta iota zeta); try done.
    eapply wp_weaken, wp_mono; [apply process_add_spec|]. intros rc s2 [Hk _]. cbn beta. by wp_go.
  - unfold aectl_procs_del_write. wp_step. apply wp_gets.
    repeat (wp_step; cbn beta iota zeta); try done.
    eapply wp_weaken, wp_mono; [apply process_del_spec|]. intros rc s2 [Hk _]. cbn beta. by wp_go.
  - unfold aectl_syscalls_add_write. wp_step. apply wp_gets.
    repeat (wp_step; cbn beta iota zeta); try done.
    eapply wp_weaken, wp_mono; [apply syscall_add_spec; lia|]. intros rc s2 [Hk _]. cbn beta. by wp_go.
  - unfold aectl_syscalls_del_write. wp_step. apply wp_gets.
    repeat (wp_step; cbn beta iota zeta); try done.
    eapply wp_weaken, wp_mono; [apply syscall_del_spec|]. intros rc s2 [Hk _]. cbn beta. by wp_go.
Qed.

End handlers.
