(* ===== verification/Securityfs.v ===== *)
(** * aegis_securityfs.c and the securityfs wiring of aegis_control.c

    Creation and removal of /sys/kernel/security/aegis: one directory, five
    read-only files, six write-only endpoints, with unwinding when a creation
    fails half way.  Dentry pointers are the C variables; [sf_live] is what
    exists in securityfs and [sf_removed] the order of removal.  The text the
    read files show is defined at the end. *)

From S2P Require Import Prelude CString AegisH Kernel State PolicyList.
From S2P Require Import Process FileHash File SyscallList Control.

(** ** Dentry variables *)

Inductive dvar := V_dir | V_status | V_stats | V_procs | V_files | V_syscalls.

#[export] Instance dvar_eq_dec : EqDecision dvar.
Proof. solve_decision. Defined.

Definition dvar_get (v : dvar) (f : secfs) : dptr :=
  match v with
  | V_dir => aegis_dir f
  | V_status => aegis_status_d f
  | V_stats => aegis_stats_d f
  | V_procs => aegis_protected_procs_d f
  | V_files => aegis_protected_files_d f
  | V_syscalls => aegis_blocked_syscalls_d f
  end.

Definition dvar_set (v : dvar) (p : dptr) (f : secfs) : secfs :=
  let upd v' old := if decide (v = v') then p else old in
  {| aegis_dir := upd V_dir (aegis_dir f);
     aegis_status_d := upd V_status (aegis_status_d f);
     aegis_stats_d := upd V_stats (aegis_stats_d f);
     aegis_protected_procs_d := upd V_procs (aegis_protected_procs_d f);
     aegis_protected_files_d := upd V_files (aegis_protected_files_d f);
     aegis_blocked_syscalls_d := upd V_syscalls (aegis_blocked_syscalls_d f);
     aectl_dentries := aectl_dentries f;
     sf_next := sf_next f; sf_live := sf_live f; sf_removed := sf_removed f |}.

Definition ctl_set (i : nat) (p : dptr) (f : secfs) : secfs :=
  mkSecfs (aegis_dir f) (aegis_status_d f) (aegis_stats_d f) (aegis_protected_procs_d f)
    (aegis_protected_files_d f) (aegis_blocked_syscalls_d f) (<[i := p]> (aectl_dentries f))
    (sf_next f) (sf_live f) (sf_removed f).

Definition live_set (n : nat) (l : list dentry) (r : list nat) (f : secfs) : secfs :=
  mkSecfs (aegis_dir f) (aegis_status_d f) (aegis_stats_d f) (aegis_protected_procs_d f)
    (aegis_protected_files_d f) (aegis_blocked_syscalls_d f) (aectl_dentries f) n l r.

(** Static initial values: every pointer NULL, nothing created. *)
Definition secfs_init : secfs :=
  mkSecfs D_NULL D_NULL D_NULL D_NULL D_NULL D_NULL (replicate 6 D_NULL) 0 [] [].

Definition IS_ERR (p : dptr) : bool := match p with D_ERR _ => true | _ => false end.
Definition IS_ERR_OR_NULL (p : dptr) : bool := match p with D_PTR _ => false | _ => true end.

Section securityfs.
Context `{K : Kernel}.

Definition upd_sfs (g : secfs → secfs) : M unit := modify (λ s, set_sfs (g (sfs s)) s).

(** securityfs_create_dir (no mode argument) / securityfs_create_file: an error
    pointer, or a new entry under [parent]. *)
Definition securityfs_new (name : bytes) (mode : option Z) (parent : dptr)
    (fops : option fops_ptr) : M dptr :=
  e ← kcall (securityfs_create name);
  match e with
  | Some err => mret (D_ERR err)
  | None =>
      id ← gets (λ s, sf_next (sfs s));
      let d := mkDentry id name mode (match parent with D_PTR p => Some p | _ => None end) fops in
      upd_sfs (λ f, live_set (S id) (sf_live f ++ [d]) (sf_removed f) f);;
      mret (D_PTR id)
  end.

Definition securityfs_remove (p : dptr) : M unit :=
  match p with
  | D_PTR id => upd_sfs (λ f, live_set (sf_next f)
                  (filter (λ d, d_id d ≠ id) (sf_live f)) (sf_removed f ++ [id]) f)
  | _ => mret tt
  end.

(** ** Control endpoints *)

(** The loop of [aegis_control_init] over the remaining entries: file mode 0200. *)
Fixpoint control_create (entries : list aectl_entry) (parent : dptr) : M Z :=
  match entries with
  | [] => mret 0
  | e :: entries' =>
      d ← securityfs_new (str (ae_name e)) (Some 128) parent (Some (ae_fops e));
      match d with
      | D_ERR err => mret err
      | _ => upd_sfs (ctl_set (ae_dentry_p e) d);; control_create entries' parent
      end
  end.

Definition aegis_control_init (parent : dptr) : M Z :=
  ret ← control_create aectl_entries parent;
  if negb (ret =? 0) then mret ret
  else
    AEGIS_INFO (str "Control interface ready (6 write endpoints, CAP_MAC_ADMIN)");;
    mret 0.

(** The loop of [aegis_control_exit] over the remaining array slots. *)
Fixpoint control_remove (i n : nat) : M unit :=
  match n with
  | O => mret tt
  | S n' =>
      d ← gets (λ s, default D_NULL (aectl_dentries (sfs s) !! i));
      (if negb (IS_ERR_OR_NULL d) then securityfs_remove d else mret tt);;
      upd_sfs (ctl_set i D_NULL);;
      control_remove (S i) n'
  end.

Definition aegis_control_exit : M unit :=
  n ← gets (λ s, length (aectl_dentries (sfs s)));
  control_remove 0 n.

(** ** The tree *)

Definition remove_var (v : dvar) : M unit :=
  d ← gets (λ s, dvar_get v (sfs s));
  if negb (IS_ERR_OR_NULL d) then securityfs_remove d else mret tt.

(** Guarded removals, and NULL stores, one variable after the other. *)
Fixpoint remove_vars (vs : list dvar) : M unit :=
  match vs with
  | [] => mret tt
  | v :: vs' => remove_var v;; remove_vars vs'
  end.
Fixpoint null_vars (vs : list dvar) : M unit :=
  match vs with
  | [] => mret tt
  | v :: vs' => upd_sfs (dvar_set v D_NULL);; null_vars vs'
  end.

Definition exit_order : list dvar := [V_status; V_stats; V_procs; V_files; V_syscalls; V_dir].

Definition aegis_securityfs_exit : M unit :=
  aegis_control_exit;;
  remove_vars exit_order;;
  null_vars exit_order.

(** The error label of [aegis_securityfs_init]. *)
Definition securityfs_err (ret : Z) : M Z :=
  aegis_securityfs_exit;;
  AEGIS_ERR (str "Failed to create securityfs entry: " ++ fmt_d ret);;
  mret ret.

(** One [securityfs_create_file] of mode 0444 into a variable; the rest of the
    routine runs unless it failed. *)
Definition create_var (v : dvar) (name : string) (fops : fops_ptr) (rest : M Z) : M Z :=
  dir ← gets (λ s, aegis_dir (sfs s));
  d ← securityfs_new (str name) (Some 292) dir (Some fops);
  upd_sfs (dvar_set v d);;
  match d with
  | D_ERR e => securityfs_err e
  | _ => rest
  end.

Definition aegis_securityfs_init : M Z :=
  d ← securityfs_new AEGIS_NAME None D_NULL None;
  upd_sfs (dvar_set V_dir d);;
  match d with
  | D_ERR e =>
      upd_sfs (dvar_set V_dir D_NULL);;
      AEGIS_ERR (str "Failed to create securityfs directory: " ++ fmt_d e);;
      mret e
  | _ =>
      create_var V_status "status" P_status_fops (
      create_var V_stats "stats" P_stats_fops (
      create_var V_procs "protected_procs" P_protected_procs_fops (
      create_var V_files "protected_files" P_protected_files_fops (
      create_var V_syscalls "blocked_syscalls" P_blocked_syscalls_fops (
        dir ← gets (λ s, aegis_dir (sfs s));
        ret ← aegis_control_init dir;
        if negb (ret =? 0) then securityfs_err ret
        else
          AEGIS_INFO (str "Securityfs interface created at /sys/kernel/security/aegis/");;
          mret 0)))))
  end.

Definition aegis_securityfs_late_init : M Z :=
  ret ← aegis_securityfs_init;
  (if negb (ret =? 0) then AEGIS_ERR (str "securityfs init deferred call failed: " ++ fmt_d ret)
   else mret tt);;
  mret ret.

(** ** What the read files show *)

Definition on_off (b : bool) : bytes := if b then str "ON" else str "OFF".

Definition aegis_status_show (c : aegis_config) (m : bytes) : bytes :=
  let bar := str "==============================================" ++ [LF] in
  m ++ bar
    ++ str "  AEGIS v" ++ AEGIS_VERSION ++ str " - Advanced Guardian for" ++ [LF]
    ++ str "  Integrated System Security" ++ [LF]
    ++ bar ++ [LF]
    ++ str "  Status:        " ++ (if enabled c then str "ACTIVE" else str "DISABLED") ++ [LF]
    ++ str "  Features:      0x" ++ fmt_08x (features c) ++ [LF] ++ [LF]
    ++ str "  Process Protection:   " ++ on_off (AEGIS_FEATURE_CHECK c AEGIS_FEATURE_PROCESS_PROTECT) ++ [LF]
    ++ str "  File Integrity:       " ++ on_off (AEGIS_FEATURE_CHECK c AEGIS_FEATURE_FILE_INTEGRITY) ++ [LF]
    ++ str "  Syscall Audit:        " ++ on_off (AEGIS_FEATURE_CHECK c AEGIS_FEATURE_SYSCALL_AUDIT) ++ [LF]
    ++ str "  Module Control:       " ++ on_off (AEGIS_FEATURE_CHECK c AEGIS_FEATURE_MODULE_CONTROL) ++ [LF]
    ++ str "  Ptrace Restrict:      " ++ on_off (AEGIS_FEATURE_CHECK c AEGIS_FEATURE_PTRACE_RESTRICT) ++ [LF] ++ [LF]
    ++ str "  Ptrace All Restrict:  " ++ on_off (ptrace_restrict_all c) ++ [LF]
    ++ str "  File Integrity Enf:   " ++ on_off (file_integrity_enforce c) ++ [LF]
    ++ str "  Module Loading Deny:  " ++ on_off (module_loading_denied c) ++ [LF] ++ [LF].

Definition aegis_stats_show (c : aegis_config) (m : bytes) : bytes :=
  m ++ str "AEGIS Event Statistics:" ++ [LF]
    ++ str "=======================" ++ [LF]
    ++ str "  Ptrace blocked:       " ++ fmt_d (ptrace_blocked c) ++ [LF]
    ++ str "  File violations:      " ++ fmt_d (file_violations c) ++ [LF]
    ++ str "  Syscall violations:   " ++ fmt_d (syscall_violations c) ++ [LF]
    ++ str "  Module violations:    " ++ fmt_d (module_violations c) ++ [LF]
    ++ str "  Total events:         " ++ fmt_d (total_events c) ++ [LF] ++ [LF].

(** The show callbacks, which append to the seq_file [m]. *)
Definition aegis_protected_procs_show (s : sys) (m : bytes) : bytes :=
  aegis_protected_process_show (reg s) m.
Definition aegis_protected_files_show (s : sys) (m : bytes) : bytes :=
  aegis_protected_file_show (reg s) m.
Definition aegis_blocked_syscalls_show (s : sys) (m : bytes) : bytes :=
  aegis_blocked_syscall_show (reg s) m.

(** single_open: a file that shows what the callback prints into an empty
    seq_file. *)
Definition single_open (show : sys → bytes → bytes) (s : sys) : bytes := show s [].

Definition aegis_status_open : sys → bytes := single_open (λ s, aegis_status_show (cfg s)).
Definition aegis_stats_open : sys → bytes := single_open (λ s, aegis_stats_show (cfg s)).
Definition aegis_protected_procs_open : sys → bytes := single_open aegis_protected_procs_show.
Definition aegis_protected_files_open : sys → bytes := single_open aegis_protected_files_show.
Definition aegis_blocked_syscalls_open : sys → bytes := single_open aegis_blocked_syscalls_show.

(** A table with an open routine and the seq_file library's members. *)
Definition read_fops (open : sys → bytes) : file_operations :=
  mkFops (Some open) (Some seq_read) (Some seq_lseek) (Some single_release) None.

Definition aegis_status_fops : file_operations := read_fops aegis_status_open.
Definition aegis_stats_fops : file_operations := read_fops aegis_stats_open.
Definition aegis_protected_procs_fops : file_operations := read_fops aegis_protected_procs_open.
Definition aegis_protected_files_fops : file_operations := read_fops aegis_protected_files_open.
Definition aegis_blocked_syscalls_fops : file_operations := read_fops aegis_blocked_syscalls_open.

(** Every table by address. *)
Definition fops_of (fuel : nat) (p : fops_ptr) : option file_operations :=
  match p with
  | P_status_fops => Some aegis_status_fops
  | P_stats_fops => Some aegis_stats_fops
  | P_protected_procs_fops => Some aegis_protected_procs_fops
  | P_protected_files_fops => Some aegis_protected_files_fops
  | P_blocked_syscalls_fops => Some aegis_blocked_syscalls_fops
  | _ => aectl_fops fuel p
  end.

(** What read(2) from the start of a file with the table [f] returns in all:
    nothing is readable without seq_read. *)
Definition vfs_text (f : option file_operations) (s : sys) : bytes :=
  match f with
  | Some (mkFops (Some open) (Some seq_read) _ _ _) => open s
  | _ => []
  end.

(** The five read files by name, with what reading them returns. *)
Definition aegis_read_files : list (string * (sys → bytes)) :=
  (λ x : string * fops_ptr, (x.1, vfs_text (fops_of 0 x.2))) <$>
  [("status", P_status_fops); ("stats", P_stats_fops);
   ("protected_procs", P_protected_procs_fops); ("protected_files", P_protected_files_fops);
   ("blocked_syscalls", P_blocked_syscalls_fops)].

(** ** Removal as a function on the dentry state *)

Definition remove_fn (p : dptr) (f : secfs) : secfs :=
  match p with
  | D_PTR id => live_set (sf_next f) (filter (λ d, d_id d ≠ id) (sf_live f))
                         (sf_removed f ++ [id]) f
  | _ => f
  end.

Fixpoint control_remove_fn (i n : nat) (f : secfs) : secfs :=
  match n with
  | O => f
  | S n' => control_remove_fn (S i) n'
              (ctl_set i D_NULL (remove_fn (default D_NULL (aectl_dentries f !! i)) f))
  end.

Definition exit_fn (f : secfs) : secfs :=
  let f := control_remove_fn 0 (length (aectl_dentries f)) f in
  let f := fold_left (λ f v, remove_fn (dvar_get v f) f) exit_order f in
  fold_left (λ f v, dvar_set v D_NULL f) exit_order f.

Lemma remove_run p s : securityfs_remove p s = Some (tt, set_sfs (remove_fn p (sfs s)) s).
Proof. by destruct p, s. Qed.

Lemma remove_guarded p s :
  (if negb (IS_ERR_OR_NULL p) then securityfs_remove p else mret tt) s
    = Some (tt, set_sfs (remove_fn p (sfs s)) s).
Proof. by destruct p, s. Qed.

Lemma control_remove_run n i s :
  control_remove i n s = Some (tt, set_sfs (control_remove_fn i n (sfs s)) s).
Proof.
  revert i s. induction n as [|n IH]; intros i s; cbn [control_remove control_remove_fn].
  { by destruct s. }
  unfold mbind, M_bind, gets. cbv beta iota. rewrite remove_guarded. cbn. by rewrite IH.
Qed.

Lemma remove_vars_run vs s :
  remove_vars vs s
    = Some (tt, set_sfs (fold_left (λ f v, remove_fn (dvar_get v f) f) vs (sfs s)) s).
Proof.
  revert s. induction vs as [|v vs IH]; intros s; [by destruct s|].
  cbn [remove_vars fold_left]. unfold remove_var, gets, mbind, M_bind. cbv beta iota.
  rewrite remove_guarded. cbv beta iota. by rewrite IH.
Qed.

Lemma null_vars_run vs s :
  null_vars vs s = Some (tt, set_sfs (fold_left (λ f v, dvar_set v D_NULL f) vs (sfs s)) s).
Proof.
  revert s. induction vs as [|v vs IH]; intros s; [by destruct s|].
  cbn [null_vars fold_left]. unfold upd_sfs, modify, mbind, M_bind. cbv beta iota.
  by rewrite IH.
Qed.

Lemma securityfs_exit_run s :
  aegis_securityfs_exit s = Some (tt, set_sfs (exit_fn (sfs s)) s).
Proof.
  unfold aegis_securityfs_exit, aegis_control_exit, gets, mbind, M_bind. cbv beta iota.
  rewrite control_remove_run. cbv beta iota. rewrite remove_vars_run. cbv beta iota.
  rewrite null_vars_run. done.
Qed.

(** The dentry pointers, in the order [exit_fn] releases them. *)
Definition all_ptrs (f : secfs) : list dptr :=
  aectl_dentries f ++ [aegis_status_d f; aegis_stats_d f; aegis_protected_procs_d f;
                       aegis_protected_files_d f; aegis_blocked_syscalls_d f; aegis_dir f].

Definition ptr_ids (l : list dptr) : list nat :=
  omap (λ p, match p with D_PTR i => Some i | _ => None end) l.

Lemma ptr_ids_app l1 l2 : ptr_ids (l1 ++ l2) = ptr_ids l1 ++ ptr_ids l2.
Proof. induction l1 as [|[] l1 IH]; cbn; [done|done|done|]. by f_equal. Qed.

(** Every live entry is reachable from a variable. *)
Definition covers (f : secfs) : Prop :=
  ∀ d, d ∈ sf_live f → d_id d ∈ ptr_ids (all_ptrs f).

Definition all_null (f : secfs) : Prop := Forall (λ p, p = D_NULL) (all_ptrs f).

(** Removing a list of pointers one after the other. *)
Lemma remove_fn_fields p f :
  sf_removed (remove_fn p f) = sf_removed f ++ ptr_ids [p] ∧
  (∀ d, d ∈ sf_live (remove_fn p f) ↔ d ∈ sf_live f ∧ d_id d ∉ ptr_ids [p]) ∧
  all_ptrs (remove_fn p f) = all_ptrs f.
Proof.
  destruct p as [|e|i]; cbn; rewrite ?app_nil_r; (split; [done|split; [|done]]); intros d.
  - set_solver.
  - set_solver.
  - rewrite list_elem_of_filter. set_solver.
Qed.

Lemma control_remove_fields n i f :
  (i + n = length (aectl_dentries f))%nat →
  let f' := control_remove_fn i n f in
  sf_removed f' = sf_removed f ++ ptr_ids (drop i (aectl_dentries f)) ∧
  (∀ d, d ∈ sf_live f' ↔ d ∈ sf_live f ∧ d_id d ∉ ptr_ids (drop i (aectl_dentries f))) ∧
  aectl_dentries f' = take i (aectl_dentries f) ++ replicate n D_NULL ∧
  ∀ v, dvar_get v f' = dvar_get v f.
Proof.
  revert i f. induction n as [|n IH]; intros i f Hlen; cbn zeta.
  - cbn [control_remove_fn replicate]. rewrite drop_ge, take_ge, !app_nil_r by lia. cbn.
    rewrite ?app_nil_r. set_solver.
  - cbn [control_remove_fn]. destruct (lookup_lt_is_Some_2 (aectl_dentries f) i) as [p Hp]; [lia|].
    rewrite Hp. change (default D_NULL (Some p)) with p. set (g := ctl_set i D_NULL (remove_fn p f)).
    destruct (remove_fn_fields p f) as (Hr & Hl & Ha).
    assert (aectl_dentries g = <[i := D_NULL]> (aectl_dentries f)) as Hg.
    { unfold g. by destruct p. }
    assert (drop i (aectl_dentries f) = p :: drop (S i) (aectl_dentries f)) as Hd.
    { by apply drop_S. }
    destruct (IH (S i) g) as (H1 & H2 & H3 & H4); [rewrite Hg, length_insert; lia|].
    rewrite Hg, drop_insert_lt in H1, H2 by lia.
    change (sf_removed g) with (sf_removed (remove_fn p f)) in H1.
    change (sf_live g) with (sf_live (remove_fn p f)) in H2.
    rewrite Hd. change (p :: drop (S i) (aectl_dentries f))
      with ([p] ++ drop (S i) (aectl_dentries f)).
    rewrite ptr_ids_app, H1, Hr, <- app_assoc.
    split; [done|]. split; [|split].
    + intros d. rewrite H2, Hl. set_solver.
    + rewrite H3, Hg, (take_S_r _ _ D_NULL), take_insert_ge, <- app_assoc; [done|lia|].
      apply list_lookup_insert_eq. lia.
    + intros v. rewrite H4. unfold g. by destruct v, p.
Qed.

Lemma exit_fn_fields f :
  let f' := exit_fn f in
  sf_removed f' = sf_removed f ++ ptr_ids (all_ptrs f) ∧
  (∀ d, d ∈ sf_live f' ↔ d ∈ sf_live f ∧ d_id d ∉ ptr_ids (all_ptrs f)) ∧
  all_null f'.
Proof.
  destruct (control_remove_fields (length (aectl_dentries f)) 0 f eq_refl) as (H1 & H2 & H3 & H4).
  cbn zeta. unfold exit_fn. set (g := control_remove_fn _ _ f) in *.
  rewrite drop_0 in H1, H2. cbn [take app] in H3.
  unfold exit_order. cbn [fold_left].
  assert (∀ p h, ∀ v, dvar_get v (remove_fn p h) = dvar_get v h) as Hv by (by intros [] ? []).
  rewrite !Hv, !H4. cbn [dvar_get].
  set (g1 := remove_fn (aegis_status_d f) g). set (g2 := remove_fn (aegis_stats_d f) g1).
  set (g3 := remove_fn (aegis_protected_procs_d f) g2).
  set (g4 := remove_fn (aegis_protected_files_d f) g3).
  set (g5 := remove_fn (aegis_blocked_syscalls_d f) g4). set (g6 := remove_fn (aegis_dir f) g5).
  destruct (remove_fn_fields (aegis_status_d f) g) as (R1 & L1 & A1).
  destruct (remove_fn_fields (aegis_stats_d f) g1) as (R2 & L2 & A2).
  destruct (remove_fn_fields (aegis_protected_procs_d f) g2) as (R3 & L3 & A3).
  destruct (remove_fn_fields (aegis_protected_files_d f) g3) as (R4 & L4 & A4).
  destruct (remove_fn_fields (aegis_blocked_syscalls_d f) g4) as (R5 & L5 & A5).
  destruct (remove_fn_fields (aegis_dir f) g5) as (R6 & L6 & A6).
  fold g1 in R1, L1. fold g2 in R2, L2. fold g3 in R3, L3. fold g4 in R4, L4.
  fold g5 in R5, L5. fold g6 in R6, L6.
  assert (ptr_ids (all_ptrs f) = ptr_ids (aectl_dentries f) ++ ptr_ids [aegis_status_d f]
    ++ ptr_ids [aegis_stats_d f] ++ ptr_ids [aegis_protected_procs_d f]
    ++ ptr_ids [aegis_protected_files_d f] ++ ptr_ids [aegis_blocked_syscalls_d f]
    ++ ptr_ids [aegis_dir f]) as ->.
  { unfold all_ptrs. by rewrite <- !ptr_ids_app. }
  split; [|split].
  - cbn. by rewrite R6, R5, R4, R3, R2, R1, H1, <- !app_assoc.
  - intros d. cbn. rewrite L6, L5, L4, L3, L2, L1, H2, !not_elem_of_app. tauto.
  - unfold all_null, all_ptrs. cbn. apply Forall_app. split; [|by repeat constructor].
    assert (aectl_dentries g6 = aectl_dentries g) as ->.
    { assert (∀ p h, aectl_dentries (remove_fn p h) = aectl_dentries h) as Hd by (by intros []).
      unfold g6, g5, g4, g3, g2, g1. by rewrite !Hd. }
    rewrite H3. apply Forall_replicate. done.
Qed.

(** When the variables reach every live entry, nothing survives the exit. *)
Lemma exit_fn_clean f :
  covers f → sf_live (exit_fn f) = [] ∧ all_null (exit_fn f).
Proof.
  intros Hc. destruct (exit_fn_fields f) as (_ & Hl & Hn). split; [|done].
  destruct (sf_live (exit_fn f)) as [|d l]; [done|]. exfalso.
  destruct (proj1 (Hl d)) as [Hd Hnot]; [set_solver|]. by apply Hnot, Hc.
Qed.

(** ** Building the tree *)

Definition covers_b (f : secfs) : bool :=
  forallb (λ d, bool_decide (d_id d ∈ ptr_ids (all_ptrs f))) (sf_live f).

Lemma covers_b_spec f : covers_b f = true → covers f.
Proof.
  unfold covers_b, covers. rewrite forallb_forall. intros H d Hd.
  eapply bool_decide_eq_true_1, H. by apply list_elem_of_In.
Qed.

Lemma wp_new d name mode parent fops Q s :
  (∀ err w, securityfs_create name (world s) = (Some err, w) → Q (D_ERR err) (set_world w s)) →
  (∀ w, securityfs_create name (world s) = (None, w) →
     Q (D_PTR (sf_next (sfs s)))
       (set_sfs (live_set (S (sf_next (sfs s)))
          (sf_live (sfs s) ++ [mkDentry (sf_next (sfs s)) name mode
             (match parent with D_PTR p => Some p | _ => None end) fops])
          (sf_removed (sfs s)) (sfs s)) (set_world w s))) →
  wpx d (securityfs_new name mode parent fops) Q s.
Proof.
  intros He Hn. unfold securityfs_new. wp_step. apply wp_kcall. intros [err|] w Hw.
  - by apply wp_ret, He.
  - apply Hn, Hw.
Qed.

(** The error label releases whatever the variables reach. *)
Lemma wp_securityfs_err d ret s (Q : Z → sys → Prop) :
  covers (sfs s) →
  (∀ f, sf_live f = [] → all_null f →
     Q ret (add_log KERN_ERR (str "aegis: " ++ (str "Failed to create securityfs entry: "
              ++ fmt_d ret) ++ [LF]) (set_sfs f s))) →
  wpx d (securityfs_err ret) Q s.
Proof.
  intros Hc HQ. unfold securityfs_err. wp_step.
  eapply wp_of_run; [apply securityfs_exit_run|]. destruct (exit_fn_clean _ Hc). wp_go. by apply HQ.
Qed.

(** The complete tree: names, modes and tables, in creation order. *)
Definition aegis_tree : list (bytes * option Z * option fops_ptr) :=
  (AEGIS_NAME, None, None)
  :: ((λ x, (str x.1, Some 292, Some x.2)) <$>
        [("status", P_status_fops); ("stats", P_stats_fops);
         ("protected_procs", P_protected_procs_fops);
         ("protected_files", P_protected_files_fops);
         ("blocked_syscalls", P_blocked_syscalls_fops)])
  ++ ((λ x, (str x.1, Some 128, Some x.2)) <$>
        [("protected_files_add", P_files_add_fops); ("protected_files_del", P_files_del_fops);
         ("protected_procs_add", P_procs_add_fops); ("protected_procs_del", P_procs_del_fops);
         ("blocked_syscalls_add", P_syscalls_add_fops);
         ("blocked_syscalls_del", P_syscalls_del_fops)]).

(** A complete tree: every entry below the directory, reachable from the
    variables. *)
Definition tree_ok (f : secfs) : Prop :=
  (λ d, (d_name d, d_mode d, d_fops d)) <$> sf_live f = aegis_tree ∧ covers f ∧
  ∃ dir, aegis_dir f = D_PTR dir ∧ hd_error (d_id <$> sf_live f) = Some dir ∧
         Forall (λ d, d_parent d = Some dir) (tail (sf_live f)).

Lemma tree_ok_live f : tree_ok f → ∃ d l, sf_live f = d :: l.
Proof. intros [Ht _]. destruct (sf_live f) as [|d l]; [discriminate|]. by exists d, l. Qed.

(** What the files of the tree do: reads and writes of each reach the show
    routine and the handler of its name. *)
Definition tree_serves (fuel : nat) (f : secfs) : Prop :=
  (λ d, (d_name d, vfs_text (d_fops d ≫= fops_of fuel))) <$> take 5 (tail (sf_live f))
    = (λ x, (str x.1, x.2)) <$> aegis_read_files ∧
  (λ d, (d_name d, vfs_write (d_fops d ≫= fops_of fuel))) <$> drop 5 (tail (sf_live f))
    = (λ x, (str x.1, x.2)) <$> aectl_handlers fuel.

Lemma tree_ok_serves fuel f : tree_ok f → tree_serves fuel f.
Proof.
  intros [Ht _]. unfold tree_serves.
  destruct (sf_live f) as [|d0 l]; [discriminate|]. apply (f_equal tail) in Ht. cbn [tail].
  change (((λ d, (d_name d, d_mode d, d_fops d)) <$> l) = tail aegis_tree) in Ht.
  pose proof (f_equal (take 5) Ht) as H1. pose proof (f_equal (drop 5) Ht) as H2.
  rewrite <- fmap_take in H1. rewrite <- fmap_drop in H2. split.
  - apply (f_equal (fmap (λ x, (x.1.1, vfs_text (x.2 ≫= fops_of fuel))))) in H1.
    rewrite <- list_fmap_compose in H1. exact H1.
  - apply (f_equal (fmap (λ x, (x.1.1, vfs_write (x.2 ≫= fops_of fuel))))) in H2.
    rewrite <- list_fmap_compose in H2. exact H2.
Qed.

Ltac sf_step :=
  first [wp_step | match goal with |- wpx _ (upd_sfs _) _ _ => apply wp_modify end].

Ltac norm_sfs :=
  unfold set_sfs, set_world; cbn [cfg reg vars sfs res klog world hooks];
  match goal with |- wpx ?d ?m ?Q (mkSys _ ?c ?r ?v ?f ?re ?k ?w ?h) =>
    let f' := eval vm_compute in f in change (wpx d m Q (mkSys _ c r v f' re k w h)) end.

Lemma securityfs_init_spec `{!SecfsLaws} s :
  sfs s = secfs_init →
  wp aegis_securityfs_init (λ rc s',
    cfg s' = cfg s ∧ reg s' = reg s ∧ vars s' = vars s ∧ res s' = res s ∧ hooks s' = hooks s ∧
    ((rc = 0 ∧ tree_ok (sfs s')) ∨
     (rc < 0 ∧ sf_live (sfs s') = [] ∧ all_null (sfs s')))) s.
Proof.
  intros Hs. destruct s as [c r v f re k w hs]. cbn in Hs. subst f. unfold aegis_securityfs_init.
  sf_step. apply wp_new; cbn [world].
  { intros err w' Herr. repeat (sf_step; cbn beta iota). repeat split. right.
    split; [by eapply securityfs_errno|]. split; [done|]. by repeat constructor. }
  intros w' _. sf_step. sf_step. norm_sfs.
  do 5 (unfold create_var at 1; sf_step; sf_step; sf_step; apply wp_new; cbn [world];
    [intros err w'' Herr; sf_step; sf_step; norm_sfs;
     apply wp_securityfs_err; [by apply covers_b_spec|];
     intros f Hl Hn; cbn; repeat split; right; split; [by eapply securityfs_errno|done]
    |let x := fresh "w" in intros x _; sf_step; sf_step; norm_sfs]).
  sf_step. sf_step. sf_step. unfold aegis_control_init, aectl_entries. sf_step.
  do 6 (cbn [control_create ae_name ae_fops ae_dentry_p]; sf_step; apply wp_new; cbn [world];
    [intros err w'' Herr; sf_step; unfold set_world; cbn [cfg reg vars sfs res klog world hooks];
     assert (err < 0) as Hneg by (by eapply securityfs_errno);
     replace (err =? 0) with false by lia; cbn [negb]; sf_step;
     replace (err =? 0) with false by lia; cbn [negb];
     apply wp_securityfs_err; [by apply covers_b_spec|];
     intros f Hl Hn; cbn; repeat split; right; split; [done|done]
    |let x := fresh "w" in intros x _; sf_step; sf_step; norm_sfs]).
  cbn [control_create]. repeat (sf_step; change (negb (0 =? 0)) with false; cbn beta iota).
  do 5 (split; [done|]). left.
  split; [done|]. split; [done|]. split; [by apply covers_b_spec|].
  eexists. split; [done|]. split; [done|]. by repeat constructor.
Qed.

End securityfs.
