(* ===== verification/System.v ===== *)
(** * Boot and the whole module

    [aegis_init] (aegis_lsm.c) with [aegis_module_init] (aegis_module.c), the
    entry points of the module as events, and the states reachable from boot
    through any sequence of them.  [sys_inv] collects the component invariants:
    exact bounded lists without duplicates, configuration in step with the
    sysctl variables, and as many live allocations as list entries. *)

From S2P Require Import Prelude CString AegisH Kernel State PolicyList.
From S2P Require Import Process FileHash File SyscallList Lsm Sysctl Control Securityfs.

Section system.
Context `{K : Kernel}.

(** ** Boot *)

Definition aegis_module_init : M Z := mret 0.
Definition aegis_module_exit : M unit := mret tt.

Definition banner : bytes := str "==============================================".

(** [ret = init(); if (ret) { AEGIS_ERR(...); return ret; } AEGIS_INFO(...);] *)
Definition init_step (init : M Z) (what up : bytes) (rest : M Z) : M Z :=
  ret ← init;
  if negb (ret =? 0) then
    AEGIS_ERR (str "Failed to initialize " ++ what ++ str ": " ++ fmt_d ret);;
    mret ret
  else
    AEGIS_INFO (str "  [+] " ++ up ++ str ": active");;
    rest.

Definition aegis_init : M Z :=
  AEGIS_INFO banner;;
  AEGIS_INFO (str "  AEGIS v" ++ AEGIS_VERSION ++ str " - Advanced Guardian for");;
  AEGIS_INFO (str "  Integrated System Security");;
  AEGIS_INFO banner;;
  AEGIS_INFO (str "Initializing subsystems...");;
  modify (set_hooks registered_hooks);;                     (* security_add_hooks *)
  init_step aegis_process_init (str "process protection") (str "Process protection") (
  init_step aegis_file_init (str "file integrity") (str "File integrity") (
  init_step aegis_audit_init (str "syscall audit") (str "Syscall audit") (
  init_step aegis_module_init (str "module control") (str "Module control") (
  init_step aegis_sysctl_init (str "sysctl") (str "Sysctl interface") (
    AEGIS_INFO banner;;
    AEGIS_INFO (str "  AEGIS is ACTIVE - Shield is UP");;
    f ← gets (λ s, features (cfg s));
    AEGIS_INFO (str "  Features: 0x" ++ fmt_08x f);;
    AEGIS_INFO banner;;
    mret 0))))).

Inductive lsm_order := LSM_ORDER_FIRST | LSM_ORDER_MUTABLE | LSM_ORDER_LAST.

(** struct lsm_info, and the one DEFINE_LSM places in the kernel's table: the
    framework calls its [init] at boot. *)
Record lsm_info := mkLsmInfo { li_id : lsm_id; li_init : M Z; li_order : lsm_order }.

Definition lsm_aegis : lsm_info := mkLsmInfo aegis_lsmid aegis_init LSM_ORDER_MUTABLE.

(** Static storage before any code has run. *)
Definition registries_init : registries := mkReg [] 0 [] 0 [] 0.
Definition sys0 (w : kworld) : sys :=
  mkSys _ aegis_cfg_init registries_init sysctl_vars_init secfs_init (mkRes 0 0 0 0 0) [] w [].

(** ** Entry points *)

Inductive event :=
  | Ev_task_alloc (task : task_struct) (flags : Z)
  | Ev_task_free (task : task_struct)
  | Ev_ptrace_access_check (child : task_struct) (mode : Z)
  | Ev_ptrace_traceme (parent : task_struct)
  | Ev_file_permission (file : kfile) (mask : Z)
  | Ev_file_open (file : kfile)
  | Ev_kernel_read_file (file : option kfile) (id : kernel_read_file_id) (contents : bool)
  | Ev_kernel_load_data (id : kernel_load_data_id) (contents : bool)
  | Ev_bprm_check
  | Ev_socket_create (family type protocol kern : Z)
  | Ev_inode_permission (mask : Z)
  | Ev_control (i : nat) (ubuf : bytes) (len : nat)         (* write to endpoint i *)
  | Ev_sysctl (i : nat) (write : bool) (io : ctl_io).       (* access to sysctl file i *)

(** The hook point at which the framework asks; none for the other entry points. *)
Definition hook_point (e : event) : option string :=
  match e with
  | Ev_task_alloc _ _ => Some "task_alloc"
  | Ev_task_free _ => Some "task_free"
  | Ev_ptrace_access_check _ _ => Some "ptrace_access_check"
  | Ev_ptrace_traceme _ => Some "ptrace_traceme"
  | Ev_file_permission _ _ => Some "file_permission"
  | Ev_file_open _ => Some "file_open"
  | Ev_kernel_read_file _ _ _ => Some "kernel_read_file"
  | Ev_kernel_load_data _ _ => Some "kernel_load_data"
  | Ev_bprm_check => Some "bprm_check_security"
  | Ev_socket_create _ _ _ _ => Some "socket_create"
  | Ev_inode_permission _ => Some "inode_permission"
  | Ev_control _ _ _ | Ev_sysctl _ _ _ => None
  end.

(** A call through the address, with the arguments the framework passes. *)
Definition call_hook (f : hook_fn) (e : event) : option (M Z) :=
  match f, e with
  | F_aegis_task_alloc, Ev_task_alloc task flags => Some (aegis_task_alloc task flags)
  | F_aegis_task_free, Ev_task_free task => Some (aegis_task_free task;; mret 0)
  | F_aegis_ptrace_access_check, Ev_ptrace_access_check child mode =>
      Some (aegis_ptrace_access_check child mode)
  | F_aegis_ptrace_traceme, Ev_ptrace_traceme parent => Some (aegis_ptrace_traceme parent)
  | F_aegis_file_permission, Ev_file_permission file mask => Some (aegis_file_permission file mask)
  | F_aegis_file_open, Ev_file_open file => Some (aegis_file_open file)
  | F_aegis_kernel_read_file, Ev_kernel_read_file file id c => Some (aegis_kernel_read_file file id c)
  | F_aegis_kernel_load_data, Ev_kernel_load_data id c => Some (aegis_kernel_load_data id c)
  | F_aegis_bprm_check_security, Ev_bprm_check => Some aegis_bprm_check_security
  | F_aegis_socket_create, Ev_socket_create f t p k => Some (aegis_socket_create f t p k)
  | F_aegis_inode_permission, Ev_inode_permission mask => Some (aegis_inode_permission mask)
  | _, _ => None
  end.

(** The function the table installs at the hook point decides; where none fits,
    the framework grants. *)
Definition dispatch (e : event) : M Z :=
  default (mret 0)
    (n ← hook_point e; h ← List.find (λ h, String.eqb h.1 n) aegis_hooks; call_hook h.2 e).

Definition run_event (fuel : nat) (e : event) : M Z :=
  match e with
  | Ev_control i ubuf len =>
      match aectl_handlers fuel !! i with Some h => h.2 ubuf len | None => mret (- ENOENT) end
  | Ev_sysctl i write io =>
      match aegis_sysctl_table !! i with Some t => sysctl_access t write io | None => mret (- ENOENT) end
  | _ => dispatch e
  end.

(** The security hooks among the events: those the framework calls. *)
Definition is_hook (e : event) : bool :=
  match e with Ev_control _ _ _ | Ev_sysctl _ _ _ => false | _ => true end.

(** The function each hook call runs. *)
Definition hook_body (e : event) : M Z :=
  match e with
  | Ev_task_alloc task flags => aegis_task_alloc task flags
  | Ev_task_free task => aegis_task_free task;; mret 0
  | Ev_ptrace_access_check child mode => aegis_ptrace_access_check child mode
  | Ev_ptrace_traceme parent => aegis_ptrace_traceme parent
  | Ev_file_permission file mask => aegis_file_permission file mask
  | Ev_file_open file => aegis_file_open file
  | Ev_kernel_read_file file id c => aegis_kernel_read_file file id c
  | Ev_kernel_load_data id c => aegis_kernel_load_data id c
  | Ev_bprm_check => aegis_bprm_check_security
  | Ev_socket_create f t p k => aegis_socket_create f t p k
  | Ev_inode_permission mask => aegis_inode_permission mask
  | Ev_control _ _ _ | Ev_sysctl _ _ _ => mret 0
  end.

(** The table sends every hook call to the function of its name. *)
Lemma run_event_hook fuel e : is_hook e = true → run_event fuel e = hook_body e.
Proof. by destruct e. Qed.

(** States reachable from boot.  [reach_env]: the rest of the kernel moves on. *)
Inductive reach (fuel : nat) : sys → Prop :=
  | reach_boot w rc s : li_init lsm_aegis (sys0 w) = Some (rc, s) → reach fuel s
  | reach_event s e rc s' : reach fuel s → run_event fuel e s = Some (rc, s') → reach fuel s'
  | reach_late s rc s' : reach fuel s → sfs s = secfs_init →   (* late_initcall, once *)
      aegis_securityfs_late_init s = Some (rc, s') → reach fuel s'
  | reach_env s w : reach fuel s → reach fuel (set_world w s).

(** The reference decision of every hook. *)
Definition hook_verdict (s : sys) (e : event) : verdict :=
  match e with
  | Ev_task_free _ => if enabled (cfg s) then mkVerdict 0 [st_total_events] [] else allow
  | Ev_ptrace_access_check child mode => ptrace_verdict s child mode
  | Ev_ptrace_traceme parent => traceme_verdict s parent
  | Ev_file_permission file mask => file_verdict s file mask
  | Ev_file_open file => open_verdict s file
  | Ev_kernel_read_file file id _ => read_verdict s file id
  | Ev_kernel_load_data id _ => load_verdict s id
  | Ev_bprm_check => bprm_verdict s
  | _ => allow
  end.

(** ** The invariant *)

Definition entries_total (r : registries) : Z :=
  Z.of_nat (length (protected_procs r)) + Z.of_nat (length (protected_files r))
  + Z.of_nat (length (blocked_syscalls r)).

(** [d]: blocks a handler holds besides the list entries. *)
Record sys_inv (d : Z) (s : sys) : Prop := {
  inv_procs : pl_inv (E := aegis_protected_proc) s;
  inv_files : file_inv s;
  inv_syscalls : pl_inv (E := aegis_blocked_syscall) s;
  inv_sync : in_sync s;
  inv_kmem : res s = mkRes 0 (entries_total (reg s) + d) 0 0 0;
  inv_tree : sfs s = secfs_init ∨ tree_ok (sfs s) ∨ (sf_live (sfs s) = [] ∧ all_null (sfs s));
}.

(** ** Preservation *)

Lemma bump_flags ks c : cfg_flags (bump ks c) = cfg_flags c.
Proof.
  revert c. induction ks as [|k ks IH]; intros c; [done|]. cbn. rewrite IH. apply stat_inc_flags.
Qed.

Lemma in_sync_flags s s' :
  cfg_flags (cfg s') = cfg_flags (cfg s) → vars s' = vars s → in_sync s → in_sync s'.
Proof.
  intros Hc Hv [Hk Hf]. unfold in_sync. rewrite Hv. split.
  - intros k. rewrite <- Hk. by apply switch_get_flags.
  - rewrite <- Hf. by apply (f_equal features) in Hc.
Qed.

Lemma pl_inv_reg {E Key} `{EqDecision Key} `{!PolicyList E Key} s s' :
  pl_entries s' = pl_entries s → pl_count s' = pl_count s → pl_inv s → pl_inv s'.
Proof. apply pl_inv_keep. Qed.

Lemma sys_inv_same d s s' :
  cfg_flags (cfg s') = cfg_flags (cfg s) → vars s' = vars s → reg s' = reg s → res s' = res s →
  sfs s' = sfs s → sys_inv d s → sys_inv d s'.
Proof.
  intros Hc Hv Hr Hre Hsf []. split.
  - eapply pl_inv_reg; [..|done]; cbn; by rewrite Hr.
  - eapply (pl_inv_reg (E := aegis_protected_file)); [..|done]; cbn; by rewrite Hr.
  - eapply pl_inv_reg; [..|done]; cbn; by rewrite Hr.
  - by eapply in_sync_flags.
  - by rewrite Hre, Hr.
  - by rewrite Hsf.
Qed.

Lemma implements_inv v d s rc s' : implements v s rc s' → sys_inv d s → sys_inv d s'.
Proof.
  intros (_ & Hc & _ & Hr & Hv & Hsf & Hre & _). apply sys_inv_same; try done.
  rewrite Hc. apply bump_flags.
Qed.

(** A list operation: the lists keep their invariants, and the memory held
    follows the number of entries. *)
Lemma sys_inv_list d n s s' :
  keeps s s' → sys_inv d s →
  pl_inv (E := aegis_protected_proc) s' → file_inv s' → pl_inv (E := aegis_blocked_syscall) s' →
  res s' = add_kmem n (res s) → entries_total (reg s') = entries_total (reg s) + n →
  sys_inv d s'.
Proof.
  intros (Hc & Hv & Hsf & _) [_ _ _ Hy Hk Ht] Hp Hf Hs Hr Hn. split; [done..| | |].
  - by apply (in_sync_flags s); [rewrite Hc| |].
  - rewrite Hr, Hk, Hn. unfold add_kmem. cbn. f_equal. lia.
  - by rewrite Hsf.
Qed.

Lemma sys_inv_failed d s s' :
  keeps s s' → res s' = res s ∧ reg s' = reg s → sys_inv d s → sys_inv d s'.
Proof. intros (Hc & Hv & Hsf & _) [Hr Hg]. apply sys_inv_same; congruence. Qed.

(** The other two lists after an update of one. *)
Ltac other_lists H :=
  first [ eapply (pl_inv_reg (E := aegis_protected_file)); [..|by apply H]
        | eapply (pl_inv_reg (E := aegis_protected_proc)); [..|by apply H]
        | eapply (pl_inv_reg (E := aegis_blocked_syscall)); [..|by apply H] ];
  cbn; match goal with Hg : reg _ = _ |- _ => by rewrite Hg end.

Ltac count_entries :=
  match goal with Hg : reg _ = _ |- _ => rewrite Hg end;
  unfold entries_total; cbn; rewrite ?length_app; cbn; lia.

Lemma process_add_inv d comm pid s :
  proc_valid (comm, pid) → sys_inv d s →
  wp (aegis_protect_process_add (Some comm) pid) (λ _ s', sys_inv d s') s.
Proof.
  intros Hv Hi. apply (wp_mono _ _ _ _ _ (process_add_spec comm pid s)).
  intros rc s' (Hke & Ho & Hr). pose proof (inv_procs _ _ Hi) as Hp.
  destruct (add_outcome_law _ _ (comm, pid) _ _ _ ltac:(done) Hp Hv
    (process_match_all comm pid s Hp (proj1 Hv)) (new_proc_wf _ _) (new_proc_key _ _ Hv) Ho)
    as [Hp' _].
  destruct (rc =? 0); [destruct Hr as [Hre Hrg]|by eapply sys_inv_failed].
  apply (sys_inv_list d 1 s s'); try done; [other_lists Hi..|count_entries].
Qed.

Lemma process_del_inv d comm pid s :
  no_nul comm → sys_inv d s →
  wp (aegis_protect_process_del (Some comm) pid) (λ _ s', sys_inv d s') s.
Proof.
  intros Hn Hi. apply (wp_mono _ _ _ _ _ (process_del_spec comm pid s)).
  intros rc s' (Hke & Ho & Hr). pose proof (inv_procs _ _ Hi) as Hp.
  destruct (del_outcome_law _ (comm, pid) _ _ _ ltac:(done) Hp
    (process_match_all comm pid s Hp Hn) Ho) as [Hp' _].
  unfold del_outcome in Ho. cbn in Ho.
  destruct (remove_first _ _) as [l|] eqn:R; destruct Ho as (-> & He & _);
    errno; [destruct Hr as [Hre Hrg]|by eapply sys_inv_failed].
  apply remove_first_length in R.
  apply (sys_inv_list d (-1) s s'); try done; [other_lists Hi..|rewrite He in Hrg; count_entries].
Qed.

Lemma file_add_inv fuel d path s :
  file_valid (cstr path) → sys_inv d s →
  wlp (aegis_protected_file_add fuel (Some path)) (λ _ s', sys_inv d s') s.
Proof.
  intros Hv Hi. apply (wp_mono _ _ _ _ _ (file_add_spec fuel path s)). intros rc s' Hpost.
  destruct (file_add_law _ _ _ _ _ (inv_files _ _ Hi) Hv Hpost) as [Hf' _].
  destruct Hpost as (Hke & e & _ & _ & _ & Hr).
  destruct (rc =? 0); [destruct Hr as [Hre Hrg]|by eapply sys_inv_failed].
  apply (sys_inv_list d 1 s s'); try done; [other_lists Hi..|count_entries].
Qed.

Lemma file_del_inv d path s :
  sys_inv d s → wp (aegis_protected_file_del (Some path)) (λ _ s', sys_inv d s') s.
Proof.
  intros Hi. apply (wp_mono _ _ _ _ _ (file_del_spec path s)). intros rc s' Hpost.
  destruct (file_del_law _ _ _ _ (inv_files _ _ Hi) Hpost) as [Hf' _].
  destruct Hpost as (Hke & Ho & Hr). unfold del_outcome in Ho. cbn in Ho.
  destruct (remove_first _ _) as [l|] eqn:R; destruct Ho as (-> & He & _);
    errno; [destruct Hr as [Hre Hrg]|by eapply sys_inv_failed].
  apply remove_first_length in R.
  apply (sys_inv_list d (-1) s s'); try done; [other_lists Hi..|rewrite He in Hrg; count_entries].
Qed.

Lemma syscall_add_inv d nr s :
  sys_inv d s → wp (aegis_syscall_block_add nr) (λ _ s', sys_inv d s') s.
Proof.
  intros Hi. destruct (Z.ltb_spec nr 0) as [Hneg|Hv].
  { unfold aegis_syscall_block_add. rewrite (proj2 (Z.ltb_lt nr 0) Hneg). by apply wp_ret. }
  apply (wp_mono _ _ _ _ _ (syscall_add_spec nr s Hv)).
  intros rc s' (Hke & Ho & Hr). pose proof (inv_syscalls _ _ Hi) as Hp.
  destruct (add_outcome_law _ (mkSyscall nr) nr _ _ _ ltac:(done) Hp Hv
    (λ e _, syscall_match_spec nr e) I eq_refl Ho) as [Hp' _].
  destruct (rc =? 0); [destruct Hr as [Hre Hrg]|by eapply sys_inv_failed].
  apply (sys_inv_list d 1 s s'); try done; [other_lists Hi..|count_entries].
Qed.

Lemma syscall_del_inv d nr s :
  sys_inv d s → wp (aegis_syscall_block_del nr) (λ _ s', sys_inv d s') s.
Proof.
  intros Hi. apply (wp_mono _ _ _ _ _ (syscall_del_spec nr s)).
  intros rc s' (Hke & Ho & Hr). pose proof (inv_syscalls _ _ Hi) as Hp.
  destruct (del_outcome_law _ nr _ _ _ ltac:(done) Hp
    (λ e _, syscall_match_spec nr e) Ho) as [Hp' _].
  unfold del_outcome in Ho. cbn in Ho.
  destruct (remove_first _ _) as [l|] eqn:R; destruct Ho as (-> & He & _);
    errno; [destruct Hr as [Hre Hrg]|by eapply sys_inv_failed].
  apply remove_first_length in R.
  apply (sys_inv_list d (-1) s s'); try done; [other_lists Hi..|rewrite He in Hrg; count_entries].
Qed.

(** Every hook implements its verdict. *)
Lemma hook_implements fuel s d e :
  sys_inv d s → is_hook e = true →
  wp (run_event fuel e) (implements (hook_verdict s e) s) s.
Proof.
  intros [Hp Hf _ _ _ _] He. rewrite run_event_hook by done.
  destruct e; try discriminate He; cbn [hook_body hook_verdict].
  - apply wp_ret, implements_allow.
  - unfold aegis_task_free. wp_step. wp_step. wp_step.
    destruct (enabled (cfg s)); cbn [negb]; wp_go; [|apply implements_allow].
    unfold implements. cbn. by rewrite app_nil_r.
  - by apply ptrace_access_check_ok.
  - apply ptrace_traceme_ok.
  - by apply file_permission_ok.
  - by apply file_open_ok.
  - apply kernel_read_file_ok.
  - apply kernel_load_data_ok.
  - apply bprm_check_security_ok.
  - unfold aegis_socket_create. wp_step. wp_step. wp_step; apply wp_ret, implements_allow.
  - apply wp_ret, implements_allow.
Qed.

(** ** Preservation by the entry points *)

Section entry_points.
Context `{UL : !UninitLaws} `{SL : !ScanLaws} `{YL : !SysctlLaws} `{FL : !SecfsLaws}.

(** One more block held, and released again. *)
Lemma sys_inv_hold d n s : sys_inv d s → sys_inv (d + n) (set_res (add_kmem n (res s)) s).
Proof.
  intros [Hp Hf Hs Hy Hk Ht]. split; try done. cbn. rewrite Hk. unfold add_kmem. cbn. f_equal. lia.
Qed.

Lemma sys_inv_release d s : sys_inv (d + 1) s → sys_inv d (set_res (add_kmem (-1) (res s)) s).
Proof. intros H%(sys_inv_hold _ (-1)). by replace d with (d + 1 + -1) by lia. Qed.

Lemma sys_inv_world d w s : sys_inv d s → sys_inv d (set_world w s).
Proof. by apply sys_inv_same. Qed.

Lemma write_op_inv p d ubuf len op s :
  sys_inv d s →
  (∀ m s1, file_valid (cstr m) → sys_inv (d + 1) s1 →
     wpx p (op (Some m)) (λ _ s2, sys_inv (d + 1) s2) s1) →
  wpx p (aectl_write_op ubuf len op) (λ _ s', sys_inv d s') s.
Proof.
  intros Hi Hop. apply wp_write_op; try done.
  { intros _ _ w _. by apply sys_inv_world. }
  intros _ _ w _. cbn zeta.
  assert (sys_inv (d + 1) (set_res (add_kmem 1 (res (set_world w s))) (set_world w s))) as H1.
  { by apply sys_inv_hold, sys_inv_world. }
  destruct (input_of _ _ _) as [e|[|c t]] eqn:Hin; [by apply sys_inv_release..|].
  intros m Hm. eapply wp_mono; [apply Hop; [|exact H1]|].
  - rewrite Hm. destruct (input_of_inr _ _ _ _ (Nat.lt_0_succ 255) Hin) as (? & ? & _). by split.
  - intros rc s2. cbn beta. apply sys_inv_release.
Qed.

(** What the operation behind a process endpoint keeps, the endpoint keeps. *)
Lemma procs_write_inv (J : sys → Prop) ubuf len (op : option bytes → Z → M Z) s :
  (∀ text comm pid, proc_valid (comm, pid) → word comm → pid = default 0 (sc_pid (sscanf_s15_d text)) →
     wp (op (Some comm) pid) (λ _ s', J s') s) →
  J s →
  wp (auth ← aectl_authorized;
      if negb auth then mret (- EPERM)
      else if (len =? 0)%nat || (AEGIS_PATH_LEN <=? len)%nat then mret (- EINVAL)
      else let g := aectl_get_string ubuf len (uninit AEGIS_PATH_LEN) AEGIS_PATH_LEN in
           if g.1 <=? 0 then mret g.1
           else let sc := sscanf_s15_d (cstr g.2) in
                if sc_count sc <? 1 then mret (- EINVAL)
                else ret ← op (Some (sc_comm sc)) (default 0 (sc_pid sc));
                     if ret =? 0 then mret (Z.of_nat len) else mret ret)
     (λ _ s', J s') s.
Proof.
  intros Hop Hi. apply (wp_stack_op _ ubuf len AEGIS_PATH_LEN (λ t,
    let sc := sscanf_s15_d t in
    if sc_count sc <? 1 then mret (- EINVAL)
    else ret ← op (Some (sc_comm sc)) (default 0 (sc_pid sc));
         if ret =? 0 then mret (Z.of_nat len) else mret ret)); try done.
  { unfold AEGIS_PATH_LEN; lia. }
  intros _ _. destruct (input_of _ _ _) as [e|[|c t]]; [done..|]. cbn zeta.
  destruct (Z.ltb_spec (sc_count (sscanf_s15_d (c :: t))) 1) as [|Hsc]; [by apply wp_ret|].
  destruct (sscanf_word _ Hsc) as (Hn & Hl & Hw).
  wp_step. eapply wp_mono.
  { eapply Hop; [|done|done]. split; [done|]. unfold AEGIS_COMM_LEN. cbn [fst]. by apply Nat.lt_succ_r. }
  intros rc s' Hs'. cbn beta. by destruct (rc =? 0).
Qed.

Lemma syscalls_write_inv (J : sys → Prop) ubuf len (op : Z → M Z) s :
  (∀ text nr, kstrtoint10 text = inr nr → 0 <= nr → wp (op nr) (λ _ s', J s') s) → J s →
  wp (auth ← aectl_authorized;
      if negb auth then mret (- EPERM)
      else if (len =? 0)%nat || (16 <=? len)%nat then mret (- EINVAL)
      else let g := aectl_get_string ubuf len (uninit 16) 16 in
           if g.1 <=? 0 then mret g.1
           else match kstrtoint10 (cstr g.2) with
                | inl _ => mret (- EINVAL)
                | inr nr =>
                    if nr <? 0 then mret (- EINVAL)
                    else ret ← op nr; if ret =? 0 then mret (Z.of_nat len) else mret ret
                end)
     (λ _ s', J s') s.
Proof.
  intros Hop Hi. apply (wp_stack_op _ ubuf len 16 (λ t,
    match kstrtoint10 t with
    | inl _ => mret (- EINVAL)
    | inr nr =>
        if nr <? 0 then mret (- EINVAL)
        else ret ← op nr; if ret =? 0 then mret (Z.of_nat len) else mret ret
    end)); try done.
  { lia. }
  intros _ _. destruct (input_of _ _ _) as [e|[|c t]]; [done..|].
  destruct (kstrtoint10 (c :: t)) as [e|nr] eqn:Hn; [by apply wp_ret|].
  destruct (Z.ltb_spec nr 0) as [|Hpos]; [by apply wp_ret|].
  wp_step. eapply wp_mono; [by eapply Hop|]. intros rc s' Hs'. cbn beta. by destruct (rc =? 0).
Qed.

Lemma control_inv fuel d s i h ubuf len :
  aectl_handlers fuel !! i = Some h → sys_inv d s →
  wlp (h.2 ubuf len) (λ _ s', sys_inv d s') s.
Proof.
  intros Hh Hi.
  destruct i as [|[|[|[|[|[|i]]]]]]; [injection Hh as <-; cbn [snd]..|discriminate Hh].
  - apply write_op_inv; [done|]. intros m s1 Hv H1. by apply file_add_inv.
  - apply write_op_inv; [done|]. intros m s1 _ H1. by apply wp_weaken, file_del_inv.
  - apply wp_weaken, (procs_write_inv (sys_inv d)); [|done]. intros _ comm pid Hv _ _. by apply process_add_inv.
  - apply wp_weaken, (procs_write_inv (sys_inv d)); [|done]. intros _ comm pid [Hv _] _ _. by apply process_del_inv.
  - apply wp_weaken, (syscalls_write_inv (sys_inv d)); [|done]. intros _ nr _ _. by apply syscall_add_inv.
  - apply wp_weaken, (syscalls_write_inv (sys_inv d)); [|done]. intros _ nr _ _. by apply syscall_del_inv.
Qed.

Lemma sysctl_inv d s i h write io :
  aegis_sysctl_table !! i = Some h → sys_inv d s →
  wp (sysctl_access h write io) (λ _ s', sys_inv d s') s.
Proof.
  intros Hh [Hp Hf Hs Hy Hk Ht].
  pose proof (Forall_lookup_1 _ _ _ _ sysctl_table_syncs Hh) as Hsync.
  eapply wp_mono; [by apply Hsync|]. intros rc s' [Hy' (Hr & Hsf & Hre & _)]. split; [..|done| |].
  - eapply pl_inv_reg; [..|done]; cbn; by rewrite Hr.
  - eapply (pl_inv_reg (E := aegis_protected_file)); [..|done]; cbn; by rewrite Hr.
  - eapply pl_inv_reg; [..|done]; cbn; by rewrite Hr.
  - by rewrite Hre, Hr.
  - by rewrite Hsf.
Qed.

Lemma event_inv fuel d s e :
  sys_inv d s → wlp (run_event fuel e) (λ _ s', sys_inv d s') s.
Proof.
  intros Hi. destruct (is_hook e) eqn:He.
  { apply wp_weaken. eapply wp_mono; [by eapply hook_implements|].
    intros rc s' Hv. by eapply implements_inv. }
  destruct e; try discriminate He; cbn [run_event].
  - destruct (aectl_handlers fuel !! i) eqn:E; [by eapply control_inv|by apply wp_ret].
  - destruct (aegis_sysctl_table !! i) eqn:E; [by eapply wp_weaken, sysctl_inv|by apply wp_ret].
Qed.

Lemma late_init_inv d s :
  sys_inv d s → sfs s = secfs_init →
  wp aegis_securityfs_late_init (λ _ s', sys_inv d s') s.
Proof.
  intros Hi Hs. unfold aegis_securityfs_late_init. wp_step.
  eapply wp_mono; [by apply securityfs_init_spec|].
  intros rc s' (Hc & Hr & Hv & Hre & _ & Ht).
  assert (sys_inv d s') as Hi'.
  { destruct Hi as [Hp Hf Hsy Hy Hk _]. split.
    - eapply pl_inv_reg; [..|done]; cbn; by rewrite Hr.
    - eapply (pl_inv_reg (E := aegis_protected_file)); [..|done]; cbn; by rewrite Hr.
    - eapply pl_inv_reg; [..|done]; cbn; by rewrite Hr.
    - by apply (in_sync_flags s); [rewrite Hc| |].
    - by rewrite Hre, Hr.
    - right. tauto. }
  wp_step. destruct (negb _); wp_go; [|done]. by apply (sys_inv_same d s').
Qed.

(** ** Boot *)

Definition proc_abs (s : sys) : list (bytes * Z) := pl_abs (E := aegis_protected_proc) s.
Definition syscall_abs (s : sys) : list Z := pl_abs (E := aegis_blocked_syscall) s.

(** The allocator never fails. *)
Definition kmalloc_total : Prop := ∀ w, (kmalloc_ok w).1 = true.

(** Half way through [aegis_init]: the defaults [ps] and [qs] have been asked
    for, and those the allocator granted are on the lists. *)
Record booting (ps : list (bytes * Z)) (qs : list Z) (s : sys) : Prop := {
  bt_inv : sys_inv 0 s;
  bt_cfg : cfg s = aegis_cfg_init;
  bt_vars : vars s = sysctl_vars_init;
  bt_hooks : hooks s = registered_hooks;
  bt_sfs : sfs s = secfs_init;
  bt_files : file_abs s = [];
  bt_procs : proc_abs s `sublist_of` ps;
  bt_syscalls : syscall_abs s `sublist_of` qs;
  bt_all : kmalloc_total → proc_abs s = ps ∧ syscall_abs s = qs;
}.

(** One default entry: kept if granted, and then at the end. *)
Lemma spec_add_sublist {Key} `{EqDecision Key} cap alloc k (l full : list Key) rc l' :
  (rc, l') = spec_add cap alloc k l → l `sublist_of` full → k ∉ full →
  Z.of_nat (length full) < cap →
  l' `sublist_of` (full ++ [k]) ∧ (alloc = true → l = full → l' = full ++ [k]).
Proof.
  intros Hs Hsub Hk Hcap. unfold spec_add in Hs.
  pose proof (sublist_length _ _ Hsub).
  destruct (Z.leb_spec cap (Z.of_nat (length l))); [lia|].
  rewrite decide_False in Hs by (intros Hin; by apply Hk, (sublist_subseteq _ _ Hsub)).
  destruct alloc; injection Hs as -> ->.
  - split; [by apply sublist_app|by intros _ ->].
  - split; [by apply sublist_inserts_r|done].
Qed.

Lemma boot_proc_add ps qs comm pid s :
  proc_valid (comm, pid) → (comm, pid) ∉ ps → Z.of_nat (length ps) < 64 →
  booting ps qs s →
  wp (aegis_protect_process_add (Some comm) pid) (λ _ s', booting (ps ++ [(comm, pid)]) qs s') s.
Proof.
  intros Hv Hk Hl [Hi Hc Hva Hh Hs Hf Hp Hq Ha]. pose proof (inv_procs _ _ Hi) as Hpi.
  eapply wp_mono; [apply (wp_and _ _ _ _ _ (process_add_inv _ comm pid s Hv Hi)
                                            (process_add_spec comm pid s))|].
  intros rc s' (Hi' & (Hk1 & Hk2 & Hk3 & Hk4) & Ho & Hr).
  destruct (add_outcome_law _ _ (comm, pid) _ _ _ ltac:(done) Hpi Hv
    (process_match_all comm pid s Hpi (proj1 Hv)) (new_proc_wf _ _) (new_proc_key _ _ Hv) Ho)
    as [_ Hspec].
  destruct (spec_add_sublist _ _ _ _ ps _ _ Hspec Hp Hk Hl) as [Hsub Hall].
  assert (file_abs s' = file_abs s ∧ syscall_abs s' = syscall_abs s) as [Hfe Hse].
  { unfold file_abs, syscall_abs, pl_abs. cbn.
    destruct (rc =? 0); destruct Hr as [_ ->]; done. }
  split; try congruence; try done.
  intros Hm. destruct (Ha Hm). split; [|congruence]. by apply Hall.
Qed.

Lemma boot_syscall_add ps qs nr s :
  0 <= nr → nr ∉ qs → Z.of_nat (length qs) < 256 → booting ps qs s →
  wp (aegis_syscall_block_add nr) (λ _ s', booting ps (qs ++ [nr]) s') s.
Proof.
  intros Hv Hk Hl [Hi Hc Hva Hh Hs Hf Hp Hq Ha]. pose proof (inv_syscalls _ _ Hi) as Hqi.
  eapply wp_mono; [apply (wp_and _ _ _ _ _ (syscall_add_inv _ nr s Hi) (syscall_add_spec nr s Hv))|].
  intros rc s' (Hi' & (Hk1 & Hk2 & Hk3 & Hk4) & Ho & Hr).
  destruct (add_outcome_law _ (mkSyscall nr) nr _ _ _ ltac:(done) Hqi Hv
    (λ e _, syscall_match_spec nr e) I eq_refl Ho) as [_ Hspec].
  destruct (spec_add_sublist _ _ _ _ qs _ _ Hspec Hq Hk Hl) as [Hsub Hall].
  assert (file_abs s' = file_abs s ∧ proc_abs s' = proc_abs s) as [Hfe Hse].
  { unfold file_abs, proc_abs, pl_abs. cbn.
    destruct (rc =? 0); destruct Hr as [_ ->]; done. }
  split; try congruence; try done.
  intros Hm. destruct (Ha Hm). split; [congruence|]. by apply Hall.
Qed.

Lemma booting_log ps qs l m s : booting ps qs s → booting ps qs (add_log l m s).
Proof.
  intros [Hi Hc Hva Hh Hs Hf Hp Hq Ha]. split; try done. by apply (sys_inv_same 0 s).
Qed.

(** The default policy. *)
Definition default_procs : list (bytes * Z) :=
  [(str "sshd", 0); (str "init", 1); (str "systemd", 1)].
Definition default_syscalls : list Z :=
  [NR_kexec_load; NR_kexec_file_load; NR_init_module; NR_finit_module; NR_delete_module].

Lemma boot_process_init s :
  booting [] [] s → wp aegis_process_init (λ rc s', rc = 0 ∧ booting default_procs [] s') s.
Proof.
  intros Hb. unfold aegis_process_init. wp_step. wp_step.
  assert (protected_procs (reg s) = [] ∧ protected_proc_count (reg s) = 0) as [He Hn].
  { destruct Hb as [[(Hc & _) _ _ _ _ _] _ _ _ _ _ Hp _ _]. cbn in Hc. unfold proc_abs, pl_abs in Hp.
    apply sublist_nil_r in Hp. cbn in Hp. apply fmap_nil_inv in Hp. by rewrite Hp in *. }
  replace (set_reg _ s) with s; [|destruct s as [? [] ? ? ? ? ? ?]; cbn in *; by subst].
  assert (∀ n, proc_valid (str "sshd", n) ∧ proc_valid (str "init", n) ∧ proc_valid (str "systemd", n))
    as Hv.
  { intros n. unfold proc_valid. repeat split; cbn; try lia; by repeat constructor. }
  wp_step. eapply wp_mono; [apply (boot_proc_add [] []); [apply Hv|set_solver|done|done]|].
  intros ? s1 H1. cbn beta in H1. wp_step.
  eapply wp_mono; [eapply boot_proc_add; [..|exact H1]; [apply Hv| |done]|].
  { by apply (bool_decide_unpack _). }
  intros ? s2 H2. cbn beta in H2. wp_step.
  eapply wp_mono; [eapply boot_proc_add; [..|exact H2]; [apply Hv| |done]|].
  { by apply (bool_decide_unpack _). }
  intros ? s3 H3. cbn beta in H3. by apply wp_ret.
Qed.

Lemma boot_file_init ps qs s :
  booting ps qs s → wp aegis_file_init (λ rc s', rc = 0 ∧ booting ps qs s') s.
Proof.
  intros Hb. unfold aegis_file_init. wp_go. split; [done|].
  assert (protected_file_count (reg s) = 0) as Hn.
  { destruct Hb as [[_ (Hc & _) _ _ _ _] _ _ _ _ Hf _ _ _]. cbn in Hc.
    unfold file_abs, pl_abs in Hf. cbn in Hf. apply fmap_nil_inv in Hf. by rewrite Hf in *. }
  by replace (set_reg _ s) with s by (destruct s as [? [] ? ? ? ? ? ?]; cbn in *; by subst).
Qed.

Lemma boot_audit_init `{NL : !NrLaws} ps s :
  booting ps [] s → wp aegis_audit_init (λ rc s', rc = 0 ∧ booting ps default_syscalls s') s.
Proof.
  intros Hb. unfold aegis_audit_init. wp_step. wp_step.
  assert (blocked_syscalls (reg s) = [] ∧ blocked_syscall_count (reg s) = 0) as [He Hn].
  { destruct Hb as [[_ _ (Hc & _) _ _ _] _ _ _ _ _ _ Hq _]. cbn in Hc. unfold syscall_abs, pl_abs in Hq.
    apply sublist_nil_r in Hq. cbn in Hq. apply fmap_nil_inv in Hq. by rewrite Hq in *. }
  replace (set_reg _ s) with s; [|destruct s as [? [] ? ? ? ? ? ?]; cbn in *; by subst].
  pose proof nr_nodup as Hnd. pose proof nr_range as Hr.
  rewrite !NoDup_cons in Hnd. rewrite !Forall_cons in Hr.
  wp_step. eapply wp_mono; [apply (boot_syscall_add ps []); [lia|set_solver|done|exact Hb]|].
  intros ? s1 H1. cbn beta in H1. wp_step.
  eapply wp_mono; [eapply boot_syscall_add; [..|exact H1]; [lia|set_solver|done]|].
  intros ? s2 H2. cbn beta in H2. wp_step.
  eapply wp_mono; [eapply boot_syscall_add; [..|exact H2]; [lia|set_solver|done]|].
  intros ? s3 H3. cbn beta in H3. wp_step.
  eapply wp_mono; [eapply boot_syscall_add; [..|exact H3]; [lia|set_solver|done]|].
  intros ? s4 H4. cbn beta in H4. wp_step.
  eapply wp_mono; [eapply boot_syscall_add; [..|exact H4]; [lia|set_solver|done]|].
  intros ? s5 H5. cbn beta in H5. by apply wp_ret.
Qed.

(** A step of [aegis_init] whose routine returns zero. *)
Lemma init_step_ok ps qs ps' qs' init what up rest (Q : Z → sys → Prop) s :
  wp init (λ rc s', rc = 0 ∧ booting ps' qs' s') s → booting ps qs s →
  (∀ s', booting ps' qs' s' → wp rest Q s') →
  wp (init_step init what up rest) Q s.
Proof.
  intros Hi Hb Hr. unfold init_step. wp_step. eapply wp_mono; [exact Hi|].
  intros rc s' [-> Hb']. errno. cbn [negb]. wp_step. wp_step. by apply Hr, booting_log.
Qed.

(** After [aegis_init]. *)
Record booted (rc : Z) (s : sys) : Prop := {
  bd_inv : sys_inv 0 s;
  bd_rc : rc = if aegis_sysctl_header (vars s) then 0 else - ENOMEM;
  bd_cfg : cfg s = aegis_cfg_init;
  bd_vars : ∃ b n, vars s = header_set b n sysctl_vars_init;
  bd_hooks : hooks s = registered_hooks;
  bd_sfs : sfs s = secfs_init;
  bd_files : file_abs s = [];
  bd_procs : proc_abs s `sublist_of` default_procs;
  bd_syscalls : syscall_abs s `sublist_of` default_syscalls;
  bd_all : kmalloc_total → proc_abs s = default_procs ∧ syscall_abs s = default_syscalls;
}.

Lemma sys0_booting w : booting [] [] (set_hooks registered_hooks (sys0 w)).
Proof.
  assert (∀ E Key (PL : PolicyList E Key) s,
    0 <= pl_cap → pl_entries s = [] → pl_count s = 0 → pl_inv s) as Hpl.
  { intros E Key PL s H1 H2 H3. unfold pl_inv, pl_abs, spec_wf. rewrite H2, H3. cbn.
    repeat split; [constructor|done|constructor|constructor]. }
  split; [|done..]. split; [apply Hpl; [by apply Z.lt_le_incl|done..]..| |done|by left]. split; [by intros []|done].
Qed.

Lemma booted_log rc l m s : booted rc s → booted rc (add_log l m s).
Proof. intros [Hi ? ? ? ? ? ? ? ? ?]. split; try done. by apply (sys_inv_same 0 s). Qed.

(** Storing the sysctl header turns a booting state into a booted one. *)
Lemma booting_header b n w s :
  booting default_procs default_syscalls s →
  booted (if b : bool then 0 else - ENOMEM) (set_vars (header_set b n (vars s)) (set_world w s)).
Proof.
  intros [Hi Hc Hv Hh Hs Hf Hp Hq Ha]. split; try done; [|exists b, n; cbn; by rewrite Hv].
  destruct Hi as [Ip If Iq [Ik Iff] Ir It]. by split.
Qed.

Lemma aegis_init_boots `{NL : !NrLaws} w : wp aegis_init booted (sys0 w).
Proof.
  unfold aegis_init. do 6 (wp_step; wp_step).
  pose proof (sys0_booting w) as Hb.
  match goal with |- wpx _ _ _ ?s => assert (booting [] [] s) as Hb' end.
  { destruct Hb as [Hi ? ? ? ? ? ? ? ?]. split; try done. by eapply sys_inv_same; [..|exact Hi]. }
  eapply init_step_ok; [by apply boot_process_init|exact Hb'|]. intros s1 H1.
  eapply init_step_ok; [by apply boot_file_init|exact H1|]. intros s2 H2.
  eapply init_step_ok; [by apply boot_audit_init|exact H2|]. intros s3 H3.
  eapply (init_step_ok _ _ default_procs default_syscalls); [|exact H3|].
  { by apply wp_ret. }
  intros s4 H4. unfold init_step, aegis_sysctl_init. wp_step. wp_step. apply wp_kcall.
  intros ok w4 _. pose proof (booting_header ok (sysctl_tables (vars s4) + Z.b2z ok) w4 s4 H4) as Hd.
  destruct ok; cbn [negb]; wp_go; cbn in *; by repeat apply booted_log.
Qed.

(** ** Reachable states *)

Lemma reach_inv `{NL : !NrLaws} fuel s : reach fuel s → sys_inv 0 s.
Proof.
  induction 1 as [w rc s Hr|s e rc s' _ IH Hr|s rc s' _ IH Hs Hr|s w _ IH].
  - by apply (bd_inv rc), (wp_eq _ _ _ _ _ _ Hr (aegis_init_boots w)).
  - by apply (wp_eq _ _ _ _ _ _ Hr (event_inv fuel 0 s e IH)).
  - by apply (wp_eq _ _ _ _ _ _ Hr (late_init_inv 0 s IH Hs)).
  - by apply sys_inv_world.
Qed.

End entry_points.

End system.
