(* ===== verification/Scenario.v ===== *)
(** * Concrete runs

    States of the whole module on the kernel of RefKernel.v, computed from boot
    by the model's own operations.  The theorems are instantiated on them. *)

From S2P Require Import Prelude CString AegisH Kernel State RefKernel PolicyList.
From S2P Require Import Process FileHash File SyscallList Lsm Sysctl Control Securityfs System.

(** The state a computation ends in. *)
Definition state_of {A} (m : M A) (s : sys) : sys :=
  match m s with Some (_, s') => s' | None => s end.

Definition sysctl_write (i : nat) (text : string) : event :=
  Ev_sysctl i true (mkIo (str text) (Z.of_nat (length (str text))) 0).

Definition control_write (i : nat) (text : string) : event :=
  Ev_control i (str text ++ [LF]) (S (length (str text))).

(** After boot; then with /etc/passwd protected; then with module loading denied;
    after boot with the master switch off; with all tracing restricted. *)
Definition s_boot : sys := state_of aegis_init (sys0 world0).
Definition s_file : sys := state_of (run_event 20 (control_write 0 "/etc/passwd")) s_boot.
Definition s_denied : sys := state_of (run_event 20 (sysctl_write 5 "1")) s_file.
Definition s_off : sys := state_of (run_event 20 (sysctl_write 0 "0")) s_file.
Definition s_trace : sys := state_of (run_event 20 (sysctl_write 2 "1")) s_boot.

Lemma run_ends {A} (m : M A) s a : fst <$> m s = Some a → m s = Some (a, state_of m s).
Proof. unfold state_of. destruct (m s) as [[a' s']|]; [|done]. by intros [= ->]. Qed.

(** A run that ends reaches its state. *)
Lemma reach_state_of fuel e s :
  reach fuel s → bool_decide (is_Some (run_event fuel e s)) = true →
  reach fuel (state_of (run_event fuel e) s).
Proof.
  intros Hr [[rc s'] E]%bool_decide_eq_true_1. unfold state_of. rewrite E. by eapply reach_event.
Qed.

Lemma s_boot_reach fuel : reach fuel s_boot.
Proof.
  destruct (proj1 (wp_total _ _ _) (aegis_init_boots (K := ref_kernel) world0)) as (rc & s' & E & _).
  unfold s_boot, state_of. rewrite E. by eapply reach_boot.
Qed.

Lemma s_file_reach : reach 20 s_file.
Proof. apply reach_state_of; [apply s_boot_reach|by vm_compute]. Qed.

Lemma s_denied_reach : reach 20 s_denied.
Proof. apply reach_state_of; [apply s_file_reach|by vm_compute]. Qed.

Lemma s_off_reach : reach 20 s_off.
Proof. apply reach_state_of; [apply s_file_reach|by vm_compute]. Qed.

Lemma s_trace_reach : reach 20 s_trace.
Proof. apply reach_state_of; [apply s_boot_reach|by vm_compute]. Qed.

(** After the late initcall: with the securityfs tree. *)
Definition s_tree : sys := state_of aegis_securityfs_late_init s_boot.

Lemma s_tree_reach : reach 20 s_tree.
Proof.
  apply (reach_late 20 s_boot 0); [apply s_boot_reach|reflexivity|].
  exact (run_ends aegis_securityfs_late_init s_boot 0 eq_refl).
Qed.

Lemma s_tree_ok : tree_ok (sfs s_tree).
Proof.
  destruct (inv_tree 0 s_tree (reach_inv 20 s_tree s_tree_reach)) as [H|[H|[H _]]];
    [|done|]; exfalso; [apply (f_equal (λ f, length (sf_live f))) in H|apply (f_equal length) in H];
    by vm_compute in H.
Qed.

(** Evaluate a decidable claim about a concrete state. *)
Ltac by_decision := eapply bool_decide_eq_true_1; by vm_compute.
