(* ===== verification/HookProgs.v ===== *)
(** * The hooks as programs of atomic accesses

    The hooks run on many processors at once.  They read the switches and the
    number of protected files without a lock, search the lists under the list's
    lock, and increment the counters with atomic64_inc.  Here each hook is
    written as a program over those accesses, one after the other and with the
    short-circuit evaluation of the C code, so that other code can run between
    any two of them.  Without such interference a program is the hook of Lsm.v. *)

From S2P Require Import Prelude CString AegisH Kernel State PolicyList.
From S2P Require Import Process FileHash File SyscallList Lsm Sysctl Control Securityfs System.

Section progs.
Context `{K : Kernel}.

(** ** Accesses *)

(** One access to state other code can change, or one call into the kernel. *)
Inductive access : Type → Type :=
  | ReadFlag (f : aegis_config → bool) : access bool      (* a switch of aegis_cfg *)
  | ReadFeatures : access Z
  | ReadFileCount : access Z                              (* without the lock *)
  | FindProc (task : task_struct) : access bool           (* the loops under a lock *)
  | FindFile (path : bytes) : access bool
  | FindSyscall (nr : Z) : access bool
  | StatInc (k : stat) : access unit
  | Audit (m : bytes) : access unit
  | Current : access task_struct
  | GetPage : access bool
  | FreePage : access unit
  | DPath (file : kfile) : access (Z + bytes).

Definition do_access {A} (a : access A) : M A :=
  match a with
  | ReadFlag f => gets (λ s, f (cfg s))
  | ReadFeatures => gets (λ s, features (cfg s))
  | ReadFileCount => aegis_protected_file_count
  | FindProc task => gets (λ s, existsb (proc_covers task) (protected_procs (reg s)))
  | FindFile path => gets (λ s, existsb (file_match path) (protected_files (reg s)))
  | FindSyscall nr => gets (λ s, existsb (syscall_match nr) (blocked_syscalls (reg s)))
  | StatInc k => stat_inc k
  | Audit m => AEGIS_AUDIT m
  | Current => current_task
  | GetPage => get_free_page
  | FreePage => free_page
  | DPath file => kcall (d_path file)
  end.

(** The access waits for the lock of the file list. *)
Definition takes_file_lock {A} (a : access A) : bool :=
  match a with FindFile _ => true | _ => false end.

(** ** Programs *)

Inductive prog (A : Type) : Type :=
  | PRet (a : A)
  | PAct {B : Type} (a : access B) (k : B → prog A).

#[global] Arguments PRet {A}.
#[global] Arguments PAct {A B}.

#[global] Instance prog_ret : MRet prog := λ A a, PRet a.
#[global] Instance prog_bind : MBind prog := λ A B f,
  fix go p := match p with
              | PRet a => f a
              | PAct a k => PAct a (λ b, go (k b))
              end.

Definition act {B} (a : access B) : prog B := PAct a PRet.

(** Without interference. *)
Fixpoint alone {A} (p : prog A) : M A :=
  match p with
  | PRet a => mret a
  | PAct a k => b ← do_access a; alone (k b)
  end.

(** ** Hooks *)

Definition feature_prog (f : Z) : prog bool :=
  en ← act (ReadFlag enabled);
  if negb en then mret false
  else fs ← act ReadFeatures; mret (negb (Z.land fs f =? 0)).

Definition is_process_protected_prog (task : task_struct) : prog bool :=
  on ← feature_prog AEGIS_FEATURE_PROCESS_PROTECT;
  if negb on then mret false else act (FindProc task).

Definition is_file_protected_prog (path : bytes) : prog bool :=
  on ← feature_prog AEGIS_FEATURE_FILE_INTEGRITY;
  if negb on then mret false else act (FindFile path).

Definition is_syscall_blocked_prog (nr : Z) : prog bool :=
  on ← feature_prog AEGIS_FEATURE_SYSCALL_AUDIT;
  if negb on then mret false
  else
    en ← act (ReadFlag syscall_audit_enable);
    if negb en then mret false else act (FindSyscall nr).

Definition task_free_prog : prog unit :=
  en ← act (ReadFlag enabled);
  if negb en then mret tt else act (StatInc st_total_events).

Definition ptrace_access_check_prog (child : task_struct) (mode : Z) : prog Z :=
  on ← feature_prog AEGIS_FEATURE_PTRACE_RESTRICT;
  if negb on then mret 0
  else
    all ← act (ReadFlag ptrace_restrict_all);
    if all : bool then
      act (StatInc st_ptrace_blocked);;
      act (StatInc st_total_events);;
      if negb (Z.land mode PTRACE_MODE_NOAUDIT =? 0) then mret (- EPERM)
      else
        cur ← act Current;
        act (Audit (str "ptrace BLOCKED: " ++ task_tag cur ++ str " -> " ++ task_tag child
                    ++ str " (all ptrace restricted)"));;
        mret (- EPERM)
    else
      pp ← feature_prog AEGIS_FEATURE_PROCESS_PROTECT;
      prot ← (if pp : bool then is_process_protected_prog child else mret false);
      if prot : bool then
        act (StatInc st_ptrace_blocked);;
        act (StatInc st_total_events);;
        cur ← act Current;
        act (Audit (str "ptrace BLOCKED: " ++ task_tag cur ++ str " -> PROTECTED "
                    ++ task_tag child));;
        mret (- EPERM)
      else mret 0.

Definition ptrace_traceme_prog (parent : task_struct) : prog Z :=
  on ← feature_prog AEGIS_FEATURE_PTRACE_RESTRICT;
  if negb on then mret 0
  else
    all ← act (ReadFlag ptrace_restrict_all);
    if all : bool then
      act (StatInc st_ptrace_blocked);;
      act (StatInc st_total_events);;
      cur ← act Current;
      act (Audit (str "ptrace TRACEME BLOCKED: " ++ task_tag cur ++ str " from "
                  ++ task_tag parent));;
      mret (- EPERM)
    else mret 0.

Definition file_permission_prog (file : kfile) (mask : Z) : prog Z :=
  on ← feature_prog AEGIS_FEATURE_FILE_INTEGRITY;
  if negb on then mret 0
  else
    n ← act ReadFileCount;
    if n =? 0 then mret 0
    else
      ok ← act GetPage;
      if negb ok then mret 0
      else
        p ← act (DPath file);
        match p with
        | inl _ => act FreePage;; mret 0
        | inr path_str =>
            prot ← is_file_protected_prog path_str;
            rc ← (if prot : bool then
                    enforce ← (if negb (Z.land mask (Z.lor MAY_WRITE MAY_APPEND) =? 0)
                               then act (ReadFlag file_integrity_enforce) else mret false);
                    rc ← (if enforce : bool then
                            act (StatInc st_file_violations);;
                            act (StatInc st_total_events);;
                            cur ← act Current;
                            act (Audit (str "file WRITE BLOCKED: " ++ task_tag cur ++ str " -> "
                                        ++ cstr path_str ++ str " (protected)"));;
                            mret (- EACCES)
                          else mret 0);
                    log ← act (ReadFlag file_integrity_log);
                    (if log && (rc =? 0) then
                       act (StatInc st_total_events);;
                       cur ← act Current;
                       act (Audit (str "file ACCESS: " ++ task_tag cur ++ str " -> "
                                   ++ cstr path_str ++ str " (mask=0x" ++ fmt_x (u32 mask)
                                   ++ str ")"))
                     else mret tt);;
                    mret rc
                  else mret 0);
            act FreePage;;
            mret rc
        end.

Definition file_open_prog (file : kfile) : prog Z :=
  let mask := open_mask file in
  if mask =? 0 then mret 0 else file_permission_prog file mask.

Definition kernel_read_file_prog (file : option kfile) (id : kernel_read_file_id)
    (contents_only : bool) : prog Z :=
  en ← act (ReadFlag enabled);
  if negb en then mret 0
  else
    let nr := aegis_read_id_to_syscall id in
    b ← (if 0 <=? nr then is_syscall_blocked_prog nr else mret false);
    if b : bool then
      act (StatInc st_syscall_violations);;
      act (StatInc st_total_events);;
      act (Audit (str "BLOCKED syscall " ++ fmt_d nr ++ str " via kernel_read_file (id="
                  ++ fmt_d (read_id_val id) ++ str ")"));;
      mret (- EPERM)
    else
      on ← feature_prog AEGIS_FEATURE_MODULE_CONTROL;
      if negb on then mret 0
      else
        denied ← (if bool_decide (id = READING_MODULE)
                  then act (ReadFlag module_loading_denied) else mret false);
        if denied : bool then
          match file with
          | None => mret (- EPERM)
          | Some file =>
              ok ← act GetPage;
              if negb ok then mret (- ENOMEM)
              else
                p ← act (DPath file);
                match p with
                | inr path_str =>
                    act (StatInc st_module_violations);;
                    act (StatInc st_total_events);;
                    cur ← act Current;
                    act (Audit (str "module LOAD BLOCKED: " ++ task_tag cur ++ str " -> "
                                ++ cstr path_str))
                | inl _ => mret tt
                end;;
                act FreePage;;
                mret (- EPERM)
          end
        else
          denied ← (if bool_decide (id = READING_FIRMWARE)
                    then act (ReadFlag module_loading_denied) else mret false);
          if denied : bool then
            act (StatInc st_module_violations);;
            act (StatInc st_total_events);;
            cur ← act Current;
            act (Audit (str "firmware LOAD BLOCKED: " ++ task_tag cur));;
            mret (- EPERM)
          else mret 0.

Definition kernel_load_data_prog (id : kernel_load_data_id) (contents : bool) : prog Z :=
  en ← act (ReadFlag enabled);
  if negb en then mret 0
  else
    au ← feature_prog AEGIS_FEATURE_SYSCALL_AUDIT;
    b ← (if au : bool then
           b1 ← (if bool_decide (id = LOADING_MODULE)
                 then is_syscall_blocked_prog NR_init_module else mret false);
           if b1 : bool then mret true
           else if bool_decide (id = LOADING_KEXEC_IMAGE)
                then is_syscall_blocked_prog NR_kexec_load else mret false
         else mret false);
    if b : bool then
      act (StatInc st_syscall_violations);;
      act (StatInc st_total_events);;
      act (Audit (str "BLOCKED syscall via kernel_load_data (id=" ++ fmt_d (load_id_val id)
                  ++ str ")"));;
      mret (- EPERM)
    else
      on ← feature_prog AEGIS_FEATURE_MODULE_CONTROL;
      if negb on then mret 0
      else
        denied ← (if bool_decide (id = LOADING_MODULE)
                  then act (ReadFlag module_loading_denied) else mret false);
        if denied : bool then
          act (StatInc st_module_violations);;
          act (StatInc st_total_events);;
          cur ← act Current;
          act (Audit (str "module LOAD DATA BLOCKED: " ++ task_tag cur));;
          mret (- EPERM)
        else mret 0.

Definition bprm_check_prog : prog Z :=
  en ← act (ReadFlag enabled);
  if negb en then mret 0
  else
    au ← feature_prog AEGIS_FEATURE_SYSCALL_AUDIT;
    en ← (if au : bool then act (ReadFlag syscall_audit_enable) else mret false);
    (if en : bool then act (StatInc st_total_events) else mret tt);;
    mret 0.

Definition socket_create_prog : prog Z :=
  en ← act (ReadFlag enabled);
  if negb en then mret 0 else mret 0.

(** The program of every hook; the other entry points have none here. *)
Definition hook_prog (e : event) : prog Z :=
  match e with
  | Ev_task_free _ => task_free_prog;; mret 0
  | Ev_ptrace_access_check child mode => ptrace_access_check_prog child mode
  | Ev_ptrace_traceme parent => ptrace_traceme_prog parent
  | Ev_file_permission file mask => file_permission_prog file mask
  | Ev_file_open file => file_open_prog file
  | Ev_kernel_read_file file id c => kernel_read_file_prog file id c
  | Ev_kernel_load_data id c => kernel_load_data_prog id c
  | Ev_bprm_check => bprm_check_prog
  | Ev_socket_create _ _ _ _ => socket_create_prog
  | _ => mret 0
  end.

(** ** What an access changes *)

(** A call into the rest of the kernel. *)
Definition calls_kernel {B} (a : access B) : bool :=
  match a with GetPage | DPath _ => true | _ => false end.

(** An access leaves the switches and the lists alone. *)
Lemma access_frame {B} (a : access B) s :
  ∃ b s', do_access a s = Some (b, s') ∧ cfg_flags (cfg s') = cfg_flags (cfg s) ∧ reg s' = reg s ∧
    (calls_kernel a = false → world s' = world s).
Proof.
  destruct a; cbn [do_access]; unfold aegis_protected_file_count, stat_inc, AEGIS_AUDIT, AEGIS_LOG,
    current_task, get_free_page, free_page, upd_res, kcall, gets, modify, mbind, M_bind, mret, M_ret;
    repeat case_match; simplify_eq; by eexists _, _.
Qed.

Lemma access_cfg {A} (a : access A) s b s' :
  do_access a s = Some (b, s') →
  cfg s' = match a with StatInc k => AEGIS_STAT_INC k (cfg s) | _ => cfg s end.
Proof.
  destruct a; cbn [do_access]; unfold aegis_protected_file_count, stat_inc, AEGIS_AUDIT, AEGIS_LOG,
    current_task, get_free_page, free_page, upd_res, kcall, gets, modify, mbind, M_bind, mret, M_ret;
    intros; repeat case_match; by simplify_eq.
Qed.

(** ** A program alone is the hook *)

Definition same {A} (p : prog A) (m : M A) : Prop := ∀ s, alone p s = m s.

Lemma alone_bind {A B} (p : prog A) (f : A → prog B) s :
  alone (p ≫= f) s = (alone p ≫= λ a, alone (f a)) s.
Proof.
  revert s. induction p as [a|C a k IH]; intros s; [done|].
  cbn. unfold mbind, M_bind. destruct (do_access a s) as [[b s']|]; [|done].
  etransitivity; [apply IH|done].
Qed.

Lemma same_ret {A} (a : A) : same (mret a) (mret a).
Proof. done. Qed.

Lemma same_act {A} (a : access A) : same (act a) (do_access a).
Proof. intros s. cbn. unfold mbind, M_bind. by destruct (do_access a s) as [[b s']|]. Qed.

Lemma same_bind {A B} (p : prog A) (m : M A) (f : A → prog B) (g : A → M B) :
  same p m → (∀ a, same (f a) (g a)) → same (p ≫= f) (m ≫= g).
Proof.
  intros Hp Hf s. rewrite alone_bind. unfold mbind, M_bind. rewrite Hp.
  destruct (m s) as [[a s']|]; [apply Hf|done].
Qed.

Lemma same_if {A} (b : bool) (p q : prog A) (m n : M A) :
  same p m → same q n → same (if b then p else q) (if b then m else n).
Proof. by destruct b. Qed.

(** A value the code does not use on this branch need not be read. *)
Lemma same_unread {A B} (h : sys → A) (p : prog B) (g : A → M B) :
  (∀ a, same p (g a)) → same p (gets h ≫= g).
Proof. intros Hp s. apply Hp. Qed.

(** A switch read only when [b] holds. *)
Lemma same_guard {B} (b : bool) (f : aegis_config → bool) (p : bool → prog B) (g : bool → M B) :
  (∀ x, same (p (b && x)) (g x)) →
  same ((if b then act (ReadFlag f) else mret false) ≫= p) (gets (λ s, f (cfg s)) ≫= g).
Proof.
  intros H s. destruct b; [by apply (same_bind _ _ p g (same_act (ReadFlag f)))|apply H].
Qed.

Lemma same_feature f : same (feature_prog f) (feature_check f).
Proof.
  intros s. unfold feature_prog, act, mbind, prog_bind, feature_check, gets, AEGIS_FEATURE_CHECK.
  cbn [alone do_access]. unfold mbind, M_bind, gets. by destruct (enabled (cfg s)).
Qed.

Ltac same :=
  repeat first
    [ apply same_ret | apply same_feature | assumption
    | match goal with |- same (act ?a) _ => exact (same_act a) end
    | (apply same_guard; intros ?) | apply same_if | (apply same_bind; [|intros ?]) ].

Lemma same_process_protected task :
  same (is_process_protected_prog task) (aegis_is_process_protected (Some task)).
Proof. unfold is_process_protected_prog, aegis_is_process_protected. same. Qed.

Lemma same_file_protected path :
  same (is_file_protected_prog path) (aegis_is_file_protected (Some path)).
Proof. unfold is_file_protected_prog, aegis_is_file_protected. same. Qed.

Lemma same_syscall_blocked nr : same (is_syscall_blocked_prog nr) (aegis_is_syscall_blocked nr).
Proof. unfold is_syscall_blocked_prog, aegis_is_syscall_blocked. same. Qed.

Lemma same_ptrace child mode :
  same (ptrace_access_check_prog child mode) (aegis_ptrace_access_check child mode).
Proof.
  pose proof (same_process_protected child).
  unfold ptrace_access_check_prog, aegis_ptrace_access_check. same.
Qed.

Lemma same_traceme parent : same (ptrace_traceme_prog parent) (aegis_ptrace_traceme parent).
Proof. unfold ptrace_traceme_prog, aegis_ptrace_traceme. same. Qed.

Lemma same_file_permission file mask :
  same (file_permission_prog file mask) (aegis_file_permission file mask).
Proof.
  unfold file_permission_prog, aegis_file_permission. same.
  match goal with |- same (match ?p with _ => _ end) _ => destruct p as [e|path_str] end; [same|].
  pose proof (same_file_protected path_str). same.
Qed.

Lemma same_file_open file : same (file_open_prog file) (aegis_file_open file).
Proof.
  pose proof (same_file_permission file (open_mask file)).
  unfold file_open_prog, aegis_file_open. cbv zeta. same.
Qed.

Lemma same_read_file file id c :
  same (kernel_read_file_prog file id c) (aegis_kernel_read_file file id c).
Proof.
  pose proof (same_syscall_blocked (aegis_read_id_to_syscall id)).
  unfold kernel_read_file_prog, aegis_kernel_read_file. cbv zeta.
  apply same_bind; [exact (same_act (ReadFlag enabled))|]. intros en. apply same_if; [same|].
  apply same_bind; [same|]. intros b. apply same_if; [same|].
  apply same_bind; [same|]. intros on. apply same_if; [same|].
  destruct (bool_decide (id = READING_MODULE)) eqn:E.
  - assert (bool_decide (id = READING_FIRMWARE) = false) as ->.
    { apply bool_decide_eq_true in E. subst. done. }
    apply (same_guard true). intros x. cbn [andb]. destruct x; [|same].
    destruct file as [f|]; [|same]. same.
    match goal with |- same (match ?p with _ => _ end) _ => destruct p; same end.
  - apply (same_guard (bool_decide (id = READING_FIRMWARE))). intros x. cbn [andb].
    apply same_if; same.
Qed.

Lemma same_load_data id c : same (kernel_load_data_prog id c) (aegis_kernel_load_data id c).
Proof.
  pose proof (same_syscall_blocked NR_init_module). pose proof (same_syscall_blocked NR_kexec_load).
  unfold kernel_load_data_prog, aegis_kernel_load_data. same.
Qed.

(** Run without interference, the program of every hook is the hook. *)
Lemma same_hook fuel e s : is_hook e = true → alone (hook_prog e) s = run_event fuel e s.
Proof.
  intros He. rewrite run_event_hook by done. revert s. change (same (hook_prog e) (hook_body e)).
  destruct e; try discriminate He; cbn [hook_prog hook_body].
  - same.
  - unfold task_free_prog, aegis_task_free. same.
  - apply same_ptrace.
  - apply same_traceme.
  - apply same_file_permission.
  - apply same_file_open.
  - apply same_read_file.
  - apply same_load_data.
  - unfold bprm_check_prog, aegis_bprm_check_security. same.
  - unfold socket_create_prog, aegis_socket_create. same.
  - same.
Qed.

End progs.
