(* ===== verification/HookTheorems.v ===== *)
(** * Theorems about the security hooks

    What the hooks of aegis_lsm.c guarantee in every state the module can
    reach: each implements its reference verdict, protected files cannot be
    written, protected processes cannot be traced, blocked system calls are
    denied, the master switch turns everything off, and nothing a hook does
    changes the policy. *)

From S2P Require Import Prelude CString AegisH Kernel State RefKernel PolicyList.
From S2P Require Import Process FileHash File SyscallList Lsm Sysctl Control Securityfs System Scenario.

Section hooks.
Context `{K : Kernel} `{UL : !UninitLaws} `{SL : !ScanLaws} `{YL : !SysctlLaws}
        `{FL : !SecfsLaws} `{NL : !NrLaws}.

(** C2: in every reachable state every hook returns, and its return value, the
    counters it moves and the lines it logs are exactly those of its reference
    verdict; lists, switches, resources and the securityfs tree are unchanged. *)
Theorem hooks_refine_verdicts fuel s e :
  reach fuel s → is_hook e = true →
  ∃ rc s', run_event fuel e s = Some (rc, s') ∧ implements (hook_verdict s e) s rc s'.
Proof. intros Hr He. by eapply wp_total, hook_implements; [eapply reach_inv|]. Qed.

(** What a hook returns. *)
Definition returns (m : M Z) (s : sys) (rc : Z) : Prop := ∃ s', m s = Some (rc, s').

Lemma hook_returns fuel s e :
  reach fuel s → is_hook e = true → returns (run_event fuel e) s (v_rc (hook_verdict s e)).
Proof.
  intros Hr He.
  destruct (proj1 (wp_total _ _ _) (hook_implements fuel s 0 e (reach_inv fuel s Hr) He))
    as (rc & s' & Hs & -> & _). by exists s'.
Qed.

(** ** Files *)

Section masks.
Context `{ML : !MaskLaws}.

Lemma open_mask_writes file :
  Z.land (f_mode file) FMODE_WRITE ≠ 0 → writes (open_mask file) = true.
Proof.
  intros Hw. unfold writes, open_mask. apply Z.eqb_neq in Hw. rewrite Hw. cbn [negb].
  rewrite Z.lor_0_l. apply negb_true_iff, Z.eqb_neq.
  destruct (negb _); [apply may_rw_set|apply may_write_set].
Qed.

Lemma open_mask_reads file :
  Z.land (f_mode file) FMODE_WRITE = 0 → writes (open_mask file) = false.
Proof.
  intros Hw. unfold writes, open_mask. rewrite Hw. cbn [negb Z.eqb]. apply negb_false_iff, Z.eqb_eq.
  destruct (negb _); [by rewrite Z.lor_0_l, may_read_apart|done].
Qed.

Lemma writes_nonzero mask : writes mask = true → mask =? 0 = false.
Proof. destruct (Z.eqb_spec mask 0) as [->|]; [|done]. done. Qed.

(** A file on the list cannot be written. *)
Lemma protected_writes_denied fuel s file p w :
  reach fuel s →
  AEGIS_FEATURE_CHECK (cfg s) AEGIS_FEATURE_FILE_INTEGRITY = true →
  file_integrity_enforce (cfg s) = true →
  path_seen file (world s) = (Some p, w) → cstr p ∈ file_abs s →
  (∀ mask, writes mask = true → returns (aegis_file_permission file mask) s (- EACCES)) ∧
  (Z.land (f_mode file) FMODE_WRITE ≠ 0 → returns (aegis_file_open file) s (- EACCES)).
Proof.
  intros Hr Hf He Hp Hin.
  assert (∀ mask, writes mask = true → v_rc (file_verdict s file mask) = - EACCES) as Hv.
  { intros mask Hm. unfold file_verdict, file_protected. rewrite Hp, Hf, Hm, He.
    by rewrite bool_decide_true. }
  split.
  - intros mask Hm. rewrite <- (Hv mask Hm). by apply (hook_returns fuel s (Ev_file_permission file mask)).
  - intros Hw%open_mask_writes. rewrite <- (Hv _ Hw).
    pose proof (hook_returns fuel s (Ev_file_open file) Hr eq_refl) as H. cbn in H.
    unfold open_verdict in H. by rewrite (writes_nonzero _ Hw) in H.
Qed.

(** Everything else is granted. *)
Lemma unprotected_access_granted fuel s file :
  reach fuel s →
  (∀ mask, writes mask = false → returns (aegis_file_permission file mask) s 0) ∧
  (Z.land (f_mode file) FMODE_WRITE = 0 → returns (aegis_file_open file) s 0) ∧
  (∀ p w mask, path_seen file (world s) = (Some p, w) → cstr p ∉ file_abs s →
     returns (aegis_file_permission file mask) s 0).
Proof.
  intros Hr. assert (∀ mask, v_rc (file_verdict s file mask) = 0 →
    returns (aegis_file_permission file mask) s 0) as Hret.
  { intros mask <-. by apply (hook_returns fuel s (Ev_file_permission file mask)). }
  assert (∀ mask, writes mask = false → v_rc (file_verdict s file mask) = 0) as Hv.
  { intros mask Hm. unfold file_verdict. rewrite Hm. cbn [andb].
    destruct (path_seen _ _) as [[p|] w]; [|done].
    by destruct (negb _), (file_integrity_log (cfg s)). }
  split; [auto|split].
  - intros Hw%open_mask_reads.
    pose proof (hook_returns fuel s (Ev_file_open file) Hr eq_refl) as H. cbn in H.
    unfold open_verdict in H. destruct (_ =? 0); [done|]. by rewrite Hv in H.
  - intros p w mask Hp Hn. apply Hret. unfold file_verdict, file_protected.
    rewrite Hp, bool_decide_false, andb_false_r by done. done.
Qed.

(** C3: while enforcement is on, a file whose path is on the list cannot be
    written: every write or append access to it and every open for writing is
    refused with EACCES, provided the hook can learn the path (a page and
    [d_path] succeed).  The file hooks refuse nothing else: a file off the list,
    an access without write bits and an open without FMODE_WRITE are granted. *)
Theorem protected_file_write_denied fuel s file :
  reach fuel s →
  (∀ p w, AEGIS_FEATURE_CHECK (cfg s) AEGIS_FEATURE_FILE_INTEGRITY = true →
     file_integrity_enforce (cfg s) = true →
     path_seen file (world s) = (Some p, w) → cstr p ∈ file_abs s →
     (∀ mask, writes mask = true → returns (aegis_file_permission file mask) s (- EACCES)) ∧
     (Z.land (f_mode file) FMODE_WRITE ≠ 0 → returns (aegis_file_open file) s (- EACCES))) ∧
  (∀ mask, writes mask = false → returns (aegis_file_permission file mask) s 0) ∧
  (Z.land (f_mode file) FMODE_WRITE = 0 → returns (aegis_file_open file) s 0) ∧
  (∀ p w mask, path_seen file (world s) = (Some p, w) → cstr p ∉ file_abs s →
     returns (aegis_file_permission file mask) s 0).
Proof.
  intros Hr. split; [|by apply (unprotected_access_granted fuel)].
  intros p w Hf He Hp Hin. by apply (protected_writes_denied fuel s file p w).
Qed.

End masks.

(** ** Processes *)

(** C4: the ptrace decision, in every reachable state: the access is refused
    with EPERM exactly when restriction is on and either all tracing is
    restricted or process protection is on and a key of the list covers the
    child, by pid or by the name of the task or its leader. *)
Theorem ptrace_denied_iff fuel s child mode :
  reach fuel s →
  ∃ rc, returns (aegis_ptrace_access_check child mode) s rc ∧ (rc = 0 ∨ rc = - EPERM) ∧
    (rc = - EPERM ↔
       AEGIS_FEATURE_CHECK (cfg s) AEGIS_FEATURE_PTRACE_RESTRICT = true ∧
       (ptrace_restrict_all (cfg s) = true ∨
        AEGIS_FEATURE_CHECK (cfg s) AEGIS_FEATURE_PROCESS_PROTECT = true ∧
        ∃ k, k ∈ proc_abs s ∧ key_covers child k)).
Proof.
  intros Hr. eexists. split; [by apply (hook_returns fuel s (Ev_ptrace_access_check child mode))|].
  cbn [hook_verdict]. unfold ptrace_verdict, proc_protected.
  fold (proc_abs s). destruct (AEGIS_FEATURE_CHECK _ AEGIS_FEATURE_PTRACE_RESTRICT); cbn [negb].
  2: { split; [by left|]. split; [done|by intros []]. }
  destruct (ptrace_restrict_all (cfg s)).
  { split; [by right|]. split; [auto|done]. }
  destruct (AEGIS_FEATURE_CHECK _ AEGIS_FEATURE_PROCESS_PROTECT); cbn [andb].
  2: { split; [by left|]. split; [done|]. by intros (_ & [|[]]). }
  case_bool_decide as Hc; rewrite Exists_exists in Hc.
  - split; [by right|]. split; [auto|done].
  - split; [by left|]. split; [done|]. intros (_ & [|[_ Hk]]); [done|]. by destruct Hc.
Qed.

(** ** System calls and modules *)

Lemma listed_number_denied fuel s nr :
  reach fuel s → audit_on (cfg s) = true → nr ∈ syscall_abs s →
  (∀ file id c,
     nr = NR_finit_module ∧ id = READING_MODULE ∨
     nr = NR_kexec_file_load ∧ (id = READING_KEXEC_IMAGE ∨ id = READING_KEXEC_INITRAMFS) →
     returns (aegis_kernel_read_file file id c) s (- EPERM)) ∧
  (∀ c, nr = NR_init_module → returns (aegis_kernel_load_data LOADING_MODULE c) s (- EPERM)) ∧
  (∀ c, nr = NR_kexec_load → returns (aegis_kernel_load_data LOADING_KEXEC_IMAGE c) s (- EPERM)).
Proof.
  intros Hr Ha Hin.
  assert (enabled (cfg s) = true) as Hen.
  { unfold audit_on, AEGIS_FEATURE_CHECK in Ha. by destruct (enabled (cfg s)). }
  assert (blocked s nr = true) as Hb.
  { unfold blocked. rewrite Ha. by apply bool_decide_eq_true_2. }
  assert (0 <=? nr = true) as Hnn.
  { destruct (inv_syscalls _ _ (reach_inv fuel s Hr)) as (_ & _ & _ & Hval).
    rewrite Forall_forall in Hval. by apply Z.leb_le, Hval. }
  split; [|split].
  - intros file id c Hmap.
    assert (aegis_read_id_to_syscall id = nr) as Hid
      by (by destruct Hmap as [[-> ->]|[-> [->| ->]]]).
    pose proof (hook_returns fuel s (Ev_kernel_read_file file id c) Hr eq_refl) as H. cbn in H.
    unfold read_verdict, read_blocked in H. by rewrite Hen, Hid, Hnn, Hb in H.
  - intros c ->. pose proof (hook_returns fuel s (Ev_kernel_load_data LOADING_MODULE c) Hr eq_refl) as H.
    cbn in H. unfold load_verdict, load_blocked in H. by rewrite Hen, Hb in H.
  - intros c ->.
    pose proof (hook_returns fuel s (Ev_kernel_load_data LOADING_KEXEC_IMAGE c) Hr eq_refl) as H.
    cbn in H. unfold load_verdict, load_blocked in H. by rewrite Hen, Hb in H.
Qed.

(** The numbers the hooks can enforce; the others on the list, delete_module of
    the default entries among them, only show up in the listing. *)
Definition enforceable : list Z :=
  [NR_init_module; NR_finit_module; NR_kexec_load; NR_kexec_file_load].

Lemma unlisted_number_granted fuel s :
  reach fuel s → modules_denied (cfg s) = false →
  audit_on (cfg s) = false ∨ (∀ nr, nr ∈ syscall_abs s → nr ∉ enforceable) →
  (∀ file id c, returns (aegis_kernel_read_file file id c) s 0) ∧
  (∀ id c, returns (aegis_kernel_load_data id c) s 0).
Proof.
  intros Hr Hd Hno.
  assert (∀ nr, nr ∈ enforceable → blocked s nr = false) as Hb.
  { intros nr Hnr. unfold blocked. destruct Hno as [->|Hno]; [done|].
    rewrite bool_decide_eq_false_2; [by rewrite andb_false_r|]. by intros ?%Hno. }
  split.
  - intros file id c. pose proof (hook_returns fuel s (Ev_kernel_read_file file id c) Hr eq_refl) as H.
    cbn in H. unfold read_verdict in H. rewrite Hd in H.
    assert (read_blocked s id = false) as E.
    { unfold read_blocked. destruct id; cbn [aegis_read_id_to_syscall]; try done;
        (rewrite Hb; [by rewrite andb_false_r|]); unfold enforceable; set_solver. }
    rewrite E in H. by destruct (negb (enabled (cfg s))).
  - intros id c. pose proof (hook_returns fuel s (Ev_kernel_load_data id c) Hr eq_refl) as H.
    cbn in H. unfold load_verdict in H. rewrite Hd in H.
    assert (load_blocked s id = false) as E.
    { unfold load_blocked. destruct id; try done; apply Hb; unfold enforceable; set_solver. }
    rewrite E in H. by destruct (negb (enabled (cfg s))).
Qed.

(** C5: the enforcement map of aegis_audit.c.  While auditing is on (the
    SYSCALL_AUDIT feature and its switch), a listed number is denied at the hook
    the map names for it, whatever the module-control feature and its switch say:
    finit_module when a module is read, kexec_file_load when a kernel image or its
    initramfs is read, init_module when module data is loaded and kexec_load when
    a kernel image is loaded.  Nothing else is denied for the list's sake: while
    module loading is not denied, the two hooks grant every request when auditing
    is off or when only other numbers are listed. *)
Theorem blocked_syscall_denied fuel s :
  reach fuel s →
  (∀ nr, audit_on (cfg s) = true → nr ∈ syscall_abs s →
     (∀ file id c,
        nr = NR_finit_module ∧ id = READING_MODULE ∨
        nr = NR_kexec_file_load ∧ (id = READING_KEXEC_IMAGE ∨ id = READING_KEXEC_INITRAMFS) →
        returns (aegis_kernel_read_file file id c) s (- EPERM)) ∧
     (∀ c, nr = NR_init_module → returns (aegis_kernel_load_data LOADING_MODULE c) s (- EPERM)) ∧
     (∀ c, nr = NR_kexec_load → returns (aegis_kernel_load_data LOADING_KEXEC_IMAGE c) s (- EPERM))) ∧
  (modules_denied (cfg s) = false →
   audit_on (cfg s) = false ∨ (∀ nr, nr ∈ syscall_abs s → nr ∉ enforceable) →
   (∀ file id c, returns (aegis_kernel_read_file file id c) s 0) ∧
   (∀ id c, returns (aegis_kernel_load_data id c) s 0)).
Proof.
  intros Hr. split.
  - intros nr. by apply (listed_number_denied fuel).
  - by apply (unlisted_number_granted fuel).
Qed.

(** C21: with module loading denied (the MODULE_CONTROL feature and its switch)
    module requests fail closed: every request to read a module from a file or to
    load one from memory fails, also when memory is short, the path is unknown or
    there is no file, and so does every request to read firmware from a file.
    Firmware loaded from memory is not covered: that hook grants it, whatever the
    settings. *)
Theorem module_denial_fails_closed fuel s :
  reach fuel s →
  (modules_denied (cfg s) = true →
   (∀ file c, ∃ rc, returns (aegis_kernel_read_file file READING_MODULE c) s rc ∧
      (rc = - EPERM ∨ rc = - ENOMEM)) ∧
   (∀ file c, returns (aegis_kernel_read_file file READING_FIRMWARE c) s (- EPERM)) ∧
   (∀ c, returns (aegis_kernel_load_data LOADING_MODULE c) s (- EPERM))) ∧
  (∀ c, returns (aegis_kernel_load_data LOADING_FIRMWARE c) s 0).
Proof.
  intros Hr. split; [|intros c].
  2: { pose proof (hook_returns fuel s (Ev_kernel_load_data LOADING_FIRMWARE c) Hr eq_refl) as H.
       cbn in H. unfold load_verdict in H. rewrite bool_decide_eq_false_2, andb_false_r in H by done.
       cbn in H. by destruct (negb (enabled (cfg s))). }
  intros Hd.
  assert (enabled (cfg s) = true) as Hen.
  { unfold modules_denied, AEGIS_FEATURE_CHECK in Hd. by destruct (enabled (cfg s)). }
  split; [|split].
  - intros file c. eexists.
    split; [by apply (hook_returns fuel s (Ev_kernel_read_file file READING_MODULE c))|].
    cbn [hook_verdict]. unfold read_verdict. rewrite Hen, Hd. cbn [negb].
    destruct (read_blocked _ _); [by left|]. destruct file as [f|]; [|by left].
    destruct (negb _); [by right|]. destruct (path_seen f (world s)) as [[]]; by left.
  - intros file c.
    pose proof (hook_returns fuel s (Ev_kernel_read_file file READING_FIRMWARE c) Hr eq_refl) as H.
    cbn in H. unfold read_verdict in H. rewrite Hen, Hd in H. cbn [negb] in H.
    by destruct (read_blocked s READING_FIRMWARE), file.
  - intros c. pose proof (hook_returns fuel s (Ev_kernel_load_data LOADING_MODULE c) Hr eq_refl) as H.
    cbn in H. unfold load_verdict in H. rewrite Hen, Hd in H. cbn [negb andb] in H.
    by destruct (load_blocked s LOADING_MODULE).
Qed.

(** ** The master switch *)

Lemma disabled_verdict s e :
  enabled (cfg s) = false → is_hook e = true → hook_verdict s e = allow.
Proof.
  intros Hd He. assert (∀ f, AEGIS_FEATURE_CHECK (cfg s) f = false) as Hf.
  { intros f. unfold AEGIS_FEATURE_CHECK. by rewrite Hd. }
  assert (∀ file mask, file_verdict s file mask = allow) as Hfile.
  { intros file mask. unfold file_verdict, file_protected. rewrite Hf.
    by destruct (path_seen _ _) as [[]]. }
  destruct e; try done; cbn.
  - by rewrite Hd.
  - unfold ptrace_verdict. by rewrite Hf.
  - unfold traceme_verdict. by rewrite Hf.
  - apply Hfile.
  - unfold open_verdict. rewrite Hfile. by destruct (_ =? 0).
  - unfold read_verdict. by rewrite Hd.
  - unfold load_verdict. by rewrite Hd.
  - unfold bprm_verdict, audit_on. by rewrite Hf.
Qed.

(** The hooks with the master switch off. *)
Lemma hooks_disabled fuel s e :
  reach fuel s → enabled (cfg s) = false → is_hook e = true →
  ∃ s', run_event fuel e s = Some (0, s') ∧
    cfg s' = cfg s ∧ klog s' = klog s ∧ reg s' = reg s ∧ vars s' = vars s ∧ res s' = res s.
Proof.
  intros Hr Hd He.
  destruct (proj1 (wp_total _ _ _) (hook_implements fuel s 0 e (reach_inv fuel s Hr) He))
    as (rc & s' & Hs & -> & Hc & Hl & Hg & Hv & _ & Hre & _).
  rewrite disabled_verdict in Hs, Hc, Hl by done. cbn in Hs, Hc, Hl. rewrite app_nil_r in Hl.
  by exists s'.
Qed.

End hooks.

(** ** Instances *)

Lemma hooks_refine_verdicts_witness :
  ∃ rc s', run_event 20 (Ev_file_open passwd) s_file = Some (rc, s') ∧
    implements (hook_verdict s_file (Ev_file_open passwd)) s_file rc s'.
Proof. apply hooks_refine_verdicts; [exact s_file_reach|reflexivity]. Defined.

Lemma protected_file_write_denied_witness :
  (∀ mask, writes mask = true → returns (aegis_file_permission passwd mask) s_file (- EACCES)) ∧
  (Z.land (f_mode passwd) FMODE_WRITE ≠ 0 → returns (aegis_file_open passwd) s_file (- EACCES)).
Proof.
  apply (proj1 (protected_file_write_denied 20 s_file passwd s_file_reach)
           (str "/etc/passwd") (world s_file)).
  - by vm_compute.
  - by vm_compute.
  - reflexivity.
  - by_decision.
Defined.

Lemma ptrace_denied_iff_witness :
  ∃ rc, returns (aegis_ptrace_access_check (task "sshd" 7) 0) s_boot rc ∧ (rc = 0 ∨ rc = - EPERM) ∧
    (rc = - EPERM ↔
       AEGIS_FEATURE_CHECK (cfg s_boot) AEGIS_FEATURE_PTRACE_RESTRICT = true ∧
       (ptrace_restrict_all (cfg s_boot) = true ∨
        AEGIS_FEATURE_CHECK (cfg s_boot) AEGIS_FEATURE_PROCESS_PROTECT = true ∧
        ∃ k, k ∈ proc_abs s_boot ∧ key_covers (task "sshd" 7) k)).
Proof. apply (ptrace_denied_iff 20), s_boot_reach. Defined.

Lemma blocked_syscall_denied_witness :
  returns (aegis_kernel_read_file (Some passwd) READING_MODULE false) s_boot (- EPERM) ∧
  returns (aegis_kernel_read_file (Some passwd) READING_MODULE false) s_off 0.
Proof.
  split.
  - refine (proj1 (proj1 (blocked_syscall_denied 20 s_boot (s_boot_reach 20)) 313 _ _) _ READING_MODULE _
              (or_introl (conj eq_refl eq_refl))).
    + by vm_compute.
    + by_decision.
  - refine (proj1 (proj2 (blocked_syscall_denied 20 s_off s_off_reach) _ _) _ READING_MODULE _).
    + by vm_compute.
    + left. by vm_compute.
Defined.

Lemma module_denial_fails_closed_witness :
  returns (aegis_kernel_read_file None READING_FIRMWARE false) s_denied (- EPERM) ∧
  returns (aegis_kernel_load_data LOADING_FIRMWARE false) s_denied 0.
Proof.
  split.
  - refine (proj1 (proj2 (proj1 (module_denial_fails_closed 20 s_denied s_denied_reach) _)) None false).
    by vm_compute.
  - exact (proj2 (module_denial_fails_closed 20 s_denied s_denied_reach) false).
Defined.
