(* ===== verification/Interference.v ===== *)
(** * Hooks under interference

    A hook program (HookProgs.v) runs while other code changes the shared state
    between any two of its accesses: sysctl writes, other hooks, and the add and
    delete routines, whose critical sections change the file list and the number
    of files in two separate stores.  A denial is not lost to such interference as
    long as nobody removes what it rests on; in particular the number of files,
    which [aegis_file_permission] reads without the lock to skip its work, never
    hides a protected file. *)

From S2P Require Import Prelude CString AegisH Kernel State RefKernel PolicyList.
From S2P Require Import Process FileHash File SyscallList Lsm Sysctl Control Securityfs System Scenario.
From S2P Require Import HookProgs HookTheorems.

Section interference.
Context `{K : Kernel}.

(** ** What other code does *)

(** The critical section the file list is in: none, an addition that has linked
    its entry, or a deletion that has unlinked one; the count follows. *)
Inductive phase := Idle | Linked | Unlinked.

Definition pconf : Type := sys * phase.

(** The file list and its count as other code sets them. *)
Definition put_files (l : list aegis_protected_file) (n : Z) (s : sys) : sys :=
  set_reg (set_files l n (reg s)) s.

(** One store of other code.  An addition links only below the range of an int,
    which the bounded overshoot of the capacity ensures. *)
Inductive other : pconf → pconf → Prop :=
  | o_cfg s ph c : other (s, ph) (set_cfg c s, ph)
  | o_rest s ph s' : cfg s' = cfg s → reg s' = reg s → other (s, ph) (s', ph)
  | o_procs s ph l n : other (s, ph) (set_reg (set_procs l n (reg s)) s, ph)
  | o_syscalls s ph l n : other (s, ph) (set_reg (set_syscalls l n (reg s)) s, ph)
  | o_link s e :
      Z.of_nat (length (protected_files (reg s))) < INT_MAX →
      other (s, Idle) (put_files (protected_files (reg s) ++ [e]) (protected_file_count (reg s)) s, Linked)
  | o_count_up s :
      other (s, Linked)
        (put_files (protected_files (reg s)) (i32 (protected_file_count (reg s) + 1)) s, Idle)
  | o_unlink s q l :
      remove_first (file_match q) (protected_files (reg s)) = Some l →
      other (s, Idle) (put_files l (protected_file_count (reg s)) s, Unlinked)
  | o_count_down s :
      other (s, Unlinked)
        (put_files (protected_files (reg s)) (i32 (protected_file_count (reg s) - 1)) s, Idle).

(** Stores that leave [keep] true. *)
Definition leaves (keep : sys → Prop) (c c' : pconf) : Prop := other c c' ∧ keep c'.1.

(** An environment: what other code has done by the time of the [n]th access.
    It has left its critical section when the access takes the lock. *)
Definition env_ok (keep : sys → Prop) (env : bool → nat → pconf → pconf) : Prop :=
  ∀ lock n c, keep c.1 →
    rtc (leaves keep) c (env lock n c) ∧ (lock = true → (env lock n c).2 = Idle).

(** A program in an environment. *)
Fixpoint prun {A} (env : bool → nat → pconf → pconf) (n : nat) (p : prog A) (c : pconf) : option (A * pconf) :=
  match p with
  | PRet a => Some (a, c)
  | PAct a k =>
      let c1 := env (takes_file_lock a) n c in
      match do_access a c1.1 with
      | Some (b, s') => prun env (S n) (k b) (s', c1.2)
      | None => None
      end
  end.

(** ** Rules *)

(** From every state of [I] in which an access finds the system, the program
    goes on within [I] and ends in [Q]. *)
Fixpoint rwp {A} (I : pconf → Prop) (p : prog A) (Q : A → Prop) : Prop :=
  match p with
  | PRet a => Q a
  | PAct a k =>
      ∀ c, I c → (takes_file_lock a = true → c.2 = Idle) →
        ∃ b s', do_access a c.1 = Some (b, s') ∧ I (s', c.2) ∧ rwp I (k b) Q
  end.

Lemma rwp_run {A} (I : pconf → Prop) env (p : prog A) (Q : A → Prop) n c :
  (∀ lock n c, I c → I (env lock n c) ∧ (lock = true → (env lock n c).2 = Idle)) →
  rwp I p Q → I c → ∃ a c', prun env n p c = Some (a, c') ∧ Q a.
Proof.
  intros He. revert n c. induction p as [a|B a k IH]; intros n c Hp Hc; [by exists a, c|].
  destruct (He (takes_file_lock a) n c Hc) as [Hc1 Hl]. cbn [prun].
  destruct (Hp _ Hc1 Hl) as (b & s' & -> & Hs & Hk). by apply IH.
Qed.

Lemma rwp_bind {A B} (I : pconf → Prop) (p : prog A) (f : A → prog B) (Q : B → Prop) :
  rwp I p (λ a, rwp I (f a) Q) → rwp I (p ≫= f) Q.
Proof.
  induction p as [a|C a k IH]; [done|]. intros H c Hc Hl.
  destruct (H c Hc Hl) as (b & s' & H1 & H2 & H3). exists b, s'. split; [done|]. split; [done|].
  by apply IH.
Qed.

Lemma rwp_ret {A} (I : pconf → Prop) (a : A) (Q : A → Prop) : Q a → rwp I (mret a) Q.
Proof. done. Qed.

(** ** Denials *)

(** What a denial rests on. *)
Definition keep_file (path : bytes) (s : sys) : Prop :=
  AEGIS_FEATURE_CHECK (cfg s) AEGIS_FEATURE_FILE_INTEGRITY = true ∧
  file_integrity_enforce (cfg s) = true ∧
  existsb (file_match path) (protected_files (reg s)) = true.

Definition keep_proc (child : task_struct) (s : sys) : Prop :=
  AEGIS_FEATURE_CHECK (cfg s) AEGIS_FEATURE_PTRACE_RESTRICT = true ∧
  AEGIS_FEATURE_CHECK (cfg s) AEGIS_FEATURE_PROCESS_PROTECT = true ∧
  existsb (proc_covers child) (protected_procs (reg s)) = true.

Definition keep_syscall (nr : Z) (s : sys) : Prop :=
  AEGIS_FEATURE_CHECK (cfg s) AEGIS_FEATURE_SYSCALL_AUDIT = true ∧
  syscall_audit_enable (cfg s) = true ∧
  existsb (syscall_match nr) (blocked_syscalls (reg s)) = true.

(** A view depends on the switches, the lists and the rest of the kernel only. *)
Definition policy_only (I : pconf → Prop) : Prop :=
  ∀ s s' ph, cfg_flags (cfg s') = cfg_flags (cfg s) → reg s' = reg s → world s' = world s →
    I (s, ph) → I (s', ph).

Section rules.
Context (I : pconf → Prop) (HI : policy_only I).

(** An access whose result does not matter. *)
Lemma rwp_any {B} (a : access B) (Q : B → Prop) :
  calls_kernel a = false → (∀ b, Q b) → rwp I (act a) Q.
Proof.
  intros Ha HQ [s ph] Hc _. destruct (access_frame a s) as (b & s' & H1 & H2 & H3 & H4).
  exists b, s'. split; [done|]. split; [exact (HI _ _ _ H2 H3 (H4 Ha) Hc)|apply HQ].
Qed.

(** A read whose result [I] determines. *)
Lemma rwp_known {B} (a : access B) (v : B) (Q : B → Prop) :
  calls_kernel a = false →
  (∀ c, I c → (takes_file_lock a = true → c.2 = Idle) → ∃ s', do_access a c.1 = Some (v, s')) →
  Q v → rwp I (act a) Q.
Proof.
  intros Ha Hv HQ [s ph] Hc Hl. destruct (Hv _ Hc Hl) as [s1 E].
  destruct (access_frame a s) as (b & s' & H1 & H2 & H3 & H4). cbn in E.
  rewrite E in H1. injection H1 as <- <-.
  exists v, s1. split; [done|]. split; [exact (HI _ _ _ H2 H3 (H4 Ha) Hc)|done].
Qed.

Lemma rwp_feature f (Q : bool → Prop) :
  (∀ c, I c → AEGIS_FEATURE_CHECK (cfg c.1) f = true) → Q true → rwp I (feature_prog f) Q.
Proof.
  intros Hf HQ. unfold feature_prog. apply rwp_bind, (rwp_known _ true); [done| |].
  { intros c [Hc _]%Hf%andb_true_iff _. exists c.1. cbn [do_access]. unfold gets. by rewrite Hc. }
  cbn [negb]. apply rwp_bind. intros [s ph] Hc _. exists (features (cfg s)), s.
  split; [done|]. split; [done|]. apply rwp_ret.
  apply Hf, andb_true_iff in Hc as [_ Hc]. cbn in Hc. by rewrite Hc.
Qed.

End rules.
(** Closes the part of a program behind the decision. *)
Ltac rwp_tail HI :=
  repeat (cbn beta iota;
    lazymatch goal with
    | |- rwp _ (_ ≫= _) _ => apply rwp_bind
    | |- rwp _ (mret _) _ => apply rwp_ret
    | |- rwp _ (act _) _ => apply (rwp_any _ HI); [done|intros ?]
    | |- rwp _ (if ?b then _ else _) _ => destruct b
    end).

Lemma flags_policy {A} (f : aegis_config → A) (c c' : aegis_config) :
  (∀ c, f (cfg_flags c) = f c) → cfg_flags c' = cfg_flags c → f c' = f c.
Proof. intros Hf E. by rewrite <- (Hf c'), E, Hf. Qed.

(** *** Files *)

(** In the worlds [W] a page can be had and the path of [file] is [path]. *)
Record path_known (W : kworld → Prop) (file : kfile) (path : bytes) : Prop := {
  pk_page w : W w → (page_ok w).1 = true ∧ W (page_ok w).2;
  pk_path w : W w → (d_path file w).1 = inr path ∧ W (d_path file w).2;
}.

Definition keep_path (W : kworld → Prop) (path : bytes) (s : sys) : Prop :=
  keep_file path s ∧ W (world s).

(** The count between the stores of a critical section.  An addition finds an
    entry on the list already, so that the count is never zero. *)
Definition file_view (W : kworld → Prop) (path : bytes) (c : pconf) : Prop :=
  let n := Z.of_nat (length (protected_files (reg c.1))) in
  keep_path W path c.1 ∧
  match c.2 with
  | Idle => protected_file_count (reg c.1) = n ∧ n <= INT_MAX
  | Linked => protected_file_count (reg c.1) = n - 1 ∧ 2 <= n <= INT_MAX
  | Unlinked => protected_file_count (reg c.1) = n + 1 ∧ n + 1 <= INT_MAX
  end.

Lemma keep_file_length path s : keep_file path s → (0 < length (protected_files (reg s)))%nat.
Proof. intros (_ & _ & H). destruct (protected_files (reg s)); [discriminate|]. cbn. lia. Qed.

Lemma file_view_step W path c c' : leaves (keep_path W path) c c' → file_view W path c → file_view W path c'.
Proof.
  intros [Ho Hk] [[Hk0 _] Hc]. split; [done|].
  destruct Ho as [s ph c|s ph s' _ Hr|s ph l n|s ph l n|s e Hl|s|s q l Hl|s]; cbn in *.
  - done.
  - by rewrite Hr.
  - done.
  - done.
  - pose proof (keep_file_length path s Hk0). rewrite length_app. cbn. lia.
  - rewrite i32_small; unfold INT_MIN, INT_MAX in *; lia.
  - apply remove_first_length in Hl. lia.
  - rewrite i32_small; unfold INT_MIN, INT_MAX in *; lia.
Qed.

Lemma file_view_policy W path : policy_only (file_view W path).
Proof.
  intros s s' ph Hf Hr Hw. unfold file_view, keep_path, keep_file. cbn. rewrite Hr, Hw.
  rewrite (feature_check_flags _ _ _ Hf).
  by rewrite (flags_policy file_integrity_enforce (cfg s) (cfg s')).
Qed.

Lemma file_permission_denies W file path mask :
  path_known W file path → writes mask = true →
  rwp (file_view W path) (file_permission_prog file mask) (λ rc, rc = - EACCES).
Proof.
  intros [Hpage Hpath] Hm. pose proof (file_view_policy W path) as HI. unfold file_permission_prog.
  assert (∀ c, file_view W path c → AEGIS_FEATURE_CHECK (cfg c.1) AEGIS_FEATURE_FILE_INTEGRITY = true)
    as Hfeat by (by intros c [[[Hf _] _] _]).
  apply rwp_bind, (rwp_feature _ HI); [done|]. cbn [negb].
  apply rwp_bind. intros [s ph] Hc _. exists (protected_file_count (reg s)), s.
  split; [done|]. split; [done|]. cbn [rwp].
  assert (protected_file_count (reg s) =? 0 = false) as ->.
  { destruct Hc as [[Hk _] Hn]. pose proof (keep_file_length _ _ Hk). apply Z.eqb_neq.
    destruct ph; cbn in *; lia. }
  clear s ph Hc. apply rwp_bind. intros [s ph] [[Hk Hw] Hn] _. cbn [do_access fst snd] in *.
  destruct (Hpage _ Hw) as [H1 H2]. exists true, (set_res (add_pages 1 (res s)) (set_world (page_ok (world s)).2 s)).
  split; [|split; [done|]].
  { unfold get_free_page, mbind, M_bind, kcall. destruct (page_ok (world s)) as [b w].
    cbn in H1. by subst b. }
  clear s ph Hk Hw Hn H1 H2. cbn [negb]. cbn [rwp].
  apply rwp_bind. intros [s ph] [[Hk Hw] Hn] _. cbn [do_access fst snd] in *.
  destruct (Hpath _ Hw) as [H1 H2]. exists (inr path), (set_world (d_path file (world s)).2 s).
  split; [|split; [done|]].
  { unfold kcall. destruct (d_path file (world s)) as [p w]. cbn in H1. by subst p. }
  clear s ph Hk Hw Hn H1 H2. cbn [rwp].
  apply rwp_bind. unfold is_file_protected_prog. apply rwp_bind, (rwp_feature _ HI); [done|]. cbn [negb].
  apply (rwp_known _ HI _ true); [done| |].
  { intros [s ph] [[(_ & _ & He) _] _] _. exists s. cbn. unfold gets. cbn in He. by rewrite He. }
  unfold writes in Hm. rewrite Hm. do 2 apply rwp_bind. apply (rwp_known _ HI _ true); [done| |].
  { intros [s ph] [[(_ & He & _) _] _] _. exists s. cbn. unfold gets. cbn in He. by rewrite He. }
  rwp_tail HI; done.
Qed.

Lemma file_open_denies `{ML : !MaskLaws} W file path :
  path_known W file path → Z.land (f_mode file) FMODE_WRITE ≠ 0 →
  rwp (file_view W path) (file_open_prog file) (λ rc, rc = - EACCES).
Proof.
  intros Hp Hw%open_mask_writes. unfold file_open_prog. cbv zeta.
  rewrite (writes_nonzero _ Hw). by apply file_permission_denies.
Qed.

(** *** Processes and system calls *)

(** A view that holds [keep] and nothing about the file list. *)
Definition kept (keep : sys → Prop) (c : pconf) : Prop := keep c.1.

Lemma keep_proc_policy child : policy_only (kept (keep_proc child)).
Proof.
  intros s s' ph Hf Hr _. unfold kept, keep_proc. cbn. by rewrite Hr, !(feature_check_flags _ _ _ Hf).
Qed.

Lemma keep_syscall_policy nr : policy_only (kept (keep_syscall nr)).
Proof.
  intros s s' ph Hf Hr _. unfold kept, keep_syscall. cbn. rewrite Hr, (feature_check_flags _ _ _ Hf).
  by rewrite (flags_policy syscall_audit_enable (cfg s) (cfg s')).
Qed.

Lemma ptrace_denies child mode :
  rwp (kept (keep_proc child)) (ptrace_access_check_prog child mode) (λ rc, rc = - EPERM).
Proof.
  pose proof (keep_proc_policy child) as HI. unfold ptrace_access_check_prog.
  apply rwp_bind, (rwp_feature _ HI); [by intros c (H & _)|]. cbn [negb].
  apply rwp_bind, (rwp_any _ HI); [done|]. intros [].
  { rwp_tail HI; done. }
  apply rwp_bind, (rwp_feature _ HI); [by intros c (_ & H & _)|]. apply rwp_bind.
  unfold is_process_protected_prog. apply rwp_bind, (rwp_feature _ HI); [by intros c (_ & H & _)|]. cbn [negb].
  apply (rwp_known _ HI _ true); [done| |].
  { intros [s ph] (_ & _ & He) _. exists s. cbn. unfold gets. cbn in He. by rewrite He. }
  rwp_tail HI; done.
Qed.

Lemma syscall_blocked_view nr (Q : bool → Prop) :
  Q true → rwp (kept (keep_syscall nr)) (is_syscall_blocked_prog nr) Q.
Proof.
  intros HQ. pose proof (keep_syscall_policy nr) as HI. unfold is_syscall_blocked_prog.
  apply rwp_bind, (rwp_feature _ HI); [by intros c (H & _)|]. cbn [negb].
  apply rwp_bind, (rwp_known _ HI _ true); [done| |].
  { intros [s ph] (_ & He & _) _. exists s. cbn. unfold gets. cbn in He. by rewrite He. }
  cbn [negb]. apply (rwp_known _ HI _ true); [done| |done].
  intros [s ph] (_ & _ & He) _. exists s. cbn. unfold gets. cbn in He. by rewrite He.
Qed.

Lemma keep_syscall_enabled nr c : kept (keep_syscall nr) c → enabled (cfg c.1) = true.
Proof. by intros ([H _]%andb_true_iff & _). Qed.

Lemma read_file_denies file id contents nr :
  aegis_read_id_to_syscall id = nr → 0 <= nr →
  rwp (kept (keep_syscall nr)) (kernel_read_file_prog file id contents) (λ rc, rc = - EPERM).
Proof.
  intros Hid Hnr. pose proof (keep_syscall_policy nr) as HI. unfold kernel_read_file_prog. cbv zeta.
  apply rwp_bind, (rwp_known _ HI _ true); [done| |].
  { intros c Hc%keep_syscall_enabled _. exists c.1. cbn. unfold gets. by rewrite Hc. }
  rewrite Hid. replace (0 <=? nr) with true by lia. apply rwp_bind, syscall_blocked_view.
  rwp_tail HI; done.
Qed.

Lemma load_data_denies id contents nr :
  (id = LOADING_MODULE ∧ nr = NR_init_module) ∨ (id = LOADING_KEXEC_IMAGE ∧ nr = NR_kexec_load) →
  rwp (kept (keep_syscall nr)) (kernel_load_data_prog id contents) (λ rc, rc = - EPERM).
Proof.
  intros Hid. pose proof (keep_syscall_policy nr) as HI. unfold kernel_load_data_prog.
  apply rwp_bind, (rwp_known _ HI _ true); [done| |].
  { intros c Hc%keep_syscall_enabled _. exists c.1. cbn. unfold gets. by rewrite Hc. }
  apply rwp_bind, (rwp_feature _ HI); [by intros c (H & _)|]. do 2 apply rwp_bind.
  destruct Hid as [[-> ->]|[-> ->]].
  - apply syscall_blocked_view. rwp_tail HI; done.
  - apply rwp_ret, syscall_blocked_view. rwp_tail HI; done.
Qed.

(** *** In every environment *)

Lemma leaves_env (keep : sys → Prop) (I : pconf → Prop) env :
  (∀ c, I c → keep c.1) → (∀ c c', leaves keep c c' → I c → I c') → env_ok keep env →
  ∀ lock n c, I c → I (env lock n c) ∧ (lock = true → (env lock n c).2 = Idle).
Proof.
  intros Hk Hs He lock n c Hc. destruct (He lock n c (Hk c Hc)) as [Hr Hl]. split; [|done].
  clear Hl. induction Hr as [|c1 c2 c3 H1 _ IH]; [done|]. by apply IH, (Hs c1).
Qed.

Lemma runs_in_view (keep : sys → Prop) (I : pconf → Prop) env {A} (p : prog A) (a : A) s :
  (∀ c, I c → keep c.1) → (∀ c c', leaves keep c c' → I c → I c') → env_ok keep env →
  rwp I p (λ x, x = a) → I (s, Idle) → ∃ c, prun env 0 p (s, Idle) = Some (a, c).
Proof.
  intros Hk Hs He Hp Hc.
  destruct (rwp_run I env p _ 0 _ (leaves_env keep I env Hk Hs He) Hp Hc) as (x & c & Hr & ->).
  by exists c.
Qed.

Lemma runs_kept (keep : sys → Prop) env {A} (p : prog A) (a : A) s :
  env_ok keep env → rwp (kept keep) p (λ x, x = a) → keep s →
  ∃ c, prun env 0 p (s, Idle) = Some (a, c).
Proof. intros He Hp Hs. apply (runs_in_view keep (kept keep)); [done|by intros ?? [_ ?]|done..]. Qed.

(** C15: a denial survives interference.  Whatever other code does between the
    accesses of a hook, store by store inside its critical sections too, the
    hook returns its refusal as long as the switches it depends on stay on and
    the entry it rests on stays on its list: writes and opens for writing of a
    protected file whose path the hook can learn (so the unlocked read of the
    number of files decides nothing), tracing of a protected process, and the blocked system calls. *)
Theorem denials_survive_interference `{ML : !MaskLaws} `{UL : !UninitLaws} `{SL : !ScanLaws} `{YL : !SysctlLaws}
    `{FL : !SecfsLaws} `{NL : !NrLaws} fuel env s :
  reach fuel s →
  (∀ W file path, path_known W file path → keep_path W path s → env_ok (keep_path W path) env →
     (∀ mask, writes mask = true →
        ∃ c, prun env 0 (file_permission_prog file mask) (s, Idle) = Some (- EACCES, c)) ∧
     (Z.land (f_mode file) FMODE_WRITE ≠ 0 →
        ∃ c, prun env 0 (file_open_prog file) (s, Idle) = Some (- EACCES, c))) ∧
  (∀ child mode, keep_proc child s → env_ok (keep_proc child) env →
     ∃ c, prun env 0 (ptrace_access_check_prog child mode) (s, Idle) = Some (- EPERM, c)) ∧
  (∀ nr, keep_syscall nr s → env_ok (keep_syscall nr) env →
     (∀ file id contents, aegis_read_id_to_syscall id = nr → 0 <= nr →
        ∃ c, prun env 0 (kernel_read_file_prog file id contents) (s, Idle) = Some (- EPERM, c)) ∧
     (∀ id contents,
        (id = LOADING_MODULE ∧ nr = NR_init_module) ∨ (id = LOADING_KEXEC_IMAGE ∧ nr = NR_kexec_load) →
        ∃ c, prun env 0 (kernel_load_data_prog id contents) (s, Idle) = Some (- EPERM, c))).
Proof.
  intros Hr. split; [|split].
  - intros W file path Hp Hk He.
    assert (file_view W path (s, Idle)) as Hv.
    { split; [done|]. destruct (inv_files _ _ (reach_inv fuel s Hr)) as (Hc & [_ Hl] & _).
      unfold pl_abs in Hl. rewrite length_fmap in Hl. cbn in Hc, Hl. cbn.
      unfold AEGIS_MAX_PROTECTED_FILES in Hl. unfold INT_MAX. lia. }
    assert (∀ p : prog Z, rwp (file_view W path) p (λ rc, rc = - EACCES) →
      ∃ c, prun env 0 p (s, Idle) = Some (- EACCES, c)) as Hrun.
    { intros p Hrw. apply (runs_in_view (keep_path W path) (file_view W path)); try done.
      - by intros c [? _].
      - apply file_view_step. }
    split; [intros mask Hm; by apply Hrun, (file_permission_denies W)|].
    intros Hw. by apply Hrun, (file_open_denies W).
  - intros child mode Hk He. apply (runs_kept (keep_proc child)); [done|apply ptrace_denies|done].
  - intros nr Hk He. split.
    + intros file id contents Hid Hn.
      apply (runs_kept (keep_syscall nr)); [done|by apply read_file_denies|done].
    + intros id contents Hid.
      apply (runs_kept (keep_syscall nr)); [done|by apply load_data_denies|done].
Qed.

End interference.

(** ** Instances *)

Section busy.
Context `{K : Kernel}.

(** Other code that adds a file whenever it may, and finishes what it began. *)
Definition busy (lock : bool) (n : nat) (c : pconf) : pconf :=
  let '(s, ph) := c in
  let l := protected_files (reg s) in
  let k := protected_file_count (reg s) in
  match ph with
  | Idle =>
      if lock then c
      else if Z.of_nat (length l) <? INT_MAX
           then (put_files (l ++ [mkFile (new_path (str "/tmp/x")) [] false]) k s, Linked) else c
  | Linked => (put_files l (i32 (k + 1)) s, Idle)
  | Unlinked => (put_files l (i32 (k - 1)) s, Idle)
  end.

Lemma busy_ok W path : env_ok (keep_path W path) busy.
Proof.
  intros lock n [s ph] [(H1 & H2 & H3) Hw]. cbn [fst] in *.
  assert (∀ l k, existsb (file_match path) l = true → keep_path W path (put_files l k s)) as Hk by done.
  destruct ph; cbn [busy].
  - destruct lock; [by split|]. destruct (Z.ltb_spec (Z.of_nat (length (protected_files (reg s)))) INT_MAX);
      (split; [|done]); [|done].
    apply rtc_once. split; [by constructor|]. apply Hk. by rewrite existsb_app, H3.
  - split; [|done]. apply rtc_once. split; [by constructor|]. by apply Hk.
  - split; [|done]. apply rtc_once. split; [by constructor|]. by apply Hk.
Qed.

End busy.

Lemma denials_survive_interference_witness :
  ∃ c, prun busy 0 (file_permission_prog passwd MAY_WRITE) (s_file, Idle) = Some (- EACCES, c).
Proof.
  refine (proj1 (proj1 (denials_survive_interference (K := ref_kernel) 20 busy s_file s_file_reach)
    (λ w, rw_page w = true) passwd (str "/etc/passwd") _ _ (busy_ok _ _)) MAY_WRITE eq_refl).
  - split; intros w Hw; (split; [|exact Hw]); [exact Hw|reflexivity].
  - split; [split; [|split]|]; by vm_compute.
Defined.
