(* ===== verification/Counters.v ===== *)
(** * Counters under concurrency

    Any number of hooks run at once, one access at a time in any order, next to
    other code that does not touch the counters.  Every increment is an
    atomic64_inc, so that none is lost: the counters account for the denials,
    and at every moment they lag by at most the hooks still running. *)

From S2P Require Import Prelude CString AegisH Kernel State RefKernel PolicyList.
From S2P Require Import Process FileHash File SyscallList Lsm Sysctl Control Securityfs System Scenario.
From S2P Require Import HookProgs HookTheorems.

Section counters.
Context `{K : Kernel}.

(** The counted violations, and the denials among the results of hooks. *)
Definition violations (c : aegis_config) : Z :=
  ptrace_blocked c + file_violations c + syscall_violations c + module_violations c.

Definition denials (rcs : list Z) : Z := Z.of_nat (length (filter (λ rc, rc ≠ 0) rcs)).

(** ** Hooks running at once *)

Definition pool : Type := sys * list (prog Z).

Inductive pstep : pool → pool → Prop :=
  | ps_turn s ts i B (a : access B) k b s' :
      ts !! i = Some (PAct a k) → do_access a s = Some (b, s') →
      pstep (s, ts) (s', <[i := k b]> ts)
  | ps_other s ts s' :
      (∀ k, stat_get k (cfg s') = stat_get k (cfg s)) → pstep (s, ts) (s', ts).

(** ** What one hook counts *)

Definition is_violation (k : stat) : bool :=
  match k with st_total_events => false | _ => true end.

(** Violations and events an access counts. *)
Definition viol_of {A} (a : access A) : nat :=
  match a with StatInc k => if is_violation k then 1 else 0 | _ => 0 end.
Definition event_of {A} (a : access A) : nat :=
  match a with StatInc k => if is_violation k then 0 else 1 | _ => 0 end.

(** A program that has counted [v] violations and [t] events so far counts at
    most one of each in all, on every path, the violation first, and ends in [Q]. *)
Fixpoint acct {A} (p : prog A) (v t : nat) (Q : A → nat → nat → Prop) : Prop :=
  (v <= 1 ∧ t <= 1 ∧ v <= S t)%nat ∧
  match p with
  | PRet a => Q a v t
  | PAct a k => ∀ b, acct (k b) (v + viol_of a) (t + event_of a) Q
  end.

(** Every denial of these hooks is counted; the refusal of a module that has no
    file, or whose path cannot be had, is not. *)
Definition counts_denials (e : event) : bool :=
  match e with Ev_kernel_read_file _ id _ => negb (bool_decide (id = READING_MODULE)) | _ => true end.

(** A violation is an event and a denial. *)
Definition settled (counts : bool) (rc : Z) (v t : nat) : Prop :=
  (v <= t)%nat ∧ (v = 1%nat → rc ≠ 0) ∧ (counts = true → rc ≠ 0 → v = 1%nat).

Lemma acct_bounds {A} (p : prog A) v t Q : acct p v t Q → (v <= 1 ∧ t <= 1 ∧ v <= S t)%nat.
Proof. by destruct p; intros []. Qed.

Lemma acct_ret {A} (a : A) v t (Q : A → nat → nat → Prop) :
  (v <= 1 ∧ t <= 1 ∧ v <= S t)%nat → Q a v t → acct (mret a) v t Q.
Proof. by split. Qed.

Lemma acct_bind {A B} (p : prog A) (f : A → prog B) v t Q :
  acct p v t (λ a v t, acct (f a) v t Q) → acct (p ≫= f) v t Q.
Proof.
  revert v t. induction p as [a|C a k IH]; intros v t; [by intros []|].
  intros [H1 H2]. split; [done|]. intros b. apply IH, H2.
Qed.

Lemma acct_act {B} (a : access B) v t (Q : B → nat → nat → Prop) :
  (v <= 1 ∧ t <= 1 ∧ v <= S t)%nat →
  (v + viol_of a <= 1 ∧ t + event_of a <= 1 ∧ v + viol_of a <= S (t + event_of a))%nat →
  (∀ b, Q b (v + viol_of a)%nat (t + event_of a)%nat) → acct (act a) v t Q.
Proof. intros H1 H2 H3. split; [done|]. intros b. by apply acct_ret. Qed.

(** Follows a program through all its paths. *)
Ltac acct :=
  repeat (cbn [mbind negb viol_of event_of is_violation Nat.add];
    change (- EACCES =? 0) with false; cbn [andb];
    lazymatch goal with
    | |- acct (_ ≫= _) _ _ _ => apply acct_bind
    | |- acct (mret _) _ _ _ => apply acct_ret; [lia|]
    | |- acct (act _) _ _ _ => apply acct_act; [lia|cbn; lia|intros ?]
    | |- acct (if ?b && _ then _ else _) _ _ _ => destruct b
    | |- acct (if ?b then _ else _) _ _ _ => destruct b
    | |- acct (match ?x with _ => _ end) _ _ _ => destruct x
    | |- settled _ _ _ _ => split; [lia|by split]
    end).

Lemma hook_prog_acct e : acct (hook_prog e) 0 0 (settled (counts_denials e)).
Proof.
  destruct e; cbn [hook_prog counts_denials];
    unfold task_free_prog, ptrace_access_check_prog, ptrace_traceme_prog, file_open_prog,
      file_permission_prog, kernel_read_file_prog, kernel_load_data_prog, bprm_check_prog,
      socket_create_prog, is_process_protected_prog, is_file_protected_prog,
      is_syscall_blocked_prog, feature_prog; cbv zeta; acct.
Qed.

(** ** What the counters say *)

(** The counter an access moves, when nothing wraps. *)
Lemma access_counts {A} (a : access A) s b s' :
  do_access a s = Some (b, s') → (∀ k, 0 <= stat_get k (cfg s)) →
  violations (cfg s) + Z.of_nat (viol_of a) < 2 ^ 63 → total_events (cfg s) + Z.of_nat (event_of a) < 2 ^ 63 →
  (∀ k, 0 <= stat_get k (cfg s')) ∧
  violations (cfg s') = violations (cfg s) + Z.of_nat (viol_of a) ∧
  total_events (cfg s') = total_events (cfg s) + Z.of_nat (event_of a).
Proof.
  intros E Hp. pose proof (access_cfg a s b s' E) as ->.
  pose proof (Hp st_ptrace_blocked). pose proof (Hp st_file_violations).
  pose proof (Hp st_syscall_violations). pose proof (Hp st_module_violations).
  pose proof (Hp st_total_events). unfold violations. cbn [stat_get] in *.
  destruct a; cbn [viol_of event_of]; rewrite ?Z.add_0_r; try done.
  destruct k; cbn [is_violation]; intros Hv Ht; (split; [intros k'; rewrite stat_get_inc; case_decide; [|done]|]);
    cbn; repeat (case_decide; try done); rewrite ?s64_small; lia.
Qed.

(** What each thread has counted, with the event it handles. *)
Definition tally : Type := event * (nat * nat).
Definition accounted (p : prog Z) (g : tally) : Prop :=
  acct p g.2.1 g.2.2 (settled (counts_denials g.1)).

Definition viols (gs : list tally) : nat := sum_list_with (λ g : tally, g.2.1) gs.
Definition events (gs : list tally) : nat := sum_list_with (λ g : tally, g.2.2) gs.

Lemma counts_insert gs i e v t v' t' :
  gs !! i = Some (e, (v, t)) →
  (viols (<[i := (e, (v', t'))]> gs) + v = viols gs + v')%nat ∧
  (events (<[i := (e, (v', t'))]> gs) + t = events gs + t')%nat.
Proof. intros H. split; [exact (sum_list_with_insert _ _ _ _ _ H)|exact (sum_list_with_insert _ _ _ _ _ H)]. Qed.

Record tallied (s : sys) (ts : list (prog Z)) (gs : list tally) : Prop := {
  tl_acct : Forall2 accounted ts gs;
  tl_pos k : 0 <= stat_get k (cfg s);
  tl_viol : violations (cfg s) = Z.of_nat (viols gs);
  tl_events : total_events (cfg s) = Z.of_nat (events gs);
}.

Lemma accounted_sums ts gs :
  Forall2 accounted ts gs →
  (viols gs <= length ts ∧ events gs <= length ts)%nat.
Proof.
  unfold viols, events. induction 1 as [|p g ts gs H%acct_bounds _ IH]; [done|].
  cbn [sum_list_with length]. lia.
Qed.

Lemma pstep_tallied s ts gs s' ts' :
  pstep (s, ts) (s', ts') → tallied s ts gs → Z.of_nat (length ts) < 2 ^ 63 →
  ∃ gs', tallied s' ts' gs' ∧ gs'.*1 = gs.*1 ∧ length ts' = length ts.
Proof.
  intros Hst [Ha Hp Hv He] Hn.
  inversion Hst as [s0 ts0 i B a k b s1 Hi E|s0 ts0 s1 Hk]; subst.
  - destruct (Forall2_lookup_l _ _ _ _ _ Ha Hi) as ([e [v t]] & Hg & [_ Hacc]).
    specialize (Hacc b). cbn in Hacc.
    destruct (counts_insert gs i e v t (v + viol_of a) (t + event_of a) Hg) as [Hs1 Hs2].
    set (gs' := <[i := _]> gs) in *.
    assert (Forall2 accounted (<[i := k b]> ts) gs') as Ha' by by apply Forall2_insert.
    pose proof (accounted_sums _ _ Ha') as Hb. rewrite length_insert in Hb.
    destruct (access_counts a s b s' E Hp) as (Hp' & Hv' & He'); [lia..|].
    exists gs'. split; [split; [done|done|lia|lia]|]. rewrite length_insert. split; [|done].
    unfold gs'. rewrite list_fmap_insert. apply list_insert_id. rewrite list_lookup_fmap. exact (f_equal (fmap fst) Hg).
  - exists gs. split; [split; [done|intros k; by rewrite Hk| |]|done].
    + rewrite <- Hv. unfold violations.
      pose proof (Hk st_ptrace_blocked). pose proof (Hk st_file_violations).
      pose proof (Hk st_syscall_violations). pose proof (Hk st_module_violations). cbn in *. congruence.
    + rewrite <- He. exact (Hk st_total_events).
Qed.

Lemma psteps_tallied c c' gs :
  rtc pstep c c' → tallied c.1 c.2 gs → Z.of_nat (length c.2) < 2 ^ 63 →
  ∃ gs', tallied c'.1 c'.2 gs' ∧ gs'.*1 = gs.*1 ∧ length c'.2 = length c.2.
Proof.
  intros Hr. revert gs. induction Hr as [c|[s ts] [s1 ts1] c3 H1 _ IH]; intros gs Hg Hn; [by exists gs|].
  destruct (pstep_tallied _ _ _ _ _ H1 Hg Hn) as (g1 & Hg1 & He1 & Hl1). cbn in *.
  destruct (IH g1 Hg1) as (g2 & Hg2 & He2 & Hl2); [cbn; lia|]. exists g2. split; [done|]. split; congruence.
Qed.

(** ** Threads that have returned *)

Definition unfinished (p : prog Z) : Prop := match p with PRet _ => False | PAct _ _ => True end.
#[global] Instance unfinished_dec p : Decision (unfinished p).
Proof. destruct p; apply _. Defined.

Lemma tallied_lag s ts gs :
  tallied s ts gs →
  violations (cfg s) <= total_events (cfg s) + Z.of_nat (length (filter unfinished ts)).
Proof.
  intros [Ha _ -> ->]. rewrite <- Nat2Z.inj_add. apply Nat2Z.inj_le.
  unfold viols, events. induction Ha as [|p [e [v t]] ts gs H _ IH]; [done|].
  rewrite filter_cons. cbn [sum_list_with fst snd].
  destruct p as [rc|B a k]; case_decide as Hu; cbn [length]; try done.
  - destruct H as (_ & H & _). cbn in H. lia.
  - destruct H as [H _]. cbn in H. lia.
Qed.

Lemma tallied_settled s rcs gs :
  tallied s (PRet <$> rcs) gs →
  violations (cfg s) <= total_events (cfg s) ∧ violations (cfg s) <= denials rcs ∧
  (Forall (λ e, counts_denials e = true) gs.*1 → violations (cfg s) = denials rcs).
Proof.
  intros [Ha _ -> ->]. unfold denials. rewrite <- !Nat2Z.inj_le. setoid_rewrite Nat2Z.inj_iff.
  unfold viols, events. remember (PRet <$> rcs) as ts eqn:Hts. revert rcs Hts.
  induction Ha as [|p [e [v t]] ts gs H _ IH]; intros [|rc rcs] Hts; try done.
  injection Hts as -> ->. destruct (IH rcs eq_refl) as (H1 & H2 & H3).
  destruct H as (Hb & Hvt & Hd & Hc). cbn in Hb, Hvt, Hd, Hc. cbn [sum_list_with fst snd].
  rewrite filter_cons. case_decide as Hrc; cbn [length].
  - split; [lia|]. split; [lia|]. intros [Hce Hg]%Forall_cons. cbn in Hce. rewrite H3, Hc by done. done.
  - assert (v = 0%nat) as -> by (destruct (decide (v = 1%nat)) as [?%Hd|]; [done|lia]).
    split; [lia|]. split; [lia|]. by intros [_ Hg%H3]%Forall_cons.
Qed.

(** ** Every hook can return *)

Lemma alone_total {A} (p : prog A) s : is_Some (alone p s).
Proof.
  revert s. induction p as [a|B a k IH]; intros s; [done|]. cbn. unfold mbind, M_bind.
  destruct (access_frame a s) as (b & s1 & -> & _). apply IH.
Qed.

(** A thread that runs without interference. *)
Lemma thread_alone s pre p ts rc s' :
  alone p s = Some (rc, s') → rtc pstep (s, pre ++ p :: ts) (s', pre ++ PRet rc :: ts).
Proof.
  revert s. induction p as [a|B a k IH]; intros s; [by intros [= -> ->]|]. cbn. unfold mbind, M_bind.
  destruct (do_access a s) as [[b s1]|] eqn:E; [|done]. intros H%IH. eapply rtc_l; [|exact H].
  replace (pre ++ k b :: ts) with (<[length pre := k b]> (pre ++ PAct a k :: ts))
    by by rewrite insert_app_r_alt, Nat.sub_diag.
  econstructor; [|exact E]. by rewrite list_lookup_middle.
Qed.

Lemma threads_finish s pre ts :
  ∃ s' rcs, rtc pstep (s, (PRet <$> pre) ++ ts) (s', PRet <$> rcs).
Proof.
  revert s pre. induction ts as [|p ts IH]; intros s pre; [exists s, pre; by rewrite app_nil_r|].
  destruct (alone_total p s) as [[rc s1] E].
  destruct (IH s1 (pre ++ [rc])) as (s2 & rcs & H2). exists s2, rcs.
  etransitivity; [by apply thread_alone|]. by rewrite fmap_app, <- app_assoc in H2.
Qed.

(** ** The sums *)

(** Counters after runs of the hooks [es]; the threads [ts] are what is left. *)
Definition counted (es : list event) (c : aegis_config) (ts : list (prog Z)) : Prop :=
  (∀ k, 0 <= stat_get k c) ∧
  total_events c <= Z.of_nat (length es) ∧
  violations c <= total_events c + Z.of_nat (length (filter unfinished ts)) ∧
  (∀ rcs, ts = PRet <$> rcs →
     violations c <= total_events c ∧ violations c <= denials rcs ∧
     (Forall (λ e, counts_denials e = true) es → violations c = denials rcs)).

Lemma pool_counted es s s' ts :
  (∀ k, stat_get k (cfg s) = 0) → Z.of_nat (length es) < 2 ^ 63 →
  rtc pstep (s, hook_prog <$> es) (s', ts) → counted es (cfg s') ts.
Proof.
  intros H0 Hn Hr.
  assert (tallied s (hook_prog <$> es) ((λ e, (e, (0, 0))%nat) <$> es)) as H.
  { split.
    - clear. induction es; constructor; [apply hook_prog_acct|done].
    - intros k. by rewrite H0.
    - pose proof (H0 st_ptrace_blocked). pose proof (H0 st_file_violations).
      pose proof (H0 st_syscall_violations). pose proof (H0 st_module_violations). cbn in *.
      unfold violations. assert (viols ((λ e, (e, (0, 0))%nat) <$> es) = 0%nat)
        as -> by (clear; by induction es). lia.
    - assert (events ((λ e, (e, (0, 0))%nat) <$> es) = 0%nat)
        as -> by (clear; by induction es). exact (H0 st_total_events). }
  destruct (psteps_tallied _ _ _ Hr H) as (gs & Hg & He & Hl); [cbn [snd]; by rewrite length_fmap|].
  cbn [fst snd] in *. rewrite length_fmap in Hl.
  assert (gs.*1 = es) as Hes by (rewrite He; clear; induction es; cbn; congruence).
  split; [apply Hg|]. split.
  { destruct Hg as [Ha _ _ ->]. apply accounted_sums in Ha. lia. }
  split; [by apply (tallied_lag _ _ gs)|].
  intros rcs ->. rewrite <- Hes. by apply tallied_settled.
Qed.

(** C22: the counters account for the denials, whatever the order in which the
    hooks run.  Fewer than 2^63 hooks run at once from zeroed counters, one
    access at a time, between stores of other code that do not touch the
    counters.  At every moment no counter has wrapped, the event counter is at
    most the number of hooks, and the violation counters together exceed it by
    at most the hooks still running.  When all have returned, every violation
    is an event and a denial; and unless one of them was asked about a module,
    the violation counters are the number of denials exactly: no increment is
    lost.  From every such moment all of them can return. *)
Theorem concurrent_statistics_add_up es s s' ts :
  (∀ k, stat_get k (cfg s) = 0) → Forall (λ e, is_hook e = true) es → Z.of_nat (length es) < 2 ^ 63 →
  rtc pstep (s, hook_prog <$> es) (s', ts) →
  counted es (cfg s') ts ∧ ∃ s'' rcs, rtc pstep (s', ts) (s'', PRet <$> rcs).
Proof.
  intros H0 _ Hn Hr. split; [by apply (pool_counted es s)|apply (threads_finish s' [])].
Qed.

(** *** One hook after the other *)

Fixpoint run_hooks (fuel : nat) (es : list event) : M (list Z) :=
  match es with
  | [] => mret []
  | e :: es' => rc ← run_event fuel e; rcs ← run_hooks fuel es'; mret (rc :: rcs)
  end.

(** A schedule of the pool. *)
Lemma run_hooks_steps fuel es pre s rcs s' :
  Forall (λ e, is_hook e = true) es → run_hooks fuel es s = Some (rcs, s') →
  rtc pstep (s, (PRet <$> pre) ++ (hook_prog <$> es)) (s', PRet <$> (pre ++ rcs)).
Proof.
  intros Hes. revert pre s rcs. induction Hes as [|e es He _ IH]; intros pre s rcs Hrun.
  { injection Hrun as <- <-. by rewrite !app_nil_r. }
  cbn [run_hooks] in Hrun. unfold mbind, M_bind in Hrun.
  destruct (run_event fuel e s) as [[rc s1]|] eqn:E1; [|done].
  destruct (run_hooks fuel es s1) as [[rcs1 s2]|] eqn:E2; [|done]. injection Hrun as <- <-.
  rewrite <- same_hook in E1 by done. rewrite fmap_cons.
  etransitivity; [by apply thread_alone|]. specialize (IH (pre ++ [rc]) s1 rcs1 E2).
  rewrite fmap_app, <- !app_assoc in IH. exact IH.
Qed.

Lemma statistics_add_up fuel es s rcs s' :
  (∀ k, stat_get k (cfg s) = 0) → Forall (λ e, is_hook e = true) es →
  Z.of_nat (length es) < 2 ^ 63 → run_hooks fuel es s = Some (rcs, s') →
  (∀ k, 0 <= stat_get k (cfg s')) ∧
  violations (cfg s') <= total_events (cfg s') <= Z.of_nat (length es) ∧
  violations (cfg s') <= denials rcs.
Proof.
  intros H0 Hes Hn Hrun. pose proof (run_hooks_steps fuel es [] s rcs s' Hes Hrun) as Hr.
  destruct (pool_counted es s s' _ H0 Hn Hr) as (H1 & H2 & _ & H3).
  destruct (H3 rcs eq_refl) as (H4 & H5 & _). done.
Qed.

End counters.

(** ** Instances *)

Section turns.
Context `{K : Kernel}.

(** One access of thread [i], if it has one left. *)
Definition turn (c : pool) (i : nat) : pool :=
  match c.2 !! i with
  | Some (PAct a k) =>
      match do_access a c.1 with Some (b, s') => (s', <[i := k b]> c.2) | None => c end
  | _ => c
  end.

Lemma turn_steps c i : rtc pstep c (turn c i).
Proof.
  destruct c as [s ts]. unfold turn. cbn [fst snd].
  destruct (ts !! i) as [[|B a k]|] eqn:Hi; [done| |done].
  destruct (do_access a s) as [[b s']|] eqn:E; [|done]. by apply rtc_once, (ps_turn s ts i B a k b).
Qed.

Lemma turns_steps l c : rtc pstep c (fold_left turn l c).
Proof.
  revert c. induction l as [|i l IH]; intros c; [done|]. etransitivity; [apply turn_steps|apply IH].
Qed.

(** The results, once every thread has returned. *)
Definition returned (ts : list (prog Z)) : option (list Z) :=
  mapM (λ p : prog Z, match p with PRet rc => Some rc | PAct _ _ => None end) ts.

Lemma returned_Some ts rcs : returned ts = Some rcs → ts = PRet <$> rcs.
Proof.
  intros H%mapM_Some. induction H as [|p rc ts rcs H _ IH]; [done|]. cbn. rewrite IH.
  destruct p; by simplify_eq.
Qed.

End turns.

(** Two denied writes and an exec, in lockstep. *)
Definition sample_events : list event :=
  [Ev_file_permission passwd MAY_WRITE; Ev_file_permission passwd MAY_WRITE; Ev_bprm_check].
Definition lockstep : pool :=
  fold_left turn (concat (replicate 20 [0; 1; 2]%nat)) (s_file, hook_prog <$> sample_events).

Lemma lockstep_ends : lockstep.2 = PRet <$> [- EACCES; - EACCES; 0].
Proof. apply returned_Some. by vm_compute. Qed.

Lemma concurrent_statistics_add_up_witness :
  violations (cfg lockstep.1) = denials [- EACCES; - EACCES; 0].
Proof.
  refine (proj2 (proj2 (proj2 (proj2 (proj2 (proj1
    (concurrent_statistics_add_up sample_events s_file lockstep.1 lockstep.2 _ _ _ _)))) _ lockstep_ends)) _).
  - intros []; by vm_compute.
  - by repeat constructor.
  - by vm_compute.
  - rewrite <- surjective_pairing. apply turns_steps.
  - by repeat constructor.
Defined.
