(* ===== verification/Decisions.v ===== *)
(** * Hooks that run at once decide as if each ran alone

    Any number of hooks run at once, one access at a time in any order
    (Counters.v), next to other code that leaves the policy alone.  They share
    the counters, the log, the pages and the calls into the kernel, and still
    each returns the reference verdict of the state they all started from. *)

From S2P Require Import Prelude CString AegisH Kernel State RefKernel PolicyList.
From S2P Require Import Process FileHash File SyscallList Lsm Sysctl Control Securityfs System Scenario.
From S2P Require Import HookProgs HookTheorems Interference Counters.

Section decisions.
Context `{K : Kernel}.

(** ** Programs that do not look at who runs them *)

(** A switch, not a counter, of the configuration. *)
Definition is_switch (f : aegis_config → bool) : Prop := ∀ c, f (cfg_flags c) = f c.

(** An access whose result is the policy's and the kernel's to determine. *)
Definition plain {B} (a : access B) : Prop :=
  match a with ReadFlag f => is_switch f | Current => False | _ => True end.

(** Two programs that differ in the task they read and the lines they log. *)
Inductive blind {A} : prog A → prog A → Prop :=
  | blind_ret a : blind (PRet a) (PRet a)
  | blind_act {B} (a : access B) k k' :
      plain a → (∀ b, blind (k b) (k' b)) → blind (PAct a k) (PAct a k')
  | blind_current k k' :
      (∀ t t', blind (k t) (k' t')) → blind (PAct Current k) (PAct Current k')
  | blind_audit m m' k k' :
      (∀ u, blind (k u) (k' u)) → blind (PAct (Audit m) k) (PAct (Audit m') k').

Lemma blind_bind {A B} (p p' : prog A) (f f' : A → prog B) :
  blind p p' → (∀ a, blind (f a) (f' a)) → blind (p ≫= f) (p' ≫= f').
Proof. intros Hp Hf. induction Hp; cbn; [apply Hf|by constructor..]. Qed.

Lemma blind_plain {B} (a : access B) : plain a → blind (act a) (act a).
Proof. intros Ha. by constructor; [|constructor]. Qed.

Lemma blind_log m m' : blind (act (Audit m)) (act (Audit m')).
Proof. constructor. intros u. constructor. Qed.

Lemma blind_who {B} (f f' : task_struct → prog B) :
  (∀ t t', blind (f t) (f' t')) → blind (act Current ≫= f) (act Current ≫= f').
Proof. intros Hf. by constructor. Qed.

(** Follows a program: a read of the current task opens two different runs. *)
Ltac blind :=
  repeat lazymatch goal with
    | |- blind (act Current ≫= _) _ => apply blind_who; intros ? ?
    | |- blind (_ ≫= _) _ => apply blind_bind; [|intros ?]
    | |- blind (act (Audit _)) _ => apply blind_log
    | |- blind (act _) _ => apply blind_plain; first [exact I|by intros []]
    | |- blind (mret _) _ => apply blind_ret
    | |- blind (if ?b then _ else _) _ => destruct b
    | |- blind (match ?x with _ => _ end) _ => destruct x
    end.

Lemma hook_blind e : blind (hook_prog e) (hook_prog e).
Proof.
  destruct e; cbn [hook_prog];
    unfold task_free_prog, ptrace_access_check_prog, ptrace_traceme_prog, file_open_prog,
      file_permission_prog, kernel_read_file_prog, kernel_load_data_prog, bprm_check_prog,
      socket_create_prog, is_process_protected_prog, is_file_protected_prog,
      is_syscall_blocked_prog, feature_prog; cbv zeta; blind.
Qed.

(** ** The worlds the hooks see *)

(** In the worlds [W] a page can be had or cannot, and a file has its path or
    none, whichever of them the call meets; and the calls stay within [W]. *)
Record steady (W : kworld → Prop) : Prop := {
  sd_page w w' : W w → W w' → (page_ok w').1 = (page_ok w).1 ∧ W (page_ok w').2;
  sd_path file w w' : W w → W w' → (d_path file w').1 = (d_path file w).1 ∧ W (d_path file w').2;
}.

Section steadily.
Context (W : kworld → Prop) (HW : steady W).

(** The policy of [s0], in one of these worlds. *)
Definition settled_on (s0 s : sys) : Prop :=
  cfg_flags (cfg s) = cfg_flags (cfg s0) ∧ reg s = reg s0 ∧ W (world s).

(** The pool between hooks' accesses and stores of other code that leaves the
    policy alone: counters, log, resources, and the state of the kernel. *)
Inductive dstep : pool → pool → Prop :=
  | ds_turn s ts i B (a : access B) k b s' :
      ts !! i = Some (PAct a k) → do_access a s = Some (b, s') →
      dstep (s, ts) (s', <[i := k b]> ts)
  | ds_other s ts s' : settled_on s s' → dstep (s, ts) (s', ts).

(** From every state with this policy the access finds, the program goes on to [rc]. *)
Fixpoint bound_for (s0 : sys) (rc : Z) (p : prog Z) : Prop :=
  match p with
  | PRet a => a = rc
  | PAct a k =>
      ∀ s, settled_on s0 s →
        ∃ b s', do_access a s = Some (b, s') ∧ settled_on s0 s' ∧ bound_for s0 rc (k b)
  end.

Lemma settled_peer s0 s s' : settled_on s0 s → settled_on s0 s' → settled_on s s'.
Proof. intros (H1 & H2 & _) (H3 & H4 & H5). split; [congruence|]. split; [congruence|done]. Qed.

Lemma settled_trans s0 s s' : settled_on s0 s → settled_on s s' → settled_on s0 s'.
Proof. intros (H1 & H2 & _) (H3 & H4 & H5). split; [congruence|]. split; [congruence|done]. Qed.

Lemma access_kernel {B} (a : access B) s b s' :
  calls_kernel a = true → W (world s) → do_access a s = Some (b, s') → W (world s').
Proof.
  destruct a as [| | | | | | | | |GetPage| |file]; try done; intros _ Hw; cbn [do_access];
    unfold get_free_page, kcall, upd_res, modify, mbind, M_bind, mret, M_ret.
  - destruct (sd_page W HW _ _ Hw Hw) as [_ H]. destruct (page_ok (world s)) as [[] w]; by intros [= <- <-].
  - destruct (sd_path W HW file _ _ Hw Hw) as [_ H]. destruct (d_path file (world s)) as [p w].
    by intros [= <- <-].
Qed.

(** An access keeps the policy and the kind of world. *)
Lemma access_settled {B} (a : access B) s0 s :
  settled_on s0 s → ∃ b s', do_access a s = Some (b, s') ∧ settled_on s0 s'.
Proof.
  intros (Hc & Hr & Hw). destruct (access_frame a s) as (b & s' & E & Hc' & Hr' & Hw').
  exists b, s'. split; [done|]. split; [congruence|]. split; [congruence|].
  destruct (calls_kernel a) eqn:Ha; [by eapply access_kernel|by rewrite Hw'].
Qed.

(** Its result is the same in all states with the policy. *)
Lemma access_agrees {B} (a : access B) s s1 b b1 s' s1' :
  plain a → W (world s) → settled_on s s1 →
  do_access a s = Some (b, s') → do_access a s1 = Some (b1, s1') → b = b1.
Proof.
  intros Hp Hw (Hc & Hr & Hw1).
  destruct a as [f| | |task|path|nr|k|m| | | |file]; try done; cbn [do_access];
    unfold aegis_protected_file_count, get_free_page, kcall, upd_res, gets, modify, mbind, M_bind, mret, M_ret;
    rewrite ?Hr.
  - rewrite (flags_policy f (cfg s) (cfg s1)) by done. congruence.
  - rewrite (flags_policy features (cfg s) (cfg s1)) by done. congruence.
  - congruence.
  - congruence.
  - congruence.
  - congruence.
  - destruct b, b1. done.
  - destruct b, b1. done.
  - destruct (sd_page W HW _ _ Hw Hw1) as [E _]. destruct (page_ok (world s)) as [[] w], (page_ok (world s1)) as [[] w1];
      cbn in E; congruence.
  - destruct b, b1. done.
  - destruct (sd_path W HW file _ _ Hw Hw1) as [E _]. destruct (d_path file (world s)), (d_path file (world s1)).
    cbn in E. congruence.
Qed.

(** A program that runs to [rc] alone is bound for [rc]. *)
Lemma alone_bound s0 (p q : prog Z) rc s s' :
  blind p q → settled_on s0 s → alone p s = Some (rc, s') → bound_for s0 rc q.
Proof.
  intros Hb. revert s. induction Hb as [a|B a k k' Ha _ IH|k k' _ IH|m m' k k' _ IH]; intros s Hs;
    cbn [alone]; unfold mbind, M_bind.
  { by intros [= -> _]. }
  - destruct (access_settled a s0 s Hs) as (b & s2 & E & Hs2). rewrite E. intros Hrun s1 Hs1.
    destruct (access_settled a s0 s1 Hs1) as (b1 & s3 & E1 & Hs3).
    pose proof (access_agrees a s s1 b b1 s2 s3 Ha (proj2 (proj2 Hs)) (settled_peer _ _ _ Hs Hs1) E E1) as <-.
    exists b, s3. split; [done|]. split; [done|]. by apply (IH b s2).
  - destruct (access_settled Current s0 s Hs) as (b & s2 & E & Hs2). rewrite E. intros Hrun s1 Hs1.
    destruct (access_settled Current s0 s1 Hs1) as (b1 & s3 & E1 & Hs3).
    exists b1, s3. split; [done|]. split; [done|]. by apply (IH b b1 s2).
  - destruct (access_settled (Audit m) s0 s Hs) as (b & s2 & E & Hs2). rewrite E. intros Hrun s1 Hs1.
    destruct (access_settled (Audit m') s0 s1 Hs1) as (b1 & s3 & E1 & Hs3).
    exists b1, s3. split; [done|]. split; [done|]. destruct b, b1. by apply (IH tt s2).
Qed.

(** ** The pool *)

(** Every thread is bound for the result of its hook. *)
Definition on_course (s0 : sys) (rcs : list Z) (c : pool) : Prop :=
  settled_on s0 c.1 ∧ Forall2 (bound_for s0) rcs c.2.

Lemma dstep_course s0 rcs c c' : dstep c c' → on_course s0 rcs c → on_course s0 rcs c'.
Proof.
  intros Hst [Hs Hb]. destruct Hst as [s ts i B a k b s' Hi E|s ts s' Ho]; cbn [fst snd] in *.
  - destruct (Forall2_lookup_r _ _ _ _ _ Hb Hi) as (rc & Hrc & Hbf).
    destruct (Hbf s Hs) as (b1 & s1 & E1 & Hs1 & Hk). rewrite E in E1. injection E1 as <- <-.
    split; [done|]. rewrite <- (list_insert_id rcs i rc Hrc). by apply Forall2_insert.
  - split; [by eapply settled_trans|done].
Qed.

Lemma dsteps_course s0 rcs c c' : rtc dstep c c' → on_course s0 rcs c → on_course s0 rcs c'.
Proof. induction 1 as [|c1 c2 c3 H1 _ IH]; [done|]. intros H. by apply IH, (dstep_course s0 rcs c1). Qed.

(** A thread on course gets there when it runs. *)
Lemma bound_runs s0 s pre p ts rc :
  settled_on s0 s → bound_for s0 rc p →
  ∃ s', settled_on s0 s' ∧ rtc dstep (s, pre ++ p :: ts) (s', pre ++ PRet rc :: ts).
Proof.
  revert s. induction p as [a|B a k IH]; intros s Hs Hb.
  { exists s. split; [done|]. by rewrite <- Hb. }
  destruct (Hb s Hs) as (b & s1 & E & Hs1 & Hk). destruct (IH b s1 Hs1 Hk) as (s2 & Hs2 & Hr).
  exists s2. split; [done|]. eapply rtc_l; [|exact Hr].
  replace (pre ++ k b :: ts) with (<[length pre := k b]> (pre ++ PAct a k :: ts))
    by by rewrite insert_app_r_alt, Nat.sub_diag.
  econstructor; [|exact E]. by rewrite list_lookup_middle.
Qed.

Lemma course_finishes s0 rcs s pre ts :
  settled_on s0 s → Forall2 (bound_for s0) rcs ts →
  ∃ s', rtc dstep (s, (PRet <$> pre) ++ ts) (s', PRet <$> (pre ++ rcs)).
Proof.
  intros Hs Hb. revert s pre Hs. induction Hb as [|rc p rcs ts Hp _ IH]; intros s pre Hs.
  { exists s. by rewrite !app_nil_r. }
  destruct (bound_runs s0 s (PRet <$> pre) p ts rc Hs Hp) as (s1 & Hs1 & H1).
  destruct (IH s1 (pre ++ [rc]) Hs1) as [s2 H2]. exists s2. etransitivity; [exact H1|].
  by rewrite fmap_app, <- !app_assoc in H2.
Qed.

End steadily.

(** What each hook is bound for: its reference verdict. *)
Lemma hook_bound W s e :
  steady W → W (world s) → sys_inv 0 s → is_hook e = true →
  bound_for W s (v_rc (hook_verdict s e)) (hook_prog e).
Proof.
  intros HW Hw Hi He.
  destruct (proj1 (wp_total _ _ _) (hook_implements 0 s 0 e Hi He)) as (rc & s' & E & -> & _).
  rewrite <- same_hook in E by done.
  by apply (alone_bound W HW s (hook_prog e) (hook_prog e) _ s s' (hook_blind e)).
Qed.

(** C32: hooks that run at once decide as if each ran alone.  Alone, the program
    of a hook implements its reference verdict: return value, counters, log
    lines.  And when any number of hooks start from a reachable state and run
    one access at a time, in any order and next to other code that leaves lists
    and switches alone, each that has returned has returned the verdict of the
    state they started from, whatever the others did to the counters, the log,
    the pages and the kernel in between, as long as the kernel goes on to grant
    or refuse pages and to resolve paths as it did; and from every moment all
    of them can return. *)
Theorem concurrent_hooks_decide_alone `{UL : !UninitLaws} `{SL : !ScanLaws} `{YL : !SysctlLaws}
    `{FL : !SecfsLaws} `{NL : !NrLaws} W fuel es s s' ts :
  reach fuel s → Forall (λ e, is_hook e = true) es → steady W → W (world s) →
  rtc (dstep W) (s, hook_prog <$> es) (s', ts) →
  Forall (λ e, ∃ rc s1, alone (hook_prog e) s = Some (rc, s1) ∧ implements (hook_verdict s e) s rc s1) es ∧
  cfg_flags (cfg s') = cfg_flags (cfg s) ∧ reg s' = reg s ∧
  (∀ i e rc, es !! i = Some e → ts !! i = Some (PRet rc) → rc = v_rc (hook_verdict s e)) ∧
  ∃ s'', rtc (dstep W) (s', ts) (s'', PRet <$> ((λ e, v_rc (hook_verdict s e)) <$> es)).
Proof.
  intros Hr Hes HW Hw Hsteps. pose proof (reach_inv fuel s Hr) as Hi.
  set (rcs := (λ e, v_rc (hook_verdict s e)) <$> es).
  assert (on_course W s rcs (s, hook_prog <$> es)) as H0.
  { split; [done|]. cbn. unfold rcs. clear Hsteps. induction Hes as [|e es He _ IH]; constructor; [|done].
    by apply hook_bound. }
  destruct (dsteps_course W s rcs _ _ Hsteps H0) as [(Hc & Hg & Hw') Hb]. cbn [fst snd] in *.
  split; [|split; [done|split; [done|split]]].
  - eapply Forall_impl; [exact Hes|]. intros e He. cbn.
    rewrite (same_hook fuel) by done. by eapply wp_total, hook_implements.
  - intros i e rc He Ht. destruct (Forall2_lookup_r _ _ _ _ _ Hb Ht) as (rc' & Hrc & ->).
    unfold rcs in Hrc. rewrite list_lookup_fmap, He in Hrc. by injection Hrc as <-.
  - by apply (course_finishes W s rcs s' []).
Qed.

End decisions.

(** ** Instances *)

(** The pages keep coming and the files keep their paths. *)
Lemma pages_steady : steady (K := ref_kernel) (λ w : rworld, rw_page w = true).
Proof. split; [intros w w' Hw Hw'|intros file w w' Hw Hw']; split; [cbn; congruence|done|done|done]. Qed.

Lemma turns_dsteps `{K : Kernel} W s0 l :
  rtc (dstep W) s0 (fold_left turn l s0).
Proof.
  revert s0. induction l as [|i l IH]; intros [s ts]; [done|]. etransitivity; [|apply IH].
  unfold turn. cbn [fst snd]. destruct (ts !! i) as [[|B a k]|] eqn:Hi; [done| |done].
  destruct (do_access a s) as [[b s']|] eqn:E; [|done]. by apply rtc_once, (ds_turn W s ts i B a k b).
Qed.

(** The writes are refused although other hooks run in between. *)
Lemma concurrent_hooks_decide_alone_witness :
  - EACCES = v_rc (hook_verdict s_file (Ev_file_permission passwd MAY_WRITE)).
Proof.
  destruct (concurrent_hooks_decide_alone (K := ref_kernel) (λ w : rworld, rw_page w = true) 20
    sample_events s_file lockstep.1 lockstep.2)
    as (_ & _ & _ & H & _).
  - exact s_file_reach.
  - by repeat constructor.
  - exact pages_steady.
  - by vm_compute.
  - rewrite <- surjective_pairing. apply turns_dsteps.
  - refine (H 1%nat _ (- EACCES) eq_refl _). by rewrite lockstep_ends.
Defined.
