(* ===== verification/ListTheorems.v ===== *)
(** * Theorems about the three lists and the file digest

    The process, file and system-call lists refine bounded lists without
    duplicates; a file added is found until it is deleted; digests recorded for
    protected files are those of the files; the digest routine terminates on
    finite files, leaks nothing, and does not terminate on endless ones. *)

From S2P Require Import Prelude CString AegisH Kernel State RefKernel PolicyList.
From S2P Require Import Process FileHash File SyscallList Lsm Sysctl Control Securityfs System Scenario.

Section lists.
Context `{K : Kernel}.

(** ** Refinement *)

(** C8: any sequence of additions to and deletions from a list returns what a
    bounded list without duplicates would return, and leaves the keys that list
    would hold, with an exact count: the processes by (name, pid), the files by
    path, whatever happens while digests are computed, the system calls by number. *)
Theorem policy_lists_refine fuel s :
  sys_inv 0 s →
  (∀ t s', Forall (λ o, proc_valid (pl_op_key o.1)) t → pl_trace (Ops := proc_ops) s t s' →
     pl_inv (E := aegis_protected_proc) s' ∧
     spec_trace (E := aegis_protected_proc) (proc_abs s) t (proc_abs s')) ∧
  (∀ t s', Forall (λ o, file_valid (pl_op_key o.1)) t → pl_trace (Ops := file_ops fuel) s t s' →
     file_inv s' ∧ spec_trace (E := aegis_protected_file) (file_abs s) t (file_abs s')) ∧
  (∀ t s', Forall (λ o, 0 <= pl_op_key o.1) t → pl_trace (Ops := syscall_ops) s t s' →
     pl_inv (E := aegis_blocked_syscall) s' ∧
     spec_trace (E := aegis_blocked_syscall) (syscall_abs s) t (syscall_abs s')).
Proof.
  intros [Hp Hf Hq _ _ _]. split; [|split]; intros t s' Ht.
  - by apply (pl_trace_refines (E := aegis_protected_proc) (Ops := proc_ops)).
  - by apply (pl_trace_refines (E := aegis_protected_file) (Ops := file_ops fuel)).
  - by apply (pl_trace_refines (E := aegis_blocked_syscall) (Ops := syscall_ops)).
Qed.

(** Lookup follows insertion and deletion.  After a successful add the
    path is found and every other path is found exactly as before; the delete
    that follows succeeds and restores every answer. *)
Lemma file_add_lookup_del fuel p s s1 :
  file_inv s → file_valid p → AEGIS_FEATURE_CHECK (cfg s) AEGIS_FEATURE_FILE_INTEGRITY = true →
  aegis_protected_file_add fuel (Some p) s = Some (0, s1) →
  aegis_is_file_protected (Some p) s1 = Some (true, s1) ∧
  (∀ q, cstr q ≠ p → file_protected s1 q = file_protected s q) ∧
  ∃ s2, aegis_protected_file_del (Some p) s1 = Some (0, s2) ∧
    ∀ q, aegis_is_file_protected (Some q) s2 = Some (file_protected s q, s2).
Proof.
  intros Hinv Hv Hf Hadd. pose proof (cstr_id p (proj1 Hv)) as Hcp.
  assert (file_valid (cstr p)) as Hvp by (by rewrite Hcp).
  pose proof (wp_eq _ _ _ _ _ _ Hadd (file_add_spec fuel p s)) as Hpost.
  destruct (file_add_law _ _ _ _ _ Hinv Hvp Hpost) as [Hinv1 _].
  assert (cfg s1 = cfg s) as Hc1 by apply Hpost.
  destruct (proj1 (wp_total _ _ _) (pl_del_ok (Ops := file_ops fuel) p s1 Hinv1 Hv))
    as (rc & s2 & Hdel & Hinv2 & _).
  assert (cfg s2 = cfg s1) as Hc2 by apply (wp_eq _ _ _ _ _ _ Hdel (file_del_spec p s1)).
  destruct (pl_add_del (E := aegis_protected_file) (Ops := file_ops fuel) s p s1 s2 rc Hinv Hv Hadd Hdel)
    as (-> & Habs & Hin & _).
  assert (∀ q, cstr q ≠ p → cstr q ∈ file_abs s1 ↔ cstr q ∈ file_abs s) as Hq.
  { intros q Hne. fold (file_abs s) in Habs.
    destruct (file_add_law _ _ _ _ _ Hinv Hvp Hpost) as [_ Hs]. rewrite Hcp in Hs. unfold spec_add in Hs.
    destruct (_ <=? _); [discriminate|]. case_decide; [discriminate|].
    destruct (kmalloc_ok (world s)).1; [|discriminate]. injection Hs as ->. set_solver. }
  split; [|split].
  - rewrite is_file_protected_run by done. unfold file_protected. rewrite Hc1, Hf.
    rewrite cstr_id by apply Hv. by rewrite bool_decide_true.
  - intros q Hne. unfold file_protected. rewrite Hc1. f_equal. by apply bool_decide_ext, Hq.
  - exists s2. split; [done|]. intros q. rewrite is_file_protected_run by done.
    unfold file_protected. rewrite Hc2, Hc1. unfold file_abs. by rewrite Habs.
Qed.

(** ** Digests *)

(** Every exit of the digest routine, on any kernel and whichever call fails,
    releases what it acquired. *)
Lemma file_hash_releases fuel f out s r s' :
  aegis_compute_file_hash fuel f out s = Some (r, s') → holds (res s) s s'.
Proof.
  intros Hr. destruct f as [f|], out as [out|];
    [|injection Hr as _ <-; apply holds_refl..].
  apply (wp_eq _ _ _ _ _ _ Hr (compute_file_hash_holds fuel f out s)).
Qed.

(** C20: the digest routine releases transform, descriptor and buffer on every
    exit, whichever call fails; and for a file of finite content it returns,
    after at most one read more than the length, where a zero result means the
    digest of the whole content. *)
Theorem file_hash_correct `{L : !ShashLaws} f content fuel out s :
  (∀ r s', aegis_compute_file_hash fuel f out s = Some (r, s') → holds (res s) s s') ∧
  (∀ g buf, f = Some g → out = Some buf → reads_as g content → (length content < fuel)%nat →
   (∀ w err, (shash_alloc w).1 = inl err → err ≠ 0) →
   ∃ rc h s', aegis_compute_file_hash fuel f out s = Some ((rc, h), s') ∧
     (rc = 0 → h = sha256 content)).
Proof.
  split; [apply file_hash_releases|]. intros g buf -> -> Hf Hl Ha.
  destruct (proj1 (wp_total _ _ _) (compute_file_hash_digest g content fuel buf s Hf Hl Ha))
    as ([rc h] & s' & H1 & H2 & H3). by exists rc, h, s'.
Qed.

(** C19: adding a file of finite content returns; the result and the keys are
    those of the bounded list, one block is kept exactly when it succeeds, and
    a digest marked valid is that of a file the path led to. *)
Theorem file_add_records_digest `{L : !ShashLaws} fuel path s :
  file_inv s → file_valid path → path_finite fuel path →
  (∀ w err, (shash_alloc w).1 = inl err → err ≠ 0) →
  ∃ rc s', aegis_protected_file_add fuel (Some path) s = Some (rc, s') ∧ file_inv s' ∧
    (rc, file_abs s') =
      spec_add AEGIS_MAX_PROTECTED_FILES (kmalloc_ok (world s)).1 path (file_abs s) ∧
    (rc ≠ 0 → reg s' = reg s ∧ res s' = res s) ∧
    (rc = 0 → res s' = add_kmem 1 (res s) ∧
       ∃ e, protected_files (reg s') = protected_files (reg s) ++ [e] ∧
            (pf_hash_valid e = true →
             ∃ f content, opens path f ∧ reads_as f content ∧ pf_hash e = sha256 content)).
Proof.
  intros Hinv Hv Hf Ha.
  destruct (proj1 (wp_total _ _ _) (file_add_digest Ha fuel path s Hf)) as (rc & s' & Hr & Hpost).
  exists rc, s'. split; [done|].
  destruct (file_add_law _ _ _ _ _ Hinv ltac:(by rewrite cstr_id by apply Hv) Hpost) as [Hinv' Hs].
  rewrite cstr_id in Hs by apply Hv. do 2 (split; [done|]).
  destruct Hpost as (_ & e & _ & Hd & _ & Hrr). split.
  - intros Hne%Z.eqb_neq. rewrite Hne in Hrr. tauto.
  - intros ->. destruct Hrr as [H1 H2]. split; [done|]. exists e. split; [by rewrite H2|].
    intros Hval. by apply Hd.
Qed.

(** A computation that never returns satisfies every partial specification. *)
Lemma diverges {A} (m : M A) s : wlp m (λ _ _, False) s → m s = None.
Proof. unfold wpx. by destruct (m s) as [[]|]. Qed.

Lemma wp_kmalloc_total d Q s :
  kmalloc_total → (∀ s', wpx d (mret true) Q s') → wpx d kmalloc Q s.
Proof.
  intros Hm HQ. apply wp_kmalloc; intros w Hw; [|apply HQ].
  specialize (Hm (world s)). by rewrite Hw in Hm.
Qed.

Lemma wp_kcall_fst d {A} (f : kworld → A * kworld) a Q s :
  (∀ w, (f w).1 = a) → (∀ s', wpx d (mret a) Q s') → wpx d (kcall f) Q s.
Proof. intros Hf HQ. apply wp_kcall. intros a' w E. specialize (Hf (world s)). rewrite E in Hf. cbn in Hf. subst a'. apply HQ. Qed.

Lemma compute_hash_endless fuel f out s :
  kmalloc_total → endless f → (∀ w, (shash_alloc w).1 = inr tt) →
  (∀ w, (shash_init w).1.1 = 0) → (∀ h b w, (shash_update h b w).1.1 = 0) →
  wlp (aegis_compute_file_hash fuel (Some f) (Some out)) (λ _ _, False) s.
Proof.
  intros Hm He Ha Hi Hu. cbn [aegis_compute_file_hash]. wp_step.
  eapply wp_kcall_fst; [exact Ha|]. intros s1. wp_step. wp_step. wp_step. wp_step.
  apply wp_kmalloc_total; [done|]. intros s2. wp_step. cbn [negb]. wp_step. wp_step.
  apply wp_kcall. intros i w E. specialize (Hi (world s2)). rewrite E in Hi. cbn in Hi. rewrite Hi.
  errno. cbn [negb]. wp_step. wp_step.
  apply wp_kmalloc_total; [done|]. intros s3. wp_step. cbn [negb]. wp_step.
  unfold wpx at 1. by rewrite hash_loop_endless.
Qed.

(** C40: there is no bound on the digest loop: adding the path of a file that
    always has more to read (such as /dev/zero) never returns, whatever the
    number of iterations allowed, once memory and the hash are available. *)
Theorem file_add_endless fuel path fp f s :
  protected_file_count (reg s) < AEGIS_MAX_PROTECTED_FILES →
  existsb (file_match path) (protected_files (reg s)) = false →
  kmalloc_total → (∀ w, (kern_path (cstr path) w).1 = inr fp) →
  (∀ w, (dentry_open fp w).1 = inr f) → endless f →
  (∀ w, (shash_alloc w).1 = inr tt) → (∀ w, (shash_init w).1.1 = 0) →
  (∀ h b w, (shash_update h b w).1.1 = 0) →
  aegis_protected_file_add fuel (Some path) s = None.
Proof.
  intros Hc Hd Hm Hk Ho He Ha Hi Hu. apply diverges. unfold aegis_protected_file_add.
  wp_step. wp_step. replace (_ <=? _) with false by lia. rewrite Hd.
  wp_step. apply wp_kmalloc_total; [done|]. intros s1. wp_step. cbn [negb]. wp_step.
  unfold file_initial_hash. wp_step. eapply wp_kcall_fst; [exact Hk|]. intros s2. wp_step.
  wp_step. wp_step. wp_step. eapply wp_kcall_fst; [exact Ho|]. intros s3. wp_step.
  wp_step. wp_step. wp_step. wp_step. wp_step.
  eapply wp_mono; [by apply compute_hash_endless|]. done.
Qed.

End lists.

(** ** Instances *)

Lemma policy_lists_refine_witness :
  (∃ s', spec_trace (E := aegis_protected_proc) (proc_abs s_boot)
     [(PlAdd (str "nginx", 0), 0); (PlAdd (str "init", 1), - EEXIST); (PlDel (str "nginx", 0), 0)]
     (proc_abs s')) ∧
  (∃ s', spec_trace (E := aegis_protected_file) (file_abs s_boot)
     [(PlAdd (str "/etc/shadow"), 0); (PlAdd (str "/etc/shadow"), - EEXIST);
      (PlDel (str "/bin/sh"), - ENOENT)] (file_abs s')) ∧
  (∃ s', spec_trace (E := aegis_blocked_syscall) (syscall_abs s_boot)
     [(PlAdd 101, 0); (PlAdd 246, - EEXIST); (PlDel 320, 0)] (syscall_abs s')).
Proof.
  destruct (policy_lists_refine 20 s_boot (reach_inv 20 s_boot (s_boot_reach 20))) as (H1 & H2 & H3).
  split; [|split].
  - eexists. eapply H1.
    + repeat apply Forall_cons_2; [..|apply Forall_nil_2]; by_decision.
    + do 3 (eapply pl_trace_cons; [apply run_ends; by vm_compute|]). apply pl_trace_nil.
  - eexists. eapply H2.
    + repeat apply Forall_cons_2; [..|apply Forall_nil_2]; by_decision.
    + do 3 (eapply pl_trace_cons; [apply run_ends; by vm_compute|]). apply pl_trace_nil.
  - eexists. eapply H3.
    + repeat constructor; cbn; lia.
    + do 3 (eapply pl_trace_cons; [apply run_ends; by vm_compute|]). apply pl_trace_nil.
Defined.

Lemma reads_as_content f : rf_endless f = false → reads_as f (rf_content f).
Proof.
  intros Hf pos w Hpos. eexists. cbn. rewrite Hf. split; [reflexivity|split].
  - apply prefix_take.
  - intros H. apply (f_equal length) in H. rewrite length_take, length_drop in H.
    change (@length ascii []) with 0%nat in H. lia.
Qed.

Lemma file_hash_correct_witness :
  holds (res s_boot) s_boot (state_of (aegis_compute_file_hash 20 (Some passwd) (Some [])) s_boot) ∧
  ∃ rc h s', aegis_compute_file_hash 20 (Some passwd) (Some []) s_boot = Some ((rc, h), s') ∧
    (rc = 0 → h = ref_digest (rf_content passwd)).
Proof.
  destruct (file_hash_correct (K := ref_kernel) (L := ref_shash_laws) (Some passwd)
    (rf_content passwd) 20 (Some []) s_boot) as [H1 H2].
  split; [exact (H1 (0, ref_digest (str "root:x:0:0")) _ eq_refl)|].
  apply (H2 passwd []); [reflexivity|reflexivity| | |].
  - by apply reads_as_content.
  - by_decision.
  - discriminate.
Defined.

Lemma file_add_records_digest_witness :
  ∃ rc s', aegis_protected_file_add 20 (Some (str "/etc/passwd")) s_boot = Some (rc, s') ∧
    file_inv s' ∧
    (rc, file_abs s') = spec_add 128 true (str "/etc/passwd") (file_abs s_boot).
Proof.
  destruct (file_add_records_digest 20 (str "/etc/passwd") s_boot) as (rc & s' & H1 & H2 & H3 & _).
  - apply (inv_files 0), (reach_inv 20), s_boot_reach.
  - by_decision.
  - intros f (w & fp & w1 & w2 & [= <- <-] & [= <- <-]). exists (rf_content passwd).
    split; [by apply reads_as_content|by_decision].
  - discriminate.
  - by exists rc, s'.
Defined.

Lemma file_add_endless_witness :
  aegis_protected_file_add 1000 (Some (str "/dev/zero")) s_boot = None.
Proof.
  apply (file_add_endless (K := ref_kernel) 1000 (str "/dev/zero") devzero devzero); try done.
  intros pos w. by exists NUL, [].
Defined.
