(* ===== verification/SystemTheorems.v ===== *)
(** * Theorems about the whole module

    The invariant of reachable states, the state after boot, who can change the
    policy, the effect of the sysctl files, construction and removal of the
    securityfs tree, and the exit routines. *)

From S2P Require Import Prelude CString AegisH Kernel State RefKernel PolicyList.
From S2P Require Import Process FileHash File SyscallList Lsm Sysctl Control Securityfs System Scenario.

Section system_theorems.
Context `{K : Kernel} `{UL : !UninitLaws} `{SL : !ScanLaws} `{YL : !SysctlLaws}
        `{FL : !SecfsLaws} `{NL : !NrLaws}.

(** ** Reachable states *)

(** C1: in every state reachable from boot through any sequence of hook calls,
    control writes and sysctl accesses, each list has an exact count within its
    capacity, no duplicate keys and terminated strings; the switches the hooks
    read agree with the sysctl variables; one block of memory is held per list
    entry and nothing else; the securityfs tree is complete or absent. *)
Theorem reachable_states_invariant fuel s : reach fuel s → sys_inv 0 s.
Proof. apply reach_inv. Qed.

(** C23: [aegis_init] always returns.  It registers the eleven hooks, leaves
    every list within the defaults (all of them when memory is available), the
    configuration at its initial value, and fails, with ENOMEM, exactly when
    the sysctl table cannot be registered. *)
Theorem boot_establishes_defaults w :
  ∃ rc s, aegis_init (sys0 w) = Some (rc, s) ∧ sys_inv 0 s ∧
    rc = (if aegis_sysctl_header (vars s) then 0 else - ENOMEM) ∧
    hooks s = registered_hooks ∧ cfg s = aegis_cfg_init ∧ file_abs s = [] ∧
    proc_abs s `sublist_of` default_procs ∧ syscall_abs s `sublist_of` default_syscalls ∧
    (kmalloc_total → proc_abs s = default_procs ∧ syscall_abs s = default_syscalls).
Proof.
  destruct (proj1 (wp_total _ _ _) (aegis_init_boots w)) as (rc & s & Hr & []).
  by exists rc, s.
Qed.

(** C7: the policy changes only on an administrator's request.  From a
    reachable state, an event that changes a list is a write to a control
    endpoint by a task with CAP_MAC_ADMIN, and one that changes a switch is a
    write to a sysctl file. *)
Theorem policy_change_needs_admin fuel s e rc s' :
  reach fuel s → run_event fuel e s = Some (rc, s') →
  (reg s' ≠ reg s →
     capable_mac_admin (world s) = true ∧ ∃ i ubuf len, e = Ev_control i ubuf len) ∧
  (cfg_flags (cfg s') ≠ cfg_flags (cfg s) → ∃ i io, e = Ev_sysctl i true io).
Proof.
  intros Hr Hrun. destruct (is_hook e) eqn:He.
  { destruct (wp_eq _ _ _ _ _ _ Hrun (hook_implements fuel s 0 e (reach_inv fuel s Hr) He))
      as (_ & Hc & _ & Hg & _). split; intros Hne; exfalso; apply Hne; [done|].
    rewrite Hc. apply bump_flags. }
  destruct e as [| | | | | | | | | | |i ubuf len|i write io]; try discriminate He; cbn [run_event] in Hrun.
  - destruct (aectl_handlers fuel !! i) as [h|] eqn:Hh; [|by injection Hrun as <- <-].
    destruct (wp_eq _ _ _ _ _ _ Hrun (control_keeps fuel i h ubuf len s Hh)) as (Hc & _).
    split; [|by rewrite Hc]. intros Hne. change (h.2 ubuf len s = Some (rc, s')) in Hrun.
    destruct (capable_mac_admin (world s)) eqn:Ha; [eauto|].
    pose proof (eq_trans (eq_sym Hrun) (control_unauthorized fuel i h ubuf len s Hh Ha)) as E.
    by injection E as -> ->.
  - destruct (aegis_sysctl_table !! i) as [h|] eqn:Hh; [|by injection Hrun as <- <-].
    split.
    + intros Hne. exfalso. apply Hne.
      pose proof (Forall_lookup_1 _ _ _ _ sysctl_table_syncs Hh) as Hs.
      apply (wp_eq _ _ _ _ _ _ Hrun (Hs write io s (inv_sync _ _ (reach_inv fuel s Hr)))).
    + intros Hne. destruct write; [eauto|]. exfalso. apply Hne.
      by rewrite (sysctl_read_keeps i h io s rc s' Hh Hrun).
Qed.

(** ** Sysctl files *)

(** The position of a switch's file in the table. *)
Definition switch_file (k : switch) : nat :=
  match k with
  | sw_enabled => 0
  | sw_ptrace_restrict_all => 2
  | sw_file_integrity_enforce => 3
  | sw_file_integrity_log => 4
  | sw_module_loading_denied => 5
  | sw_syscall_audit_enable => 6
  end.

Lemma switch_event_spec fuel k write io s :
  wp (run_event fuel (Ev_sysctl (switch_file k) write io)) (switch_post k write io s) s.
Proof. destruct k; [apply proc_enable_spec|apply bool_handler_spec..]. Qed.

Lemma switch_write_effect fuel k write io s x rcode :
  (proc_dointvec (var_get k (vars s)) write io (world s)).1 = (rcode, x) →
  ∃ s', run_event fuel (Ev_sysctl (switch_file k) write io) s = Some (rcode, s') ∧
    reg s' = reg s ∧ res s' = res s ∧ features (cfg s') = features (cfg s) ∧
    (∀ st, stat_get st (cfg s') = stat_get st (cfg s)) ∧
    (∀ k', switch_get k' (cfg s') =
       if decide (k' = k ∧ write = true ∧ rcode = 0) then negb (x =? 0) else switch_get k' (cfg s)).
Proof.
  intros Hd.
  destruct (proj1 (wp_total _ _ _) (switch_event_spec fuel k write io s))
    as (rc & s' & Hr & Hrc & _ & (Hg & _ & Hre & _ & Hst) & Hc).
  rewrite Hd in Hrc, Hc. cbn [fst snd] in Hrc, Hc. subst rc. exists s'.
  do 3 (split; [done|]). rewrite Hc. split; [by destruct (_ && _)|]. split; [by rewrite <- Hc|].
  intros k'. destruct (write && (rcode =? 0)) eqn:E.
  - apply andb_true_iff in E as [-> ->%Z.eqb_eq]. rewrite switch_get_set.
    case_decide as H1; case_decide as H2; naive_solver.
  - rewrite decide_False; [done|]. intros (_ & -> & ->). done.
Qed.

Lemma features_write_effect fuel io s x :
  (proc_dointvec (aegis_features_val (vars s)) true io (world s)).1 = (0, x) →
  ∃ s', run_event fuel (Ev_sysctl 1 true io) s = Some (0, s') ∧
    reg s' = reg s ∧ (∀ k, switch_get k (cfg s') = switch_get k (cfg s)) ∧
    0 <= features (cfg s') < 2 ^ 32 ∧
    (∀ i, 0 <= i < 32 →
       AEGIS_FEATURE_CHECK (cfg s') (Z.shiftl 1 i) = enabled (cfg s) && Z.testbit x i).
Proof.
  intros Hd.
  destruct (proj1 (wp_total _ _ _) (proc_features_spec true io s))
    as (rc & s' & Hr & Hrc & _ & (Hg & _) & Hc).
  rewrite Hd in Hrc, Hc. cbn in Hrc, Hc. subst rc. exists s'.
  do 2 (split; [done|]). rewrite Hc. split; [by intros []|].
  split; [apply Z.mod_pos_bound; lia|].
  intros i Hi. rewrite feature_check_bit by lia. cbn [enabled features features_set].
  f_equal. unfold u32, wrap_u. apply Z.mod_pow2_bits_low. lia.
Qed.

(** C26: a write to a sysctl file takes effect and changes nothing else.  A
    switch's file sets that switch to "not zero": the other switches, the
    feature mask, the counters and the lists keep their values, and a write that
    fails, and a read, change no switch at all.  The features file is a bit
    mask: after a successful write of [x], a feature is active exactly when the
    module is enabled and its bit of [x] is set, also for negative [x], and no
    switch or list changes. *)
Theorem sysctl_switch_effect fuel io s :
  (∀ k write x rcode, (proc_dointvec (var_get k (vars s)) write io (world s)).1 = (rcode, x) →
     ∃ s', run_event fuel (Ev_sysctl (switch_file k) write io) s = Some (rcode, s') ∧
       reg s' = reg s ∧ res s' = res s ∧ features (cfg s') = features (cfg s) ∧
       (∀ st, stat_get st (cfg s') = stat_get st (cfg s)) ∧
       (∀ k', switch_get k' (cfg s') =
          if decide (k' = k ∧ write = true ∧ rcode = 0) then negb (x =? 0) else switch_get k' (cfg s))) ∧
  (∀ x, (proc_dointvec (aegis_features_val (vars s)) true io (world s)).1 = (0, x) →
     ∃ s', run_event fuel (Ev_sysctl 1 true io) s = Some (0, s') ∧
       reg s' = reg s ∧ (∀ k, switch_get k (cfg s') = switch_get k (cfg s)) ∧
       0 <= features (cfg s') < 2 ^ 32 ∧
       (∀ i, 0 <= i < 32 →
          AEGIS_FEATURE_CHECK (cfg s') (Z.shiftl 1 i) = enabled (cfg s) && Z.testbit x i)).
Proof.
  split; [intros k write x rcode; apply switch_write_effect|apply features_write_effect].
Qed.

(** ** The securityfs tree *)

(** C24: building the tree succeeds completely or leaves nothing: on success the
    directory holds the five read files (mode 0444) and the six endpoints (mode
    0200), all reachable from the dentry variables, and a read or a write of each
    reaches the routine of its name; whichever creation fails, everything created
    before it is removed and every variable is NULL. *)
Theorem securityfs_all_or_nothing s :
  sfs s = secfs_init →
  ∃ rc s', aegis_securityfs_late_init s = Some (rc, s') ∧
    cfg s' = cfg s ∧ reg s' = reg s ∧ vars s' = vars s ∧
    ((rc = 0 ∧ tree_ok (sfs s') ∧ ∀ fuel, tree_serves fuel (sfs s')) ∨
     (rc < 0 ∧ sf_live (sfs s') = [] ∧ all_null (sfs s'))).
Proof.
  intros Hs.
  assert (wp aegis_securityfs_late_init (λ rc s', cfg s' = cfg s ∧ reg s' = reg s ∧ vars s' = vars s ∧
    ((rc = 0 ∧ tree_ok (sfs s')) ∨ (rc < 0 ∧ sf_live (sfs s') = [] ∧ all_null (sfs s')))) s) as H.
  { unfold aegis_securityfs_late_init. wp_step.
    eapply wp_mono; [by apply securityfs_init_spec|].
    intros rc s1 (Hc & Hr & Hv & _ & _ & Ht). wp_step. destruct (negb _); by wp_go. }
  apply wp_total in H as (rc & s' & Hrun & Hc & Hr & Hv & [[Hrc Ht]|Hf]); exists rc, s'.
  - repeat (split; [done|]). left. split; [done|]. split; [done|]. intros fuel. by apply tree_ok_serves.
  - repeat (split; [done|]). by right.
Qed.

(** Removing the tree leaves no entry alive and no dangling pointer, and the
    directory goes after everything it contains. *)
Lemma securityfs_exit_clean fuel s :
  reach fuel s →
  ∃ s', aegis_securityfs_exit s = Some (tt, s') ∧ sf_live (sfs s') = [] ∧ all_null (sfs s') ∧
    (tree_ok (sfs s) → ∀ dir, aegis_dir (sfs s) = D_PTR dir →
       ∃ before, sf_removed (sfs s') = sf_removed (sfs s) ++ before ++ [dir]).
Proof.
  intros Hr. exists (set_sfs (exit_fn (sfs s)) s). split; [apply securityfs_exit_run|].
  assert (covers (sfs s)) as Hcov.
  { destruct (inv_tree _ _ (reach_inv fuel s Hr)) as [->|[(_ & Hc & _)|[Hl _]]].
    - by apply covers_b_spec.
    - done.
    - intros d. rewrite Hl. by intros ?%elem_of_nil. }
  destruct (exit_fn_clean _ Hcov) as [Hl Hn]. do 2 (split; [done|]).
  intros _ dir Hdir. destruct (exit_fn_fields (sfs s)) as (Hrem & _). cbn [sfs set_sfs].
  rewrite Hrem.
  eexists. f_equal. unfold all_ptrs. rewrite Hdir.
  rewrite (app_assoc _ [_; _; _; _; _] [D_PTR dir] : _ ++ [_; _; _; _; _; _] = _), ptr_ids_app. done.
Qed.

(** ** Exit routines *)

Lemma process_free_run l s :
  protected_procs (reg s) = l →
  wp (process_free_all l) (λ _ s',
    s' = set_res (add_kmem (- Z.of_nat (length l)) (res s)) (set_reg (set_procs [] (protected_proc_count (reg s)) (reg s)) s)) s.
Proof.
  revert s. induction l as [|x l IH]; intros s Hl.
  { apply wp_ret. destruct s as [c [] v f [] k w h]. cbn in *. subst. unfold add_kmem. cbn.
    by rewrite Z.add_0_r. }
  cbn [process_free_all]. do 4 wp_step. eapply wp_mono; [by apply IH|]. intros _ s' ->.
  destruct s as [c [] v f [] k w h]. unfold add_kmem, set_res, set_reg. cbn.
  f_equal. f_equal. lia.
Qed.

Lemma aegis_process_exit_run s :
  wp aegis_process_exit (λ _ s',
    s' = set_res (add_kmem (- Z.of_nat (length (protected_procs (reg s)))) (res s))
           (set_reg (set_procs [] 0 (reg s)) s)) s.
Proof.
  unfold aegis_process_exit. do 3 wp_step. eapply wp_mono; [by apply process_free_run|].
  intros _ s' ->. by apply wp_modify.
Qed.

Lemma file_free_run l s :
  protected_files (reg s) = l →
  wp (file_free_all l) (λ _ s',
    s' = set_res (add_kmem (- Z.of_nat (length l)) (res s)) (set_reg (set_files [] (protected_file_count (reg s)) (reg s)) s)) s.
Proof.
  revert s. induction l as [|x l IH]; intros s Hl.
  { apply wp_ret. destruct s as [c [] v f [] k w h]. cbn in *. subst. unfold add_kmem. cbn.
    by rewrite Z.add_0_r. }
  cbn [file_free_all]. do 4 wp_step. eapply wp_mono; [by apply IH|]. intros _ s' ->.
  destruct s as [c [] v f [] k w h]. unfold add_kmem, set_res, set_reg. cbn.
  f_equal. f_equal. lia.
Qed.

Lemma aegis_file_exit_run s :
  wp aegis_file_exit (λ _ s',
    s' = set_res (add_kmem (- Z.of_nat (length (protected_files (reg s)))) (res s))
           (set_reg (set_files [] 0 (reg s)) s)) s.
Proof.
  unfold aegis_file_exit. do 3 wp_step. eapply wp_mono; [by apply file_free_run|].
  intros _ s' ->. by apply wp_modify.
Qed.

Lemma audit_free_run l s :
  blocked_syscalls (reg s) = l →
  wp (audit_free_all l) (λ _ s',
    s' = set_res (add_kmem (- Z.of_nat (length l)) (res s)) (set_reg (set_syscalls [] (blocked_syscall_count (reg s)) (reg s)) s)) s.
Proof.
  revert s. induction l as [|x l IH]; intros s Hl.
  { apply wp_ret. destruct s as [c [] v f [] k w h]. cbn in *. subst. unfold add_kmem. cbn.
    by rewrite Z.add_0_r. }
  cbn [audit_free_all]. do 4 wp_step. eapply wp_mono; [by apply IH|]. intros _ s' ->.
  destruct s as [c [] v f [] k w h]. unfold add_kmem, set_res, set_reg. cbn.
  f_equal. f_equal. lia.
Qed.

Lemma aegis_audit_exit_run s :
  wp aegis_audit_exit (λ _ s',
    s' = set_res (add_kmem (- Z.of_nat (length (blocked_syscalls (reg s)))) (res s))
           (set_reg (set_syscalls [] 0 (reg s)) s)) s.
Proof.
  unfold aegis_audit_exit. do 3 wp_step. eapply wp_mono; [by apply audit_free_run|].
  intros _ s' ->. by apply wp_modify.
Qed.

(** The lists give back every block they hold. *)
Lemma list_exits_release fuel s :
  reach fuel s →
  ∃ s', (aegis_process_exit;; aegis_file_exit;; aegis_audit_exit) s = Some (tt, s') ∧
    reg s' = registries_init ∧ res s' = mkRes 0 0 0 0 0 ∧
    cfg s' = cfg s ∧ vars s' = vars s ∧ sfs s' = sfs s.
Proof.
  intros Hr. pose proof (inv_kmem _ _ (reach_inv fuel s Hr)) as Hk.
  assert (wp (aegis_process_exit;; aegis_file_exit;; aegis_audit_exit) (λ r s', r = tt ∧
    reg s' = registries_init ∧ res s' = mkRes 0 0 0 0 0 ∧
    cfg s' = cfg s ∧ vars s' = vars s ∧ sfs s' = sfs s) s) as H.
  { wp_step. eapply wp_mono; [apply aegis_process_exit_run|]. intros _ s1 ->.
    wp_step. eapply wp_mono; [apply aegis_file_exit_run|]. intros _ s2 ->.
    eapply wp_mono; [apply aegis_audit_exit_run|]. intros [] s3 ->.
    split; [done|]. split; [done|]. split; [|done]. cbn. rewrite Hk. unfold add_kmem, entries_total. cbn.
    f_equal. lia. }
  apply wp_total in H as ([] & s' & H1 & _ & H2). eauto.
Qed.

(** C25: the exit routines release everything: those of the three lists give back
    every block the lists hold and leave the lists as before boot, and the removal
    of the tree leaves no entry alive and no dangling pointer, the directory going
    after everything it contains. *)
Theorem exits_release_everything fuel s :
  reach fuel s →
  (∃ s', (aegis_process_exit;; aegis_file_exit;; aegis_audit_exit) s = Some (tt, s') ∧
     reg s' = registries_init ∧ res s' = mkRes 0 0 0 0 0 ∧
     cfg s' = cfg s ∧ vars s' = vars s ∧ sfs s' = sfs s) ∧
  (∃ s', aegis_securityfs_exit s = Some (tt, s') ∧ sf_live (sfs s') = [] ∧ all_null (sfs s') ∧
     (tree_ok (sfs s) → ∀ dir, aegis_dir (sfs s) = D_PTR dir →
        ∃ before, sf_removed (sfs s') = sf_removed (sfs s) ++ before ++ [dir])).
Proof.
  intros Hr. split; [by apply (list_exits_release fuel)|by apply (securityfs_exit_clean fuel)].
Qed.

End system_theorems.

(** ** Instances *)

Lemma reachable_states_invariant_witness : sys_inv 0 s_denied.
Proof. apply (reachable_states_invariant 20). exact s_denied_reach. Defined.

Lemma boot_establishes_defaults_witness :
  ∃ rc s, aegis_init (sys0 world0) = Some (rc, s) ∧ hooks s = registered_hooks ∧
    proc_abs s = default_procs ∧ syscall_abs s = default_syscalls.
Proof.
  destruct (boot_establishes_defaults (K := ref_kernel) world0)
    as (rc & s & H1 & _ & _ & H2 & _ & _ & _ & _ & H3).
  exists rc, s. split; [exact H1|]. split; [exact H2|]. apply H3. intros w. reflexivity.
Defined.

Definition add_shadow : event := control_write 0 "/etc/shadow".

Lemma policy_change_needs_admin_witness :
  reg (state_of (run_event 20 add_shadow) s_boot) ≠ reg s_boot ∧
  capable_mac_admin (world s_boot) = true ∧ ∃ i ubuf len, add_shadow = Ev_control i ubuf len.
Proof.
  assert (reg (state_of (run_event 20 add_shadow) s_boot) ≠ reg s_boot) as Hne.
  { intros H. apply (f_equal protected_file_count) in H. vm_compute in H. discriminate H. }
  split; [exact Hne|].
  refine (proj1 (policy_change_needs_admin 20 s_boot add_shadow 12 _ (s_boot_reach 20) _) Hne).
  exact (run_ends (run_event 20 add_shadow) s_boot 12 eq_refl).
Defined.

Definition io_of (text : string) : ctl_io := mkIo (str text) (Z.of_nat (length (str text))) 0.

Lemma sysctl_switch_effect_witness :
  (∃ s', run_event 20 (Ev_sysctl 3 true (io_of "0")) s_file = Some (0, s') ∧
     file_integrity_enforce (cfg s') = false ∧ reg s' = reg s_file) ∧
  (∃ s', run_event 20 (Ev_sysctl 1 true (io_of "-2")) s_file = Some (0, s') ∧
     AEGIS_FEATURE_CHECK (cfg s') AEGIS_FEATURE_PROCESS_PROTECT = false).
Proof.
  split.
  - destruct (proj1 (sysctl_switch_effect 20 (io_of "0") s_file) sw_file_integrity_enforce true 0 0)
      as (s' & H1 & H2 & _ & _ & _ & H3); [by vm_compute|].
    exists s'. split; [exact H1|]. split; [|exact H2].
    pose proof (H3 sw_file_integrity_enforce) as H4. by rewrite decide_True in H4.
  - destruct (proj2 (sysctl_switch_effect 20 (io_of "-2") s_file) (-2))
      as (s' & H1 & _ & _ & _ & H2); [by vm_compute|].
    exists s'. split; [exact H1|]. unfold AEGIS_FEATURE_PROCESS_PROTECT. rewrite H2 by lia.
    by vm_compute.
Defined.

Lemma securityfs_all_or_nothing_witness :
  ∃ rc s', aegis_securityfs_late_init s_boot = Some (rc, s') ∧
    cfg s' = cfg s_boot ∧ reg s' = reg s_boot ∧ vars s' = vars s_boot ∧
    ((rc = 0 ∧ tree_ok (sfs s') ∧ ∀ fuel, tree_serves fuel (sfs s')) ∨ (rc < 0 ∧ sf_live (sfs s') = [] ∧ all_null (sfs s'))).
Proof. apply securityfs_all_or_nothing. reflexivity. Defined.

Lemma exits_release_everything_witness :
  (∃ s', (aegis_process_exit;; aegis_file_exit;; aegis_audit_exit) s_tree = Some (tt, s') ∧
     reg s' = registries_init) ∧
  (∃ s', aegis_securityfs_exit s_tree = Some (tt, s') ∧ sf_live (sfs s') = []).
Proof.
  destruct (exits_release_everything 20 s_tree s_tree_reach) as [(s1 & H1 & H2 & _) (s2 & H3 & H4 & _)].
  exact (conj (ex_intro _ s1 (conj H1 H2)) (ex_intro _ s2 (conj H3 H4))).
Defined.
