(* ===== verification/Types.v ===== *)
(** * C types of the module's state

    The model keeps integers in [Z] and arrays in lists.  Here every field of
    the state is shown to stay in the range of its C type: counts, pids, system
    call numbers and sysctl variables are ints, feature masks are 32 bits wide,
    the counters are 64-bit, names and paths are terminated within their arrays
    and digests fill theirs. *)

From S2P Require Import Prelude CString AegisH Kernel State RefKernel PolicyList.
From S2P Require Import Process FileHash File SyscallList Lsm Sysctl Control Securityfs System Scenario.

Definition is_int (z : Z) : Prop := INT_MIN <= z <= INT_MAX.
Definition is_s64 (z : Z) : Prop := - 2 ^ 63 <= z < 2 ^ 63.

#[export] Instance is_int_dec z : Decision (is_int z).
Proof. unfold is_int. apply _. Defined.

(** struct aegis_protected_proc, struct aegis_protected_file,
    struct aegis_blocked_syscall. *)
Definition proc_typed (e : aegis_protected_proc) : Prop :=
  carray AEGIS_COMM_LEN (pp_comm e) ∧ is_int (pp_pid e) ∧ word (cstr (pp_comm e)).
Definition file_typed (e : aegis_protected_file) : Prop :=
  carray AEGIS_PATH_LEN (pf_path e) ∧ length (pf_hash e) = AEGIS_HASH_SIZE.
Definition syscall_typed (e : aegis_blocked_syscall) : Prop := is_int (bs_syscall_nr e).

Record reg_typed (r : registries) : Prop := {
  rt_procs : Forall proc_typed (protected_procs r);
  rt_files : Forall file_typed (protected_files r);
  rt_syscalls : Forall syscall_typed (blocked_syscalls r);
}.

Definition counts_typed (r : registries) : Prop :=
  is_int (protected_proc_count r) ∧ is_int (protected_file_count r) ∧
  is_int (blocked_syscall_count r).

Definition vars_typed (v : sysctl_vars) : Prop :=
  (∀ k, is_int (var_get k v)) ∧ is_int (aegis_features_val v).

Definition cfg_typed (c : aegis_config) : Prop :=
  0 <= features c < 2 ^ 32 ∧ ∀ k, is_s64 (stat_get k c).

(** ** Preservation *)

Section types.
Context `{K : Kernel}.

(** The parts of the state that operations change independently. *)
Definition parts_typed (s : sys) : Prop :=
  reg_typed (reg s) ∧ vars_typed (vars s) ∧ ∀ k, is_s64 (stat_get k (cfg s)).

Lemma bump_typed ks c : (∀ k, is_s64 (stat_get k c)) → ∀ k, is_s64 (stat_get k (bump ks c)).
Proof.
  revert c. induction ks as [|k ks IH]; intros c Hc; [done|]. apply IH. intros k'.
  rewrite stat_get_inc. case_decide; [|done]. apply (wrap_s_range 64). lia.
Qed.

Lemma parts_typed_same s s' :
  reg s' = reg s → vars s' = vars s → (∀ k, stat_get k (cfg s') = stat_get k (cfg s)) →
  parts_typed s → parts_typed s'.
Proof. intros Hr Hv Hc (H1 & H2 & H3). unfold parts_typed. rewrite Hr, Hv. by setoid_rewrite Hc. Qed.

(** A list operation: the rest is kept, and the lists stay typed. *)
Lemma parts_typed_reg s s' : keeps s s' → reg_typed (reg s') → parts_typed s → parts_typed s'.
Proof.
  intros (Hc & Hv & _) Hr (_ & H2 & H3). unfold parts_typed. by rewrite Hc, Hv.
Qed.

Lemma remove_first_typed {A} (P : A → Prop) (f : A → bool) (l l' : list A) :
  remove_first f l = Some l' → Forall P l → Forall P l'.
Proof.
  revert l'. induction l as [|x l IH]; intros l'; cbn; [done|].
  destruct (f x); [intros [= <-]; by intros [_ ?]%Forall_cons|].
  destruct (remove_first f l) as [l1|]; cbn; [|done]. intros [= <-] [Hx Hl]%Forall_cons.
  constructor; auto.
Qed.

Section ops.
Context `{WL : !WidthLaws} `{UL : !UninitLaws}.

Lemma process_add_typed comm pid s :
  is_int pid → proc_valid (comm, pid) → word comm → parts_typed s →
  wp (aegis_protect_process_add (Some comm) pid) (λ _ s', parts_typed s') s.
Proof.
  intros Hp Hv Hw Ht. apply (wp_mono _ _ _ _ _ (process_add_spec comm pid s)).
  intros rc s' (Hk & _ & Hr). apply (parts_typed_reg s); [done| |done]. destruct Ht as [[H1 H2 H3] _].
  destruct (rc =? 0); destruct Hr as [_ ->]; [|done]. split; [|done..]. cbn.
  apply Forall_app. split; [done|]. constructor; [|constructor].
  split; [apply new_proc_wf|]. split; [done|].
  change (word (proc_key (new_proc comm pid)).1). by rewrite new_proc_key.
Qed.

Lemma process_del_typed comm pid s :
  parts_typed s → wp (aegis_protect_process_del (Some comm) pid) (λ _ s', parts_typed s') s.
Proof.
  intros Ht. apply (wp_mono _ _ _ _ _ (process_del_spec comm pid s)).
  intros rc s' (Hk & Ho & Hr). apply (parts_typed_reg s); [done| |done]. destruct Ht as [[H1 H2 H3] _].
  unfold del_outcome in Ho. cbn in Ho.
  destruct (remove_first _ _) as [l|] eqn:R; destruct Ho as (-> & He & _).
  - destruct Hr as [_ ->]. split; [|done..]. cbn. rewrite He. by eapply remove_first_typed.
  - by destruct Hr as [_ ->].
Qed.

Lemma hash_loop_typed fuel f desc pos out s :
  length out = AEGIS_HASH_SIZE →
  wlp (hash_loop fuel f desc pos out) (λ r _, length r.2 = AEGIS_HASH_SIZE) s.
Proof.
  intros Hout. revert desc pos s. induction fuel as [|fuel IH]; intros desc pos s; [done|].
  cbn [hash_loop]. apply wp_bind, wp_kcall. intros [[err|[|c buf]] pos'] w _; cbn [fst snd].
  - by apply wp_ret.
  - apply wp_kcall. intros r w' Er.
    pose proof (shash_final_length desc (world (set_world w s))) as H. by rewrite Er in H.
  - apply wp_bind, wp_kcall. intros [rc desc'] w' _. cbn [fst snd].
    destruct (rc =? 0); [apply IH|by apply wp_ret].
Qed.

Lemma initial_hash_typed fuel path s :
  wlp (file_initial_hash fuel path)
      (λ r s', holds (res s) s s' ∧ length r.1 = AEGIS_HASH_SIZE) s.
Proof.
  assert (length (uninit AEGIS_HASH_SIZE) = AEGIS_HASH_SIZE) as Hu by apply uninit_length.
  apply wp_and; [apply file_initial_hash_holds|].
  unfold file_initial_hash. apply wp_bind, wp_kcall. intros [e|fp] w _; [by apply wp_ret|].
  apply wp_bind, wp_upd_res, wp_bind, wp_kcall. intros [e|f] w1 _; apply wp_bind, wp_upd_res.
  { by apply wp_ret. }
  apply wp_bind, wp_upd_res, wp_bind. eapply wp_mono.
  { apply (compute_file_hash_frame _ _ _ _ _ (λ r, length r.2 = AEGIS_HASH_SIZE)); [done|].
    intros w' s' _. apply wp_and; [apply hash_loop_world|by apply hash_loop_typed]. }
  intros h s' [_ Hh]. apply wp_bind, wp_upd_res. by apply wp_ret.
Qed.

Lemma file_add_typed fuel path s :
  parts_typed s → wlp (aegis_protected_file_add fuel (Some path)) (λ _ s', parts_typed s') s.
Proof.
  intros Ht. eapply wp_mono.
  { apply (file_add_spec_gen _ (λ r, length r.1 = AEGIS_HASH_SIZE)). intros s'. apply initial_hash_typed. }
  intros rc s' (Hk & e & He & Hh & _ & Hr). apply (parts_typed_reg s); [done| |done].
  destruct Ht as [[H1 H2 H3] _].
  destruct (Z.eqb_spec rc 0) as [->|]; destruct Hr as [_ ->]; [|done]. split; [done| |done]. cbn.
  apply Forall_app. split; [done|]. constructor; [|constructor]. split; [|by apply Hh].
  rewrite He. apply new_path_wf.
Qed.

Lemma file_del_typed path s :
  parts_typed s → wp (aegis_protected_file_del (Some path)) (λ _ s', parts_typed s') s.
Proof.
  intros Ht. apply (wp_mono _ _ _ _ _ (file_del_spec path s)).
  intros rc s' (Hk & Ho & Hr). apply (parts_typed_reg s); [done| |done]. destruct Ht as [[H1 H2 H3] _].
  unfold del_outcome in Ho. cbn in Ho.
  destruct (remove_first _ _) as [l|] eqn:R; destruct Ho as (-> & He & _).
  - destruct Hr as [_ ->]. split; [done| |done]. cbn. rewrite He. by eapply remove_first_typed.
  - by destruct Hr as [_ ->].
Qed.

Lemma syscall_add_typed nr s :
  0 <= nr → is_int nr → parts_typed s →
  wp (aegis_syscall_block_add nr) (λ _ s', parts_typed s') s.
Proof.
  intros Hn Hi Ht. apply (wp_mono _ _ _ _ _ (syscall_add_spec nr s Hn)).
  intros rc s' (Hk & _ & Hr). apply (parts_typed_reg s); [done| |done]. destruct Ht as [[H1 H2 H3] _].
  destruct (rc =? 0); destruct Hr as [_ ->]; [|done]. split; [done..|]. cbn.
  apply Forall_app. split; [done|]. by constructor.
Qed.

Lemma syscall_del_typed nr s :
  parts_typed s → wp (aegis_syscall_block_del nr) (λ _ s', parts_typed s') s.
Proof.
  intros Ht. apply (wp_mono _ _ _ _ _ (syscall_del_spec nr s)).
  intros rc s' (Hk & Ho & Hr). apply (parts_typed_reg s); [done| |done]. destruct Ht as [[H1 H2 H3] _].
  unfold del_outcome in Ho. cbn in Ho.
  destruct (remove_first _ _) as [l|] eqn:R; destruct Ho as (-> & He & _).
  - destruct Hr as [_ ->]. split; [done..|]. cbn. rewrite He. by eapply remove_first_typed.
  - by destruct Hr as [_ ->].
Qed.

(** ** Entry points *)

Context `{SL : !ScanLaws} `{KL : !KstrtoLaws} `{YL : !SysctlLaws} `{FL : !SecfsLaws} `{NL : !NrLaws}.

Lemma write_op_typed d ubuf len op s :
  parts_typed s →
  (∀ m s1, parts_typed s1 → wpx d (op (Some m)) (λ _ s2, parts_typed s2) s1) →
  wpx d (aectl_write_op ubuf len op) (λ _ s', parts_typed s') s.
Proof.
  intros Ht Hop. apply wp_write_op; try done. intros _ _ w _. cbn zeta.
  destruct (input_of _ _ _) as [e|[|c t]]; [done..|].
  intros m _. eapply wp_mono; [by apply Hop|]. by intros rc s2 H2.
Qed.

Lemma control_typed fuel s i h ubuf len :
  aectl_handlers fuel !! i = Some h → parts_typed s →
  wlp (h.2 ubuf len) (λ _ s', parts_typed s') s.
Proof.
  intros Hh Ht.
  destruct i as [|[|[|[|[|[|i]]]]]]; [injection Hh as <-; cbn [snd]..|discriminate Hh].
  - apply write_op_typed; [done|]. intros m s1. apply file_add_typed.
  - apply write_op_typed; [done|]. intros m s1 H1. by apply wp_weaken, file_del_typed.
  - apply wp_weaken, (procs_write_inv parts_typed); [|done]. intros text comm pid Hv Hw ->.
    apply process_add_typed; [|done..].
    destruct (sc_pid (sscanf_s15_d text)) as [n|] eqn:E; [by apply (sscanf_int text)|by vm_compute].
  - apply wp_weaken, (procs_write_inv parts_typed); [|done]. intros _ comm pid _ _ _.
    by apply process_del_typed.
  - apply wp_weaken, (syscalls_write_inv parts_typed); [|done]. intros text nr Hn Hp.
    apply syscall_add_typed; [done| |done]. by apply (kstrtoint_int text).
  - apply wp_weaken, (syscalls_write_inv parts_typed); [|done]. intros _ nr _ _.
    by apply syscall_del_typed.
Qed.

Lemma dointvec_typed v b io w : is_int v → is_int (proc_dointvec v b io w).1.2.
Proof. apply dointvec_int. Qed.

Lemma switch_typed k write io s rc s' :
  switch_post k write io s rc s' → parts_typed s → parts_typed s'.
Proof.
  intros (_ & Hv & (Hr & _ & _ & _ & Hst) & _) (H1 & [H2 H3] & H4). unfold parts_typed.
  rewrite Hr, Hv. split; [done|]. split; [|intros k'; by rewrite Hst]. split; [|done].
  intros k'. rewrite var_get_set. case_decide; [|done]. apply dointvec_typed, H2.
Qed.

Lemma sysctl_typed s i h write io :
  aegis_sysctl_table !! i = Some h → parts_typed s →
  wp (sysctl_access h write io) (λ _ s', parts_typed s') s.
Proof.
  intros Hh Ht.
  destruct i as [|[|[|[|[|[|[|i]]]]]]]; [injection Hh as <-; unfold sysctl_access; cbn [proc_handler data]..|discriminate Hh].
  2: { eapply wp_mono; [apply proc_features_spec|].
       intros rc s' (_ & Hv & (Hr & _ & _ & _ & Hst) & _). destruct Ht as (H1 & [H2 H3] & H4).
       unfold parts_typed. rewrite Hr, Hv. split; [done|]. split; [|intros k; by rewrite Hst].
       split; [|by apply dointvec_typed]. intros k. specialize (H2 k). by destruct k. }
  1: eapply wp_mono; [apply proc_enable_spec|]; intros rc s' H; by eapply switch_typed.
  all: eapply wp_mono; [apply bool_handler_spec|]; intros rc s' H; by eapply switch_typed.
Qed.

Lemma event_typed fuel s e :
  sys_inv 0 s → parts_typed s → wlp (run_event fuel e) (λ _ s', parts_typed s') s.
Proof.
  intros Hi Ht. destruct (is_hook e) eqn:He.
  { apply wp_weaken. eapply wp_mono; [by eapply hook_implements|].
    intros rc s' (_ & Hc & _ & Hr & Hv & _). destruct Ht as (H1 & H2 & H3).
    unfold parts_typed. rewrite Hc, Hr, Hv. split; [done|]. split; [done|]. by apply bump_typed. }
  destruct e; try discriminate He; cbn [run_event].
  - destruct (aectl_handlers fuel !! i) eqn:E; [by eapply control_typed|by apply wp_ret].
  - destruct (aegis_sysctl_table !! i) eqn:E; [by eapply wp_weaken, sysctl_typed|by apply wp_ret].
Qed.

Lemma boot_typed rc s : booted rc s → parts_typed s.
Proof.
  intros [Hi _ Hc (b & n & Hv) _ _ Hf Hp Hq _]. split; [|split].
  - split.
    + apply Forall_forall. intros e He. destruct (inv_procs _ _ Hi) as (_ & _ & Hw & _).
      rewrite Forall_forall in Hw. split; [by apply Hw|].
      assert (proc_key e ∈ default_procs) as Hd.
      { eapply elem_of_sublist; [|exact Hp]. by apply list_elem_of_fmap_2. }
      clear -Hd. unfold proc_key in Hd.
      repeat (apply elem_of_cons in Hd as [[= -> ->]|Hd];
        [split; [by vm_compute|by eapply bool_decide_eq_true_1]|]).
      by apply elem_of_nil in Hd.
    + apply fmap_nil_inv in Hf. cbn in Hf. by rewrite Hf.
    + apply Forall_forall. intros e He.
      assert (bs_syscall_nr e ∈ default_syscalls) as Hd.
      { eapply elem_of_sublist; [|exact Hq]. by apply list_elem_of_fmap_2. }
      pose proof nr_range as Hr. rewrite Forall_forall in Hr. specialize (Hr _ Hd).
      unfold syscall_typed, is_int, INT_MIN. lia.
  - rewrite Hv. split; [intros []|]; by vm_compute.
  - rewrite Hc. intros []; by vm_compute.
Qed.

Lemma reach_typed fuel s : reach fuel s → parts_typed s.
Proof.
  induction 1 as [w rc s Hr|s e rc s' Hs IH Hr|s rc s' Hs IH Hf Hr|s w _ IH].
  - by eapply boot_typed, (wp_eq _ _ _ _ _ _ Hr (aegis_init_boots w)).
  - by apply (wp_eq _ _ _ _ _ _ Hr (event_typed fuel s e (reach_inv fuel s Hs) IH)).
  - assert (wp aegis_securityfs_late_init (λ _ s', parts_typed s') s) as Hw.
    { unfold aegis_securityfs_late_init. wp_step. eapply wp_mono; [by apply securityfs_init_spec|].
      intros rc1 s1 (Hc & Hg & Hv & _).
      assert (parts_typed s1) by (by apply (parts_typed_same s); [..|intros k; rewrite Hc|]).
      wp_step. destruct (negb _); by wp_go. }
    by apply (wp_eq _ _ _ _ _ _ Hr Hw).
  - exact IH.
Qed.

Lemma reachable_typed fuel s :
  reach fuel s →
  reg_typed (reg s) ∧ counts_typed (reg s) ∧ vars_typed (vars s) ∧ cfg_typed (cfg s).
Proof.
  intros Hr. pose proof (reach_inv fuel s Hr) as Hi.
  destruct (reach_typed fuel s Hr) as (H1 & H2 & H3).
  assert (∀ E Key (PL : PolicyList E Key), pl_cap <= INT_MAX → pl_inv s → is_int (pl_count s)) as Hc.
  { intros E Key PL Hcap (Hn & [_ Hl] & _). unfold pl_abs in Hl. rewrite length_fmap in Hl.
    unfold is_int, INT_MIN. lia. }
  split; [done|]. split; [|split; [done|]].
  - split; [|split].
    + refine (Hc _ _ proc_list _ (inv_procs _ _ Hi)). by apply Z.leb_le.
    + refine (Hc _ _ file_list _ (inv_files _ _ Hi)). by apply Z.leb_le.
    + refine (Hc _ _ syscall_list _ (inv_syscalls _ _ Hi)). by apply Z.leb_le.
  - split; [|done]. destruct (inv_sync _ _ Hi) as [_ ->]. apply Z.mod_pos_bound. lia.
Qed.

(** C9: in every reachable state every field holds a value of its C type: the
    counts, pids, system call numbers and sysctl variables are ints, the feature
    mask has 32 bits, the counters 64, names and paths are terminated within
    their arrays, and digests have their size. *)
Theorem reachable_states_typed fuel s :
  reach fuel s →
  reg_typed (reg s) ∧ counts_typed (reg s) ∧ vars_typed (vars s) ∧ cfg_typed (cfg s).
Proof. apply reachable_typed. Qed.

End ops.
End types.

Lemma reachable_states_typed_witness :
  reg_typed (reg s_denied) ∧ counts_typed (reg s_denied) ∧ vars_typed (vars s_denied) ∧
  cfg_typed (cfg s_denied).
Proof. exact (reachable_states_typed 20 s_denied s_denied_reach). Defined.
