(* ===== verification/TextSizes.v ===== *)
(** * Sizes of the texts of the read files

    How long the text of each securityfs read file can get in a reachable state,
    for readers with a fixed buffer. *)

From S2P Require Import Prelude CString AegisH Kernel State RefKernel PolicyList.
From S2P Require Import Process FileHash File SyscallList Lsm Sysctl Control Securityfs System Scenario.
From S2P Require Import Types.

(** At most [k] bytes, none of them NUL. *)
Definition plain (k : nat) (s : bytes) : Prop := (length s <= k)%nat ∧ no_nul s.

#[global] Instance plain_dec k s : Decision (plain k s).
Proof. unfold plain. apply _. Defined.

Lemma plain_le k k' s : plain k s → (k <= k')%nat → plain k' s.
Proof. intros [H1 H2] Hk. split; [lia|done]. Qed.

Lemma plain_app k1 k2 s1 s2 : plain k1 s1 → plain k2 s2 → plain (k1 + k2) (s1 ++ s2).
Proof. intros [H1 N1] [H2 N2]. split; [rewrite length_app; lia|by apply Forall_app]. Qed.

Lemma plain_str s : no_nul (str s) → plain (length (str s)) (str s).
Proof. by split. Qed.

Lemma plain_if k1 k2 (b : bool) s1 s2 :
  plain k1 s1 → plain k2 s2 → plain (k1 + k2) (if b then s1 else s2).
Proof. intros H1 H2. destruct b; eapply plain_le; (done || lia). Qed.

Lemma plain_on_off b : plain 3 (on_off b).
Proof. destruct b; by eapply bool_decide_eq_true_1. Qed.

Lemma plain_concat k ls : Forall (plain k) ls → plain (k * length ls) (concat ls).
Proof.
  induction 1 as [|s ls Hs _ IH]; [split; [cbn; lia|constructor]|].
  eapply plain_le; [by apply plain_app|]. cbn. lia.
Qed.

Lemma plain_pad_left c w k s : c ≠ NUL → plain k s → plain (Nat.max w k) (pad_left c w s).
Proof.
  intros Hc [H N]. unfold pad_left. split; [rewrite length_app, length_replicate; lia|].
  apply Forall_app. split; [by apply Forall_replicate|done].
Qed.

Lemma plain_pad_right w k s : plain k s → plain (Nat.max w k) (pad_right w s).
Proof.
  intros [H N]. unfold pad_right. split; [rewrite length_app, length_replicate; lia|].
  apply Forall_app. split; [done|by apply Forall_replicate].
Qed.

(** A sign and the digits. *)
Lemma plain_fmt_d k n : (1 <= k)%nat → Z.abs n < 10 ^ Z.of_nat k → plain (S k) (fmt_d n).
Proof.
  intros Hk Hn. assert (∀ m, 0 <= m < 10 ^ Z.of_nat k → plain k (digits 10 m)) as H.
  { intros m Hm. split; [apply digits_fuel_length; lia|apply digits_fuel_no_nul; lia]. }
  unfold fmt_d. destruct (Z.ltb_spec n 0) as [Hneg|Hpos].
  - destruct (H (- n)) as [Hl Hnn]; [lia|]. split; [cbn; lia|by constructor].
  - eapply plain_le; [apply H|]; lia.
Qed.

Lemma plain_int n : is_int n → plain 11 (fmt_d n).
Proof. intros Hn. apply (plain_fmt_d 10); [lia|]. unfold is_int, INT_MIN, INT_MAX in Hn. cbn. lia. Qed.

Lemma plain_s64 n : is_s64 n → plain 20 (fmt_d n).
Proof. intros Hn. apply (plain_fmt_d 19); [lia|]. unfold is_s64 in Hn. cbn. lia. Qed.

(** Literals are checked by evaluation. *)
Ltac plain_steps :=
  repeat first
    [ eassumption
    | apply plain_on_off
    | apply plain_pad_left; [discriminate|]
    | apply plain_pad_right
    | apply plain_str; by eapply bool_decide_eq_true_1
    | apply plain_if
    | apply plain_app
    | by split; [|eapply bool_decide_eq_true_1] ].

(** The status text fits the kilobyte buffer of its reader. *)
Lemma status_text_fits c :
  0 <= features c < 2 ^ 32 → plain 1023 (aegis_status_show c []).
Proof.
  intros Hf. assert (plain 8 (fmt_08x (features c))) as H8.
  { split; [by rewrite fmt_08x_length|apply fmt_08x_no_nul, Hf]. }
  assert (plain 0 []) as H0 by (split; [done|constructor]).
  assert (plain 1 [LF]) as H1 by by eapply bool_decide_eq_true_1.
  assert (plain 8 AEGIS_VERSION) as HV by by eapply bool_decide_eq_true_1.
  eapply plain_le; [unfold aegis_status_show; plain_steps|]. vm_compute. lia.
Qed.


Ltac plain_text := eapply plain_le; [plain_steps|vm_compute; lia].

Section texts.
Context `{K : Kernel}.

Lemma stats_text_fits c : cfg_typed c → plain 4095 (aegis_stats_show c []).
Proof.
  intros [_ Hc].
  assert (plain 0 []) as H0 by (split; [done|constructor]).
  assert (plain 1 [LF]) as H1 by by eapply bool_decide_eq_true_1.
  pose proof (plain_s64 _ (Hc st_ptrace_blocked)). pose proof (plain_s64 _ (Hc st_file_violations)).
  pose proof (plain_s64 _ (Hc st_syscall_violations)).
  pose proof (plain_s64 _ (Hc st_module_violations)). pose proof (plain_s64 _ (Hc st_total_events)).
  unfold aegis_stats_show. plain_text.
Qed.

Lemma proc_line_fits e : proc_typed e → plain 33 (proc_line e).
Proof.
  intros [[_ Hc] [Hp _]]. pose proof (plain_int _ Hp). unfold AEGIS_COMM_LEN in Hc.
  assert (plain 16 (cstr (pp_comm e))) by (split; [lia|apply cstr_no_nul]).
  assert (plain 1 [LF]) as H1 by by eapply bool_decide_eq_true_1.
  unfold proc_line. plain_text.
Qed.

Lemma syscall_line_fits e : syscall_typed e → plain 12 (syscall_line e).
Proof.
  intros Hp. pose proof (plain_int _ Hp).
  assert (plain 1 [LF]) as H1 by by eapply bool_decide_eq_true_1.
  unfold syscall_line. plain_text.
Qed.

Lemma byte_hex_fits c : plain 2 (fmt_02x c).
Proof.
  assert (0 <= byte_val c < 256) as Hc.
  { unfold byte_val. pose proof (N_ascii_bounded c). lia. }
  assert (plain 2 (fmt_x (byte_val c))) as H.
  { split; [apply digits_fuel_length; cbn; lia|apply digits_fuel_no_nul; lia]. }
  by apply (plain_pad_left "0" 2 2).
Qed.

Lemma file_line_fits e : file_typed e → plain 321 (file_line e).
Proof.
  intros [[_ Hp] Hh]. unfold AEGIS_PATH_LEN in Hp.
  assert (plain 255 (cstr (pf_path e))) by (split; [lia|apply cstr_no_nul]).
  assert (plain 1 [LF]) as H1 by by eapply bool_decide_eq_true_1.
  assert (plain 64 (hash_str e)).
  { unfold hash_str. destruct (pf_hash_valid e); [|by eapply bool_decide_eq_true_1].
    eapply plain_le.
    - apply (plain_concat 2), Forall_fmap, Forall_true. intros c. apply byte_hex_fits.
    - rewrite length_fmap, length_take, Hh. cbn. lia. }
  unfold file_line. plain_text.
Qed.

Lemma lines_fit {E} (line : E → bytes) (P : E → Prop) k n (l : list E) :
  (∀ e, P e → plain k (line e)) → Forall P l → (length l <= n)%nat →
  plain (k * n) (concat (line <$> l)).
Proof.
  intros Hk Hl Hn. eapply plain_le.
  - apply (plain_concat k), Forall_fmap. eapply Forall_impl; [exact Hl|exact Hk].
  - rewrite length_fmap. apply Nat.mul_le_mono_l, Hn.
Qed.

(** The buffer of aegisctl holds the text of every read file of a reachable
    state, save for the list of files, which is sure to fit with twelve entries. *)
Lemma read_file_fits `{UL : !UninitLaws} `{SL : !ScanLaws} `{YL : !SysctlLaws} `{FL : !SecfsLaws}
    `{NL : !NrLaws} `{WL : !WidthLaws} `{KL : !KstrtoLaws} fuel s i name show :
  reach fuel s → aegis_read_files !! i = Some (name, show) →
  i ≠ 3%nat ∨ (length (protected_files (reg s)) <= 12)%nat → plain 4095 (show s).
Proof.
  intros Hr Hi Hn. pose proof (reach_inv fuel s Hr) as Hinv.
  destruct (reachable_typed fuel s Hr) as ([Tp Tf Tq] & (Cp & Cf & Cq) & _ & Hc).
  assert (plain 0 []) as H0 by (split; [done|constructor]).
  assert (plain 1 [LF]) as H1 by by eapply bool_decide_eq_true_1.
  pose proof (plain_int _ Cp). pose proof (plain_int _ Cf). pose proof (plain_int _ Cq).
  destruct i as [|[|[|[|[|i]]]]]; [injection Hi as <- <-..|discriminate Hi].
  - eapply plain_le; [apply status_text_fits, Hc|lia].
  - by apply stats_text_fits.
  - destruct (inv_procs _ _ Hinv) as (_ & [_ Hl] & _). unfold pl_abs in Hl. rewrite length_fmap in Hl.
    assert (plain (33 * 64) (concat (proc_line <$> protected_procs (reg s)))).
    { eapply lines_fit; [apply proc_line_fits|done|]. apply Nat2Z.inj_le, Hl. }
    unfold aegis_protected_process_show. plain_text.
  - assert (plain (321 * 12) (concat (file_line <$> protected_files (reg s)))).
    { eapply lines_fit; [apply file_line_fits|done|]. by destruct Hn. }
    unfold aegis_protected_file_show. plain_text.
  - destruct (inv_syscalls _ _ Hinv) as (_ & [_ Hl] & _). unfold pl_abs in Hl. rewrite length_fmap in Hl.
    assert (plain (12 * 256) (concat (syscall_line <$> blocked_syscalls (reg s)))).
    { eapply lines_fit; [apply syscall_line_fits|done|]. apply Nat2Z.inj_le, Hl. }
    unfold aegis_blocked_syscall_show. plain_text.
Qed.

End texts.
