(* ===== verification/ControlTheorems.v ===== *)
(** * Theorems about the control endpoints

    What a write to an endpoint of aegis_control.c does: who may write, what
    the bounded buffer holds, which key a line of text stands for and what
    happens to the lists; and the full cycle of protecting a file, being denied
    a write and lifting the protection. *)

From S2P Require Import Prelude CString AegisH Kernel State RefKernel PolicyList.
From S2P Require Import Process FileHash File SyscallList Lsm Sysctl Control Securityfs System Scenario.

(** ** Lines of text *)

(** A non-empty string without NUL that does not end in a newline. *)
Definition line_ok (t : bytes) : Prop :=
  no_nul t ∧ ∃ t' c, t = t' ++ [c] ∧ is_newline c = false.

Lemma input_line t max :
  line_ok t → (S (length t) < max)%nat → input_of (t ++ [LF]) (S (length t)) max = inr t.
Proof.
  intros [Hn (t' & c & Ht & Hc)] Hl. unfold input_of. rewrite Nat.min_l by lia.
  rewrite length_app, Nat.add_1_r, Nat.ltb_irrefl.
  assert (length (t ++ [LF]) = S (length t)) as Hlen by (rewrite length_app; cbn; lia).
  rewrite <- Hlen, firstn_all, bool_decide_true.
  - rewrite trim_snoc. change (is_newline LF) with true. cbn iota. rewrite Ht. by rewrite trim_id.
  - apply no_nul_app. split; [done|]. by repeat constructor.
Qed.

(** The same text without the newline. *)
Lemma input_text t max :
  line_ok t → (length t < max)%nat → input_of t (length t) max = inr t.
Proof.
  intros [Hn (t' & c & Ht & Hc)] Hl. unfold input_of. rewrite Nat.min_l by lia.
  rewrite Nat.ltb_irrefl, firstn_all, bool_decide_true by done. rewrite Ht. by rewrite trim_id.
Qed.

Lemma line_ok_nonempty t : line_ok t → ∃ c t', t = c :: t'.
Proof. intros [_ (t' & c & -> & _)]. destruct t'; cbn; eauto. Qed.

Lemma digits_line_ok s c : Forall (λ c, isdigit c = true) (c :: s) → line_ok (c :: s).
Proof.
  intros H. split; [by apply digits_no_nul|].
  destruct (exists_last (l := c :: s) ltac:(done)) as (t' & d & E). exists t', d. split; [done|].
  rewrite E, Forall_app, Forall_singleton in H. destruct H as [_ Hd].
  unfold is_newline. rewrite !bool_decide_false; [done|..]; intros ->; discriminate.
Qed.

(** A name that fits: 1 to 15 characters, none of them blank or NUL. *)
Definition name_ok (w : bytes) : Prop :=
  Forall (λ c, isspace c = false ∧ c ≠ NUL) w ∧ (0 < length w <= 15)%nat.

Lemma word_prefix_app w rest :
  Forall (λ c, isspace c = false ∧ c ≠ NUL) w → word_prefix (w ++ rest) = w ++ word_prefix rest.
Proof. induction 1 as [|c w [Hc _] H IH]; [done|]. cbn. by rewrite Hc, IH. Qed.

Lemma isdigit_not_blank c : isdigit c = true → isspace c = false ∧ c ≠ NUL ∧ c ≠ "-"%char.
Proof.
  intros H. split; [|split; intros ->; discriminate].
  unfold isdigit, isspace in *. lia.
Qed.

Lemma scan_int_fmt_d n : 0 <= n → scan_int (fmt_d n) = Some n.
Proof.
  intros Hn. pose proof (fmt_d_digits n Hn) as Hd. pose proof (scan_fmt_d n Hn) as Hs.
  unfold scan_int. destruct (fmt_d n) as [|c s] eqn:E.
  { pose proof (fmt_d_length n) as Hl. rewrite E in Hl. cbn in Hl. lia. }
  apply Forall_cons in Hd as [(_ & _ & Hc)%isdigit_not_blank _]. by rewrite decide_False, Hs.
Qed.

Lemma skip_spaces_fmt_d n : 0 <= n → skip_spaces (fmt_d n) = fmt_d n.
Proof.
  intros Hn. pose proof (fmt_d_digits n Hn) as Hd. destruct (fmt_d n) as [|c s]; [done|].
  apply Forall_cons in Hd as [(Hc & _)%isdigit_not_blank _]. cbn. by rewrite Hc.
Qed.

(** The three readings of a line: name, blank and number; name alone; and a name
    of 15 characters with digits right behind it. *)
Lemma scan_name_pid w n :
  name_ok w → 0 <= n → scan_comm_pid (w ++ " "%char :: fmt_d n) = mkScan 2 w (Some n).
Proof.
  intros [Hw Hl] Hn. unfold scan_comm_pid, scan_word. rewrite word_prefix_app by done.
  cbn [word_prefix]. change (isspace " ") with true. cbn iota. rewrite app_nil_r, take_ge by lia.
  rewrite drop_app_length. cbn [skip_spaces]. change (isspace " ") with true. cbn iota.
  by rewrite skip_spaces_fmt_d, scan_int_fmt_d.
Qed.

Lemma scan_name w : name_ok w → scan_comm_pid w = mkScan 1 w None.
Proof.
  intros [Hw Hl]. pose proof (word_prefix_app w [] Hw) as Hp. rewrite !app_nil_r in Hp.
  unfold scan_comm_pid, scan_word. rewrite Hp, take_ge by lia. by rewrite drop_all.
Qed.

Lemma scan_name_digits w n :
  name_ok w → length w = 15%nat → 0 <= n → scan_comm_pid (w ++ fmt_d n) = mkScan 2 w (Some n).
Proof.
  intros [Hw _] Hl Hn. unfold scan_comm_pid, scan_word. rewrite word_prefix_app by done.
  rewrite take_app_le, take_ge by lia. rewrite drop_app_length.
  by rewrite skip_spaces_fmt_d, scan_int_fmt_d.
Qed.

Lemma name_in_range w rest r :
  name_ok w → scan_comm_pid (w ++ rest) = r →
  match sc_pid r with Some n => INT_MIN <= n <= INT_MAX | None => True end →
  scan_in_range (w ++ rest).
Proof.
  intros [Hw Hl] Hr Hn. split; [|by rewrite Hr]. destruct w as [|c w]; [cbn in Hl; lia|].
  by apply Forall_cons in Hw as [[Hc _] _].
Qed.

Lemma name_no_nul w : name_ok w → no_nul w.
Proof. intros [Hw _]. eapply Forall_impl; [exact Hw|]. by intros c []. Qed.

Lemma not_blank_not_newline c : isspace c = false → is_newline c = false.
Proof. intros H. unfold is_newline. rewrite !bool_decide_false; [done|..]; intros ->; discriminate. Qed.

(** A name followed by digits, or alone, is a line. *)
Lemma line_ok_snoc t c : no_nul t → isspace c = false → c ≠ NUL → line_ok (t ++ [c]).
Proof.
  intros Ht Hc Hn. split; [|exists t, c; by split; [|apply not_blank_not_newline]].
  apply no_nul_app. split; [done|]. by repeat constructor.
Qed.

Lemma line_ok_digits t n : no_nul t → 0 <= n → line_ok (t ++ fmt_d n).
Proof.
  intros Ht Hn. pose proof (fmt_d_digits n Hn) as Hd.
  destruct (fmt_d n) as [|c s] eqn:E using rev_ind.
  { pose proof (fmt_d_length n) as Hl. rewrite E in Hl. cbn in Hl. lia. }
  apply Forall_app in Hd as [Hs [(H1 & H2 & _)%isdigit_not_blank _]%Forall_cons].
  rewrite app_assoc. apply line_ok_snoc; [|done|done]. apply no_nul_app. split; [done|].
  by apply digits_no_nul.
Qed.

Lemma line_ok_name w : name_ok w → line_ok w.
Proof.
  intros Hw. pose proof (name_no_nul w Hw) as Hn. destruct Hw as [Hw Hl].
  destruct w as [|c w _] using rev_ind; [cbn in Hl; lia|].
  apply Forall_app in Hw as [_ [[H1 H2] _]%Forall_cons]. apply no_nul_app in Hn as [Hn _].
  by apply line_ok_snoc.
Qed.

Section control_theorems.
Context `{K : Kernel} `{UL : !UninitLaws}.

(** Without CAP_MAC_ADMIN every endpoint refuses with EPERM, before reading
    the caller's buffer and without any effect. *)
Lemma control_needs_capability fuel i h ubuf len s :
  aectl_handlers fuel !! i = Some h → capable_mac_admin (world s) = false →
  h.2 ubuf len s = Some (- EPERM, s).
Proof. apply control_unauthorized. Qed.

(** C30: the copy from user space is bounded: at most [max - 1] bytes of the
    caller's buffer are used, so that a longer input is cut to its first [max - 1]
    bytes without an error; the array keeps its size and ends up holding, NUL
    terminated, exactly the bytes used with trailing newlines removed.  An error
    is returned exactly when the buffer cannot be read that far or a NUL is among
    the bytes used. *)
Theorem get_string_is_bounded ubuf len out max :
  (0 < max)%nat → length out = max →
  let g := aectl_get_string ubuf len out max in
  let n := Nat.min len (max - 1) in
  ((max <= len)%nat → g = aectl_get_string ubuf (max - 1) out max) ∧
  length g.2 = max ∧
  (((length ubuf < n)%nat ∧ g.1 = - EFAULT) ∨
   ((n <= length ubuf)%nat ∧ ¬ no_nul (take n ubuf) ∧ g.1 = - EINVAL) ∨
   ((n <= length ubuf)%nat ∧ no_nul (take n ubuf) ∧
    cstr g.2 = trim (take n ubuf) ∧ g.1 = Z.of_nat (length (cstr g.2)) ∧
    (length (cstr g.2) < max)%nat)).
Proof.
  intros Hmax Hout g n. split.
  { intros Hl. unfold g, aectl_get_string. by rewrite (Nat.min_r len), Nat.min_id by lia. }
  split; [by apply get_string_length|].
  pose proof (get_string_spec ubuf len out max Hmax Hout) as H. fold g in H. cbn zeta in H.
  unfold input_of in H. fold n in H. destruct (length ubuf <? n)%nat eqn:E.
  { left. split; [by apply Nat.ltb_lt|apply H]. }
  apply Nat.ltb_ge in E. right. case_bool_decide as Hn.
  - right. destruct H as (H1 & H2 & _ & _ & H3 & _). do 2 (split; [done|]). by rewrite H2.
  - left. split; [done|]. split; [done|apply H].
Qed.

(** ** System calls *)

(** The result of an endpoint whose operation the bounded list decides. *)
Definition reported (len : nat) (rc0 : Z) : Z := if rc0 =? 0 then Z.of_nat len else rc0.

(** A system call endpoint on the decimal text of [n]. *)
Lemma syscalls_write_text `{TL : !KstrtoLaws} (op : Z → M Z) ubuf len n Q s :
  0 <= n <= INT_MAX → input_of ubuf len 16 = inr (fmt_d n) → (0 < len < 16)%nat →
  capable_mac_admin (world s) = true → wp (op n) (λ rc0, Q (reported len rc0)) s →
  wp (auth ← aectl_authorized;
      if negb auth then mret (- EPERM)
      else if (len =? 0)%nat || (16 <=? len)%nat then mret (- EINVAL)
      else let g := aectl_get_string ubuf len (uninit 16) 16 in
           if g.1 <=? 0 then mret g.1
           else match kstrtoint10 (cstr g.2) with
                | inl _ => mret (- EINVAL)
                | inr nr => if nr <? 0 then mret (- EINVAL)
                            else ret ← op nr; if ret =? 0 then mret (Z.of_nat len) else mret ret
                end) Q s.
Proof.
  intros Hn Hin Hl Hcap Hop. apply (wp_stack_op _ ubuf len 16 (λ t,
    match kstrtoint10 t with
    | inl _ => mret (- EINVAL)
    | inr nr => if nr <? 0 then mret (- EINVAL)
                else ret ← op nr; if ret =? 0 then mret (Z.of_nat len) else mret ret
    end)).
  - lia.
  - congruence.
  - intros _ Hlen. lia.
  - intros _ _. rewrite Hin. pose proof (fmt_d_length n) as Hpos.
    destruct (fmt_d n) as [|c t'] eqn:Hf; [cbn in Hpos; lia|]. rewrite <- Hf.
    rewrite kstrtoint_decimal by done. replace (n <? 0) with false by lia.
    wp_step. eapply wp_mono; [exact Hop|]. intros rc s' HQ. cbn beta. unfold reported in HQ.
    by destruct (rc =? 0); apply wp_ret.
Qed.

(** An endpoint that answers as the bounded list does. *)
Definition answers {Key} (m : M Z) (len : nat) (s : sys) (abs : sys → list Key) (spec : Z * list Key) : Prop :=
  ∃ rc0 s', m s = Some (reported len rc0, s') ∧ (rc0, abs s') = spec.

Lemma wp_answers {Key} m len s (abs : sys → list Key) spec :
  wp m (λ rc s', ∃ rc0, rc = reported len rc0 ∧ (rc0, abs s') = spec) s → answers m len s abs spec.
Proof. intros (rc & s' & H & rc0 & -> & Hs)%wp_total. by exists rc0, s'. Qed.

Lemma syscalls_add_text `{TL : !KstrtoLaws} ubuf len n s :
  0 <= n <= INT_MAX → input_of ubuf len 16 = inr (fmt_d n) → (0 < len < 16)%nat →
  capable_mac_admin (world s) = true → pl_inv (E := aegis_blocked_syscall) s →
  answers (aectl_syscalls_add_write ubuf len) len s syscall_abs
    (spec_add AEGIS_MAX_BLOCKED_SYSCALLS (kmalloc_ok (world s)).1 n (syscall_abs s)).
Proof.
  intros Hn Hin Hl Hcap Hinv. apply wp_answers, (syscalls_write_text aegis_syscall_block_add _ _ n); try done.
  eapply wp_mono; [apply (syscall_add_spec n s (proj1 Hn))|]. intros rc s' (_ & Ho & _). exists rc. split; [done|].
  apply (add_outcome_law _ (mkSyscall n) n _ _ _ ltac:(done) Hinv (proj1 Hn)
    (λ e _, syscall_match_spec n e) I eq_refl Ho).
Qed.

Lemma syscalls_del_text `{TL : !KstrtoLaws} ubuf len n s :
  0 <= n <= INT_MAX → input_of ubuf len 16 = inr (fmt_d n) → (0 < len < 16)%nat →
  capable_mac_admin (world s) = true → pl_inv (E := aegis_blocked_syscall) s →
  answers (aectl_syscalls_del_write ubuf len) len s syscall_abs (spec_del n (syscall_abs s)).
Proof.
  intros Hn Hin Hl Hcap Hinv. apply wp_answers, (syscalls_write_text aegis_syscall_block_del _ _ n); try done.
  eapply wp_mono; [apply (syscall_del_spec n s)|]. intros rc s' (_ & Ho & _). exists rc. split; [done|].
  apply (del_outcome_law _ n _ _ _ ltac:(done) Hinv (λ e _, syscall_match_spec n e) Ho).
Qed.

Lemma fmt_d_line n : 0 <= n → line_ok (fmt_d n).
Proof.
  intros Hn. pose proof (fmt_d_digits n Hn) as Hd. pose proof (fmt_d_length n) as Hpos.
  destruct (fmt_d n); [cbn in Hpos; lia|]. by apply digits_line_ok.
Qed.

(** C29: writing the decimal text of a number to blocked_syscalls_add, with or
    without a newline, adds exactly that number: the result and the list are
    those of the bounded list, and success reports the whole text. *)
Theorem syscalls_add_write_effect `{TL : !KstrtoLaws} n s text :
  0 <= n <= INT_MAX → capable_mac_admin (world s) = true →
  pl_inv (E := aegis_blocked_syscall) s →
  text = fmt_d n ∨ text = fmt_d n ++ [LF] →
  ∃ rc0 s', aectl_syscalls_add_write text (length text) s
      = Some ((if rc0 =? 0 then Z.of_nat (length text) else rc0), s') ∧
    (rc0, syscall_abs s') =
      spec_add AEGIS_MAX_BLOCKED_SYSCALLS (kmalloc_ok (world s)).1 n (syscall_abs s).
Proof.
  intros Hn Hcap Hinv Ht. pose proof (fmt_d_int_length n Hn) as Hl.
  pose proof (fmt_d_length n) as Hpos. pose proof (fmt_d_line n (proj1 Hn)) as Hok.
  apply (syscalls_add_text text (length text) n s Hn); [| |done|done].
  - destruct Ht as [->| ->]; [apply input_text; [done|lia]|].
    rewrite length_app, Nat.add_1_r. apply input_line; [done|lia].
  - destruct Ht as [->| ->]; rewrite ?length_app; cbn; lia.
Qed.

(** ** Processes *)

(** A process endpoint on a text whose reading is [r]. *)
Lemma procs_write_text (op : option bytes → Z → M Z) ubuf len t r Q s :
  input_of ubuf len AEGIS_PATH_LEN = inr t → t ≠ [] → (0 < len < 256)%nat →
  capable_mac_admin (world s) = true → sscanf_s15_d t = r → 1 <= sc_count r →
  wp (op (Some (sc_comm r)) (default 0 (sc_pid r)))
     (λ rc s', Q (if rc =? 0 then Z.of_nat len else rc) s') s →
  wp (auth ← aectl_authorized;
      if negb auth then mret (- EPERM)
      else if (len =? 0)%nat || (AEGIS_PATH_LEN <=? len)%nat then mret (- EINVAL)
      else let g := aectl_get_string ubuf len (uninit AEGIS_PATH_LEN) AEGIS_PATH_LEN in
           if g.1 <=? 0 then mret g.1
           else let sc := sscanf_s15_d (cstr g.2) in
                if sc_count sc <? 1 then mret (- EINVAL)
                else ret ← op (Some (sc_comm sc)) (default 0 (sc_pid sc));
                     if ret =? 0 then mret (Z.of_nat len) else mret ret) Q s.
Proof.
  intros Hin Hne Hl Hcap Hr Hc Hop. apply (wp_stack_op _ ubuf len AEGIS_PATH_LEN (λ t',
    let sc := sscanf_s15_d t' in
    if sc_count sc <? 1 then mret (- EINVAL)
    else ret ← op (Some (sc_comm sc)) (default 0 (sc_pid sc));
         if ret =? 0 then mret (Z.of_nat len) else mret ret)).
  - unfold AEGIS_PATH_LEN. lia.
  - congruence.
  - unfold AEGIS_PATH_LEN. lia.
  - intros _ _. rewrite Hin. destruct t as [|c t]; [done|]. cbn zeta.
    rewrite Hr. replace (sc_count r <? 1) with false by lia.
    wp_step. eapply wp_mono; [exact Hop|]. intros rc s' HQ. cbn beta in HQ |- *.
    by destruct (rc =? 0); apply wp_ret.
Qed.

Lemma name_valid w n : name_ok w → proc_valid (w, n).
Proof. intros Hw. split; [by apply name_no_nul|]. destruct Hw. cbn. unfold AEGIS_COMM_LEN. lia. Qed.

Lemma procs_add_text ubuf len t r w n s :
  input_of ubuf len AEGIS_PATH_LEN = inr t → t ≠ [] → (0 < len < 256)%nat →
  capable_mac_admin (world s) = true → pl_inv (E := aegis_protected_proc) s → name_ok w →
  sscanf_s15_d t = r → 1 <= sc_count r → sc_comm r = w → default 0 (sc_pid r) = n →
  answers (aectl_procs_add_write ubuf len) len s proc_abs
    (spec_add AEGIS_MAX_PROTECTED_PROCS (kmalloc_ok (world s)).1 (w, n) (proc_abs s)).
Proof.
  intros Hin Hne Hl Hcap Hinv Hw Hr Hc <- <-.
  apply wp_answers, (procs_write_text aegis_protect_process_add ubuf len t r); try done.
  eapply wp_mono; [apply process_add_spec|]. intros rc s' (_ & Ho & _). exists rc. split; [done|].
  pose proof (name_valid _ (default 0 (sc_pid r)) Hw) as Hv.
  apply (add_outcome_law _ _ (sc_comm r, default 0 (sc_pid r)) _ _ _ ltac:(done) Hinv Hv
    (process_match_all _ _ s Hinv (proj1 Hv)) (new_proc_wf _ _) (new_proc_key _ _ Hv) Ho).
Qed.

Lemma procs_del_text ubuf len t r w n s :
  input_of ubuf len AEGIS_PATH_LEN = inr t → t ≠ [] → (0 < len < 256)%nat →
  capable_mac_admin (world s) = true → pl_inv (E := aegis_protected_proc) s → name_ok w →
  sscanf_s15_d t = r → 1 <= sc_count r → sc_comm r = w → default 0 (sc_pid r) = n →
  answers (aectl_procs_del_write ubuf len) len s proc_abs (spec_del (w, n) (proc_abs s)).
Proof.
  intros Hin Hne Hl Hcap Hinv Hw Hr Hc <- <-.
  apply wp_answers, (procs_write_text aegis_protect_process_del ubuf len t r); try done.
  eapply wp_mono; [apply process_del_spec|]. intros rc s' (_ & Ho & _). exists rc. split; [done|].
  apply (del_outcome_law _ (sc_comm r, default 0 (sc_pid r)) _ _ _ ltac:(done) Hinv
    (process_match_all _ _ s Hinv (name_no_nul _ Hw)) Ho).
Qed.

(** The same for a line of text. *)
Lemma procs_add_line t r w n s :
  line_ok t → (length t < 255)%nat → capable_mac_admin (world s) = true →
  pl_inv (E := aegis_protected_proc) s → name_ok w →
  sscanf_s15_d t = r → 1 <= sc_count r → sc_comm r = w → default 0 (sc_pid r) = n →
  ∃ rc0 s', aectl_procs_add_write (t ++ [LF]) (S (length t)) s
              = Some (reported (S (length t)) rc0, s') ∧
    (rc0, proc_abs s') =
      spec_add AEGIS_MAX_PROTECTED_PROCS (kmalloc_ok (world s)).1 (w, n) (proc_abs s).
Proof.
  intros Hok Hl. apply procs_add_text; [apply input_line; [done|unfold AEGIS_PATH_LEN; lia]| |lia].
  by destruct (line_ok_nonempty _ Hok) as (c & t' & ->).
Qed.

Section scan.
Context `{SL : !ScanLaws}.

(** C28: the line "name pid" written to protected_procs_add asks for exactly
    the key (name, pid), the line "name" for (name, 0), that is for every
    process of that name; the answer is that of the bounded list. *)
Theorem procs_add_write_effect w n s :
  name_ok w → 0 <= n <= INT_MAX → capable_mac_admin (world s) = true →
  pl_inv (E := aegis_protected_proc) s →
  let spec k := spec_add AEGIS_MAX_PROTECTED_PROCS (kmalloc_ok (world s)).1 k (proc_abs s) in
  (let t := w ++ " "%char :: fmt_d n in
   ∃ rc0 s', aectl_procs_add_write (t ++ [LF]) (S (length t)) s
               = Some (reported (S (length t)) rc0, s') ∧ (rc0, proc_abs s') = spec (w, n)) ∧
  (∃ rc0 s', aectl_procs_add_write (w ++ [LF]) (S (length w)) s
               = Some (reported (S (length w)) rc0, s') ∧ (rc0, proc_abs s') = spec (w, 0)).
Proof.
  intros Hw Hn Hcap Hinv spec. pose proof (fmt_d_int_length n Hn) as Hlen.
  pose proof (name_no_nul w Hw) as Hnn. split.
  - cbn zeta. set (t := w ++ " "%char :: fmt_d n).
    assert (line_ok t) as Hok.
    { unfold t. replace (w ++ " "%char :: fmt_d n) with ((w ++ [" "%char]) ++ fmt_d n)
        by (by rewrite <- app_assoc).
      apply line_ok_digits; [|lia]. apply no_nul_app. split; [done|]. by repeat constructor. }
    pose proof (scan_name_pid w n Hw (proj1 Hn)) as Hs.
    apply (procs_add_line t (mkScan 2 w (Some n)) w n); try done.
    + unfold t. rewrite length_app. cbn [length]. destruct Hw. lia.
    + rewrite sscanf_comm_pid; [done|apply Hok|].
      eapply name_in_range; [done|exact Hs|]. cbn. unfold INT_MIN, INT_MAX in *. lia.
  - pose proof (scan_name w Hw) as Hs.
    apply (procs_add_line w (mkScan 1 w None) w 0); try done.
    + by apply line_ok_name.
    + destruct Hw. lia.
    + rewrite sscanf_comm_pid; [done|done|]. rewrite <- (app_nil_r w).
      eapply name_in_range; [done|rewrite app_nil_r; exact Hs|done].
Qed.

(** The conversion "%15s %d" does not require a blank: a name of 15
    characters with digits right behind it, written as one word, is taken for
    the 15-character name with those digits as pid. *)
Lemma long_name_splits_into_pid w n s :
  name_ok w → length w = 15%nat → 0 <= n <= INT_MAX → capable_mac_admin (world s) = true →
  pl_inv (E := aegis_protected_proc) s →
  let t := w ++ fmt_d n in
  ∃ rc0 s', aectl_procs_add_write (t ++ [LF]) (S (length t)) s
              = Some (reported (S (length t)) rc0, s') ∧
    (rc0, proc_abs s') =
      spec_add AEGIS_MAX_PROTECTED_PROCS (kmalloc_ok (world s)).1 (w, n) (proc_abs s).
Proof.
  intros Hw Hl Hn Hcap Hinv t. pose proof (fmt_d_int_length n Hn) as Hlen.
  pose proof (name_no_nul w Hw) as Hnn.
  assert (line_ok t) as Hok by (apply line_ok_digits; [done|lia]).
  pose proof (scan_name_digits w n Hw Hl (proj1 Hn)) as Hs.
  apply (procs_add_line t (mkScan 2 w (Some n)) w n); try done.
  - unfold t. rewrite length_app. lia.
  - rewrite sscanf_comm_pid; [done|apply Hok|].
    eapply name_in_range; [done|exact Hs|]. cbn. unfold INT_MIN, INT_MAX in *. lia.
Qed.

End scan.

(** ** Files *)

(** What a write to protected_files_add does when the text is [t]. *)
Definition files_added (t : bytes) (len : nat) (s : sys) (rc : Z) (s' : sys) : Prop :=
  file_inv s' ∧ cfg s' = cfg s ∧
  ((rc = - ENOMEM ∧ (kmalloc_ok (world s)).1 = false ∧ file_abs s' = file_abs s) ∨
   ∃ rc0 alloc, rc = reported len rc0 ∧ (kmalloc_total → alloc = true) ∧
     (rc0, file_abs s') = spec_add AEGIS_MAX_PROTECTED_FILES alloc t (file_abs s)).

Lemma files_add_gen d fuel ubuf len t s :
  (∀ m s1, cstr m = t → wpx d (aegis_protected_file_add fuel (Some m)) (file_add_post (λ _, True) m s1) s1) →
  input_of ubuf len AEGIS_PATH_LEN = inr t → t ≠ [] → (0 < len <= 256)%nat →
  capable_mac_admin (world s) = true → file_inv s →
  wpx d (aectl_files_add_write fuel ubuf len) (files_added t len s) s.
Proof.
  intros Hop Hin Hne Hlen Hcap Hinv. apply wp_write_op.
  - congruence.
  - intros _ ?. lia.
  - intros _ _ w Hw. split; [done|split; [done|]]. left. by rewrite Hw.
  - intros _ _ w Hw. cbn zeta. rewrite Hin. destruct t as [|c t]; [done|]. intros m Hm.
    eapply wp_mono; [by apply Hop|]. intros rc s2 Hpost. cbn beta.
    destruct (input_of_inr _ _ _ _ (Nat.lt_0_succ 255) Hin) as (Hn & Hl & _).
    match type of Hpost with file_add_post _ _ ?s1 _ _ =>
      destruct (file_add_law _ m s1 rc s2 Hinv ltac:(by rewrite Hm) Hpost) as [Hinv2 Hs] end.
    split; [done|split; [apply Hpost|]]. right. exists rc. eexists. split; [done|].
    rewrite <- Hm. split; [|exact Hs]. intros Hk. apply Hk.
Qed.

(** What a write to protected_files_del does when the text is [t]. *)
Lemma files_del_gen ubuf len t s :
  input_of ubuf len AEGIS_PATH_LEN = inr t → t ≠ [] → (0 < len <= 256)%nat →
  capable_mac_admin (world s) = true → file_inv s →
  wp (aectl_files_del_write ubuf len) (λ rc s', file_inv s' ∧ cfg s' = cfg s ∧
    ((rc = - ENOMEM ∧ (kmalloc_ok (world s)).1 = false ∧ file_abs s' = file_abs s) ∨
     ∃ rc0, rc = reported len rc0 ∧ (rc0, file_abs s') = spec_del t (file_abs s))) s.
Proof.
  intros Hin Hne Hlen Hcap Hinv. apply wp_write_op.
  - congruence.
  - intros _ ?. lia.
  - intros _ _ w Hw. split; [done|split; [done|]]. left. by rewrite Hw.
  - intros _ _ w Hw. cbn zeta. rewrite Hin. destruct t as [|c t]; [done|]. intros m Hm.
    eapply wp_mono; [apply file_del_spec|]. intros rc s2 Hpost. cbn beta.
    match type of Hpost with file_del_post _ ?s1 _ _ =>
      destruct (file_del_law m s1 rc s2 Hinv Hpost) as [Hinv2 Hs] end.
    split; [done|split; [apply Hpost|]]. right. exists rc. split; [done|]. by rewrite <- Hm.
Qed.

Lemma path_finite_cstr fuel m t : cstr m = t → path_finite fuel t → path_finite fuel m.
Proof.
  intros <- Hf f Ho. apply Hf. unfold opens in *. by rewrite cstr_idemp.
Qed.

Section digests.
Context `{L : !ShashLaws} (Halloc : ∀ w err, (shash_alloc w).1 = inl err → err ≠ 0).

Lemma files_add_total fuel ubuf len t s :
  path_finite fuel t →
  input_of ubuf len AEGIS_PATH_LEN = inr t → t ≠ [] → (0 < len <= 256)%nat →
  capable_mac_admin (world s) = true → file_inv s →
  wp (aectl_files_add_write fuel ubuf len) (files_added t len s) s.
Proof.
  intros Hf. apply files_add_gen. intros m s1 Hm.
  eapply wp_mono; [apply (file_add_digest Halloc fuel m s1), (path_finite_cstr fuel m t Hm Hf)|].
  intros rc s' (Hk & e & He & _ & Ho). exact (conj Hk (ex_intro _ e (conj He (conj (λ _, I) Ho)))).
Qed.

(** A path written without a newline. *)
Lemma path_text (p : bytes) :
  line_ok p → (length p < 256)%nat →
  input_of p (length p) AEGIS_PATH_LEN = inr p ∧ p ≠ [] ∧ (0 < length p <= 256)%nat.
Proof.
  intros Hok Hl. destruct (line_ok_nonempty _ Hok) as (c & t & Hp).
  split; [exact (input_text p AEGIS_PATH_LEN Hok Hl)|]. subst p. cbn [length] in *. split; [done|lia].
Qed.

Lemma files_add_text fuel p s :
  line_ok p → (length p < 256)%nat → path_finite fuel p → kmalloc_total →
  capable_mac_admin (world s) = true → file_inv s →
  answers (aectl_files_add_write fuel p (length p)) (length p) s file_abs
    (spec_add AEGIS_MAX_PROTECTED_FILES true p (file_abs s)).
Proof.
  intros Hok Hl Hf Hk Hcap Hinv. destruct (path_text p Hok Hl) as (Hin & Hne & Hlen).
  apply wp_answers. eapply wp_mono; [by apply files_add_total|].
  intros rc s' (_ & _ & [(_ & H & _)|(rc0 & alloc & -> & H2 & H3)]); [by rewrite Hk in H|].
  exists rc0. by rewrite H2 in H3.
Qed.

Lemma files_del_text p s :
  line_ok p → (length p < 256)%nat → kmalloc_total →
  capable_mac_admin (world s) = true → file_inv s →
  answers (aectl_files_del_write p (length p)) (length p) s file_abs (spec_del p (file_abs s)).
Proof.
  intros Hok Hl Hk Hcap Hinv. destruct (path_text p Hok Hl) as (Hin & Hne & Hlen).
  apply wp_answers. eapply wp_mono; [by apply files_del_gen|].
  intros rc s' (_ & _ & [(_ & H & _)|(rc0 & -> & H)]); [by rewrite Hk in H|]. by exists rc0.
Qed.

(** A line of at most 254 bytes. *)
Lemma files_add_line fuel p s :
  line_ok p → (length p < 255)%nat → path_finite fuel p → kmalloc_total →
  capable_mac_admin (world s) = true → file_inv s →
  ∃ rc0 s', aectl_files_add_write fuel (p ++ [LF]) (S (length p)) s
              = Some (reported (S (length p)) rc0, s') ∧ file_inv s' ∧
    (rc0, file_abs s') = spec_add AEGIS_MAX_PROTECTED_FILES true p (file_abs s).
Proof.
  intros Hok Hl Hf Hk Hcap Hinv.
  assert (p ≠ []) as Hne by (destruct (line_ok_nonempty _ Hok) as (c & t & ->); done).
  pose proof (files_add_total fuel (p ++ [LF]) (S (length p)) p s Hf
    (input_line p AEGIS_PATH_LEN Hok ltac:(unfold AEGIS_PATH_LEN; lia)) Hne ltac:(lia) Hcap Hinv) as H.
  apply wp_total in H as (rc & s' & H1 & Hinv' & _ & [(_ & H2 & _)|(rc0 & alloc & -> & H2 & H3)]).
  { rewrite Hk in H2. discriminate. }
  rewrite (H2 Hk) in H3. by exists rc0, s'.
Qed.

(** A path of exactly 256 bytes is cut. *)
Lemma files_add_cut fuel p s :
  length p = 256%nat → line_ok (take 255 p) → path_finite fuel (take 255 p) → kmalloc_total →
  capable_mac_admin (world s) = true → file_inv s → no_nul p →
  Z.of_nat (length (file_abs s)) < AEGIS_MAX_PROTECTED_FILES → take 255 p ∉ file_abs s →
  ∃ s', aectl_files_add_write fuel p 256 s = Some (256, s') ∧
    take 255 p ∈ file_abs s' ∧ aegis_is_file_protected (Some p) s' = Some (false, s').
Proof.
  intros Hl Hok Hf Hk Hcap Hinv Hn Hroom Hnot.
  assert (input_of p 256 AEGIS_PATH_LEN = inr (take 255 p)) as Hin.
  { unfold input_of, AEGIS_PATH_LEN. cbn [Nat.min Nat.sub]. rewrite Hl.
    change (256 <? 255)%nat with false. cbn iota.
    rewrite bool_decide_true by apply Hok. destruct Hok as [_ (t' & c & -> & Hc)]. by rewrite trim_id. }
  assert (take 255 p ≠ []) as Hne by (destruct (line_ok_nonempty _ Hok) as (c & t & ->); done).
  pose proof (files_add_total fuel p 256 _ s Hf Hin Hne ltac:(lia) Hcap Hinv) as H.
  apply wp_total in H as (rc & s' & H1 & Hinv' & _ & [(_ & H2 & _)|(rc0 & alloc & -> & H2 & H3)]).
  { rewrite Hk in H2. discriminate. }
  rewrite (H2 Hk) in H3. unfold spec_add in H3. replace (_ <=? _) with false in H3 by lia.
  rewrite decide_False in H3 by done. injection H3 as -> Habs. exists s'. split; [done|].
  split; [rewrite Habs; set_solver|]. rewrite is_file_protected_run by done. unfold file_protected.
  rewrite bool_decide_false, andb_false_r; [done|]. rewrite cstr_id by done.
  destruct Hinv' as (_ & _ & _ & Hval). rewrite Forall_forall in Hval. intros Hp%Hval.
  destruct Hp as [_ Hp]. unfold AEGIS_PATH_LEN in Hp. lia.
Qed.

(** C27: what a write to protected_files_add protects.  A path of at most 254
    bytes written as a line is what ends up protected: the answer and the keys
    are those of the bounded list, the whole line is reported written on success,
    and the call returns whenever the file at the path has finite content.  A
    path of exactly 256 bytes is accepted too, but cut: the endpoint reports
    256 bytes written, protects the first 255 bytes instead, and the path that
    was asked for is not protected. *)
Theorem files_add_write_effect fuel p s :
  kmalloc_total → capable_mac_admin (world s) = true → file_inv s →
  (line_ok p → (length p < 255)%nat → path_finite fuel p →
   ∃ rc0 s', aectl_files_add_write fuel (p ++ [LF]) (S (length p)) s
               = Some (reported (S (length p)) rc0, s') ∧ file_inv s' ∧
     (rc0, file_abs s') = spec_add AEGIS_MAX_PROTECTED_FILES true p (file_abs s)) ∧
  (length p = 256%nat → line_ok (take 255 p) → path_finite fuel (take 255 p) → no_nul p →
   Z.of_nat (length (file_abs s)) < AEGIS_MAX_PROTECTED_FILES → take 255 p ∉ file_abs s →
   ∃ s', aectl_files_add_write fuel p 256 s = Some (256, s') ∧
     take 255 p ∈ file_abs s' ∧ aegis_is_file_protected (Some p) s' = Some (false, s')).
Proof.
  intros Hk Hcap Hinv. split; [intros; by apply files_add_line|intros; by apply files_add_cut].
Qed.

End digests.

(** ** The full cycle *)

Section cycle.
Context `{SL : !ScanLaws} `{YL : !SysctlLaws} `{FL : !SecfsLaws} `{NL : !NrLaws}.

Lemma file_verdict_of fuel s file mask :
  reach fuel s → ∃ s', aegis_file_permission file mask s = Some (v_rc (file_verdict s file mask), s').
Proof.
  intros Hr.
  destruct (proj1 (wp_total _ _ _) (file_permission_ok file mask s (inv_files _ _ (reach_inv fuel s Hr))))
    as (rc & s' & H & -> & _). by exists s'.
Qed.

(** A control write that reported the whole line has put the path on the list. *)
Lemma add_event_succeeded fuel p s s1 :
  reach fuel s → line_ok p → (length p < 255)%nat →
  run_event fuel (Ev_control 0 (p ++ [LF]) (S (length p))) s = Some (Z.of_nat (S (length p)), s1) →
  file_inv s1 ∧ cfg s1 = cfg s ∧ p ∈ file_abs s1.
Proof.
  intros Hr Hok Hl Hrun. change (aectl_files_add_write fuel (p ++ [LF]) (S (length p)) s
    = Some (Z.of_nat (S (length p)), s1)) in Hrun.
  destruct (capable_mac_admin (world s)) eqn:Hcap.
  2: { pose proof (eq_trans (eq_sym Hrun)
         (control_unauthorized fuel 0 _ (p ++ [LF]) (S (length p)) s eq_refl Hcap)) as E.
       injection E as E _. unfold EPERM in E. lia. }
  assert (p ≠ []) as Hne by (destruct (line_ok_nonempty _ Hok) as (c & t & ->); done).
  pose proof (input_line p AEGIS_PATH_LEN Hok ltac:(unfold AEGIS_PATH_LEN; lia)) as Hin.
  destruct (wp_eq _ _ _ _ _ _ Hrun (files_add_gen True fuel (p ++ [LF]) (S (length p)) p s
    (λ m s1 _, file_add_spec fuel m s1) Hin Hne ltac:(lia) Hcap (inv_files _ _ (reach_inv fuel s Hr))))
    as (Hinv1 & Hc1 & [(E & _)|(rc0 & alloc & E & _ & Hs)]); [unfold ENOMEM in E; lia|].
  split; [done|split; [done|]]. unfold reported, spec_add in *.
  destruct (_ <=? _); [injection Hs as -> _; errno; unfold ENOSPC in E; lia|].
  case_decide as Hd; [injection Hs as -> _; errno; unfold EEXIST in E; lia|].
  destruct alloc; injection Hs as -> Hs; [rewrite Hs; set_solver|errno; unfold ENOMEM in E; lia].
Qed.

(** C6: protection works end to end.  From a reachable state with enforcement
    on: once a path has been written to protected_files_add successfully, every
    write access to a file with that path is refused with EACCES; once it has
    then been written to protected_files_del, which succeeds, such an access is
    granted again. *)
Theorem protect_then_unprotect fuel p s s1 :
  reach fuel s → line_ok p → (length p < 255)%nat → kmalloc_total →
  AEGIS_FEATURE_CHECK (cfg s) AEGIS_FEATURE_FILE_INTEGRITY = true →
  file_integrity_enforce (cfg s) = true →
  run_event fuel (Ev_control 0 (p ++ [LF]) (S (length p))) s = Some (Z.of_nat (S (length p)), s1) →
  (∀ file q w mask, path_seen file (world s1) = (Some q, w) → cstr q = p → writes mask = true →
     ∃ s2, aegis_file_permission file mask s1 = Some (- EACCES, s2)) ∧
  (capable_mac_admin (world s1) = true →
   ∃ s2, run_event fuel (Ev_control 1 (p ++ [LF]) (S (length p))) s1
           = Some (Z.of_nat (S (length p)), s2) ∧
     ∀ file q w mask, path_seen file (world s2) = (Some q, w) → cstr q = p →
       ∃ s3, aegis_file_permission file mask s2 = Some (0, s3)).
Proof.
  intros Hr Hok Hl Hk Hf He Hrun. pose proof (reach_event _ _ _ _ _ Hr Hrun) as Hr1.
  pose proof (inv_files _ _ (reach_inv fuel s Hr)) as Hinv.
  assert (p ≠ []) as Hne by (destruct (line_ok_nonempty _ Hok) as (c & t & ->); done).
  pose proof (input_line p AEGIS_PATH_LEN Hok ltac:(unfold AEGIS_PATH_LEN; lia)) as Hin.
  destruct (add_event_succeeded fuel p s s1 Hr Hok Hl Hrun) as (Hinv1 & Hc1 & Hin1).
  split.
  - intros file q w mask Hp Hq Hm. destruct (file_verdict_of fuel s1 file mask Hr1) as [s2 H2].
    exists s2. rewrite H2. unfold file_verdict, file_protected.
    rewrite Hp, Hc1, Hf, Hm, He, Hq, bool_decide_true by done. done.
  - intros Hcap1.
    pose proof (files_del_gen (p ++ [LF]) (S (length p)) p s1 Hin Hne ltac:(lia) Hcap1 Hinv1) as H.
    apply wp_total in H as (rc & s2 & H2 & Hinv2 & _ & [(_ & H3 & _)|(rc0 & -> & H3)]).
    { by rewrite Hk in H3. }
    unfold spec_del in H3. rewrite decide_True in H3 by done. injection H3 as -> Habs.
    exists s2. split; [exact H2|]. intros file q w mask Hp Hq.
    destruct (file_verdict_of fuel s2 file mask) as [s3 H4].
    { by eapply (reach_event fuel s1 (Ev_control 1 (p ++ [LF]) (S (length p)))). }
    exists s3. rewrite H4. unfold file_verdict, file_protected. rewrite Hp, Hq.
    rewrite bool_decide_false, andb_false_r; [done|]. rewrite Habs, list_elem_of_filter. tauto.
Qed.

End cycle.

End control_theorems.

(** ** Instances *)

(** The state after boot as an unprivileged task sees it. *)
Definition s_user : sys := set_world world_user s_boot.

Lemma control_needs_capability_witness :
  aectl_syscalls_add_write (str "101") 3 s_user = Some (- EPERM, s_user).
Proof.
  exact (control_needs_capability 0 4 ("blocked_syscalls_add"%string, aectl_syscalls_add_write)
           (str "101") 3 s_user eq_refl eq_refl).
Defined.

Lemma get_string_is_bounded_witness :
  let g := aectl_get_string (str "/etc/passwd" ++ [LF]) 12 (replicate 256 "Z"%char) 256 in
  g.1 = 11 ∧ cstr g.2 = str "/etc/passwd" ∧ length g.2 = 256%nat.
Proof.
  destruct (get_string_is_bounded (str "/etc/passwd" ++ [LF]) 12 (replicate 256 "Z"%char) 256)
    as (_ & H3 & [[H _]|[(_ & H & _)|(_ & _ & H2 & H1 & _)]]).
  - lia.
  - reflexivity.
  - vm_compute in H. lia.
  - destruct H. by_decision.
  - rewrite H2 in H1. split; [exact H1|]. split; [exact H2|exact H3].
Defined.

Lemma syscalls_add_write_effect_witness :
  ∃ rc0 s', aectl_syscalls_add_write (str "101" ++ [LF]) 4 s_boot
      = Some ((if rc0 =? 0 then 4 else rc0), s') ∧
    (rc0, syscall_abs s') = spec_add 256 true 101 (syscall_abs s_boot).
Proof.
  apply (syscalls_add_write_effect 101 s_boot (str "101" ++ [LF])).
  - unfold INT_MAX. lia.
  - reflexivity.
  - apply (inv_syscalls 0), (reach_inv 20), s_boot_reach.
  - right. reflexivity.
Defined.

Lemma name_ok_dec w :
  bool_decide (Forall (λ c, isspace c = false ∧ c ≠ NUL) w ∧ (0 < length w <= 15)%nat) = true →
  name_ok w.
Proof. apply bool_decide_eq_true_1. Qed.

Lemma procs_add_write_effect_witness :
  ∃ rc0 s', aectl_procs_add_write (str "nginx 42" ++ [LF]) 9 s_boot = Some (reported 9 rc0, s') ∧
    (rc0, proc_abs s') = spec_add 64 true (str "nginx", 42) (proc_abs s_boot).
Proof.
  refine (proj1 (procs_add_write_effect (str "nginx") 42 s_boot _ _ _ _)).
  - apply name_ok_dec. by vm_compute.
  - unfold INT_MAX. lia.
  - reflexivity.
  - apply (inv_procs 0), (reach_inv 20), s_boot_reach.
Defined.

Lemma long_name_splits_into_pid_witness :
  ∃ rc0 s', aectl_procs_add_write (str "kworker-daemon-12" ++ [LF]) 18 s_boot
              = Some (reported 18 rc0, s') ∧
    (rc0, proc_abs s') = spec_add 64 true (str "kworker-daemon-", 12) (proc_abs s_boot).
Proof.
  refine (long_name_splits_into_pid (str "kworker-daemon-") 12 s_boot _ _ _ _ _).
  - apply name_ok_dec. by vm_compute.
  - reflexivity.
  - unfold INT_MAX. lia.
  - reflexivity.
  - apply (inv_procs 0), (reach_inv 20), s_boot_reach.
Defined.

Lemma passwd_line_ok : line_ok (str "/etc/passwd").
Proof. apply (line_ok_snoc (str "/etc/passw") "d"); [by_decision|done|done]. Qed.

(** Every path of the sample file system but /dev/zero has finite content. *)
Lemma finite_paths p : cstr p ≠ str "/dev/zero" → path_finite 20 p.
Proof.
  intros Hp f (w & fp & w1 & w2 & H1 & H2). cbn in H1, H2.
  case_bool_decide; [|rewrite bool_decide_false in H1 by done; discriminate].
  injection H1 as <- <-. injection H2 as <- <-. exists (str "root:x:0:0"). split; [|by_decision].
  intros pos w0 Hpos. eexists. cbn. split; [reflexivity|split].
  - apply prefix_take.
  - intros E. apply (f_equal length) in E. rewrite length_take, length_drop in E.
    change (@length ascii []) with 0%nat in E. lia.
Qed.

Definition long_path : bytes := replicate 256 "a"%char.

Lemma files_add_write_effect_witness :
  (∃ rc0 s', aectl_files_add_write 20 (str "/etc/passwd" ++ [LF]) 12 s_boot
               = Some (reported 12 rc0, s') ∧ file_inv s' ∧
     (rc0, file_abs s') = spec_add 128 true (str "/etc/passwd") (file_abs s_boot)) ∧
  (∃ s', aectl_files_add_write 20 long_path 256 s_boot = Some (256, s') ∧
     take 255 long_path ∈ file_abs s' ∧ aegis_is_file_protected (Some long_path) s' = Some (false, s')).
Proof.
  assert (file_inv s_boot) as Hinv by apply (inv_files 0), (reach_inv 20), s_boot_reach.
  split.
  - refine (proj1 (files_add_write_effect (L := ref_shash_laws) _ 20 (str "/etc/passwd") s_boot _ _ Hinv) _ _ _).
    + discriminate.
    + intros w. reflexivity.
    + reflexivity.
    + exact passwd_line_ok.
    + by_decision.
    + by apply finite_paths.
  - refine (proj2 (files_add_write_effect (L := ref_shash_laws) _ 20 long_path s_boot _ _ Hinv) _ _ _ _ _ _).
    + discriminate.
    + intros w. reflexivity.
    + reflexivity.
    + reflexivity.
    + apply (line_ok_snoc (replicate 254 "a"%char) "a"); [by_decision|done|done].
    + apply finite_paths. by_decision.
    + by_decision.
    + by vm_compute.
    + by_decision.
Defined.

Lemma protect_then_unprotect_witness :
  ∃ s2, aegis_file_permission passwd MAY_WRITE s_file = Some (- EACCES, s2).
Proof.
  refine (proj1 (protect_then_unprotect 20 (str "/etc/passwd") s_boot s_file _ _ _ _ _ _ _)
            passwd (str "/etc/passwd") (world s_file) MAY_WRITE eq_refl eq_refl eq_refl).
  - apply s_boot_reach.
  - exact passwd_line_ok.
  - by_decision.
  - intros w. reflexivity.
  - reflexivity.
  - reflexivity.
  - exact (run_ends (run_event 20 (control_write 0 "/etc/passwd")) s_boot 12 eq_refl).
Defined.
