(* ===== verification/ShowTheorems.v ===== *)
(** * Theorems about the read files

    The text of the securityfs read files determines the data it shows.  The
    readers below split a text into lines and a line into fields; applied to the
    five files of a reachable state they give back the three lists, the digests,
    the counters, the feature mask and the switches. *)

From S2P Require Import Prelude CString AegisH Kernel State RefKernel PolicyList.
From S2P Require Import Process FileHash File SyscallList Lsm Sysctl Control Securityfs System Scenario Types.

(** ** Reading lines *)

(** The lines of a text; an unterminated last line counts. *)
Fixpoint lines_acc (acc s : bytes) : list bytes :=
  match s with
  | [] => match acc with [] => [] | _ => [rev acc] end
  | c :: s' => if decide (c = LF) then rev acc :: lines_acc [] s' else lines_acc (c :: acc) s'
  end.
Definition lines (s : bytes) : list bytes := lines_acc [] s.

Definition no_lf (s : bytes) : Prop := Forall (λ c, c ≠ LF) s.

#[global] Instance no_lf_dec s : Decision (no_lf s).
Proof. unfold no_lf. apply _. Defined.

Lemma lines_acc_line acc l s :
  no_lf l → lines_acc acc (l ++ LF :: s) = (rev acc ++ l) :: lines s.
Proof.
  intros H. revert acc. induction H as [|c l Hc H IH]; intros acc; cbn.
  - by rewrite app_nil_r.
  - rewrite decide_False by done. rewrite IH. cbn. by rewrite <- app_assoc.
Qed.

Lemma lines_cons l s : no_lf l → lines (l ++ LF :: s) = l :: lines s.
Proof. intros H. apply (lines_acc_line [] l s H). Qed.

(** The lines of a listing, one per entry. *)
Lemma lines_concat {A} (f g : A → bytes) (l : list A) :
  (∀ x, g x = f x ++ [LF]) → Forall (λ x, no_lf (f x)) l → lines (concat (g <$> l)) = f <$> l.
Proof.
  intros Hg. induction 1 as [|x l Hx _ IH]; [done|]. rewrite !fmap_cons. cbn [concat].
  rewrite Hg, <- app_assoc. cbn [app]. by rewrite lines_cons, IH.
Qed.

Lemma no_lf_app l1 l2 : no_lf (l1 ++ l2) ↔ no_lf l1 ∧ no_lf l2.
Proof. apply Forall_app. Qed.

Lemma no_lf_blanks n : no_lf (replicate n " "%char).
Proof. by apply Forall_replicate. Qed.

Lemma word_no_lf s : word s → no_lf s.
Proof. intros H. eapply Forall_impl; [exact H|]. by intros c Hc ->. Qed.

#[export] Hint Rewrite no_lf_app : no_lf.

(** Closes [no_lf] of a text put together from literals, blanks and words. *)
Ltac no_lf :=
  unfold pad_left, pad_right; autorewrite with no_lf; repeat split;
  first [assumption | apply no_lf_blanks | by apply word_no_lf | by eapply bool_decide_eq_true_1].

(** ** Numbers *)

Lemma digit_char_word d : 0 <= d < 16 → isspace (digit_char d) = false.
Proof.
  intros Hd. assert (Forall (λ d, isspace (digit_char d) = false) (seqZ 0 16)) as H by by_decision.
  rewrite Forall_forall in H. apply H, elem_of_seqZ. lia.
Qed.

Lemma digits_word base n : 2 <= base <= 16 → 0 <= n → word (digits base n).
Proof.
  intros Hb. unfold digits. generalize (S (Z.to_nat (Z.log2 n))). intros fuel. revert n.
  induction fuel as [|fuel IH]; intros n Hn; [constructor|]. cbn [digits_fuel].
  apply Forall_app. split.
  - destruct (n <? base); [constructor|]. apply IH. apply Z.div_pos; lia.
  - constructor; [|constructor]. apply digit_char_word. pose proof (Z.mod_pos_bound n base). lia.
Qed.

Lemma fmt_d_word n : word (fmt_d n).
Proof.
  unfold fmt_d. destruct (Z.ltb_spec n 0); [constructor; [done|]|]; apply digits_word; lia.
Qed.

(** A printed number is read back, the sign included. *)
Lemma scan_int_fmt n : scan_int (fmt_d n) = Some n.
Proof.
  assert (∀ m, 0 <= m → let r := scan_digits 0 0 (digits 10 m) in r.1.1 = m ∧ r.1.2 ≠ 0%nat ∧
    head (digits 10 m) ≠ Some "-"%char) as H.
  { intros m Hm. pose proof (fmt_d_digits m Hm) as Hd. pose proof (scan_fmt_d m Hm) as Hs.
    pose proof (fmt_d_length m) as Hl. unfold fmt_d in Hd, Hs, Hl.
    replace (m <? 0) with false in Hd, Hs, Hl by lia. cbn zeta. rewrite Hs.
    split; [done|]. split; [cbn; lia|]. destruct (digits 10 m) as [|c t]; [done|].
    apply Forall_cons in Hd as [Hc _]. by intros [= ->]. }
  unfold fmt_d, scan_int. destruct (Z.ltb_spec n 0).
  - destruct (H (- n) ltac:(lia)) as (Hv & Hc & _). rewrite decide_True by done.
    destruct (scan_digits 0 0 (digits 10 (- n))) as [[v cnt] r]. cbn in Hv, Hc. subst v.
    replace (cnt =? 0)%nat with false by (symmetry; by apply Nat.eqb_neq). f_equal. lia.
  - destruct (H n ltac:(lia)) as (Hv & Hc & Hh).
    destruct (digits 10 n) as [|c t] eqn:E; [done|]. rewrite decide_False by (intros ->; by apply Hh).
    rewrite <- E in *. destruct (scan_digits 0 0 (digits 10 n)) as [[v cnt] r]. cbn in Hv, Hc. subst v.
    by replace (cnt =? 0)%nat with false by (symmetry; by apply Nat.eqb_neq).
Qed.

(** ** Fields of a line *)

(** The leading part of [s] without blanks, and the rest. *)
Fixpoint span_blank (s : bytes) : bytes * bytes :=
  match s with
  | [] => ([], [])
  | c :: s' => if decide (c = " "%char) then ([], s)
               else let r := span_blank s' in (c :: r.1, r.2)
  end.

Fixpoint drop_blanks (s : bytes) : bytes :=
  match s with
  | [] => []
  | c :: s' => if decide (c = " "%char) then drop_blanks s' else s
  end.

(** The last field of a line, and what precedes the blanks before it. *)
Definition line_fields (l : bytes) : bytes * bytes :=
  let r := span_blank (reverse l) in (reverse (drop_blanks r.2), reverse r.1).

Definition no_end_blank (s : bytes) : Prop := last s ≠ Some " "%char.

#[global] Instance no_end_blank_dec s : Decision (no_end_blank s).
Proof. unfold no_end_blank. apply _. Defined.

Lemma span_blank_word h n r :
  word h → span_blank (h ++ replicate (S n) " "%char ++ r) = (h, replicate (S n) " "%char ++ r).
Proof.
  induction 1 as [|c h Hc H IH]; [done|]. cbn [app span_blank].
  rewrite decide_False by (by intros ->). by rewrite IH.
Qed.

Lemma drop_blanks_app n s : head s ≠ Some " "%char → drop_blanks (replicate n " "%char ++ s) = s.
Proof.
  intros Hs. induction n as [|n IH]; [|done]. destruct s as [|c s]; [done|]. cbn.
  rewrite decide_False; [done|]. intros ->. by apply Hs.
Qed.

Lemma word_reverse s : word s → word (reverse s).
Proof. apply Forall_reverse. Qed.

Lemma line_fields_line k n h :
  no_end_blank k → word h → line_fields (k ++ replicate (S n) " "%char ++ h) = (k, h).
Proof.
  intros Hk Hh. unfold line_fields. rewrite !reverse_app, <- app_assoc, reverse_replicate.
  rewrite span_blank_word by (by apply word_reverse). cbn [fst snd].
  rewrite drop_blanks_app by (by rewrite head_reverse). by rewrite !reverse_involutive.
Qed.

Lemma line_fields_last n h : word h → (line_fields (replicate n " "%char ++ h)).2 = h.
Proof.
  intros Hh. destruct n as [|n].
  - unfold line_fields. cbn [app replicate snd].
    assert (span_blank (reverse h) = (reverse h, [])) as ->; [|apply reverse_involutive].
    apply word_reverse in Hh. induction Hh as [|c t Hc _ IH]; [done|]. cbn.
    rewrite decide_False by (by intros ->). by rewrite IH.
  - pose proof (line_fields_line [] n h ltac:(done) Hh) as E. cbn [app] in E. by rewrite E.
Qed.

Lemma word_no_end_blank s : word s → no_end_blank s.
Proof.
  intros H E. apply last_Some_elem_of in E. unfold word in H. rewrite Forall_forall in H.
  by apply H in E.
Qed.

Lemma blanks_join a b (s : bytes) :
  replicate a " "%char ++ str " " ++ replicate b " "%char ++ s = replicate (S (a + b)) " "%char ++ s.
Proof. induction a as [|a IH]; [done|]. cbn. f_equal. exact IH. Qed.

(** A name and a pid. *)
Definition line_proc (l : bytes) : option (bytes * Z) :=
  let f := line_fields l in (f.1,.) <$> scan_int f.2.

(** The number on a line of blanks and digits. *)
Definition line_number (l : bytes) : option Z := scan_int (line_fields l).2.

(** Hexadecimal digits and byte pairs. *)
Definition hex_val (c : ascii) : option Z :=
  if isdigit c then Some (byte_val c - 48)
  else if (97 <=? byte_val c) && (byte_val c <=? 102) then Some (byte_val c - 87) else None.

Fixpoint unhex (s : bytes) : option bytes :=
  match s with
  | [] => Some []
  | a :: b :: s' =>
      x ← hex_val a; y ← hex_val b;
      (ascii_of_N (Z.to_N (16 * x + y)) ::.) <$> unhex s'
  | _ => None
  end.

(** A path and its digest, if there is one. *)
Definition line_file (l : bytes) : option (bytes * option bytes) :=
  let f := line_fields l in
  if decide (f.2 = str "<pending>") then Some (f.1, None)
  else (λ h, (f.1, Some h)) <$> unhex f.2.

(** What a file entry stands for. *)
Definition file_fields (e : aegis_protected_file) : bytes * option bytes :=
  (file_key e, if pf_hash_valid e then Some (pf_hash e) else None).

Lemma unhex_byte c s : unhex (fmt_02x c ++ s) = (c ::.) <$> unhex s.
Proof.
  assert (∃ a b x y, fmt_02x c = [a; b] ∧ hex_val a = Some x ∧ hex_val b = Some y ∧
    ascii_of_N (Z.to_N (16 * x + y)) = c) as (a & b & x & y & -> & Hx & Hy & Hc).
  { destruct c as [[] [] [] [] [] [] [] []]; by repeat eexists. }
  cbn. by rewrite Hx, Hy, <- Hc.
Qed.

Lemma unhex_digest h : unhex (concat (fmt_02x <$> h)) = Some h.
Proof.
  induction h as [|c h IH]; [done|]. rewrite fmap_cons. cbn [concat]. by rewrite unhex_byte, IH.
Qed.

Lemma byte_val_range c : 0 <= byte_val c < 256.
Proof. unfold byte_val. pose proof (N_ascii_bounded c). lia. Qed.

Lemma hash_str_word e : word (hash_str e).
Proof.
  unfold hash_str. destruct (pf_hash_valid e); [|by by_decision].
  induction (take _ _) as [|c h IH]; [constructor|]. rewrite fmap_cons. cbn [concat].
  apply Forall_app. split; [|done]. apply Forall_app. split; [by apply Forall_replicate|].
  pose proof (byte_val_range c). apply digits_word; lia.
Qed.

(** ** Lines of the listings *)

Lemma syscall_line_reads e :
  line_number (pad_left " " 8 (fmt_d (bs_syscall_nr e))) = Some (bs_syscall_nr e).
Proof. unfold line_number, pad_left. by rewrite line_fields_last, scan_int_fmt by apply fmt_d_word. Qed.

Lemma proc_line_reads e :
  word (cstr (pp_comm e)) →
  line_proc (pad_right 20 (cstr (pp_comm e)) ++ str " " ++ pad_left " " 8 (fmt_d (pp_pid e)))
    = Some (proc_key e).
Proof.
  intros Hw. unfold line_proc, pad_right, pad_left. rewrite <- app_assoc, blanks_join.
  rewrite line_fields_line by (try apply fmt_d_word; by apply word_no_end_blank).
  cbn [fst snd]. by rewrite scan_int_fmt.
Qed.

Lemma file_line_reads e :
  length (pf_hash e) = AEGIS_HASH_SIZE → no_end_blank (file_key e) →
  line_file (pad_right 40 (cstr (pf_path e)) ++ str " " ++ hash_str e) = Some (file_fields e).
Proof.
  intros Hl Hk. unfold line_file, pad_right. rewrite <- app_assoc.
  rewrite (blanks_join _ 0 (hash_str e)).
  rewrite line_fields_line by (done || apply hash_str_word). cbn [fst snd].
  unfold hash_str, file_fields. destruct (pf_hash_valid e); [|by rewrite decide_True].
  rewrite take_ge by lia. rewrite unhex_digest, decide_False; [done|]. intros E.
  apply (f_equal unhex) in E. by rewrite unhex_digest in E.
Qed.

(** Lines put together from two or three pieces. *)
Lemma lines_2 a b s : no_lf (a ++ b) → lines (a ++ b ++ LF :: s) = (a ++ b) :: lines s.
Proof. intros H. by rewrite app_assoc, lines_cons. Qed.
Lemma lines_3 a b c s :
  no_lf (a ++ b ++ c) → lines (a ++ b ++ c ++ LF :: s) = (a ++ b ++ c) :: lines s.
Proof. intros H. rewrite !app_assoc in *. by rewrite lines_cons. Qed.

Lemma lines_empty s : lines (LF :: s) = [] :: lines s.
Proof. done. Qed.

Ltac split_line :=
  first [rewrite lines_empty | rewrite lines_3; [|no_lf] | rewrite lines_2; [|no_lf] | rewrite lines_cons; [|no_lf]].

(** What each line of a listing reads as. *)
Lemma listing_reads {A B} (f g : A → bytes) (rd : bytes → option B) (v : A → B) (l : list A) :
  (∀ x, g x = f x ++ [LF]) → Forall (λ x, no_lf (f x) ∧ rd (f x) = Some (v x)) l →
  rd <$> lines (concat (g <$> l)) = Some <$> (v <$> l).
Proof.
  intros Hg Hl. rewrite (lines_concat f g l Hg) by (eapply Forall_impl; [exact Hl|]; by intros x []).
  induction Hl as [|x l [_ Hx] _ IH]; [done|]. rewrite !fmap_cons. by rewrite Hx, IH.
Qed.

Lemma proc_lines r :
  Forall (λ e, word (cstr (pp_comm e))) (protected_procs r) →
  let l := lines (aegis_protected_process_show r []) in
  head l = Some (str "AEGIS Protected Processes (" ++ fmt_d (protected_proc_count r) ++ str " entries):") ∧
  line_proc <$> drop 3 l = Some <$> (proc_key <$> protected_procs r).
Proof.
  intros Hw. cbn zeta. unfold aegis_protected_process_show. cbn [app].
  pose proof (fmt_d_word (protected_proc_count r)). do 3 split_line. split; [done|]. cbn [drop].
  apply (listing_reads (λ e, pad_right 20 (cstr (pp_comm e)) ++ str " " ++ pad_left " " 8 (fmt_d (pp_pid e)))).
  - intros e. unfold proc_line. by rewrite <- !app_assoc.
  - eapply Forall_impl; [exact Hw|]. intros e He. cbn beta in He. split; [|by apply proc_line_reads].
    pose proof (fmt_d_word (pp_pid e)). no_lf.
Qed.

(** Paths the listing shows unambiguously: one line, no blank at the end. *)
Definition listable (path : bytes) : Prop := no_lf path ∧ no_end_blank path.

#[global] Instance listable_dec p : Decision (listable p).
Proof. unfold listable. apply _. Defined.

Lemma file_lines r :
  Forall file_typed (protected_files r) → Forall listable (file_key <$> protected_files r) →
  let l := lines (aegis_protected_file_show r []) in
  head l = Some (str "AEGIS Protected Files (" ++ fmt_d (protected_file_count r) ++ str " entries):") ∧
  line_file <$> drop 3 l = Some <$> (file_fields <$> protected_files r).
Proof.
  intros Ht Hl. cbn zeta. unfold aegis_protected_file_show. cbn [app].
  pose proof (fmt_d_word (protected_file_count r)). do 3 split_line. split; [done|]. cbn [drop].
  apply (listing_reads (λ e, pad_right 40 (cstr (pf_path e)) ++ str " " ++ hash_str e)).
  - intros e. unfold file_line. by rewrite <- !app_assoc.
  - rewrite Forall_fmap in Hl. eapply Forall_impl; [exact (proj2 (Forall_and _ _) (conj Ht Hl))|].
    intros e [[_ Hh] [Hp Hb]]. split; [|by apply file_line_reads].
    pose proof (hash_str_word e). unfold file_key in Hp. no_lf.
Qed.

Lemma syscall_lines r :
  let l := lines (aegis_blocked_syscall_show r []) in
  head l = Some (str "AEGIS Blocked Syscalls (" ++ fmt_d (blocked_syscall_count r) ++ str " entries):") ∧
  line_number <$> drop 3 l = Some <$> (bs_syscall_nr <$> blocked_syscalls r).
Proof.
  cbn zeta. unfold aegis_blocked_syscall_show. cbn [app].
  pose proof (fmt_d_word (blocked_syscall_count r)). do 3 split_line. split; [done|]. cbn [drop].
  apply (listing_reads (λ e, pad_left " " 8 (fmt_d (bs_syscall_nr e)))); [done|].
  apply Forall_forall. intros e _. split; [|by apply syscall_line_reads].
  pose proof (fmt_d_word (bs_syscall_nr e)). no_lf.
Qed.

(** The labels of the statistics and of the switches are 24 bytes wide. *)
Definition line_counter (l : bytes) : option Z := scan_int (drop 24 l).

Definition line_flag (l : bytes) : option bool :=
  if decide (drop 24 l = str "ON") then Some true
  else if decide (drop 24 l = str "OFF") then Some false else None.

Lemma counter_line label n : length label = 24%nat → line_counter (label ++ fmt_d n) = Some n.
Proof. intros Hl. unfold line_counter. rewrite drop_app_length' by done. apply scan_int_fmt. Qed.

Lemma flag_line label b : length label = 24%nat → line_flag (label ++ on_off b) = Some b.
Proof. intros Hl. unfold line_flag. rewrite drop_app_length' by done. by destruct b. Qed.

Lemma stats_lines c :
  line_counter <$> take 5 (drop 2 (lines (aegis_stats_show c [])))
    = Some <$> [ptrace_blocked c; file_violations c; syscall_violations c; module_violations c;
                total_events c].
Proof.
  unfold aegis_stats_show. cbn [app].
  pose proof (fmt_d_word (ptrace_blocked c)). pose proof (fmt_d_word (file_violations c)).
  pose proof (fmt_d_word (syscall_violations c)). pose proof (fmt_d_word (module_violations c)).
  pose proof (fmt_d_word (total_events c)).
  do 7 split_line. cbn [take drop]. rewrite !fmap_cons. by rewrite !counter_line.
Qed.

Lemma on_off_word b : word (on_off b).
Proof. destruct b; by_decision. Qed.

Lemma status_lines c :
  0 <= features c →
  let l := lines (aegis_status_show c []) in
  (drop 17 <$> l !! 5%nat) = Some (if enabled c then str "ACTIVE" else str "DISABLED") ∧
  (drop 19 <$> l !! 6%nat) = Some (fmt_08x (features c)) ∧
  line_flag <$> take 5 (drop 8 l)
    = (λ f, Some (AEGIS_FEATURE_CHECK c f)) <$>
        [AEGIS_FEATURE_PROCESS_PROTECT; AEGIS_FEATURE_FILE_INTEGRITY; AEGIS_FEATURE_SYSCALL_AUDIT;
         AEGIS_FEATURE_MODULE_CONTROL; AEGIS_FEATURE_PTRACE_RESTRICT] ∧
  line_flag <$> take 3 (drop 14 l)
    = Some <$> [ptrace_restrict_all c; file_integrity_enforce c; module_loading_denied c].
Proof.
  intros Hf. cbn zeta. unfold aegis_status_show. cbv zeta.
  rewrite <- !app_assoc. cbn [app].
  assert (word (fmt_08x (features c))) as Hx.
  { apply Forall_app. split; [by apply Forall_replicate|]. apply digits_word; lia. }
  pose proof on_off_word as Hw.
  assert (∀ b : bool, word (if b then str "ACTIVE" else str "DISABLED")) as He by (intros []; by_decision).
  repeat split_line.
  cbn [take drop]. rewrite !fmap_cons, !flag_line by done. repeat split.
Qed.

(** ** Read files of reachable states *)

Section show_theorems.
Context `{K : Kernel} `{WL : !WidthLaws} `{UL : !UninitLaws} `{SL : !ScanLaws} `{KL : !KstrtoLaws}
        `{YL : !SysctlLaws} `{FL : !SecfsLaws} `{NL : !NrLaws}.

(** The heading of a listing. *)
Definition listing_heading (what : string) (n : nat) : bytes :=
  str "AEGIS " ++ str what ++ str " (" ++ fmt_d (Z.of_nat n) ++ str " entries):".

(** C37: the read files of a reachable state read back as what they show: the
    three listings give the number of entries, then the names and pids, the
    paths and digests (when no path holds a newline or ends in a blank) and the
    system call numbers, in order; the statistics give the five counters; the
    status file gives the enable switch, the feature mask and every flag. *)
Theorem read_files_read_back fuel s :
  reach fuel s →
  (let l := lines (aegis_protected_procs_open s) in
   head l = Some (listing_heading "Protected Processes" (length (proc_abs s))) ∧
   line_proc <$> drop 3 l = Some <$> proc_abs s) ∧
  (Forall listable (file_abs s) →
   let l := lines (aegis_protected_files_open s) in
   head l = Some (listing_heading "Protected Files" (length (file_abs s))) ∧
   line_file <$> drop 3 l = Some <$> (file_fields <$> protected_files (reg s))) ∧
  (let l := lines (aegis_blocked_syscalls_open s) in
   head l = Some (listing_heading "Blocked Syscalls" (length (syscall_abs s))) ∧
   line_number <$> drop 3 l = Some <$> syscall_abs s) ∧
  (line_counter <$> take 5 (drop 2 (lines (aegis_stats_open s)))
     = Some <$> [ptrace_blocked (cfg s); file_violations (cfg s); syscall_violations (cfg s);
                 module_violations (cfg s); total_events (cfg s)]) ∧
  (let l := lines (aegis_status_open s) in
   (drop 17 <$> l !! 5%nat) = Some (if enabled (cfg s) then str "ACTIVE" else str "DISABLED") ∧
   (drop 19 <$> l !! 6%nat) = Some (fmt_08x (features (cfg s))) ∧
   line_flag <$> take 5 (drop 8 l)
     = (λ f, Some (AEGIS_FEATURE_CHECK (cfg s) f)) <$>
         [AEGIS_FEATURE_PROCESS_PROTECT; AEGIS_FEATURE_FILE_INTEGRITY; AEGIS_FEATURE_SYSCALL_AUDIT;
          AEGIS_FEATURE_MODULE_CONTROL; AEGIS_FEATURE_PTRACE_RESTRICT] ∧
   line_flag <$> take 3 (drop 14 l)
     = Some <$> [ptrace_restrict_all (cfg s); file_integrity_enforce (cfg s);
                 module_loading_denied (cfg s)]).
Proof.
  intros Hr. pose proof (reach_inv fuel s Hr) as Hi.
  destruct (reachable_typed fuel s Hr) as ([Tp Tf _] & _ & _ & [Hf _]).
  destruct (inv_procs _ _ Hi) as [Cp _], (inv_files _ _ Hi) as [Cf _], (inv_syscalls _ _ Hi) as [Cs _].
  cbn in Cp, Cf, Cs. unfold proc_abs, file_abs, syscall_abs, pl_abs, listing_heading.
  cbn [pl_entries pl_key proc_list file_list syscall_list]. rewrite !length_fmap, <- Cp, <- Cf, <- Cs.
  split; [|split; [|split; [|split]]].
  - apply (proc_lines (reg s)). eapply Forall_impl; [exact Tp|]. by intros e (_ & _ & Hw).
  - intros Hl. by apply (file_lines (reg s)).
  - apply (syscall_lines (reg s)).
  - apply (stats_lines (cfg s)).
  - apply (status_lines (cfg s)). lia.
Qed.

End show_theorems.

Lemma read_files_read_back_witness :
  line_proc <$> drop 3 (lines (aegis_protected_procs_open s_denied)) = Some <$> proc_abs s_denied ∧
  line_file <$> drop 3 (lines (aegis_protected_files_open s_denied))
    = Some <$> (file_fields <$> protected_files (reg s_denied)).
Proof.
  destruct (read_files_read_back 20 s_denied s_denied_reach) as ([_ H1] & H2 & _).
  split; [exact H1|]. apply H2. by_decision.
Defined.
