(* ===== verification/Concurrency.v ===== *)
(** * Concurrent use of the three lists

    The add routines of aegis_process.c, aegis_file.c and aegis_audit.c check
    capacity and duplicates under the list's spinlock, drop the lock to allocate
    (and hash), and take it again to link the entry; the delete routines, the
    lookups of the hooks and the exit routines run in one critical section; the
    show routines read the count before they take the lock.  Here each critical
    section, and each stretch of code between two of them, is one step of a
    thread, and threads interleave arbitrarily.  Entries have addresses, so that
    freeing and later use of an entry can be told apart.  The three lists are
    instances of [locked_list]. *)

From S2P Require Import Prelude CString AegisH Kernel State RefKernel PolicyList.
From S2P Require Import Process FileHash File SyscallList Lsm Sysctl Control Securityfs System Scenario.

(** ** Lists behind a lock *)

Record locked_list := LL {
  ll_entry : Type;
  ll_key : Type;
  ll_cap : Z;
  ll_match : ll_key → ll_entry → bool;
  ll_build : ll_key → bytes * bool → ll_entry;   (* key and digest, if any *)
  ll_late : bool;                   (* the entry is read again after the unlock *)
}.

Definition proc_locked : locked_list :=
  LL aegis_protected_proc (bytes * Z) AEGIS_MAX_PROTECTED_PROCS
     (λ k, proc_match k.1 k.2) (λ k _, new_proc k.1 k.2) false.

(** [AEGIS_INFO] at the end of the add prints [file->hash_valid]. *)
Definition file_locked : locked_list :=
  LL aegis_protected_file bytes AEGIS_MAX_PROTECTED_FILES
     file_match (λ path h, mkFile (new_path path) h.1 h.2) true.

Definition syscall_locked : locked_list :=
  LL aegis_blocked_syscall Z AEGIS_MAX_BLOCKED_SYSCALLS
     syscall_match (λ nr _, mkSyscall nr) false.

Section concurrency.
Context (L : locked_list).

(** ** Threads *)

Record shared := mkSh {
  sh_list : list (nat * ll_entry L);    (* address and contents, in list order *)
  sh_count : Z;
  sh_next : nat;                        (* addresses not yet handed out *)
  sh_freed : list nat;
  sh_bad : list nat;                    (* addresses read after they were freed *)
}.

Inductive thread :=
  | Add_start (k : ll_key L)            (* before the first critical section *)
  | Add_checked (k : ll_key L)          (* no duplicate, room left, lock dropped *)
  | Add_built (k : ll_key L) (a : nat) (e : ll_entry L)   (* allocated and filled in *)
  | Add_linked (a : nat)                (* on the list, lock dropped, log to be written *)
  | Del_start (k : ll_key L)
  | Lookup_start (p : ll_entry L → bool)   (* the comparison of the lookup loop *)
  | Exit_start
  | Show_start
  | Show_header (n : Z)                 (* the count is printed, the lock not yet taken *)
  | Shown (n : Z) (l : list (ll_entry L))
  | Done (rc : Z).

(** The environment's choices for a step: the allocator and the digest. *)
Record choice := mkChoice { ch_alloc : bool; ch_digest : bytes * bool }.

Definition tstep (ch : choice) (sh : shared) (t : thread) : shared * thread :=
  match t with
  | Add_start k =>
      if ll_cap L <=? sh_count sh then (sh, Done (- ENOSPC))
      else if existsb (λ x, ll_match L k x.2) (sh_list sh) then (sh, Done (- EEXIST))
      else (sh, Add_checked k)
  | Add_checked k =>
      if negb (ch_alloc ch) then (sh, Done (- ENOMEM))
      else (mkSh (sh_list sh) (sh_count sh) (S (sh_next sh)) (sh_freed sh) (sh_bad sh),
            Add_built k (sh_next sh) (ll_build L k (ch_digest ch)))
  | Add_built k a e =>
      (mkSh (sh_list sh ++ [(a, e)]) (i32 (sh_count sh + 1)) (sh_next sh) (sh_freed sh) (sh_bad sh),
       Add_linked a)
  | Add_linked a =>
      (mkSh (sh_list sh) (sh_count sh) (sh_next sh) (sh_freed sh)
         (if ll_late L && bool_decide (a ∈ sh_freed sh) then a :: sh_bad sh else sh_bad sh),
       Done 0)
  | Del_start k =>
      match List.find (λ x, ll_match L k x.2) (sh_list sh),
            remove_first (λ x, ll_match L k x.2) (sh_list sh) with
      | Some (a, _), Some l =>
          (mkSh l (i32 (sh_count sh - 1)) (sh_next sh) (a :: sh_freed sh) (sh_bad sh), Done 0)
      | _, _ => (sh, Done (- ENOENT))
      end
  | Lookup_start p => (sh, Done (Z.b2z (existsb (λ x, p x.2) (sh_list sh))))
  | Exit_start =>
      (mkSh [] 0 (sh_next sh) ((sh_list sh).*1 ++ sh_freed sh) (sh_bad sh), Done 0)
  | Show_start => (sh, Show_header (sh_count sh))
  | Show_header n => (sh, Shown n (sh_list sh).*2)
  | Shown n l => (sh, Shown n l)
  | Done rc => (sh, Done rc)
  end.

Definition conf : Type := shared * list thread.

(** Thread [i] takes a step. *)
Definition cstep (c : conf) (x : nat * choice) : conf :=
  match c.2 !! x.1 with
  | Some t => let r := tstep x.2 c.1 t in (r.1, <[x.1 := r.2]> c.2)
  | None => c
  end.

(** An interleaving. *)
Definition crun (sched : list (nat * choice)) (c : conf) : conf := fold_left cstep sched c.

Definition fresh_thread (t : thread) : bool :=
  match t with
  | Add_start _ | Del_start _ | Lookup_start _ | Exit_start | Show_start => true
  | _ => false
  end.

(** The list as one thread alone leaves it. *)
Definition quiescent (sh : shared) : Prop :=
  sh_count sh = Z.of_nat (length (sh_list sh)) ∧ sh_count sh <= ll_cap L ∧
  NoDup ((sh_list sh).*1 ++ sh_freed sh) ∧
  Forall (λ a, (a < sh_next sh)%nat) ((sh_list sh).*1 ++ sh_freed sh).

(** ** Invariant *)

(** An addition that has passed its checks and not yet linked its entry. *)
Definition pending (t : thread) : nat :=
  match t with Add_checked _ | Add_built _ _ _ => 1 | _ => 0 end.

Definition held (t : thread) : list nat :=
  match t with Add_built _ a _ => [a] | _ => [] end.

(** Every address handed out: on the list, freed, or held by a thread. *)
Definition owned (c : conf) : list nat :=
  (sh_list c.1).*1 ++ sh_freed c.1 ++ concat (held <$> c.2).

Record cinv (n : nat) (c : conf) : Prop := {
  ci_len : length c.2 = n;
  ci_count : sh_count c.1 = Z.of_nat (length (sh_list c.1));
  ci_cap : sh_count c.1 + Z.of_nat (sum_list_with pending c.2) <= ll_cap L - 1 + Z.of_nat n;
  ci_nodup : NoDup (owned c);
  ci_next : Forall (λ a, (a < sh_next c.1)%nat) (owned c);
}.

Lemma pending_le ts : (sum_list_with pending ts <= length ts)%nat.
Proof. induction ts as [|[] ts IH]; cbn; lia. Qed.

(** A step changes the addresses owned in one of three ways. *)
Lemma tstep_owned ch sh t :
  let r := tstep ch sh t in
  (∀ rest, ((sh_list r.1).*1 ++ sh_freed r.1 ++ held r.2 ++ rest
     ≡ₚ (sh_list sh).*1 ++ sh_freed sh ++ held t ++ rest) ∧ sh_next r.1 = sh_next sh) ∨
  (∀ rest, ((sh_list r.1).*1 ++ sh_freed r.1 ++ held r.2 ++ rest
     ≡ₚ sh_next sh :: (sh_list sh).*1 ++ sh_freed sh ++ held t ++ rest) ∧
     sh_next r.1 = S (sh_next sh)).
Proof.
  destruct t as [k|k|k a e|a|k|p| | |n|n l|rc]; cbn [tstep]; try by left.
  - repeat case_match; by left.
  - destruct (negb _); [by left|]. right. intros rest. cbn. split; [|done].
    by rewrite !Permutation_middle.
  - left. intros rest. cbn. split; [|done]. rewrite fmap_app. cbn.
    rewrite <- app_assoc. cbn. by rewrite !Permutation_middle.
  - left. intros rest. destruct (List.find _ _) as [[a e]|] eqn:F; [|done].
    destruct (remove_first _ _) as [l|] eqn:R; [|done]. cbn. split; [|done].
    apply remove_first_Some in R as (l1 & x & l2 & E & -> & Hx & Hl1).
    rewrite E in F |- *. assert (x = (a, e)) as ->.
    { clear E. induction Hl1 as [|y l1 Hy _ IH]; cbn in F; [rewrite Hx in F; congruence|].
      rewrite Hy in F. by apply IH. }
    rewrite !fmap_app. cbn. rewrite <- !app_assoc. cbn. by rewrite !Permutation_middle.
  - left. intros rest. cbn. by rewrite <- app_assoc.
Qed.

Lemma tstep_count ch sh t n m :
  sh_count sh = Z.of_nat (length (sh_list sh)) →
  sh_count sh + Z.of_nat (m + pending t) <= ll_cap L - 1 + Z.of_nat n →
  (m < n)%nat → ll_cap L + Z.of_nat n <= INT_MAX →
  let r := tstep ch sh t in
  sh_count r.1 = Z.of_nat (length (sh_list r.1)) ∧
  sh_count r.1 + Z.of_nat (m + pending r.2) <= ll_cap L - 1 + Z.of_nat n.
Proof.
  intros Hc Hcap Hm Hmax.
  destruct t as [k|k|k a e|a|k|p| | |n0|n0 l|rc]; cbn [tstep]; try (cbn in *; split; [done|lia]).
  - destruct (Z.leb_spec (ll_cap L) (sh_count sh)); cbn; [cbn in Hcap; split; [done|lia]|].
    destruct (existsb _ _); cbn; cbn in Hcap; split; [done|lia|done|lia].
  - destruct (negb _); cbn in *; split; [done|lia|done|lia].
  - cbn in *. rewrite length_app. cbn.
    rewrite i32_small by (unfold INT_MIN, INT_MAX in *; lia). split; lia.
  - destruct (List.find _ _) as [[a e]|]; [|cbn in *; split; [done|lia]].
    destruct (remove_first _ _) as [l|] eqn:R; [|cbn in *; split; [done|lia]].
    apply remove_first_length in R. cbn in *.
    rewrite i32_small by (unfold INT_MIN, INT_MAX in *; lia). split; lia.
Qed.

Lemma cstep_inv n c x :
  ll_cap L + Z.of_nat n <= INT_MAX → cinv n c → cinv n (cstep c x).
Proof.
  intros Hmax [Hlen Hcount Hcap Hnd Hnext]. destruct c as [sh ts], x as [i ch].
  unfold cstep. cbn [fst snd] in *. destruct (ts !! i) as [t|] eqn:Ht; [|by split].
  set (r := tstep ch sh t). apply list_elem_of_split_length in Ht as (l1 & l2 & -> & ->).
  rewrite insert_app_r_alt, Nat.sub_diag by done. cbn [insert list_insert fst snd] in *.
  rewrite sum_list_with_app in Hcap. cbn [sum_list_with] in Hcap. rewrite length_app in Hlen. cbn in Hlen.
  pose proof (pending_le l1) as P1. pose proof (pending_le l2) as P2.
  destruct (tstep_count ch sh t n (sum_list_with pending l1 + sum_list_with pending l2) Hcount
    ltac:(lia) ltac:(lia) Hmax) as [Hc' Hcap']. fold r in Hc', Hcap'.
  assert (∀ sh' t', owned (sh', l1 ++ t' :: l2) ≡ₚ
    (sh_list sh').*1 ++ sh_freed sh' ++ held t' ++ concat (held <$> (l1 ++ l2))) as Hown.
  { intros sh' t'. unfold owned. cbn. rewrite !fmap_app, !fmap_cons, !concat_app. cbn.
    do 2 f_equiv. by rewrite !app_assoc, (Permutation_app_comm (concat (held <$> l1))). }
  split; cbn [fst snd].
  - rewrite length_app. cbn. lia.
  - done.
  - rewrite sum_list_with_app. cbn [sum_list_with]. lia.
  - rewrite Hown. rewrite Hown in Hnd, Hnext.
    destruct (tstep_owned ch sh t) as [H|H]; fold r in H; destruct (H (concat (held <$> (l1 ++ l2)))) as [-> _];
      [done|]. apply NoDup_cons. split; [|done]. intros Hin. rewrite Forall_forall in Hnext.
    apply Hnext in Hin. lia.
  - rewrite Hown. rewrite Hown in Hnext.
    destruct (tstep_owned ch sh t) as [H|H]; fold r in H; destruct (H (concat (held <$> (l1 ++ l2)))) as [-> ->];
      [done|]. apply Forall_cons. split; [lia|]. eapply Forall_impl; [exact Hnext|]. cbn. lia.
Qed.

Lemma fresh_idle ts :
  forallb fresh_thread ts = true → sum_list_with pending ts = 0%nat ∧ concat (held <$> ts) = [].
Proof.
  induction ts as [|t ts IH]; [done|]. cbn [forallb]. intros [Ht [H1 H2]%IH]%andb_true_iff.
  cbn. rewrite H1, H2. by destruct t.
Qed.

Lemma crun_inv sched sh ts :
  quiescent sh → forallb fresh_thread ts = true → ts ≠ [] →
  ll_cap L + Z.of_nat (length ts) <= INT_MAX →
  cinv (length ts) (crun sched (sh, ts)).
Proof.
  intros (Hc & Hcap & Hnd & Hnx) Hf Hne Hmax. destruct (fresh_idle ts Hf) as [Hp Hh].
  assert (cinv (length ts) (sh, ts)) as H0.
  { destruct ts as [|t ts]; [done|].
    split; [done|done| | |]; unfold owned; cbn [fst snd]; rewrite ?Hh, ?app_nil_r; try done.
    rewrite Hp. cbn [length]. lia. }
  generalize dependent (sh, ts). intros c H0. revert c H0.
  induction sched as [|x sched IH]; intros c H0; [done|]. cbn. by apply IH, cstep_inv.
Qed.

(** C18: whatever the interleaving of any number of concurrent additions,
    deletions, lookups, listings and exits, the count stays equal to the number of entries, no entry is on
    the list twice, no freed entry is on the list, and the capacity is exceeded
    by less than the number of threads. *)
Theorem interleavings_keep_list_consistent sched sh ts :
  quiescent sh → forallb fresh_thread ts = true → ts ≠ [] →
  ll_cap L + Z.of_nat (length ts) <= INT_MAX →
  let sh' := (crun sched (sh, ts)).1 in
  sh_count sh' = Z.of_nat (length (sh_list sh')) ∧
  sh_count sh' <= ll_cap L - 1 + Z.of_nat (length ts) ∧
  NoDup ((sh_list sh').*1) ∧ (∀ a, a ∈ (sh_list sh').*1 → a ∉ sh_freed sh').
Proof.
  intros Hq Hf Hne Hmax. destruct (crun_inv sched sh ts Hq Hf Hne Hmax) as [_ Hc Hcap Hnd _].
  cbn zeta. split; [done|split; [lia|]]. unfold owned in Hnd. rewrite app_assoc in Hnd.
  apply NoDup_app in Hnd as (Hnd & _ & _). apply NoDup_app in Hnd as (H1 & H2 & _). by split.
Qed.

Definition empty_list : shared := mkSh [] 0 0 [] [].

Definition run_of (order : list nat) (ch : choice) : list (nat * choice) := (λ i, (i, ch)) <$> order.

(** Symbolic execution of an interleaving, one step at a time. *)
Lemma crun_step i ch sched sh ts t sh' t' :
  ts !! i = Some t → tstep ch sh t = (sh', t') →
  crun ((i, ch) :: sched) (sh, ts) = crun sched (sh', <[i := t']> ts).
Proof. intros Ht Hs. unfold crun. cbn [fold_left]. unfold cstep at 2. cbn. by rewrite Ht, Hs. Qed.

(** C38: the checks are not repeated when the lock is retaken: two concurrent
    additions of one key can both succeed, and then a deletion that succeeds
    leaves the key on the list.  This holds for each of the three lists. *)
Theorem racing_adds_duplicate k ch :
  0 < ll_cap L → ch_alloc ch = true → ll_match L k (ll_build L k (ch_digest ch)) = true →
  let c := crun (run_of [0; 1; 0; 1; 0; 1; 0; 1; 2]%nat ch)
             (empty_list, [Add_start k; Add_start k; Del_start k]) in
  c.2 = [Done 0; Done 0; Done 0] ∧
  existsb (λ x, ll_match L k x.2) (sh_list c.1) = true.
Proof.
  intros Hcap Ha Hm. unfold run_of, empty_list. cbn [fmap list_fmap].
  apply Z.leb_gt in Hcap.
  do 2 (erewrite crun_step; [|reflexivity|cbn; rewrite Hcap; reflexivity]).
  do 2 (erewrite crun_step; [|reflexivity|cbn; rewrite Ha; reflexivity]).
  do 4 (erewrite crun_step; [|reflexivity|reflexivity]).
  erewrite crun_step; [|reflexivity|cbn; rewrite Hm; reflexivity].
  cbn. by rewrite Hm.
Qed.

End concurrency.

Lemma new_file_matches path h :
  file_valid path → file_match path (ll_build file_locked path h) = true.
Proof.
  intros Hv. apply file_match_spec; [apply new_path_wf|]. unfold file_key. cbn.
  by rewrite new_path_key, cstr_id by apply Hv.
Qed.

(** C39: the log line at the end of aegis_protected_file_add reads the entry
    after the lock is dropped: a deletion that runs in between frees it first,
    so an addition and a deletion of the same path can read freed memory. *)
Theorem file_add_reads_freed_entry path ch :
  ch_alloc ch = true → file_valid path →
  let c := crun file_locked (run_of [0; 0; 0; 1; 0]%nat ch)
             (empty_list file_locked, [Add_start file_locked path; Del_start file_locked path]) in
  c.2 = [Done file_locked 0; Done file_locked 0] ∧ sh_bad file_locked c.1 = [0%nat].
Proof.
  intros Ha Hv. pose proof (new_file_matches path (ch_digest ch) Hv) as Hm.
  unfold run_of, empty_list. cbn [fmap list_fmap].
  erewrite crun_step; [|reflexivity|reflexivity].
  erewrite crun_step; [|reflexivity|cbn; rewrite Ha; reflexivity].
  erewrite crun_step; [|reflexivity|reflexivity].
  erewrite crun_step; [|reflexivity|cbn in *; rewrite Hm; reflexivity].
  erewrite crun_step; [|reflexivity|reflexivity].
  done.
Qed.

(** ** One thread alone is the sequential routine *)

Lemma existsb_snd {A B} (f : B → bool) (l : list (A * B)) :
  existsb (λ x, f x.2) l = existsb f l.*2.
Proof. induction l as [|x l IH]; [done|]. cbn. by rewrite IH. Qed.

Lemma remove_first_snd {A B} (f : B → bool) (l : list (A * B)) :
  option_map (λ l : list (A * B), l.*2) (remove_first (λ x, f x.2) l) = remove_first f l.*2.
Proof.
  induction l as [|x l IH]; [done|]. cbn. destruct (f x.2); [done|]. rewrite <- IH.
  by destruct (remove_first _ l).
Qed.

Lemma find_remove_first {A} (f : A → bool) (l : list A) :
  is_Some (List.find f l) ↔ is_Some (remove_first f l).
Proof.
  induction l as [|x l IH]; cbn; [done|]. destruct (f x); [split; eauto|]. rewrite IH.
  destruct (remove_first f l); cbn; split; intros [y Hy]; eauto; discriminate.
Qed.

Section sequential.
Context `{K : Kernel} (L : locked_list) `{!PolicyList (ll_entry L) (ll_key L)}.

(** The shared list stands for the list of the sequential model. *)
Definition represents (sh : shared L) (s : sys) : Prop :=
  (sh_list L sh).*2 = pl_entries s ∧ sh_count L sh = pl_count s.

(** The thread [t], alone, does what the routine [m] does from states that
    satisfy [on]: same result, same list, same count. *)
Definition sequential (on : sys → Prop) (t : thread L) (m : M Z) : Prop :=
  ∀ sh s rc s', on s → represents sh s → m s = Some (rc, s') →
  ∃ ch, let c := crun L (run_of [0; 0; 0; 0]%nat ch) (sh, [t]) in
    c.2 = [Done L rc] ∧ represents c.1 s'.

Lemma sequential_add on k m :
  pl_cap = ll_cap L →
  (∀ s, on s → wlp m (λ rc s', ∃ h, add_outcome (ll_match L k) (ll_build L k h) s rc s') s) →
  sequential on (Add_start L k) m.
Proof.
  intros Hcap Hm sh s rc s' Hon [Hl Hc] Hr.
  destruct (wp_eq _ _ _ _ _ _ Hr (Hm s Hon)) as [h Ho].
  exists (mkChoice (rc =? 0) h). unfold run_of. cbn [fmap list_fmap].
  unfold add_outcome in Ho. rewrite <- Hl, <- existsb_snd, <- Hc, Hcap in Ho.
  destruct Ho as [(->&Hf&He&Hn)|[(->&Hf&Hd&He&Hn)|[(->&Hf&Hd&_&He&Hn)|(->&Hf&Hd&_&He&Hn)]]]; errno.
  - do 4 (erewrite crun_step; [|reflexivity|cbn; rewrite ?Hf; reflexivity]).
    split; [done|]. split; cbn; congruence.
  - do 4 (erewrite crun_step; [|reflexivity|cbn; rewrite ?Hf, ?Hd; reflexivity]).
    split; [done|]. split; cbn; congruence.
  - do 4 (erewrite crun_step; [|reflexivity|cbn; rewrite ?Hf, ?Hd; reflexivity]).
    split; [done|]. split; cbn; congruence.
  - do 4 (erewrite crun_step; [|reflexivity|cbn; rewrite ?Hf, ?Hd; reflexivity]).
    split; [done|]. split; cbn; [|congruence]. by rewrite fmap_app, He.
Qed.

Lemma sequential_del on k m :
  (∀ s, on s → wlp m (λ rc s', del_outcome (ll_match L k) s rc s') s) →
  sequential on (Del_start L k) m.
Proof.
  intros Hm sh s rc s' Hon [Hl Hc] Hr. pose proof (wp_eq _ _ _ _ _ _ Hr (Hm s Hon)) as Ho.
  exists (mkChoice true ([], false)). unfold run_of. cbn [fmap list_fmap].
  unfold del_outcome in Ho. rewrite <- Hl, <- remove_first_snd in Ho.
  pose proof (find_remove_first (λ x, ll_match L k x.2) (sh_list L sh)) as Hfr.
  destruct (remove_first _ (sh_list L sh)) as [l|] eqn:R; cbn in Ho; destruct Ho as (-> & Hp & Hn).
  - destruct (proj2 Hfr ltac:(eauto)) as [[a e] F].
    do 4 (erewrite crun_step; [|reflexivity|cbn; rewrite ?F, ?R; reflexivity]).
    split; [done|]. split; cbn; congruence.
  - destruct (List.find _ _) as [x|] eqn:F; [by destruct (proj1 Hfr ltac:(eauto))|].
    do 4 (erewrite crun_step; [|reflexivity|cbn; rewrite ?F; reflexivity]).
    split; [done|]. split; cbn; congruence.
Qed.

Lemma sequential_lookup on p m :
  (∀ s, on s → m s = Some (existsb p (pl_entries s), s)) →
  sequential on (Lookup_start L p) (b ← m; mret (Z.b2z b)).
Proof.
  intros Hm sh s rc s' Hon [Hl Hc] Hr. exists (mkChoice true ([], false)).
  unfold mbind, M_bind in Hr. rewrite (Hm s Hon) in Hr. injection Hr as <- <-.
  unfold run_of. cbn [fmap list_fmap].
  do 4 (erewrite crun_step; [|reflexivity|reflexivity]). cbn.
  split; [|done]. by rewrite existsb_snd, Hl.
Qed.

End sequential.

Section routines.
Context `{K : Kernel}.

Definition anywhere (s : sys) : Prop := True.

(** A thread that runs without interference does what the sequential
    routine of its list does, for the additions, deletions and lookups of all
    three lists: same result, same list, same count.  (The lookups reach the
    list only when their features are on, and a negative system call is refused
    before the lock is taken.) *)
Lemma lone_thread_is_sequential fuel comm pid path nr task :
  (sequential proc_locked anywhere (Add_start proc_locked (comm, pid))
     (aegis_protect_process_add (Some comm) pid) ∧
   sequential proc_locked anywhere (Del_start proc_locked (comm, pid))
     (aegis_protect_process_del (Some comm) pid) ∧
   sequential proc_locked (λ s, AEGIS_FEATURE_CHECK (cfg s) AEGIS_FEATURE_PROCESS_PROTECT = true)
     (Lookup_start proc_locked (proc_covers task))
     (b ← aegis_is_process_protected (Some task); mret (Z.b2z b))) ∧
  (sequential file_locked anywhere (Add_start file_locked path)
     (aegis_protected_file_add fuel (Some path)) ∧
   sequential file_locked anywhere (Del_start file_locked path)
     (aegis_protected_file_del (Some path)) ∧
   sequential file_locked (λ s, AEGIS_FEATURE_CHECK (cfg s) AEGIS_FEATURE_FILE_INTEGRITY = true)
     (Lookup_start file_locked (file_match path))
     (b ← aegis_is_file_protected (Some path); mret (Z.b2z b))) ∧
  (sequential syscall_locked (λ _, 0 <= nr) (Add_start syscall_locked nr)
     (aegis_syscall_block_add nr) ∧
   sequential syscall_locked anywhere (Del_start syscall_locked nr)
     (aegis_syscall_block_del nr) ∧
   sequential syscall_locked (λ s, audit_on (cfg s) = true)
     (Lookup_start syscall_locked (syscall_match nr))
     (b ← aegis_is_syscall_blocked nr; mret (Z.b2z b))).
Proof.
  split; [|split]; (split; [|split]).
  - apply sequential_add; [done|]. intros s _.
    apply wp_weaken, (wp_mono _ _ _ _ _ (process_add_spec comm pid s)).
    intros rc s' (_ & Ho & _). by exists ([], false).
  - apply sequential_del. intros s _.
    apply wp_weaken, (wp_mono _ _ _ _ _ (process_del_spec comm pid s)). by intros rc s' (_ & Ho & _).
  - apply sequential_lookup. intros s Hon. unfold aegis_is_process_protected, feature_check, gets, mbind, M_bind.
    by rewrite Hon.
  - apply sequential_add; [done|]. intros s _.
    apply (wp_mono _ _ _ _ _ (file_add_spec fuel path s)).
    intros rc s' (_ & e & He & _ & Ho & _). exists (pf_hash e, pf_hash_valid e).
    cbn. rewrite <- He. by destruct e.
  - apply sequential_del. intros s _.
    apply wp_weaken, (wp_mono _ _ _ _ _ (file_del_spec path s)). by intros rc s' (_ & Ho & _).
  - apply sequential_lookup. intros s Hon. unfold aegis_is_file_protected, feature_check, gets, mbind, M_bind.
    by rewrite Hon.
  - apply sequential_add; [done|]. intros s Hn.
    apply wp_weaken, (wp_mono _ _ _ _ _ (syscall_add_spec nr s Hn)).
    intros rc s' (_ & Ho & _). by exists ([], false).
  - apply sequential_del. intros s _.
    apply wp_weaken, (wp_mono _ _ _ _ _ (syscall_del_spec nr s)). by intros rc s' (_ & Ho & _).
  - apply sequential_lookup. intros s [Hf Ha]%andb_true_iff.
    unfold aegis_is_syscall_blocked, feature_check, gets, mbind, M_bind. rewrite Hf. cbn. by rewrite Ha.
Qed.

End routines.

(** ** Instances *)

Definition granted : choice := mkChoice true ([], false).

Lemma interleavings_keep_list_consistent_witness :
  sh_count syscall_locked
    (crun syscall_locked (run_of [0; 1; 0; 1; 0; 1]%nat granted)
       (empty_list syscall_locked, [Add_start syscall_locked 101; Add_start syscall_locked 102])).1
    <= 257.
Proof.
  refine (proj1 (proj2 (interleavings_keep_list_consistent syscall_locked _ _ _ _ _ _ _))).
  - split; [reflexivity|]. split; [done|]. split; [constructor|constructor].
  - reflexivity.
  - discriminate.
  - by vm_compute.
Defined.

Lemma racing_adds_duplicate_witness :
  existsb (λ x, proc_match (str "nginx") 0 x.2)
    (sh_list proc_locked
       (crun proc_locked (run_of [0; 1; 0; 1; 0; 1; 0; 1; 2]%nat granted)
          (empty_list proc_locked,
           [Add_start proc_locked (str "nginx", 0); Add_start proc_locked (str "nginx", 0);
            Del_start proc_locked (str "nginx", 0)])).1) = true.
Proof.
  refine (proj2 (racing_adds_duplicate proc_locked (str "nginx", 0) granted _ _ _)).
  - by vm_compute.
  - reflexivity.
  - by vm_compute.
Defined.

Lemma file_add_reads_freed_entry_witness :
  sh_bad file_locked
    (crun file_locked (run_of [0; 0; 0; 1; 0]%nat granted)
       (empty_list file_locked,
        [Add_start file_locked (str "/etc/passwd"); Del_start file_locked (str "/etc/passwd")])).1
    = [0%nat].
Proof.
  refine (proj2 (file_add_reads_freed_entry (str "/etc/passwd") granted _ _)).
  - reflexivity.
  - by_decision.
Defined.
