(* ===== verification/Linearize.v ===== *)
(** * Interleavings explained by atomic operations

    The threads of Concurrency.v take several steps each and run in any order.
    Every interleaving is explained by a history of atomic operations on the
    plain list of entries: each operation takes effect at one instant between its
    start and its end, with the result the thread returns.  What the atomic
    addition does not promise is that the checks still hold at that instant.
    The guarantee the hooks rely on follows from the history alone: a lookup
    never misses an entry that nobody deletes. *)

From S2P Require Import Prelude CString AegisH Kernel State RefKernel PolicyList.
From S2P Require Import Process FileHash File SyscallList Concurrency.

Section linearize.
Context (L : locked_list).

(** ** Atomic operations *)

Inductive op :=
  | OpAdd (k : ll_key L)
  | OpDel (k : ll_key L)
  | OpLookup (p : ll_entry L → bool)
  | OpExit
  | OpShow.

Inductive result :=
  | Rc (rc : Z)
  | Listing (n : Z) (l : list (ll_entry L)).   (* the count printed and the lines *)

(** The effect of an operation on the list of entries. *)
Inductive astep : list (ll_entry L) → op → result → list (ll_entry L) → Prop :=
  | a_add_ok l k h : astep l (OpAdd k) (Rc 0) (l ++ [ll_build L k h])
  | a_add_full l k :
      ll_cap L <= Z.of_nat (length l) → astep l (OpAdd k) (Rc (- ENOSPC)) l
  | a_add_dup l k :
      existsb (ll_match L k) l = true → astep l (OpAdd k) (Rc (- EEXIST)) l
  | a_add_nomem l k : astep l (OpAdd k) (Rc (- ENOMEM)) l
  | a_del_ok l k l' :
      remove_first (ll_match L k) l = Some l' → astep l (OpDel k) (Rc 0) l'
  | a_del_none l k :
      existsb (ll_match L k) l = false → astep l (OpDel k) (Rc (- ENOENT)) l
  | a_lookup l p : astep l (OpLookup p) (Rc (Z.b2z (existsb p l))) l
  | a_exit l : astep l OpExit (Rc 0) []
  | a_show l n : astep l OpShow (Listing n l) l.

Definition event : Type := nat * (op * result).   (* who did what *)

Inductive atrace : list (ll_entry L) → list event → list (ll_entry L) → Prop :=
  | atrace_nil l : atrace l [] l
  | atrace_snoc l0 h l i o r l' :
      atrace l0 h l → astep l o r l' → atrace l0 (h ++ [(i, (o, r))]) l'.

(** ** Threads and their operations *)

Definition start (o : op) : thread L :=
  match o with
  | OpAdd k => Add_start L k
  | OpDel k => Del_start L k
  | OpLookup p => Lookup_start L p
  | OpExit => Exit_start L
  | OpShow => Show_start L
  end.

(** [t] is a point of the routine for [o]. *)
Definition runs_op (o : op) (t : thread L) : Prop :=
  match t with
  | Add_start _ k | Add_checked _ k => o = OpAdd k
  | Add_built _ k a e => o = OpAdd k ∧ ∃ h, e = ll_build L k h
  | Add_linked _ a => ∃ k, o = OpAdd k
  | Del_start _ k => o = OpDel k
  | Lookup_start _ p => o = OpLookup p
  | Exit_start _ => o = OpExit
  | Show_start _ | Show_header _ _ | Shown _ _ _ => o = OpShow
  | Done _ _ => True
  end.

(** What the operation has returned or is bound to return: nothing before the
    step that takes effect. *)
Definition taken (t : thread L) : option result :=
  match t with
  | Add_linked _ _ => Some (Rc 0)
  | Shown _ n l => Some (Listing n l)
  | Done _ rc => Some (Rc rc)
  | _ => None
  end.

Definition entries (sh : shared L) : list (ll_entry L) := (sh_list L sh).*2.

(** The events of thread [i]. *)
Definition events (i : nat) (h : list event) : list (op * result) :=
  (filter (λ x, x.1 = i) h).*2.

(** ** Simulation *)

Lemma tstep_atomic ch sh t o :
  runs_op o t → sh_count L sh = Z.of_nat (length (sh_list L sh)) →
  let r := tstep L ch sh t in
  runs_op o r.2 ∧
  ((taken r.2 = taken t ∧ entries r.1 = entries sh) ∨
   ∃ x, taken t = None ∧ taken r.2 = Some x ∧ astep (entries sh) o x (entries r.1)).
Proof.
  intros Ho Hc. unfold entries.
  destruct t as [k|k|k a e|a|k|p| | |n|n l|rc]; cbn [tstep]; cbn in Ho; try subst o.
  - destruct (Z.leb_spec (ll_cap L) (sh_count L sh)); [|destruct (existsb _ _) eqn:E].
    + split; [done|]. right. exists (Rc (- ENOSPC)). repeat split. constructor.
      cbn. rewrite length_fmap. lia.
    + split; [done|]. right. exists (Rc (- EEXIST)). repeat split. constructor.
      by rewrite <- existsb_snd.
    + split; [done|]. by left.
  - destruct (negb _); cbn; [|split; [eauto|by left]].
    split; [done|]. right. exists (Rc (- ENOMEM)). repeat split. constructor.
  - destruct Ho as [-> [h ->]]. split; [cbn; eauto|]. right. exists (Rc 0). repeat split.
    cbn. rewrite fmap_app. constructor.
  - split; [done|]. by left.
  - pose proof (remove_first_snd (ll_match L k) (sh_list L sh)) as R.
    pose proof (find_remove_first (λ x, ll_match L k x.2) (sh_list L sh)) as F.
    destruct (List.find _ _) as [[a e]|].
    + destruct (remove_first _ _) as [l|]; [|by destruct (proj1 F ltac:(eauto))].
      split; [done|]. right. exists (Rc 0). repeat split. constructor. by rewrite <- R.
    + destruct (remove_first _ _) as [l|]; [by destruct (proj2 F ltac:(eauto))|].
      split; [done|]. right. exists (Rc (- ENOENT)). repeat split. constructor.
      by apply remove_first_None.
  - split; [done|]. right. eexists. repeat split. rewrite existsb_snd. constructor.
  - split; [done|]. right. exists (Rc 0). repeat split. constructor.
  - split; [done|]. by left.
  - split; [done|]. right. eexists. repeat split. constructor.
  - split; [done|]. by left.
  - split; [done|]. by left.
Qed.

(** The history so far explains the configuration. *)
Definition explains (ops : list op) (l0 : list (ll_entry L)) (h : list event) (c : conf L) : Prop :=
  atrace l0 h (entries c.1) ∧ length c.2 = length ops ∧
  Forall (λ x, (x.1 < length ops)%nat) h ∧
  ∀ i o t, ops !! i = Some o → c.2 !! i = Some t →
    runs_op o t ∧ events i h = (o,.) <$> option_list (taken t).

Lemma events_snoc i j x h :
  events i (h ++ [(j, x)]) = events i h ++ (if decide (j = i) then [x] else []).
Proof.
  unfold events. rewrite filter_app, fmap_app. f_equal. rewrite filter_cons, filter_nil. cbn.
  by repeat case_decide.
Qed.

Lemma cstep_explains n ops l0 h c x :
  cinv L n c → explains ops l0 h c → ∃ h', explains ops l0 (h ++ h') (cstep L c x).
Proof.
  intros Hinv (Ht & Hlen & Hids & Hth). destruct c as [sh ts], x as [i ch]. unfold cstep. cbn [fst snd] in *.
  destruct (ts !! i) as [t|] eqn:Hi; [|exists []; by rewrite app_nil_r].
  destruct (lookup_lt_is_Some_2 ops i) as [o Ho]; [rewrite <- Hlen; by eapply lookup_lt_Some|].
  destruct (Hth i o t Ho Hi) as [Hr He].
  destruct (tstep_atomic ch sh t o Hr (ci_count L n _ Hinv)) as [Hr' Hstep].
  set (r := tstep L ch sh t) in *.
  assert (∀ h' : list event, (∀ j, j ≠ i → events j (h ++ h') = events j h) →
    events i (h ++ h') = (o,.) <$> option_list (taken r.2) →
    atrace l0 (h ++ h') (entries r.1) → Forall (λ x, x.1 = i) h' →
    explains ops l0 (h ++ h') (r.1, <[i := r.2]> ts)) as Hgo.
  { intros h' Hj Hi' Ha Hi''. split; [done|]. split; [cbn; by rewrite length_insert|]. cbn.
    split. { apply Forall_app. split; [done|]. eapply Forall_impl; [exact Hi''|]. cbn. intros ? ->.
      by eapply lookup_lt_Some. }
    intros j o' t' Ho' Hj'. destruct (decide (j = i)) as [->|Hne].
    - rewrite list_lookup_insert_eq in Hj' by (by eapply lookup_lt_Some). by simplify_eq.
    - rewrite list_lookup_insert_ne in Hj' by done. rewrite (Hj j Hne). by apply Hth. }
  destruct Hstep as [[E1 E2]|(y & E1 & E2 & Ha)].
  - exists []. apply Hgo; intros; rewrite ?app_nil_r;
      [done|by rewrite E1|by rewrite E2|constructor].
  - exists [(i, (o, y))]. apply Hgo.
    + intros j Hj. rewrite events_snoc, decide_False by done. by rewrite app_nil_r.
    + rewrite events_snoc, decide_True, He, E1, E2 by done. done.
    + by econstructor.
    + by apply Forall_singleton.
Qed.

Lemma fresh_starts ops : forallb (fresh_thread L) (start <$> ops) = true.
Proof. induction ops as [|[] ops IH]; done. Qed.

Lemma crun_explains s ops l0 h c :
  cinv L (length ops) c → ll_cap L + Z.of_nat (length ops) <= INT_MAX →
  explains ops l0 h c → ∃ h', explains ops l0 (h ++ h') (crun L s c).
Proof.
  intros Hinv Hmax. revert h c Hinv. induction s as [|x s IH]; intros h c Hinv He.
  { exists []. by rewrite app_nil_r. }
  destruct (cstep_explains _ _ _ _ _ x Hinv He) as [h1 H1].
  destruct (IH (h ++ h1) (cstep L c x) (cstep_inv L _ c x Hmax Hinv) H1) as [h2 H2].
  exists (h1 ++ h2). by rewrite app_assoc.
Qed.

Lemma start_explains ops sh : explains ops (entries sh) [] (sh, start <$> ops).
Proof.
  split; [constructor|]. split; [cbn; by rewrite length_fmap|]. split; [constructor|].
  cbn. intros i o t Ho Ht.
  rewrite list_lookup_fmap, Ho in Ht. injection Ht as <-. by destruct o.
Qed.

(** Histories of two schedules, one a prefix of the other. *)
Lemma crun_histories s1 s2 ops sh :
  quiescent L sh → ops ≠ [] → ll_cap L + Z.of_nat (length ops) <= INT_MAX →
  ∃ h1 h2, explains ops (entries sh) h1 (crun L s1 (sh, start <$> ops)) ∧
           explains ops (entries sh) (h1 ++ h2) (crun L (s1 ++ s2) (sh, start <$> ops)).
Proof.
  intros Hq Hne Hmax.
  assert (∀ s, cinv L (length ops) (crun L s (sh, start <$> ops))) as Hinv.
  { intros s. rewrite <- (length_fmap start ops). apply crun_inv; [done|apply fresh_starts| |].
    - by destruct ops.
    - by rewrite length_fmap. }
  destruct (crun_explains s1 ops _ [] _ (Hinv []) Hmax (start_explains ops sh)) as [h1 H1].
  destruct (crun_explains s2 ops _ h1 _ (Hinv s1) Hmax H1) as [h2 H2].
  exists h1, h2. split; [done|]. unfold crun. by rewrite fold_left_app.
Qed.

(** C17: any interleaving of operations on a list is explained by a history of
    atomic operations on the plain list of its entries, in which an operation
    that has returned occurs exactly once, with the result it returned, and one
    that has not started does not occur; a longer schedule only extends the
    history, so an operation that returned before another began comes first. *)
Theorem interleavings_linearize s1 s2 ops sh :
  quiescent L sh → ops ≠ [] → ll_cap L + Z.of_nat (length ops) <= INT_MAX →
  let c1 := crun L s1 (sh, start <$> ops) in
  let c2 := crun L (s1 ++ s2) (sh, start <$> ops) in
  ∃ h1 h2,
    atrace (entries sh) h1 (entries c1.1) ∧ atrace (entries sh) (h1 ++ h2) (entries c2.1) ∧
    ∀ i o, ops !! i = Some o →
      ∃ t1 t2, c1.2 !! i = Some t1 ∧ c2.2 !! i = Some t2 ∧
        events i h1 = (o,.) <$> option_list (taken t1) ∧
        events i (h1 ++ h2) = (o,.) <$> option_list (taken t2).
Proof.
  intros Hq Hne Hmax. cbn zeta.
  destruct (crun_histories s1 s2 ops sh Hq Hne Hmax) as (h1 & h2 & (A1 & L1 & _ & T1) & (A2 & L2 & _ & T2)).
  exists h1, h2. split; [done|]. split; [done|]. intros i o Ho.
  pose proof (lookup_lt_Some _ _ _ Ho) as Hlt.
  destruct (lookup_lt_is_Some_2 (crun L s1 (sh, start <$> ops)).2 i) as [t1 E1]; [lia|].
  destruct (lookup_lt_is_Some_2 (crun L (s1 ++ s2) (sh, start <$> ops)).2 i) as [t2 E2]; [lia|].
  exists t1, t2. destruct (T1 i o t1 Ho E1), (T2 i o t2 Ho E2). auto.
Qed.

(** ** Lookups under concurrency *)

(** No operation of the history removes [e]. *)
Definition spares (e : ll_entry L) (o : op) : Prop :=
  match o with
  | OpDel k => ll_match L k e = false
  | OpExit => False
  | _ => True
  end.

(** The operation adds no entry that satisfies [p]. *)
Definition adds_none (p : ll_entry L → bool) (o : op) : Prop :=
  match o with
  | OpAdd k => ∀ h, p (ll_build L k h) = false
  | _ => True
  end.

Lemma astep_spares e l o r l' : astep l o r l' → spares e o → e ∈ l → e ∈ l'.
Proof.
  intros Ha Hs He. destruct Ha; try done; [set_solver|].
  apply remove_first_Some in H as (l1 & x & l2 & -> & -> & Hx & _). cbn in Hs.
  apply elem_of_app in He as [He|He]; [set_solver|]. apply elem_of_cons in He as [->|He]; [congruence|set_solver].
Qed.

Lemma astep_adds_none p l o r l' :
  astep l o r l' → adds_none p o → existsb p l = false → existsb p l' = false.
Proof.
  intros Ha Hs He. destruct Ha; try done.
  - rewrite existsb_app, He. cbn in *. by rewrite Hs.
  - apply remove_first_Some in H as (l1 & x & l2 & -> & -> & _). rewrite existsb_app in *. cbn in He.
    apply orb_false_iff in He as [-> [_ ->]%orb_false_iff]. done.
Qed.

(** What every operation of a history keeps holds wherever one of its lookups
    ran. *)
Lemma atrace_lookup (P : list (ll_entry L) → Prop) (Q : op → Prop) l0 h l :
  (∀ l o r l', Q o → astep l o r l' → P l → P l') →
  atrace l0 h l → Forall (λ x, Q x.2.1) h → P l0 →
  P l ∧ ∀ i p r, (i, (OpLookup p, r)) ∈ h → ∃ l1, P l1 ∧ r = Rc (Z.b2z (existsb p l1)).
Proof.
  intros Hk Ht HQ H0. induction Ht as [|l0 h l j o r' l' Ht IH Ha].
  { split; [done|]. intros i p r Hin. by apply not_elem_of_nil in Hin. }
  apply Forall_app in HQ as [HQ Ho]. rewrite Forall_singleton in Ho. cbn in Ho. destruct (IH HQ H0) as [Hl Hlk].
  split; [exact (Hk _ _ _ _ Ho Ha Hl)|]. intros i p r [Hin|Hin%list_elem_of_singleton]%elem_of_app; [eauto|].
  simplify_eq. inversion Ha; subst. eauto.
Qed.

Lemma elem_of_events i x h : x ∈ events i h ↔ (i, x) ∈ h.
Proof.
  unfold events. rewrite list_elem_of_fmap. split.
  - intros ([j y] & -> & [Hj Hin]%list_elem_of_filter). cbn in *. by subst.
  - intros Hin. exists (i, x). split; [done|]. by apply list_elem_of_filter.
Qed.

(** The operations of a history are those the threads run. *)
Lemma explains_ops (Q : op → Prop) ops l0 h c :
  explains ops l0 h c → Forall Q ops →
  Forall (λ x, Q x.2.1) h.
Proof.
  intros (_ & Hlen & Hids & Hth) HQ. apply Forall_forall. intros [i [o r]] Hin. cbn.
  rewrite Forall_forall in Hids. pose proof (Hids _ Hin) as Hi. cbn in Hi.
  destruct (lookup_lt_is_Some_2 ops i Hi) as [o' Ho].
  destruct (lookup_lt_is_Some_2 c.2 i ltac:(lia)) as [t Ht].
  destruct (Hth i o' t Ho Ht) as [_ He]. apply elem_of_events in Hin. rewrite He in Hin.
  apply list_elem_of_fmap in Hin as (y & E & _). injection E as -> _. rewrite Forall_forall in HQ.
  eapply HQ, list_elem_of_lookup_2. exact Ho.
Qed.

(** A lookup that has returned found what the list kept all along. *)
Lemma lookup_answers (P : list (ll_entry L) → Prop) (Q : op → Prop) sched ops sh i p rc :
  quiescent L sh → ll_cap L + Z.of_nat (length ops) <= INT_MAX →
  (∀ l o r l', Q o → astep l o r l' → P l → P l') → Forall Q ops → P (entries sh) →
  ops !! i = Some (OpLookup p) → (crun L sched (sh, start <$> ops)).2 !! i = Some (Done L rc) →
  ∃ l, P l ∧ rc = Z.b2z (existsb p l).
Proof.
  intros Hq Hmax Hk HQ H0 Ho Hd.
  destruct (crun_histories sched [] ops sh Hq ltac:(by destruct ops) Hmax) as (h & _ & He & _).
  pose proof (explains_ops Q _ _ _ _ He HQ) as HQh. destruct He as (Ha & _ & _ & Hth).
  destruct (atrace_lookup P Q _ _ _ Hk Ha HQh H0) as [_ Hlk].
  destruct (Hth i _ _ Ho Hd) as [_ He].
  destruct (Hlk i p (Rc rc)) as (l & Hl & [= ->]); [|eauto].
  apply elem_of_events. rewrite He. by apply list_elem_of_singleton.
Qed.

(** C16: no race hides a protected entry from a hook or invents one: whatever the
    interleaving of additions, deletions, lookups and listings, a lookup answers
    yes when an entry it looks for is on the list and no concurrent deletion
    names it, and no when no entry fits and no concurrent addition builds one. *)
Theorem concurrent_lookups_sound sched ops sh i p rc :
  quiescent L sh → ll_cap L + Z.of_nat (length ops) <= INT_MAX →
  ops !! i = Some (OpLookup p) → (crun L sched (sh, start <$> ops)).2 !! i = Some (Done L rc) →
  ((∃ e, e ∈ entries sh ∧ p e = true ∧ Forall (spares e) ops) → rc = 1) ∧
  (existsb p (entries sh) = false → Forall (adds_none p) ops → rc = 0).
Proof.
  intros Hq Hmax Ho Hd. split.
  - intros (e & He & Hp & Hs).
    destruct (lookup_answers (λ l, e ∈ l) (spares e) sched ops sh i p rc) as (l & Hl & ->); try done.
    { intros l o r l' HQ Ha. by apply (astep_spares e l o r l'). }
    by rewrite (proj2 (existsb_true_iff p l)) by eauto.
  - intros Hn Hs.
    destruct (lookup_answers (λ l, existsb p l = false) (adds_none p) sched ops sh i p rc)
      as (l & Hl & ->); try done; [|by rewrite Hl].
    intros l o r l' HQ Ha. by apply (astep_adds_none p l o r l').
Qed.

(** The show routines print the count they read before taking the lock: an
    addition in between is listed and not counted. *)
Lemma listing_header_races k ch :
  0 < ll_cap L → ch_alloc ch = true →
  (crun L (run_of [0; 1; 1; 1; 0]%nat ch) (empty_list L, start <$> [OpShow; OpAdd k])).2
    = [Shown L 0 [ll_build L k (ch_digest ch)]; Add_linked L 0].
Proof.
  intros Hcap Ha. unfold run_of, empty_list. cbn [fmap list_fmap start].
  apply Z.leb_gt in Hcap.
  erewrite crun_step; [|reflexivity|reflexivity].
  erewrite crun_step; [|reflexivity|cbn; rewrite Hcap; reflexivity].
  erewrite crun_step; [|reflexivity|cbn; rewrite Ha; reflexivity].
  do 2 (erewrite crun_step; [|reflexivity|reflexivity]). done.
Qed.

End linearize.

Arguments OpAdd {L}.
Arguments OpDel {L}.
Arguments OpLookup {L}.
Arguments OpExit {L}.
Arguments OpShow {L}.

(** ** Instances *)

(** Two names on the process list. *)
Definition two_procs : shared proc_locked :=
  mkSh proc_locked [(0%nat, new_proc (str "sshd") 0); (1%nat, new_proc (str "nginx") 0)] 2 2 [] [].

Lemma two_procs_quiescent : quiescent proc_locked two_procs.
Proof.
  split; [reflexivity|]. split; [by vm_compute|].
  split; [apply (bool_decide_unpack _); by vm_compute|]. repeat constructor.
Defined.

(** A ptrace check of sshd races with the deletion of nginx and the addition of
    cron. *)
Definition race : list (op proc_locked) :=
  [OpLookup (L := proc_locked) (proc_covers (task "sshd" 700));
   OpDel (L := proc_locked) (str "nginx", 0); OpAdd (L := proc_locked) (str "cron", 0)].

Lemma interleavings_linearize_witness :
  ∃ h1 h2, atrace proc_locked (entries proc_locked two_procs) (h1 ++ h2)
    (entries proc_locked
      (crun proc_locked (run_of [2; 1; 2; 0]%nat granted ++ run_of [2; 2]%nat granted)
        (two_procs, start proc_locked <$> race)).1).
Proof.
  destruct (interleavings_linearize proc_locked (run_of [2; 1; 2; 0]%nat granted)
    (run_of [2; 2]%nat granted) race two_procs) as (h1 & h2 & _ & H & _).
  - exact two_procs_quiescent.
  - discriminate.
  - by vm_compute.
  - exists h1, h2. exact H.
Defined.

Lemma concurrent_lookups_sound_witness :
  ∃ rc, (crun proc_locked (run_of [2; 1; 2; 0]%nat granted) (two_procs, start proc_locked <$> race)).2
    !! 0%nat = Some (Done proc_locked rc) ∧ rc = 1.
Proof.
  eexists. split; [reflexivity|].
  refine (proj1 (concurrent_lookups_sound proc_locked (run_of [2; 1; 2; 0]%nat granted) race
    two_procs 0 (proc_covers (task "sshd" 700)) _ two_procs_quiescent _ eq_refl eq_refl) _).
  - by vm_compute.
  - exists (new_proc (str "sshd") 0). split; [left|]. split; [by vm_compute|].
    repeat constructor.
Defined.
