(* ===== verification/Duplicates.v ===== *)
(** * How often a key can be on a list

    The additions check for duplicates in one critical section and link in
    another (Concurrency.v), so the lists can hold a key twice.  Only additions
    of that very key that race with each other bring this about: a key is on its
    list at most once, or at most as often as additions of it were running.
    When at most one was, a deletion takes the key off the list for good. *)

From S2P Require Import Prelude CString AegisH Kernel State RefKernel PolicyList.
From S2P Require Import Process FileHash File SyscallList Lsm Sysctl Control Securityfs System Scenario.
From S2P Require Import Concurrency Linearize.

(** ** Keys *)

(** What the comparison and the constructor of a list promise to each other:
    the entry built for a key is the one the key finds. *)
Class KeyedList (L : locked_list) := {
  kl_eq :: EqDecision (ll_key L);
  kl_valid : ll_key L → Prop;
  kl_build k k' h :
    kl_valid k → kl_valid k' → ll_match L k (ll_build L k' h) = bool_decide (k' = k);
}.

Lemma proc_build k k' h :
  proc_valid k → proc_valid k' →
  ll_match proc_locked k (ll_build proc_locked k' h) = bool_decide (k' = k).
Proof.
  intros [Hn _] Hk'. apply eq_true_iff_eq. rewrite bool_decide_eq_true. destruct k as [c p], k' as [c' p'].
  cbn [ll_match ll_build proc_locked fst snd].
  rewrite (proc_match_spec c p _ (new_proc_wf c' p') Hn). by rewrite new_proc_key.
Qed.

Lemma file_build k k' h :
  file_valid k → file_valid k' →
  ll_match file_locked k (ll_build file_locked k' h) = bool_decide (k' = k).
Proof.
  intros [Hn _] Hk'. apply eq_true_iff_eq. rewrite bool_decide_eq_true.
  cbn [ll_match ll_build file_locked].
  rewrite (file_match_spec k (mkFile (new_path k') h.1 h.2) (new_path_wf k')). unfold file_key. cbn.
  by rewrite new_path_key, cstr_id.
Qed.

Lemma syscall_build nr nr' h :
  0 <= nr → 0 <= nr' →
  ll_match syscall_locked nr (ll_build syscall_locked nr' h) = bool_decide (nr' = nr).
Proof.
  intros _ _. apply eq_true_iff_eq. rewrite bool_decide_eq_true. apply syscall_match_spec.
Qed.

#[global] Instance proc_keyed : KeyedList proc_locked :=
  Build_KeyedList proc_locked (prod_eq_dec : EqDecision (bytes * Z)) proc_valid proc_build.

#[global] Instance file_keyed : KeyedList file_locked :=
  Build_KeyedList file_locked (list_eq_dec : EqDecision bytes) file_valid file_build.

#[global] Instance syscall_keyed : KeyedList syscall_locked :=
  Build_KeyedList syscall_locked Z.eq_dec (λ nr, 0 <= nr) syscall_build.

Section duplicates.
Context (L : locked_list) `{KL : !KeyedList L} (k : ll_key L) (Hk : kl_valid k).

(** ** Counting *)

(** The entries [k] finds on a list. *)
Definition occurs (sh : shared L) : nat :=
  sum_list_with (λ x, Nat.b2n (ll_match L k x.2)) (sh_list L sh).

(** Additions of [k] that have not checked yet, and that have but not linked. *)
Definition asking (t : thread L) : nat :=
  match t with Add_start _ k' => Nat.b2n (bool_decide (k' = k)) | _ => 0 end.
Definition promised (t : thread L) : nat :=
  match t with
  | Add_checked _ k' | Add_built _ k' _ _ => Nat.b2n (bool_decide (k' = k))
  | _ => 0
  end.

Definition adders (ts : list (thread L)) : nat := sum_list_with asking ts.
Definition promises (ts : list (thread L)) : nat := sum_list_with promised ts.

(** The keys are such as the entries can hold, and a built entry is its key's. *)
Definition thread_keyed (t : thread L) : Prop :=
  match t with
  | Add_start _ k' | Add_checked _ k' => kl_valid k'
  | Add_built _ k' _ e => kl_valid k' ∧ ∃ h, e = ll_build L k' h
  | _ => True
  end.

(** ** Invariant *)

(** Either no more entries and additions of [k] are around than additions were
    started, or none has passed the check yet. *)
Definition few (n o p a : nat) : Prop := (o + p + a <= n)%nat ∨ (o <= 1 ∧ p = 0 ∧ a <= n)%nat.

Definition dinv (n : nat) (c : conf L) : Prop :=
  Forall thread_keyed c.2 ∧ few n (occurs c.1) (promises c.2) (adders c.2).

Lemma occurs_0 sh : existsb (λ x, ll_match L k x.2) (sh_list L sh) = false → occurs sh = 0%nat.
Proof.
  unfold occurs. induction (sh_list L sh) as [|x l IH]; [done|]. cbn.
  intros [-> H]%orb_false_iff. by apply IH.
Qed.

Lemma occurs_remove m sh l :
  remove_first m (sh_list L sh) = Some l →
  (sum_list_with (λ x, Nat.b2n (ll_match L k x.2)) l <= occurs sh)%nat.
Proof.
  intros (l1 & x & l2 & E & -> & _)%remove_first_Some. unfold occurs. rewrite E, !sum_list_with_app.
  cbn. lia.
Qed.

Lemma tstep_keyed ch sh t : thread_keyed t → thread_keyed (tstep L ch sh t).2.
Proof.
  destruct t as [k'|k'|k' a e|a|k'|p| | |n|n l|rc]; cbn; try done.
  - by repeat case_match.
  - destruct (negb _); [done|]. cbn. eauto.
  - by repeat case_match.
Qed.

(** Only the check and the linking of an addition of [k] move the numbers up,
    and what they add was counted before; [rp] and [ra] belong to the others. *)
Lemma tstep_few n ch sh t rp ra :
  thread_keyed t → few n (occurs sh) (rp + promised t) (ra + asking t) →
  let r := tstep L ch sh t in few n (occurs r.1) (rp + promised r.2) (ra + asking r.2).
Proof.
  unfold few. intros Ht H. destruct t as [k'|k'|k' a e|a|k'|p| | |m|m l|rc]; cbn [tstep]; try done.
  - destruct (_ <=? _); [cbn in *; lia|]. destruct (existsb _ _) eqn:E; [cbn in *; lia|].
    cbn in *. case_bool_decide as Hkk; [|done]. subst k'. apply occurs_0 in E. cbn in *. lia.
  - unfold occurs in *. destruct (negb _); cbn in *; lia.
  - cbn in Ht. destruct Ht as [Hv [h ->]]. unfold occurs in *. cbn in *. rewrite sum_list_with_app. cbn.
    rewrite kl_build by done. lia.
  - destruct (List.find _ _) as [[a e]|]; [|cbn in *; lia].
    destruct (remove_first _ _) as [l|] eqn:R; [|cbn in *; lia].
    apply occurs_remove in R. unfold occurs in *. cbn in *. lia.
  - unfold occurs in *. cbn in *. lia.
Qed.

Lemma cstep_dinv n c x : dinv n c → dinv n (cstep L c x).
Proof.
  intros [Hf Hn]. destruct c as [sh ts], x as [i ch]. unfold cstep. cbn [fst snd] in *.
  destruct (ts !! i) as [t|] eqn:Hi; [|by split].
  pose proof Hf as Hft. rewrite Forall_lookup in Hft. specialize (Hft i t Hi).
  pose proof (tstep_keyed ch sh t Hft) as Hk'.
  split; cbn [fst snd]; [by apply Forall_insert|].
  apply list_elem_of_split_length in Hi as (l1 & l2 & -> & ->).
  rewrite insert_app_r_alt, Nat.sub_diag by done. cbn [insert list_insert].
  unfold promises, adders in *. rewrite !sum_list_with_app in *. cbn [sum_list_with] in *.
  pose proof (tstep_few n ch sh t (sum_list_with promised l1 + sum_list_with promised l2)
    (sum_list_with asking l1 + sum_list_with asking l2) Hft) as H.
  unfold few in *. cbn zeta in H. lia.
Qed.

Lemma crun_dinv n sched c : dinv n c → dinv n (crun L sched c).
Proof.
  revert c. induction sched as [|x sched IH]; intros c H; [done|]. cbn. by apply IH, cstep_dinv.
Qed.

Lemma fresh_dinv sh ts :
  forallb (fresh_thread L) ts = true → Forall thread_keyed ts → (occurs sh <= 1)%nat →
  dinv (adders ts) (sh, ts).
Proof.
  intros Hf Hv Ho. split; [done|]. right. cbn. split; [done|]. split; [|done].
  unfold promises. clear Hv. induction ts as [|t ts IH]; [done|].
  cbn in *. apply andb_true_iff in Hf as [Ht Hf]. rewrite (IH Hf). by destruct t.
Qed.

(** A deletion of [k] takes one entry off. *)
Lemma del_occurs ch sh :
  occurs (tstep L ch sh (Del_start L k)).1 = (occurs sh - 1)%nat.
Proof.
  cbn [tstep]. pose proof (find_remove_first (λ x, ll_match L k x.2) (sh_list L sh)) as F.
  destruct (remove_first _ (sh_list L sh)) as [l|] eqn:R.
  - destruct (proj2 F ltac:(eauto)) as [[a e] ->].
    apply remove_first_Some in R as (l1 & x & l2 & E & -> & Hx & _). unfold occurs. cbn [fst sh_list].
    rewrite E, !sum_list_with_app. cbn. rewrite Hx. cbn. lia.
  - apply remove_first_None, occurs_0 in R.
    destruct (List.find _ _) as [[a e]|]; cbn [fst]; by rewrite ?R.
Qed.

(** C31: duplicates come from racing additions of one key and from nothing else.
    Whatever the interleaving of additions, deletions, lookups, listings and
    exits with keys the entries can hold, a key that is on its list at most once
    at the start is at every moment on it at most once, or at most as often as there are additions of
    that key among the threads.  So where no two threads add the same key every
    key stays unique, and then a deletion of the key, whenever it runs, leaves
    the key off the list. *)
Theorem duplicates_need_racing_adds sched sh ts :
  (occurs sh <= 1)%nat → forallb (fresh_thread L) ts = true → Forall thread_keyed ts →
  let c := crun L sched (sh, ts) in
  (occurs c.1 <= Nat.max 1 (adders ts))%nat ∧
  (adders ts <= 1 → ∀ i ch, c.2 !! i = Some (Del_start L k) → occurs (cstep L c (i, ch)).1 = 0)%nat.
Proof.
  intros Ho Hf Hv c. destruct (crun_dinv _ sched _ (fresh_dinv sh ts Hf Hv Ho)) as [_ Hfew].
  fold c in Hfew. unfold few in Hfew. split; [lia|].
  intros Ha i ch Hi. unfold cstep. cbn [fst snd]. rewrite Hi. cbn [fst]. rewrite del_occurs. lia.
Qed.

End duplicates.

(** ** Instances *)

(** Two files are added while one of them is deleted. *)
Definition adding_files : list (thread file_locked) :=
  [Add_start file_locked (str "/etc/passwd"); Add_start file_locked (str "/etc/shadow");
   Del_start file_locked (str "/etc/passwd")].

Lemma duplicates_need_racing_adds_witness :
  let c := crun file_locked (run_of [0; 1; 0; 1; 0; 1]%nat granted)
             (empty_list file_locked, adding_files) in
  occurs file_locked (str "/etc/passwd") (cstep file_locked c (2%nat, granted)).1 = 0%nat.
Proof.
  refine (proj2 (duplicates_need_racing_adds file_locked (str "/etc/passwd") _
    (run_of [0; 1; 0; 1; 0; 1]%nat granted) (empty_list file_locked) adding_files _ _ _) _ 2%nat granted _).
  - by_decision.
  - cbn. lia.
  - reflexivity.
  - repeat constructor; by_decision.
  - by vm_compute.
  - reflexivity.
Defined.
