(* ===== verification/Aegisctl.v ===== *)
(** * aegisctl (devkit/src/aegisctl.c)

    The userspace tool: it turns a command line into writes to the control
    endpoints and sysctl files, or into a listing of a read file or of the
    kernel log.  The C library's system calls are the parameter [Userland]; the
    program runs in a state monad over its standard output, errno, the blocks it
    holds and the rest of the system. *)

From S2P Require Import Prelude CString AegisH.

(** ** The system underneath *)

Class Userland := {
  uworld : Type;
  u_open : bytes → bool → uworld → (Z + Z) * uworld;      (* for writing?; errno or fd *)
  u_write : Z → bytes → uworld → (Z + Z) * uworld;        (* errno or bytes written *)
  u_read : Z → nat → uworld → (Z + bytes) * uworld;
  u_close : Z → uworld → option Z * uworld;
  u_klogctl : nat → uworld → (Z + bytes) * uworld;        (* SYSLOG_ACTION_READ_ALL *)
  u_malloc : nat → uworld → bool * uworld;
  u_strerror : Z → bytes;
}.

(** ** C library functions on strings *)

(** Successive results of [strtok_r] with the delimiter newline: the maximal
    non-empty runs of other characters. *)
Fixpoint tokens_acc (acc s : bytes) : list bytes :=
  let flush := match acc with [] => [] | _ => [rev acc] end in
  match s with
  | [] => flush
  | c :: s' => if decide (c = LF) then flush ++ tokens_acc [] s' else tokens_acc (c :: acc) s'
  end.
Definition tokens (s : bytes) : list bytes := tokens_acc [] s.

(** [isspace] of the C locale. *)
Fixpoint skip_blanks (s : bytes) : bytes :=
  match s with
  | c :: s' => if (byte_val c =? 32) || ((9 <=? byte_val c) && (byte_val c <=? 13))
               then skip_blanks s' else s
  | [] => []
  end.

(** [atoi]: blanks, a sign, digits; the value of strtol cast to int. *)
Definition atoi (s : bytes) : Z :=
  let '(neg, s) := match skip_blanks s with
                   | c :: s' => if decide (c = "-"%char) then (true, s')
                                else if decide (c = "+"%char) then (false, s')
                                else (false, c :: s')
                   | [] => (false, [])
                   end in
  let v := (scan_digits 0 0 s).1.1 in
  i32 (Z.max (- 2 ^ 63) (Z.min (2 ^ 63 - 1) (if neg : bool then - v else v))).

(** ** State *)

Section program.
Context `{U : Userland}.

Record ustate := mkU {
  u_out : bytes;
  u_errno : Z;
  u_blocks : Z;                     (* malloc'd and not freed *)
  u_world : uworld;
}.

Definition P (A : Type) : Type := ustate → A * ustate.

#[global] Instance P_ret : MRet P := λ A a st, (a, st).
#[global] Instance P_bind : MBind P := λ A B f m st, let r := m st in f r.1 r.2.

Definition printf (s : bytes) : P unit := λ st,
  (tt, mkU (u_out st ++ s) (u_errno st) (u_blocks st) (u_world st)).

Definition errno_text : P bytes := λ st, (u_strerror (u_errno st), st).

(** A call that returns -1 and sets errno, or a value. *)
Definition ucall {A} (f : uworld → (Z + A) * uworld) : P (option A) := λ st,
  match f (u_world st) with
  | (inl e, w) => (None, mkU (u_out st) e (u_blocks st) w)
  | (inr a, w) => (Some a, mkU (u_out st) (u_errno st) (u_blocks st) w)
  end.

Definition close (fd : Z) : P unit := λ st,
  let r := u_close fd (u_world st) in
  (tt, mkU (u_out st) (default (u_errno st) r.1) (u_blocks st) r.2).

Definition malloc (n : nat) : P bool := λ st,
  let r := u_malloc n (u_world st) in
  (r.1, mkU (u_out st) (u_errno st) (u_blocks st + Z.b2z r.1) r.2).

Definition free : P unit := λ st,
  (tt, mkU (u_out st) (u_errno st) (u_blocks st - 1) (u_world st)).

(** ** The program *)

Definition AEGIS_SECURITYFS : bytes := str "/sys/kernel/security/aegis".
Definition AEGIS_SYSCTL : bytes := str "/proc/sys/kernel/aegis".
Definition MAX_BUF : nat := 4096.

(** [snprintf(path, size, "%s/%s", dir, file)]. *)
Definition path_in (size : nat) (dir file : bytes) : bytes :=
  take (size - 1) (dir ++ str "/" ++ file).

Definition write_secfs (file value : bytes) : P Z :=
  let path := path_in 512 AEGIS_SECURITYFS file in
  fd ← ucall (u_open path true);
  match fd with
  | None =>
      e ← errno_text;
      printf (str "❌ " ++ path ++ str ": " ++ e ++ [LF]);;
      printf (str "   (need root + AEGIS loaded)" ++ [LF]);;
      mret (-1)
  | Some fd =>
      ret ← ucall (u_write fd value);
      close fd;;
      match ret with
      | None =>
          e ← errno_text;
          printf (str "❌ write " ++ path ++ str ": " ++ e ++ [LF]);;
          mret (-1)
      | Some _ =>
          printf (str "✅ " ++ file ++ str " <- " ++ value ++ [LF]);;
          mret 0
      end
  end.

Record cmd := mkCmd { c_name : bytes; c_endpoint : bytes; c_usage : bytes }.

Definition write_cmds : list cmd :=
  [mkCmd (str "file-add") (str "protected_files_add")
         (str "file-add <path>       protect a file (deny writes)");
   mkCmd (str "file-del") (str "protected_files_del")
         (str "file-del <path>       unprotect a file");
   mkCmd (str "proc-add") (str "protected_procs_add")
         (str "proc-add <comm> [pid] protect a process name (optionally one pid)");
   mkCmd (str "proc-del") (str "protected_procs_del")
         (str "proc-del <comm> [pid] unprotect a process");
   mkCmd (str "syscall-add") (str "blocked_syscalls_add")
         (str "syscall-add <nr>      block a syscall number");
   mkCmd (str "syscall-del") (str "blocked_syscalls_del")
         (str "syscall-del <nr>      unblock a syscall number")].

Definition cmd_write (argv : list bytes) : P unit :=
  match argv with
  | _ :: name :: arg :: _ =>
      match List.find (λ c, bool_decide (name = c_name c)) write_cmds with
      | Some c => write_secfs (c_endpoint c) arg;; mret tt
      | None => printf (str "unknown command: " ++ name ++ [LF])
      end
  | _ =>
      printf (str "usage: aegisctl <command> <arg>" ++ [LF; LF] ++ str "Write commands:" ++ [LF]);;
      printf (concat ((λ c, str "  " ++ c_usage c ++ [LF]) <$> write_cmds))
  end.

Definition print_file (path : bytes) : P unit :=
  fd ← ucall (u_open path false);
  match fd with
  | None =>
      e ← errno_text;
      printf (str "  ❌ Cannot open " ++ path ++ str ": " ++ e ++ [LF])
  | Some fd =>
      n ← ucall (u_read fd (MAX_BUF - 1));
      match n with
      | Some (c :: buf) => printf (cstr (c :: buf))
      | _ => printf (str "  (empty)" ++ [LF])
      end;;
      close fd
  end.

Definition write_sysctl (key value : bytes) : P Z :=
  let path := path_in 256 AEGIS_SYSCTL key in
  fd ← ucall (u_open path true);
  match fd with
  | None =>
      e ← errno_text;
      printf (str "❌ Cannot open " ++ path ++ str ": " ++ e ++ [LF]);;
      mret (-1)
  | Some fd =>
      n ← ucall (u_write fd value);
      match n with
      | None =>
          e ← errno_text;
          printf (str "❌ Cannot write to " ++ path ++ str ": " ++ e ++ [LF]);;
          close fd;;
          mret (-1)
      | Some _ =>
          close fd;;
          printf (str "✅ " ++ key ++ str " = " ++ value ++ [LF]);;
          mret 0
      end
  end.

(** The framed title of a listing. *)
Definition frame (title : string) : bytes :=
  [LF] ++ str "╔══════════════════════════════════════════╗" ++ [LF]
       ++ str title ++ [LF]
       ++ str "╚══════════════════════════════════════════╝" ++ [LF; LF].

Definition cmd_show (title file : string) : P unit :=
  printf (frame title);;
  print_file (AEGIS_SECURITYFS ++ str file).

Definition cmd_status := cmd_show "║     AEGIS Security Module Status         ║" "/status".
Definition cmd_stats := cmd_show "║     AEGIS Event Statistics               ║" "/stats".
Definition cmd_procs := cmd_show "║     AEGIS Protected Processes            ║" "/protected_procs".
Definition cmd_files := cmd_show "║     AEGIS Protected Files                ║" "/protected_files".
Definition cmd_symlist := cmd_show "║     AEGIS Blocked Syscalls               ║" "/blocked_syscalls".

(** ** The audit listing *)

Definition AUDIT_BUF_SIZE : nat := Z.to_nat (256 * 1024).
Definition TAG : bytes := str "aegis:".

(** [for (line = buf; (line = strstr(line, "aegis:")) != NULL; line++) total++;]
    Every round moves past at least one character. *)
Fixpoint tag_loop (fuel : nat) (line : bytes) (total : Z) : Z :=
  match fuel with
  | O => total
  | S fuel' =>
      match strstr line TAG with
      | None => total
      | Some l => tag_loop fuel' (tail l) (total + 1)
      end
  end.

(** The printing loop over the tokens: the final value of [shown]. *)
Fixpoint audit_loop (skip idx shown : Z) (ls : list bytes) : P Z :=
  match ls with
  | [] => mret shown
  | line :: ls' =>
      match strstr line TAG with
      | None => audit_loop skip idx shown ls'
      | Some tag =>
          if idx <? skip then audit_loop skip (idx + 1) shown ls'
          else
            printf (str "  " ++ tag ++ [LF]);;
            audit_loop skip (idx + 1) (shown + 1) ls'
      end
  end.

Definition audit_heading (want : Z) : bytes :=
  [LF] ++ str "╔══════════════════════════════════════════╗" ++ [LF]
       ++ str "║     AEGIS Audit Log (last " ++ fmt_d want ++ str " events)      " ++ [LF]
       ++ str "╚══════════════════════════════════════════╝" ++ [LF; LF].

Definition cmd_audit (argv : list bytes) : P unit :=
  let want := match argv with _ :: _ :: a :: _ => atoi a | _ => 20 end in
  if want <=? 0 then
    printf (str "usage: aegisctl audit [N]  (N = number of events, default 20)" ++ [LF])
  else
    ok ← malloc AUDIT_BUF_SIZE;
    if negb ok then printf (str "❌ out of memory" ++ [LF])
    else
      n ← ucall (u_klogctl (AUDIT_BUF_SIZE - 1));
      match n with
      | None =>
          e ← errno_text;
          printf (str "❌ cannot read kernel log: " ++ e ++ [LF]);;
          printf (str "   (need root, or dmesg_restrict=0)" ++ [LF]);;
          free
      | Some buf =>
          let buf := cstr buf in
          let total := tag_loop (S (length buf)) buf 0 in
          printf (audit_heading want);;
          if total =? 0 then
            printf (str "  (no AEGIS events in the kernel ring buffer)" ++ [LF; LF]);;
            free
          else
            let skip := if want <? total then total - want else 0 in
            shown ← audit_loop skip 0 0 (tokens buf);
            printf ([LF] ++ str "  " ++ fmt_d shown ++ str " of " ++ fmt_d total
                    ++ str " AEGIS events shown" ++ [LF; LF]);;
            free
      end.

(** ** Remaining commands and dispatch *)

Definition cmd_enable : P unit :=
  printf (str "Enabling AEGIS..." ++ [LF]);;
  write_sysctl (str "enabled") (str "1");;
  mret tt.

Definition cmd_disable : P unit :=
  printf (str "⚠️  Disabling AEGIS (requires reboot to fully re-enable)..." ++ [LF]);;
  write_sysctl (str "enabled") (str "0");;
  mret tt.

Definition help_lines : list string :=
  [""; "╔══════════════════════════════════════════════════╗";
   "║         AEGIS Control Tool v1.0.0               ║";
   "║     Advanced Guardian for Integrated System     ║";
   "║                Security                         ║";
   "╚══════════════════════════════════════════════════╝"; "";
   "Usage: aegisctl <command>"; "";
   "Commands:";
   "  status        Show AEGIS status and configuration";
   "  stats         Show event statistics";
   "  procs         Show protected processes list";
   "  files         Show protected files list";
   "  symlist       Show blocked syscalls list";
   "  audit [N]     Show last N AEGIS events from kernel log (default 20)";
   "  enable        Enable AEGIS (via sysctl)";
   "  disable       Disable AEGIS (via sysctl)";
   "  file-add      Protect a file:           aegisctl file-add /etc/passwd";
   "  file-del      Unprotect a file:         aegisctl file-del /etc/passwd";
   "  proc-add      Protect a process:        aegisctl proc-add sshd";
   "  proc-del      Unprotect a process:      aegisctl proc-del sshd";
   "  syscall-add   Block a syscall:          aegisctl syscall-add 101";
   "  syscall-del   Unblock a syscall:        aegisctl syscall-del 101";
   "  help          Show this help message"; "";
   "Files:";
   "  /sys/kernel/security/aegis/status";
   "  /sys/kernel/security/aegis/stats";
   "  /sys/kernel/security/aegis/protected_procs";
   "  /sys/kernel/security/aegis/protected_files";
   "  /sys/kernel/security/aegis/blocked_syscalls";
   "  /proc/sys/kernel/aegis/enabled";
   "  /proc/sys/kernel/aegis/features"; ""].

Definition cmd_help : P unit := printf (concat ((λ l, str l ++ [LF]) <$> help_lines)).

(** The command words of [main], in the order they are tested. *)
Definition commands (argv : list bytes) : list (string * P unit) :=
  [("status", cmd_status); ("stats", cmd_stats); ("procs", cmd_procs); ("files", cmd_files);
   ("symlist", cmd_symlist); ("audit", cmd_audit argv); ("enable", cmd_enable);
   ("disable", cmd_disable);
   ("file-add", cmd_write argv); ("file-del", cmd_write argv);
   ("proc-add", cmd_write argv); ("proc-del", cmd_write argv);
   ("syscall-add", cmd_write argv); ("syscall-del", cmd_write argv);
   ("help", cmd_help); ("--help", cmd_help)].

Definition main (argv : list bytes) : P Z :=
  match argv with
  | _ :: name :: _ =>
      match List.find (λ c, bool_decide (name = str c.1)) (commands argv) with
      | Some c => c.2;; mret 0
      | None =>
          printf (str "Unknown command: " ++ name ++ [LF]);;
          printf (str "Try 'aegisctl help' for usage." ++ [LF]);;
          mret 1
      end
  | _ => cmd_help;; mret 0
  end.

End program.
