(* ===== verification/AegisctlTheorems.v ===== *)
(** * Theorems about aegisctl

    The write commands run the endpoint they name, once, on exactly the bytes of
    their first argument, so that a second argument of proc-add has no effect;
    [aegisctl audit] prints a tail of the tagged lines of the kernel log. *)

From S2P Require Import Prelude CString AegisH Kernel State RefKernel PolicyList.
From S2P Require Import Process FileHash File SyscallList Lsm Sysctl Control Securityfs System Scenario.
From S2P Require Import ControlTheorems Aegisctl.

(** ** Occurrences of the tag *)

(** The number of positions at which the tag occurs. *)
Fixpoint count_tags (s : bytes) : nat :=
  match s with
  | [] => 0
  | c :: s' => (if prefix_b TAG s then 1 else 0) + count_tags s'
  end.

(** The tagged lines, from the tag on. *)
Definition events (s : bytes) : list bytes := omap (λ l, strstr l TAG) (tokens s).

Lemma strstr_count s :
  match strstr s TAG with
  | None => count_tags s = 0%nat
  | Some l => count_tags s = S (count_tags (tail l)) ∧ (length (tail l) < length s)%nat
  end.
Proof.
  induction s as [|c s IH]; [done|]. cbn [strstr count_tags]. destruct (prefix_b TAG (c :: s)).
  - cbn. lia.
  - destruct (strstr s TAG); cbn [length]; [destruct IH; split; lia|done].
Qed.

Lemma tag_loop_count fuel s n :
  (length s < fuel)%nat → tag_loop fuel s n = n + Z.of_nat (count_tags s).
Proof.
  revert s n. induction fuel as [|fuel IH]; intros s n Hl; [lia|]. cbn [tag_loop].
  pose proof (strstr_count s) as Hs. destruct (strstr s TAG) as [l|].
  - destruct Hs as [-> Hlen]. rewrite IH by lia. lia.
  - rewrite Hs. lia.
Qed.

Lemma prefix_b_app p s t : prefix_b p s = true → prefix_b p (s ++ t) = true.
Proof.
  revert s. induction p as [|a p IH]; intros [|b s]; cbn; try done.
  intros [Ha Hp]%andb_true_iff. by rewrite Ha, IH.
Qed.

Lemma count_tags_app s t : (count_tags s + count_tags t <= count_tags (s ++ t))%nat.
Proof.
  induction s as [|c s IH]; [done|]. cbn [app count_tags].
  destruct (prefix_b TAG (c :: s)) eqn:E.
  - pose proof (prefix_b_app TAG (c :: s) t E) as E'. cbn [app] in E'. rewrite E'. lia.
  - destruct (prefix_b TAG (c :: s ++ t)); lia.
Qed.

Lemma omap_app {A B} (f : A → option B) l1 l2 : omap f (l1 ++ l2) = omap f l1 ++ omap f l2.
Proof. induction l1 as [|x l1 IH]; [done|]. cbn. destruct (f x); cbn; by rewrite <- IH. Qed.

Lemma event_count_acc acc s :
  (length (omap (λ l, strstr l TAG) (tokens_acc acc s)) <= count_tags (rev acc ++ s))%nat.
Proof.
  assert (∀ acc, (length (omap (λ l, strstr l TAG) (match acc with [] => [] | _ => [rev acc] end))
    <= count_tags (rev acc))%nat) as Hflush.
  { intros [|c a]; [done|]. cbn [omap list_omap]. pose proof (strstr_count (rev (c :: a))) as H.
    destruct (strstr (rev (c :: a)) TAG); cbn [length]; [destruct H|]; lia. }
  revert acc. induction s as [|c s IH]; intros acc; cbn [tokens_acc].
  - rewrite app_nil_r. apply Hflush.
  - case_decide as Hc.
    + rewrite omap_app, length_app. specialize (IH []). specialize (Hflush acc). cbn [rev app] in IH.
      pose proof (count_tags_app (rev acc) (c :: s)). cbn [count_tags] in *. lia.
    + specialize (IH (c :: acc)). cbn [rev] in IH. by rewrite <- app_assoc in IH.
Qed.

(** Every tagged line contributes an occurrence. *)
Lemma event_count s : (length (events s) <= count_tags s)%nat.
Proof. apply (event_count_acc [] s). Qed.

(** ** Running the program *)

Section aegisctl.
Context `{U : Userland}.

Definition event_line (tag : bytes) : bytes := str "  " ++ tag ++ [LF].

Lemma P_bind_run {A B} (m : P A) (f : A → P B) st a st1 :
  m st = (a, st1) → (m ≫= f) st = f a st1.
Proof. unfold mbind, P_bind. by intros ->. Qed.

(** The printing loop prints the events from position [skip] on. *)
Lemma audit_loop_run skip idx shown ls st :
  0 <= idx →
  let evs := drop (Z.to_nat (skip - idx)) (omap (λ l, strstr l TAG) ls) in
  audit_loop skip idx shown ls st =
    (shown + Z.of_nat (length evs),
     mkU (u_out st ++ concat (event_line <$> evs)) (u_errno st) (u_blocks st) (u_world st)).
Proof.
  revert idx shown st. induction ls as [|l ls IH]; intros idx shown st Hidx; cbn [audit_loop omap list_omap].
  - rewrite drop_nil. cbn. rewrite app_nil_r, Z.add_0_r. by destruct st.
  - destruct (strstr l TAG) as [tag|]; [|by apply IH].
    destruct (Z.ltb_spec idx skip).
    + rewrite IH by lia. replace (Z.to_nat (skip - idx)) with (S (Z.to_nat (skip - (idx + 1)))) by lia.
      done.
    + unfold mbind, P_bind, printf. cbn [fst snd u_out u_errno u_blocks u_world].
      rewrite IH by lia. replace (Z.to_nat (skip - idx)) with 0%nat by lia.
      replace (Z.to_nat (skip - (idx + 1))) with 0%nat by lia. rewrite !drop_0.
      rewrite fmap_cons. cbn [length concat u_out u_errno u_blocks u_world].
      rewrite <- app_assoc. f_equal. lia.
Qed.

(** The count of the operator's argument. *)
Definition audit_want (argv : list bytes) : Z :=
  match argv with _ :: _ :: a :: _ => atoi a | _ => 20 end.

(** The lines printed of a log, and the line that counts them. *)
Definition audit_shown (want : Z) (text : bytes) : list bytes :=
  let total := Z.of_nat (count_tags text) in
  drop (Z.to_nat (if want <? total then total - want else 0)) (events text).

Definition audit_footer (shown total : Z) : bytes :=
  [LF] ++ str "  " ++ fmt_d shown ++ str " of " ++ fmt_d total ++ str " AEGIS events shown" ++ [LF; LF].

(** All the command prints. *)
Definition audit_text (want : Z) (w : uworld) : bytes :=
  if want <=? 0 then str "usage: aegisctl audit [N]  (N = number of events, default 20)" ++ [LF]
  else let m := u_malloc AUDIT_BUF_SIZE w in
  if negb m.1 then str "❌ out of memory" ++ [LF]
  else match (u_klogctl (AUDIT_BUF_SIZE - 1) m.2).1 with
  | inl e => str "❌ cannot read kernel log: " ++ u_strerror e ++ [LF]
             ++ str "   (need root, or dmesg_restrict=0)" ++ [LF]
  | inr buf =>
      let text := cstr buf in
      audit_heading want ++
      if (count_tags text =? 0)%nat
      then str "  (no AEGIS events in the kernel ring buffer)" ++ [LF; LF]
      else concat (event_line <$> audit_shown want text)
           ++ audit_footer (Z.of_nat (length (audit_shown want text))) (Z.of_nat (count_tags text))
  end.

(** Every way through the command prints that and gives back what it allocated. *)
Lemma audit_runs argv st :
  ∃ st', cmd_audit argv st = (tt, st') ∧ u_blocks st' = u_blocks st ∧
    u_out st' = u_out st ++ audit_text (audit_want argv) (u_world st).
Proof.
  unfold cmd_audit, audit_text. fold (audit_want argv). set (want := audit_want argv).
  destruct (want <=? 0); [by eexists|].
  destruct (u_malloc AUDIT_BUF_SIZE (u_world st)) as [ok w] eqn:Em. cbn zeta.
  erewrite P_bind_run by (unfold malloc; rewrite Em; reflexivity).
  cbn beta iota delta [fst snd]. destruct ok; cbn [negb Z.b2z].
  2: { eexists. split; [reflexivity|]. split; [cbn; lia|done]. }
  destruct (u_klogctl (AUDIT_BUF_SIZE - 1) w) as [[e|buf] w1] eqn:Ek;
    (erewrite P_bind_run by (unfold ucall; cbn [u_world]; rewrite Ek; reflexivity)); cbn beta iota zeta.
  { eexists. split; [reflexivity|]. split; [cbn; lia|]. cbn. by rewrite <- !app_assoc. }
  cbn [fst]. generalize (cstr buf). intros text. rewrite tag_loop_count, Z.add_0_l by lia.
  erewrite P_bind_run by reflexivity. cbn beta iota.
  generalize (audit_heading want). intros heading.
  replace (Z.of_nat (count_tags text) =? 0) with (count_tags text =? 0)%nat
    by (destruct (count_tags text); [done|]; symmetry; apply Z.eqb_neq; lia).
  destruct (count_tags text =? 0)%nat.
  { eexists. split; [reflexivity|]. cbn [u_blocks u_out]. split; [cbn; lia|]. cbn. by rewrite <- app_assoc. }
  erewrite P_bind_run by (apply audit_loop_run; lia). cbn beta. rewrite Z.sub_0_r, Z.add_0_l.
  fold (events text). fold (audit_shown want text).
  erewrite P_bind_run by reflexivity. eexists. split; [reflexivity|].
  split; [cbn; lia|]. cbn [u_out snd fst free]. unfold audit_footer. by rewrite <- !app_assoc.
Qed.

(** The lines shown are a tail of the tagged lines, of at most [want]. *)
Lemma audit_shown_tail want text :
  0 < want →
  audit_shown want text `suffix_of` events text ∧ Z.of_nat (length (audit_shown want text)) <= want ∧
  (count_tags text = length (events text) →
   Z.of_nat (length (audit_shown want text)) = Z.min want (Z.of_nat (length (events text)))).
Proof.
  intros Hw. split; [apply suffix_drop|]. pose proof (event_count text) as Hc. unfold audit_shown.
  rewrite length_drop. destruct (Z.ltb_spec want (Z.of_nat (count_tags text))); split; lia.
Qed.

(** C34: [aegisctl audit] on every path: whatever its argument, the allocator and
    the kernel log, it returns and has released its buffer.  An argument that is
    no positive number, a failed allocation, a refused log and a log without the
    tag are each reported.  When the log has tagged lines, the command prints after
    its heading a tail of them of at most [want] lines; when no line holds the tag
    twice, exactly the last [want] (or all, if there are fewer), and the line at
    the end counts them. *)
Theorem audit_prints_a_tail argv st :
  let want := audit_want argv in
  ∃ st', cmd_audit argv st = (tt, st') ∧ u_blocks st' = u_blocks st ∧
    (want <= 0 →
     u_out st' = u_out st ++ str "usage: aegisctl audit [N]  (N = number of events, default 20)" ++ [LF]) ∧
    (0 < want → (u_malloc AUDIT_BUF_SIZE (u_world st)).1 = false →
     u_out st' = u_out st ++ str "❌ out of memory" ++ [LF]) ∧
    (∀ w, 0 < want → u_malloc AUDIT_BUF_SIZE (u_world st) = (true, w) →
       (∀ e, (u_klogctl (AUDIT_BUF_SIZE - 1) w).1 = inl e →
          u_out st' = u_out st ++ str "❌ cannot read kernel log: " ++ u_strerror e ++ [LF]
                      ++ str "   (need root, or dmesg_restrict=0)" ++ [LF]) ∧
       (∀ buf, (u_klogctl (AUDIT_BUF_SIZE - 1) w).1 = inr buf → count_tags (cstr buf) = 0%nat →
          u_out st' = u_out st ++ audit_heading want
                      ++ str "  (no AEGIS events in the kernel ring buffer)" ++ [LF; LF]) ∧
       (∀ buf, (u_klogctl (AUDIT_BUF_SIZE - 1) w).1 = inr buf → count_tags (cstr buf) ≠ 0%nat →
          ∃ shown,
            u_out st' = u_out st ++ audit_heading want ++ concat (event_line <$> shown)
                ++ audit_footer (Z.of_nat (length shown)) (Z.of_nat (count_tags (cstr buf))) ∧
            shown `suffix_of` events (cstr buf) ∧ Z.of_nat (length shown) <= want ∧
            (count_tags (cstr buf) = length (events (cstr buf)) →
             Z.of_nat (length shown) = Z.min want (Z.of_nat (length (events (cstr buf))))))).
Proof.
  intros want. destruct (audit_runs argv st) as (st' & Hr & Hb & Ho). exists st'.
  do 2 (split; [done|]). rewrite Ho. fold want. unfold audit_text.
  split; [|split; [|intros w Hpos Hm; rewrite Hm]].
  - intros Hw. by replace (want <=? 0) with true by lia.
  - intros Hpos ->. by replace (want <=? 0) with false by lia.
  - replace (want <=? 0) with false by lia. cbn [fst snd negb].
    split; [by intros e ->|]. split; intros buf ->; [by intros ->|].
    intros Hc. rewrite (proj2 (Nat.eqb_neq _ _) Hc). eexists. split; [reflexivity|].
    by apply audit_shown_tail.
Qed.

End aegisctl.

(** ** From the command line to the lists *)

(** What the C library and securityfs provide for the six endpoints: opening an
    endpoint's path for writing yields a descriptor, a write to it calls the
    endpoint's handler with the bytes written (a negative result becomes
    errno), and closing has no further effect. *)
Class EndpointFiles `{U : Userland} `{K : Kernel} (fuel : nat) := {
  ksys : uworld → sys;
  fd_of : nat → Z;
  endpoint_open i name h w :
    aectl_handlers fuel !! i = Some (name, h) → tree_ok (sfs (ksys w)) →
    ∃ w', u_open (AEGIS_SECURITYFS ++ str "/" ++ str name) true w = (inr (fd_of i), w') ∧
          ksys w' = ksys w;
  endpoint_absent i name h w :
    aectl_handlers fuel !! i = Some (name, h) → sf_live (sfs (ksys w)) = [] →
    ∃ e w', u_open (AEGIS_SECURITYFS ++ str "/" ++ str name) true w = (inl e, w') ∧
            ksys w' = ksys w;
  endpoint_write i name h w data rc s' :
    aectl_handlers fuel !! i = Some (name, h) → h data (length data) (ksys w) = Some (rc, s') →
    ∃ w', u_write (fd_of i) data w = ((if rc <? 0 then inl (- rc) else inr rc), w') ∧ ksys w' = s';
  endpoint_close fd w : ksys (u_close fd w).2 = ksys w;
}.

Section end_to_end.
Context `{U : Userland} `{K : Kernel} {fuel : nat} `{EF : !EndpointFiles fuel}.

(** What the tool prints about a write with the result [rc]. *)
Definition write_report (name : string) (value : bytes) (rc : Z) (st : ustate) : bytes :=
  if rc <? 0
  then str "❌ write " ++ (AEGIS_SECURITYFS ++ str "/" ++ str name) ++ str ": "
         ++ u_strerror (u_errno st) ++ [LF]
  else str "✅ " ++ str name ++ str " <- " ++ value ++ [LF].

(** What it prints when the endpoint is not there. *)
Definition absent_report (name : string) (st : ustate) : bytes :=
  str "❌ " ++ (AEGIS_SECURITYFS ++ str "/" ++ str name) ++ str ": " ++ u_strerror (u_errno st) ++ [LF]
  ++ str "   (need root + AEGIS loaded)" ++ [LF].

Lemma write_secfs_runs i name h value st rc s' :
  aectl_handlers fuel !! i = Some (name, h) → tree_ok (sfs (ksys (u_world st))) →
  path_in 512 AEGIS_SECURITYFS (str name) = AEGIS_SECURITYFS ++ str "/" ++ str name →
  h value (length value) (ksys (u_world st)) = Some (rc, s') →
  ∃ st', write_secfs (str name) value st = (if rc <? 0 then -1 else 0, st') ∧
    ksys (u_world st') = s' ∧ u_out st' = u_out st ++ write_report name value rc st'.
Proof.
  intros Hh Ht Hp Hr. unfold write_secfs. rewrite Hp.
  destruct (endpoint_open i name h (u_world st) Hh Ht) as (w1 & Ho & Hk1).
  rewrite <- Hk1 in Hr. destruct (endpoint_write i name h w1 value rc s' Hh Hr) as (w2 & Hw & Hk2).
  erewrite P_bind_run by (unfold ucall; rewrite Ho; reflexivity). cbn beta iota.
  unfold write_report. destruct (rc <? 0).
  - erewrite P_bind_run by (unfold ucall; cbn [u_world]; rewrite Hw; reflexivity). cbn beta iota.
    eexists. split; [reflexivity|]. split; [cbn; by rewrite endpoint_close|reflexivity].
  - erewrite P_bind_run by (unfold ucall; cbn [u_world]; rewrite Hw; reflexivity). cbn beta iota.
    eexists. split; [reflexivity|]. split; [cbn; by rewrite endpoint_close|reflexivity].
Qed.

Lemma write_secfs_absent i name h value st :
  aectl_handlers fuel !! i = Some (name, h) → sf_live (sfs (ksys (u_world st))) = [] →
  path_in 512 AEGIS_SECURITYFS (str name) = AEGIS_SECURITYFS ++ str "/" ++ str name →
  ∃ st', write_secfs (str name) value st = (-1, st') ∧
    ksys (u_world st') = ksys (u_world st) ∧ u_out st' = u_out st ++ absent_report name st'.
Proof.
  intros Hh Ht Hp. unfold write_secfs. rewrite Hp.
  destruct (endpoint_absent i name h (u_world st) Hh Ht) as (e & w1 & Ho & Hk1).
  erewrite P_bind_run by (unfold ucall; rewrite Ho; reflexivity). cbn beta iota.
  eexists. split; [reflexivity|]. split; [exact Hk1|]. unfold absent_report. cbn [u_out u_errno printf mret snd].
  unfold mbind, P_bind, P_ret, errno_text. cbn [fst snd u_out u_errno]. by rewrite <- !app_assoc.
Qed.

(** The dispatch of a write command, by its position in the table, which is that
    of its endpoint. *)
Lemma main_write_command i c prog arg extra :
  write_cmds !! i = Some c →
  main (prog :: c_name c :: arg :: extra) = ((write_secfs (c_endpoint c) arg;; mret tt);; mret 0).
Proof.
  intros Hc. destruct i as [|[|[|[|[|[|i]]]]]]; [injection Hc as <-; reflexivity..|discriminate Hc].
Qed.

Lemma command_endpoint i c name h :
  write_cmds !! i = Some c → aectl_handlers fuel !! i = Some (name, h) →
  c_endpoint c = str name ∧
  path_in 512 AEGIS_SECURITYFS (str name) = AEGIS_SECURITYFS ++ str "/" ++ str name.
Proof.
  intros Hc Hh.
  destruct i as [|[|[|[|[|[|i]]]]]]; [injection Hc as <-; injection Hh as <- _; by split..|discriminate Hc].
Qed.

(** C33: with the securityfs tree in place, each of the six write commands of
    aegisctl runs the endpoint of the same position exactly once, on exactly the
    bytes of its first argument, whatever further arguments follow; it reports
    success exactly when the endpoint's result is not an error.  Without the tree
    it leaves the module alone and says that the endpoint cannot be opened.  The
    exit status is 0 in every case. *)
Theorem aegisctl_runs_endpoint i c name h prog arg extra st :
  write_cmds !! i = Some c → aectl_handlers fuel !! i = Some (name, h) →
  (∀ rc s', tree_ok (sfs (ksys (u_world st))) →
     h arg (length arg) (ksys (u_world st)) = Some (rc, s') →
     ∃ st', main (prog :: c_name c :: arg :: extra) st = (0, st') ∧ ksys (u_world st') = s' ∧
       u_out st' = u_out st ++ write_report name arg rc st') ∧
  (sf_live (sfs (ksys (u_world st))) = [] →
     ∃ st', main (prog :: c_name c :: arg :: extra) st = (0, st') ∧
       ksys (u_world st') = ksys (u_world st) ∧ u_out st' = u_out st ++ absent_report name st').
Proof.
  intros Hc Hh. destruct (command_endpoint i c name h Hc Hh) as [He Hp].
  rewrite (main_write_command i c prog arg extra Hc), He. split.
  - intros rc s' Ht Hr. destruct (write_secfs_runs i name h arg st rc s' Hh Ht Hp Hr) as (st' & Hw & Hk & Ho).
    exists st'. split; [|done]. unfold mbind, P_bind. rewrite Hw. reflexivity.
  - intros Ht. destruct (write_secfs_absent i name h arg st Hh Ht Hp) as (st' & Hw & Hk & Ho).
    exists st'. split; [|done]. unfold mbind, P_bind. rewrite Hw. reflexivity.
Qed.

(** A name alone, without a newline, as aegisctl writes it. *)
Lemma name_text `{UL : !UninitLaws} `{SL : !ScanLaws} w :
  name_ok w →
  input_of w (length w) AEGIS_PATH_LEN = inr w ∧ w ≠ [] ∧ (0 < length w < 256)%nat ∧
  sscanf_s15_d w = mkScan 1 w None.
Proof.
  intros Hw. pose proof (line_ok_name w Hw) as Hok. pose proof (scan_name w Hw) as Hs.
  assert (0 < length w < 256)%nat as Hl by (destruct Hw; lia).
  split; [exact (input_text w AEGIS_PATH_LEN Hok (proj2 Hl))|]. split; [by destruct w; [cbn in Hl; lia|]|]. split; [done|].
  rewrite sscanf_comm_pid; [done|by apply name_no_nul|]. rewrite <- (app_nil_r w).
  eapply name_in_range; [done|rewrite app_nil_r; exact Hs|done].
Qed.

Lemma procs_add_name `{UL : !UninitLaws} `{SL : !ScanLaws} w s :
  name_ok w → capable_mac_admin (world s) = true → pl_inv (E := aegis_protected_proc) s →
  answers (aectl_procs_add_write w (length w)) (length w) s proc_abs
    (spec_add AEGIS_MAX_PROTECTED_PROCS (kmalloc_ok (world s)).1 (w, 0) (proc_abs s)).
Proof.
  intros Hw Hcap Hinv. destruct (name_text w Hw) as (Hin & Hne & Hl & Hs).
  by apply (procs_add_text w (length w) w (mkScan 1 w None)).
Qed.

Lemma procs_del_name `{UL : !UninitLaws} `{SL : !ScanLaws} w s :
  name_ok w → capable_mac_admin (world s) = true → pl_inv (E := aegis_protected_proc) s →
  answers (aectl_procs_del_write w (length w)) (length w) s proc_abs (spec_del (w, 0) (proc_abs s)).
Proof.
  intros Hw Hcap Hinv. destruct (name_text w Hw) as (Hin & Hne & Hl & Hs).
  by apply (procs_del_text w (length w) w (mkScan 1 w None)).
Qed.

(** [aegisctl proc-add name pid] protects every process of that name: the
    pid argument never reaches the kernel, and the key added is (name, 0). *)
Lemma proc_add_drops_pid `{UL : !UninitLaws} `{SL : !ScanLaws} prog w pid st :
  let s := ksys (u_world st) in
  name_ok w → capable_mac_admin (world s) = true → pl_inv (E := aegis_protected_proc) s →
  tree_ok (sfs s) →
  ∃ rc0 st', main [prog; str "proc-add"; w; pid] st = (0, st') ∧
    (rc0, proc_abs (ksys (u_world st'))) =
      spec_add AEGIS_MAX_PROTECTED_PROCS (kmalloc_ok (world s)).1 (w, 0) (proc_abs s).
Proof.
  intros s Hw Hcap Hinv Ht. destruct (procs_add_name w s Hw Hcap Hinv) as (rc0 & s' & Hr & Habs).
  destruct (write_secfs_runs 2 "protected_procs_add" aectl_procs_add_write w st _ s' eq_refl Ht eq_refl Hr)
    as (st' & Hws & Hk & _).
  exists rc0, st'. split; [|by rewrite Hk].
  refine (eq_trans (f_equal (λ m, m st) (main_write_command 2 _ prog w [pid] eq_refl)) _).
  unfold mbind, P_bind. cbn [c_endpoint]. rewrite Hws. reflexivity.
Qed.

End end_to_end.

(** ** Instances *)

(** A system on which the endpoints are the descriptors from 0 on, the read files
    those from 100 on, the sysctl file of the master switch is 200, and the
    kernel log is [ref_log]. *)
Definition ref_log : bytes :=
  str "[1.0] aegis: first" ++ [LF] ++ str "[2.0] usb: other" ++ [LF] ++ str "[3.0] aegis: second" ++ [LF].

Definition endpoint_index (path : bytes) : option nat :=
  fst <$> list_find (λ e : string * (bytes → nat → M Z),
    path = AEGIS_SECURITYFS ++ str "/" ++ str e.1) (aectl_handlers 20).

Definition read_index (path : bytes) : option nat :=
  fst <$> list_find (λ e : string * (sys → bytes),
    path = AEGIS_SECURITYFS ++ str "/" ++ str e.1) aegis_read_files.

Definition ref_open (path : bytes) (writing : bool) (w : sys) : Z + Z :=
  if writing && bool_decide (path = AEGIS_SYSCTL ++ str "/enabled") then
    if aegis_sysctl_header (vars w) then inr 200 else inl ENOENT
  else
    match sf_live (sfs w), (if writing then Z.of_nat <$> endpoint_index path
                            else (λ i, 100 + Z.of_nat i) <$> read_index path) with
    | _ :: _, Some fd => inr fd
    | _, _ => inl ENOENT
    end.

(** The result of a handler as that of write(2): a negative one is an errno, and
    [n] gives the number of bytes written. *)
Definition handler_result (n : Z → Z) (r : option (Z * sys)) (w : sys) : (Z + Z) * sys :=
  match r with
  | Some (rc, w') => ((if rc <? 0 then inl (- rc) else inr (n rc)), w')
  | None => (inl EINVAL, w)
  end.

#[global] Instance ref_userland : Userland := {|
  uworld := sys;
  u_open path writing w := (ref_open path writing w, w);
  u_write fd data w :=
    if fd =? 200 then
      handler_result (λ _, Z.of_nat (length data))
        (aegis_proc_enable (I_switch sw_enabled) true (mkIo data (Z.of_nat (length data)) 0) w) w
    else match aectl_handlers 20 !! Z.to_nat fd with
         | Some e => handler_result id (e.2 data (length data) w) w
         | None => (inl EINVAL, w)
         end;
  u_read fd n w := (match aegis_read_files !! Z.to_nat (fd - 100) with
                    | Some e => inr (take n (e.2 w))
                    | None => inr []
                    end, w);
  u_close _ w := (None, w);
  u_klogctl _ w := (inr ref_log, w);
  u_malloc _ w := (true, w);
  u_strerror _ := str "error";
|}.

Lemma endpoint_path_index i name h :
  aectl_handlers 20 !! i = Some (name, h) →
  endpoint_index (AEGIS_SECURITYFS ++ str "/" ++ str name) = Some i.
Proof.
  intros Hh. destruct i as [|[|[|[|[|[|i]]]]]]; [injection Hh as <- _; by vm_compute..|discriminate Hh].
Qed.

Lemma endpoint_not_switch i name h :
  aectl_handlers 20 !! i = Some (name, h) →
  bool_decide (AEGIS_SECURITYFS ++ str "/" ++ str name = AEGIS_SYSCTL ++ str "/enabled") = false.
Proof. by intros _. Qed.

#[global] Instance ref_endpoints : EndpointFiles 20.
Proof.
  refine {| ksys w := w; fd_of i := Z.of_nat i |}.
  - intros i name h w Hh Ht. exists w. split; [|done]. apply tree_ok_live in Ht as (d & l & Hl).
    unfold u_open, ref_userland, ref_open. rewrite Hl, (endpoint_path_index i name h Hh).
    by rewrite (endpoint_not_switch i name h Hh).
  - intros i name h w Hh Ht. exists ENOENT, w. split; [|done].
    unfold u_open, ref_userland, ref_open. by rewrite Ht, (endpoint_not_switch i name h Hh).
  - intros i name h w data rc s' Hh Hr. exists s'. unfold u_write, ref_userland.
    assert (Z.of_nat i < 200) by (apply lookup_lt_Some in Hh; cbn in Hh; lia).
    replace (Z.of_nat i =? 200) with false by lia.
    rewrite Nat2Z.id, Hh. cbn [snd]. by rewrite Hr.
  - done.
Defined.

Definition ust (s : sys) : ustate := mkU [] 0 0 s.

Lemma audit_prints_a_tail_witness :
  ∃ shown st', cmd_audit [str "aegisctl"; str "audit"; str "1"] (ust s_boot) = (tt, st') ∧
    u_blocks st' = 0 ∧ shown `suffix_of` events ref_log ∧ Z.of_nat (length shown) = 1.
Proof.
  destruct (audit_prints_a_tail (U := ref_userland) [str "aegisctl"; str "audit"; str "1"] (ust s_boot))
    as (st' & H1 & H2 & _ & _ & H3).
  destruct (H3 s_boot) as (_ & _ & H4); [by vm_compute|reflexivity|].
  destruct (H4 ref_log eq_refl) as (shown & _ & H5 & _ & H6); [discriminate|].
  exists shown, st'. split; [exact H1|]. split; [exact H2|]. split; [exact H5|]. by rewrite H6.
Defined.

Lemma aegisctl_runs_endpoint_witness :
  (∃ st', main [str "aegisctl"; str "file-add"; str "/etc/passwd"] (ust s_tree) = (0, st') ∧
     ksys (u_world st') = state_of (aectl_files_add_write 20 (str "/etc/passwd") 11) s_tree ∧
     u_out st' = str "✅ protected_files_add <- /etc/passwd" ++ [LF]) ∧
  (∃ st', main [str "aegisctl"; str "file-add"; str "/etc/passwd"] (ust s_boot) = (0, st') ∧
     ksys (u_world st') = ksys (u_world (ust s_boot)) ∧
     u_out st' = u_out (ust s_boot) ++ absent_report "protected_files_add" st').
Proof.
  split.
  - refine (proj1 (aegisctl_runs_endpoint (EF := ref_endpoints) 0 _ _ (aectl_files_add_write 20) (str "aegisctl") (str "/etc/passwd") []
              (ust s_tree) eq_refl eq_refl) 11 _ s_tree_ok _).
    exact (run_ends (aectl_files_add_write 20 (str "/etc/passwd") 11) s_tree 11 eq_refl).
  - refine (proj2 (aegisctl_runs_endpoint (EF := ref_endpoints) 0 _ _ (aectl_files_add_write 20) (str "aegisctl") (str "/etc/passwd") []
              (ust s_boot) eq_refl eq_refl) _). by vm_compute.
Defined.

Lemma proc_add_drops_pid_witness :
  let s := ksys (u_world (ust s_tree)) in
  ∃ rc0 st', main [str "aegisctl"; str "proc-add"; str "nginx"; str "42"] (ust s_tree) = (0, st') ∧
    (rc0, proc_abs (ksys (u_world st'))) =
      spec_add AEGIS_MAX_PROTECTED_PROCS (kmalloc_ok (world s)).1 (str "nginx", 0) (proc_abs s).
Proof.
  apply (proc_add_drops_pid (EF := ref_endpoints) (str "aegisctl") (str "nginx") (str "42") (ust s_tree)).
  - apply name_ok_dec. by vm_compute.
  - reflexivity.
  - apply (inv_procs 0), (reach_inv 20), s_tree_reach.
  - exact s_tree_ok.
Defined.
