(* ===== verification/AegisctlFiles.v ===== *)
(** * aegisctl on the read files and the master switch

    The listing commands print the text of a securityfs read file, as far as the
    buffer reaches; [aegisctl disable] and [aegisctl enable] go through the
    sysctl handler of the master switch to the hooks. *)

From S2P Require Import Prelude CString AegisH Kernel State RefKernel PolicyList.
From S2P Require Import Process FileHash File SyscallList Lsm Sysctl Control Securityfs System Scenario.
From S2P Require Import HookTheorems SystemTheorems Types TextSizes Aegisctl AegisctlTheorems.

(** ** What the system provides *)

(** The read files: with the securityfs tree in place, opening one yields a
    descriptor, and the first read from it the beginning of the text shown, as
    much as is asked for; without the tree it cannot be opened. *)
Class ReadFiles `{U : Userland} `{K : Kernel} (ks : uworld → sys) := {
  read_fd : nat → Z;
  read_open i name show w :
    aegis_read_files !! i = Some (name, show) → tree_ok (sfs (ks w)) →
    ∃ w', u_open (AEGIS_SECURITYFS ++ str "/" ++ str name) false w = (inr (read_fd i), w') ∧
          ks w' = ks w;
  read_absent i name show w :
    aegis_read_files !! i = Some (name, show) → sf_live (sfs (ks w)) = [] →
    ∃ e w', u_open (AEGIS_SECURITYFS ++ str "/" ++ str name) false w = (inl e, w') ∧
            ks w' = ks w;
  read_read i name show n w :
    aegis_read_files !! i = Some (name, show) →
    (u_read (read_fd i) n w).1 = inr (take n (show (ks w)));
}.

(** The file of the master switch: with the table registered, a write to it calls
    the handler; without, it cannot be opened. *)
Class SwitchFile `{U : Userland} `{K : Kernel} (ks : uworld → sys) := {
  switch_fd : Z;
  switch_open w :
    aegis_sysctl_header (vars (ks w)) = true →
    ∃ w', u_open (AEGIS_SYSCTL ++ str "/enabled") true w = (inr switch_fd, w') ∧ ks w' = ks w;
  switch_absent w :
    aegis_sysctl_header (vars (ks w)) = false →
    ∃ e w', u_open (AEGIS_SYSCTL ++ str "/enabled") true w = (inl e, w') ∧ ks w' = ks w;
  switch_write data w rc s' :
    aegis_proc_enable (I_switch sw_enabled) true (mkIo data (Z.of_nat (length data)) 0) (ks w) = Some (rc, s') →
    ∃ w', u_write switch_fd data w
            = ((if rc <? 0 then inl (- rc) else inr (Z.of_nat (length data))), w') ∧ ks w' = s';
  switch_close w : ks (u_close switch_fd w).2 = ks w;
}.

(** [proc_dointvec] reads the texts 0 and 1. *)
Class DigitLaws `{Kernel} : Prop := {
  dointvec_0 v w : (proc_dointvec v true (mkIo (str "0") 1 0) w).1 = (0, 0);
  dointvec_1 v w : (proc_dointvec v true (mkIo (str "1") 1 0) w).1 = (0, 1);
}.

(** The listing commands with their titles, in the order of [aegis_read_files]. *)
Definition listings : list (string * string) :=
  [("status", "║     AEGIS Security Module Status         ║");
   ("stats", "║     AEGIS Event Statistics               ║");
   ("procs", "║     AEGIS Protected Processes            ║");
   ("files", "║     AEGIS Protected Files                ║");
   ("symlist", "║     AEGIS Blocked Syscalls               ║")].

(** ** Listings *)

Section listings.
Context `{U : Userland} `{K : Kernel} {ks : uworld → sys} `{RF : !ReadFiles ks}.

Lemma print_file_runs i name show st :
  aegis_read_files !! i = Some (name, show) → tree_ok (sfs (ks (u_world st))) →
  (∃ c t, show (ks (u_world st)) = c :: t) →
  ∃ st', print_file (AEGIS_SECURITYFS ++ str "/" ++ str name) st = (tt, st') ∧
    u_out st' = u_out st ++ cstr (take 4095 (show (ks (u_world st)))).
Proof.
  intros Hi Htree (c & t & Ht). rewrite Ht. unfold print_file.
  destruct (read_open i name show (u_world st) Hi Htree) as (w1 & Ho & Hk).
  erewrite P_bind_run by (unfold ucall; rewrite Ho; reflexivity). cbn beta iota.
  pose proof (read_read i name show (MAX_BUF - 1) w1 Hi) as Hr.
  destruct (u_read (read_fd i) (MAX_BUF - 1) w1) as [a w2] eqn:Er. cbn in Hr. subst a.
  erewrite P_bind_run by (unfold ucall; cbn [u_world]; rewrite Er; reflexivity). cbn beta iota.
  rewrite Hk, Ht.
  change (take (MAX_BUF - 1) (c :: t)) with (c :: take 4094 t).
  change (take 4095 (c :: t)) with (c :: take 4094 t). cbn beta iota.
  eexists. split; reflexivity.
Qed.

(** What it prints when the file is not there. *)
Definition cannot_open (name : string) (st : ustate) : bytes :=
  str "  ❌ Cannot open " ++ (AEGIS_SECURITYFS ++ str "/" ++ str name) ++ str ": "
  ++ u_strerror (u_errno st) ++ [LF].

Lemma print_file_absent i name show st :
  aegis_read_files !! i = Some (name, show) → sf_live (sfs (ks (u_world st))) = [] →
  ∃ st', print_file (AEGIS_SECURITYFS ++ str "/" ++ str name) st = (tt, st') ∧
    u_out st' = u_out st ++ cannot_open name st'.
Proof.
  intros Hi Ht. unfold print_file.
  destruct (read_absent i name show (u_world st) Hi Ht) as (e & w1 & Ho & Hk).
  erewrite P_bind_run by (unfold ucall; rewrite Ho; reflexivity). cbn beta iota.
  eexists. split; [reflexivity|]. done.
Qed.

Lemma main_listing i command title name show prog :
  listings !! i = Some (command, title) → aegis_read_files !! i = Some (name, show) →
  main [prog; str command] =
    ((printf (frame title);; print_file (AEGIS_SECURITYFS ++ str "/" ++ str name));; mret 0).
Proof.
  intros Hl Hi.
  destruct i as [|[|[|[|[|i]]]]];
    [injection Hl as <- <-; injection Hi as <- _; reflexivity..|discriminate Hl].
Qed.

Lemma show_nonempty i name show s :
  aegis_read_files !! i = Some (name, show) → ∃ c t, show s = c :: t.
Proof.
  intros Hi. destruct i as [|[|[|[|[|i]]]]]; [injection Hi as _ <-; by eexists _, _..|discriminate Hi].
Qed.

(** A listing command prints the text of its file, as far as the buffer reaches;
    where the text fits, all of it. *)
Lemma listing_runs `{UL : !UninitLaws} `{SL : !ScanLaws} `{YL : !SysctlLaws}
    `{FL : !SecfsLaws} `{NL : !NrLaws} `{WL : !WidthLaws} `{KL : !KstrtoLaws}
    fuel i command title name show prog st :
  let s := ks (u_world st) in
  reach fuel s → tree_ok (sfs s) →
  listings !! i = Some (command, title) → aegis_read_files !! i = Some (name, show) →
  ∃ st', main [prog; str command] st = (0, st') ∧
    u_out st' = u_out st ++ frame title ++ cstr (take 4095 (show s)) ∧
    (command ≠ "files" ∨ (length (protected_files (reg s)) <= 12)%nat →
     cstr (take 4095 (show s)) = show s).
Proof.
  intros s Hr Ht Hl Hi. rewrite (main_listing i command title name show prog Hl Hi).
  set (st1 := (printf (frame title) st).2).
  destruct (print_file_runs i name show st1 Hi Ht (show_nonempty i name show _ Hi)) as (st' & Hp & Ho).
  exists st'. split; [|split].
  - unfold mbind, P_bind. fold st1. rewrite Hp. reflexivity.
  - rewrite Ho. cbn -[cstr take]. by rewrite <- app_assoc.
  - intros Hn. destruct (read_file_fits fuel s i name show Hr Hi) as [Hlen Hnn].
    { destruct Hn as [Hn|Hn]; [left|by right]. intros ->. by injection Hl as <- _. }
    rewrite take_ge by done. by apply cstr_id.
Qed.

(** Every reachable state has the whole tree or nothing of it. *)
Lemma tree_dichotomy `{UL : !UninitLaws} `{SL : !ScanLaws} `{YL : !SysctlLaws}
    `{FL : !SecfsLaws} `{NL : !NrLaws} fuel s :
  reach fuel s → tree_ok (sfs s) ∨ sf_live (sfs s) = [].
Proof. intros Hr. destruct (inv_tree _ _ (reach_inv fuel s Hr)) as [->|[H|[H _]]]; [by right|by left|by right]. Qed.

Lemma listing_absent i command title name show prog st :
  listings !! i = Some (command, title) → aegis_read_files !! i = Some (name, show) →
  sf_live (sfs (ks (u_world st))) = [] →
  ∃ st', main [prog; str command] st = (0, st') ∧
    u_out st' = u_out st ++ frame title ++ cannot_open name st'.
Proof.
  intros Hl Hi Ht. rewrite (main_listing i command title name show prog Hl Hi).
  set (st1 := (printf (frame title) st).2).
  destruct (print_file_absent i name show st1 Hi Ht) as (st' & Hp & Ho).
  exists st'. split; [unfold mbind, P_bind; fold st1; rewrite Hp; reflexivity|].
  rewrite Ho. cbn -[cannot_open]. by rewrite <- app_assoc.
Qed.

(** C13: in every reachable state a listing command prints its title and, below
    it, the text of its one read file when the securityfs tree is in place: the
    first 4095 bytes, which are all of it for the status, the statistics, the
    processes and the system calls, and for lists of up to twelve files.  Without
    the tree it says that the file cannot be opened; there is no third case. *)
Theorem listings_print_the_files `{UL : !UninitLaws} `{SL : !ScanLaws} `{YL : !SysctlLaws}
    `{FL : !SecfsLaws} `{NL : !NrLaws} `{WL : !WidthLaws} `{KL : !KstrtoLaws}
    fuel i command title name show prog st :
  let s := ks (u_world st) in
  reach fuel s →
  listings !! i = Some (command, title) → aegis_read_files !! i = Some (name, show) →
  ∃ st', main [prog; str command] st = (0, st') ∧
    ((tree_ok (sfs s) ∧
      u_out st' = u_out st ++ frame title ++ cstr (take 4095 (show s)) ∧
      (command ≠ "files" ∨ (length (protected_files (reg s)) <= 12)%nat →
       cstr (take 4095 (show s)) = show s)) ∨
     (sf_live (sfs s) = [] ∧ u_out st' = u_out st ++ frame title ++ cannot_open name st')).
Proof.
  intros s Hr Hl Hi. destruct (tree_dichotomy fuel s Hr) as [Ht|Ht].
  - destruct (listing_runs fuel i command title name show prog st Hr Ht Hl Hi) as (st' & H1 & H2).
    exists st'. split; [done|]. by left.
  - destruct (listing_absent i command title name show prog st Hl Hi Ht) as (st' & H1 & H2).
    exists st'. split; [done|]. by right.
Qed.

End listings.

(** ** The master switch *)

Section switch.
Context `{U : Userland} `{K : Kernel} {ks : uworld → sys} `{SF : !SwitchFile ks} `{DL : !DigitLaws}.

(** The handler on the texts 0 and 1. *)
Lemma proc_enable_digit (b : bool) s :
  let io := mkIo (str (if b then "1" else "0")) 1 0 in
  ∃ s', aegis_proc_enable (I_switch sw_enabled) true io s = Some (0, s') ∧ reg s' = reg s ∧
    aegis_sysctl_header (vars s') = aegis_sysctl_header (vars s) ∧ cfg s' = switch_set sw_enabled b (cfg s).
Proof.
  intros io. destruct (proj1 (wp_total _ _ _) (proc_enable_spec true io s))
    as (rc & s' & Hr & Hrc & Hv & (Hg & _) & Hc).
  assert ((proc_dointvec (var_get sw_enabled (vars s)) true io (world s)).1 = (0, Z.b2z b)) as Hd.
  { unfold io. destruct b; [apply dointvec_1|apply dointvec_0]. }
  rewrite Hd in Hrc, Hc. cbn in Hrc, Hc. subst rc. exists s'. split; [done|]. split; [done|]. split; [by rewrite Hv|].
  rewrite Hc. by destruct b.
Qed.

Lemma write_switch_runs (b : bool) st :
  let text := str (if b then "1" else "0") in
  aegis_sysctl_header (vars (ks (u_world st))) = true →
  ∃ st' s', write_sysctl (str "enabled") text st = (0, st') ∧ ks (u_world st') = s' ∧
    aegis_proc_enable (I_switch sw_enabled) true (mkIo text 1 0) (ks (u_world st)) = Some (0, s').
Proof.
  intros text Hh. destruct (proc_enable_digit b (ks (u_world st))) as (s' & Hr & _).
  fold text in Hr. unfold write_sysctl.
  change (path_in 256 AEGIS_SYSCTL (str "enabled")) with (AEGIS_SYSCTL ++ str "/enabled").
  destruct (switch_open (u_world st) Hh) as (w1 & Ho & Hk1). rewrite <- Hk1 in Hr.
  assert (Z.of_nat (length text) = 1) as Hlen by (unfold text; by destruct b).
  destruct (switch_write text w1 0 s') as (w2 & Hw & Hk2); [by rewrite Hlen|].
  erewrite P_bind_run by (unfold ucall; rewrite Ho; reflexivity). cbn beta iota.
  erewrite P_bind_run by (unfold ucall; cbn [u_world]; rewrite Hw; reflexivity). cbn beta iota.
  eexists _, s'. split; [reflexivity|]. split; [cbn; by rewrite switch_close|]. by rewrite <- Hk1.
Qed.

Lemma write_switch_absent text st :
  aegis_sysctl_header (vars (ks (u_world st))) = false →
  ∃ st', write_sysctl (str "enabled") text st = (-1, st') ∧ ks (u_world st') = ks (u_world st).
Proof.
  intros Hh. unfold write_sysctl.
  change (path_in 256 AEGIS_SYSCTL (str "enabled")) with (AEGIS_SYSCTL ++ str "/enabled").
  destruct (switch_absent (u_world st) Hh) as (e & w1 & Ho & Hk).
  erewrite P_bind_run by (unfold ucall; rewrite Ho; reflexivity). cbn beta iota.
  eexists. split; [reflexivity|]. exact Hk.
Qed.

(** The messages in front of the write, and the write. *)
Definition switch_announced (b : bool) (st : ustate) : ustate :=
  (printf (if b then str "Enabling AEGIS..." ++ [LF]
           else str "⚠️  Disabling AEGIS (requires reboot to fully re-enable)..." ++ [LF]) st).2.

Lemma main_switch (b : bool) prog st r st' :
  write_sysctl (str "enabled") (str (if b then "1" else "0")) (switch_announced b st) = (r, st') →
  main [prog; str (if b then "enable" else "disable")] st = (0, st').
Proof.
  intros H. destruct b.
  - change (main [prog; str "enable"]) with (cmd_enable;; mret 0).
    unfold cmd_enable, mbind, P_bind. fold (switch_announced true st). by rewrite H.
  - change (main [prog; str "disable"]) with (cmd_disable;; mret 0).
    unfold cmd_disable, mbind, P_bind. fold (switch_announced false st). by rewrite H.
Qed.

Lemma switch_cycle `{UL : !UninitLaws} `{SL : !ScanLaws} `{YL : !SysctlLaws}
    `{FL : !SecfsLaws} `{NL : !NrLaws} fuel prog st :
  let s := ks (u_world st) in
  reach fuel s → enabled (cfg s) = true → aegis_sysctl_header (vars s) = true →
  ∃ st1 st2, main [prog; str "disable"] st = (0, st1) ∧ reg (ks (u_world st1)) = reg s ∧
    (∀ e, is_hook e = true → ∃ s', run_event fuel e (ks (u_world st1)) = Some (0, s') ∧
       cfg s' = cfg (ks (u_world st1)) ∧ klog s' = klog (ks (u_world st1))) ∧
    main [prog; str "enable"] st1 = (0, st2) ∧
    reg (ks (u_world st2)) = reg s ∧ cfg (ks (u_world st2)) = cfg s.
Proof.
  intros s Hr Hen Hh.
  destruct (proc_enable_digit false s) as (s1 & H1 & Hg1 & Hv1 & Hc1).
  destruct (proc_enable_digit true s1) as (s2 & H2 & Hg2 & _ & Hc2).
  destruct (write_switch_runs false (switch_announced false st) Hh) as (st1 & s1' & Hw1 & Hk1 & Hp1).
  cbn in Hp1. fold s in Hp1. cbn in H1. rewrite H1 in Hp1. injection Hp1 as <-.
  destruct (write_switch_runs true (switch_announced true st1)) as (st2 & s2' & Hw2 & Hk2 & Hp2).
  { cbn. by rewrite Hk1, Hv1. }
  cbn in Hp2. rewrite Hk1 in Hp2. cbn in H2. rewrite H2 in Hp2. injection Hp2 as <-.
  assert (reach fuel s1) as Hr1 by exact (reach_event fuel s (Ev_sysctl 0 true _) 0 s1 Hr H1).
  exists st1, st2. split; [exact (main_switch false prog st _ _ Hw1)|]. rewrite Hk1, Hk2.
  split; [done|]. split.
  - intros e He. destruct (hooks_disabled fuel s1 e Hr1) as (s' & ? & ? & ? & _);
      [by rewrite Hc1|done|by exists s'].
  - split; [exact (main_switch true prog st1 _ _ Hw2)|]. split; [by rewrite Hg2|].
    rewrite Hc2, Hc1. destruct (cfg s); cbn in *. by rewrite Hen.
Qed.

(** C12: with the sysctl table registered, [aegisctl disable] turns every hook off
    at once: each grants its request and counts and logs nothing, with the lists
    kept; [aegisctl enable] brings back exactly the configuration there was before,
    without a reboot.  Where the registration failed at boot, both commands leave
    the module alone. *)
Theorem aegisctl_disable_enable `{UL : !UninitLaws} `{SL : !ScanLaws} `{YL : !SysctlLaws}
    `{FL : !SecfsLaws} `{NL : !NrLaws} fuel prog st :
  let s := ks (u_world st) in
  reach fuel s → enabled (cfg s) = true →
  ∃ st1 st2, main [prog; str "disable"] st = (0, st1) ∧ reg (ks (u_world st1)) = reg s ∧
    (aegis_sysctl_header (vars s) = true →
     ∀ e, is_hook e = true → ∃ s', run_event fuel e (ks (u_world st1)) = Some (0, s') ∧
       cfg s' = cfg (ks (u_world st1)) ∧ klog s' = klog (ks (u_world st1))) ∧
    (aegis_sysctl_header (vars s) = false → ks (u_world st1) = s) ∧
    main [prog; str "enable"] st1 = (0, st2) ∧
    reg (ks (u_world st2)) = reg s ∧ cfg (ks (u_world st2)) = cfg s.
Proof.
  intros s Hr Hen. destruct (aegis_sysctl_header (vars s)) eqn:Hh.
  - destruct (switch_cycle fuel prog st Hr Hen Hh) as (st1 & st2 & H1 & H2 & H3 & H4).
    by exists st1, st2.
  - destruct (write_switch_absent (str "0") (switch_announced false st) Hh) as (st1 & Hw1 & Hk1).
    cbn in Hk1. fold s in Hk1.
    destruct (write_switch_absent (str "1") (switch_announced true st1)) as (st2 & Hw2 & Hk2); [cbn; by rewrite Hk1|].
    cbn in Hk2. exists st1, st2. split; [exact (main_switch false prog st _ _ Hw1)|].
    rewrite Hk2, Hk1. do 3 (split; [done|]). split; [exact (main_switch true prog st1 _ _ Hw2)|done].
Qed.

End switch.

(** ** Instances *)

Lemma read_path_index i name show :
  aegis_read_files !! i = Some (name, show) →
  read_index (AEGIS_SECURITYFS ++ str "/" ++ str name) = Some i.
Proof.
  intros Hi. destruct i as [|[|[|[|[|i]]]]]; [injection Hi as <- _; by vm_compute..|discriminate Hi].
Qed.

#[global] Instance ref_read_files : ReadFiles (U := ref_userland) (K := ref_kernel) (λ w, w).
Proof.
  refine (@Build_ReadFiles ref_userland ref_kernel (λ w, w) (λ i, 100 + Z.of_nat i) _ _ _).
  - intros i name show w Hi Ht. exists w. split; [|done]. apply tree_ok_live in Ht as (d & l & Hl).
    unfold u_open, ref_userland, ref_open. by rewrite Hl, (read_path_index i name show Hi).
  - intros i name show w Hi Ht. exists ENOENT, w. split; [|done].
    unfold u_open, ref_userland, ref_open. by rewrite Ht.
  - intros i name show n w Hi. unfold u_read, ref_userland. cbn [fst].
    replace (100 + Z.of_nat i - 100) with (Z.of_nat i) by lia. by rewrite Nat2Z.id, Hi.
Defined.

#[global] Instance ref_switch_file : SwitchFile (U := ref_userland) (K := ref_kernel) (λ w, w).
Proof.
  refine (@Build_SwitchFile ref_userland ref_kernel (λ w, w) 200 _ _ _ _).
  - intros w Hh. exists w. split; [|done]. unfold u_open, ref_userland, ref_open.
    by rewrite Hh, bool_decide_true.
  - intros w Hh. exists ENOENT, w. split; [|done]. unfold u_open, ref_userland, ref_open.
    by rewrite Hh, bool_decide_true.
  - intros data w rc s' Hr. exists s'. unfold u_write, ref_userland. cbn [Z.eqb Pos.eqb].
    by rewrite Hr.
  - done.
Defined.

#[global] Instance ref_digit_laws : DigitLaws (H := ref_kernel).
Proof. by split. Qed.

Lemma listings_print_the_files_witness :
  ∃ st', main [str "aegisctl"; str "symlist"] (ust s_tree) = (0, st') ∧
    u_out st' = frame "║     AEGIS Blocked Syscalls               ║"
                ++ aegis_blocked_syscall_show (reg s_tree) [].
Proof.
  destruct (listings_print_the_files (RF := ref_read_files) 20 4 "symlist" _ "blocked_syscalls"
              (λ s, aegis_blocked_syscall_show (reg s) []) (str "aegisctl") (ust s_tree)
              s_tree_reach eq_refl eq_refl) as (st' & H1 & [(_ & H2 & H3)|[H _]]).
  - cbv zeta beta in H2, H3. rewrite H3 in H2 by (left; discriminate).
    exists st'. split; [exact H1|]. rewrite H2. unfold ust. cbn [u_out u_world app]. reflexivity.
  - exfalso. apply (f_equal length) in H. vm_compute in H. discriminate H.
Defined.

Lemma aegisctl_disable_enable_witness :
  ∃ st1 st2, main [str "aegisctl"; str "disable"] (ust s_file) = (0, st1) ∧
    main [str "aegisctl"; str "enable"] st1 = (0, st2) ∧
    cfg (u_world st2) = cfg (u_world (ust s_file)).
Proof.
  destruct (aegisctl_disable_enable (SF := ref_switch_file) 20 (str "aegisctl") (ust s_file) s_file_reach eq_refl)
    as (st1 & st2 & H1 & _ & _ & _ & H2 & _ & H3).
  exists st1, st2. split; [exact H1|]. split; [exact H2|exact H3].
Defined.
