(* ===== verification/Session.v ===== *)
(** * Operator sessions

    What an operator sees who changes a list with aegisctl and then lists it:
    the command goes through the control endpoint to the list, the listing
    through the read file back to the terminal, and the lines read as the new
    list. *)

From S2P Require Import Prelude CString AegisH Kernel State RefKernel PolicyList.
From S2P Require Import Process FileHash File SyscallList Lsm Sysctl Control Securityfs System Scenario.
From S2P Require Import SystemTheorems Types TextSizes ControlTheorems ShowTheorems.
From S2P Require Import Aegisctl AegisctlTheorems AegisctlFiles.

Section session.
Context `{U : Userland} `{K : Kernel} {fuel : nat} `{EF : !EndpointFiles fuel} `{RF : !ReadFiles ksys}
        `{UL : !UninitLaws} `{SL : !ScanLaws} `{YL : !SysctlLaws} `{FL : !SecfsLaws} `{NL : !NrLaws}
        `{WL : !WidthLaws} `{KL : !KstrtoLaws}
        `{L : !ShashLaws} (Halloc : ∀ w err, (shash_alloc w).1 = inl err → err ≠ 0).

(** A write command, and then a listing command that prints [text] in its frame. *)
Definition session (prog arg : bytes) (command listing title : string) (st : ustate) (text : bytes) : Prop :=
  ∃ st1 st2, main [prog; str command; arg] st = (0, st1) ∧ main [prog; str listing] st1 = (0, st2) ∧
    u_out st2 = u_out st1 ++ frame title ++ text.

(** What the listing shows is the module's read file after the write. *)
Lemma change_then_list i command endpoint help name (h : bytes → nat → M Z) j listing title rname show
    prog arg st rc s' :
  write_cmds !! i = Some (mkCmd (str command) endpoint help) →
  aectl_handlers fuel !! i = Some (name, h) →
  listings !! j = Some (listing, title) → aegis_read_files !! j = Some (rname, show) →
  reach fuel (ksys (u_world st)) → tree_ok (sfs (ksys (u_world st))) →
  h arg (length arg) (ksys (u_world st)) = Some (rc, s') →
  reach fuel s' ∧ ∃ text, session prog arg command listing title st text ∧
    (listing ≠ "files" ∨ (length (protected_files (reg s')) <= 12)%nat → text = show s').
Proof.
  intros Hc Hh Hl Hs Hr Ht Hrun.
  assert (reach fuel s') as Hr'.
  { apply (reach_event fuel _ (Ev_control i arg (length arg)) rc s' Hr). cbn [run_event]. by rewrite Hh. }
  split; [done|]. destruct (command_endpoint i _ name h Hc Hh) as [He Hp].
  destruct (write_secfs_runs i name h arg st rc s' Hh Ht Hp Hrun) as (st1 & Hw & Hk & _).
  assert (tree_ok (sfs s')) as Ht'.
  { destruct (wp_eq _ _ _ _ _ _ Hrun (control_keeps fuel i (name, h) arg (length arg) _ Hh)) as (_ & _ & -> & _).
    done. }
  rewrite <- Hk in Hr', Ht'.
  destruct (listing_runs fuel j listing title rname show prog st1 Hr' Ht' Hl Hs) as (st2 & H2 & Ho & Hall).
  rewrite Hk in Ho, Hall. exists (cstr (take 4095 (show s'))). split; [|exact Hall].
  exists st1, st2. split; [|by split].
  refine (eq_trans (f_equal (λ m, m st) (main_write_command i _ prog arg [] Hc)) _).
  rewrite He. unfold mbind, P_bind. rewrite Hw. reflexivity.
Qed.

(** The listing after a command whose endpoint answers as the bounded list. *)
Definition lists_answer {Key} (prog arg : bytes) (command listing title : string) (st : ustate)
    (rd : bytes → option Key) (spec : Z * list Key) : Prop :=
  ∃ rc text keys, session prog arg command listing title st text ∧
    rd <$> drop 3 (lines text) = Some <$> keys ∧ (rc, keys) = spec.

Lemma procs_session i command endpoint help name h prog arg st spec :
  write_cmds !! i = Some (mkCmd (str command) endpoint help) →
  aectl_handlers fuel !! i = Some (name, h) → reach fuel (ksys (u_world st)) →
  tree_ok (sfs (ksys (u_world st))) →
  answers (h arg (length arg)) (length arg) (ksys (u_world st)) proc_abs spec →
  lists_answer prog arg command "procs" "║     AEGIS Protected Processes            ║" st line_proc spec.
Proof.
  intros Hc Hh Hr Ht0 (rc & s' & Hrun & Hk).
  destruct (change_then_list i command endpoint help name h 2 "procs" _ _ _ prog arg st _ s'
    Hc Hh eq_refl eq_refl Hr Ht0 Hrun) as (Hr' & text & Hs & Ht).
  exists rc, text, (proc_abs s'). split; [done|]. split; [|done]. rewrite Ht by (by left).
  apply (proc_lines (reg s')). destruct (reachable_typed fuel s' Hr') as ([Tp _ _] & _).
  eapply Forall_impl; [exact Tp|]. by intros e (_ & _ & He).
Qed.

Lemma syscalls_session i command endpoint help name h prog arg st spec :
  write_cmds !! i = Some (mkCmd (str command) endpoint help) →
  aectl_handlers fuel !! i = Some (name, h) → reach fuel (ksys (u_world st)) →
  tree_ok (sfs (ksys (u_world st))) →
  answers (h arg (length arg)) (length arg) (ksys (u_world st)) syscall_abs spec →
  lists_answer prog arg command "symlist" "║     AEGIS Blocked Syscalls               ║" st line_number spec.
Proof.
  intros Hc Hh Hr Ht0 (rc & s' & Hrun & Hk).
  destruct (change_then_list i command endpoint help name h 4 "symlist" _ _ _ prog arg st _ s'
    Hc Hh eq_refl eq_refl Hr Ht0 Hrun) as (Hr' & text & Hs & Ht).
  exists rc, text, (syscall_abs s'). split; [done|]. split; [|done]. rewrite Ht by (by left).
  apply (syscall_lines (reg s')).
Qed.

(** The path of a line of the file listing. *)
Definition line_path (l : bytes) : option bytes := fst <$> line_file l.

(** The listing of files shows all of at most twelve entries. *)
Definition lists_files (prog arg : bytes) (command : string) (st : ustate) (spec : Z * list bytes) : Prop :=
  ∃ rc text keys, session prog arg command "files" "║     AEGIS Protected Files                ║" st text ∧
    ((length keys <= 12)%nat → Forall listable keys →
     line_path <$> drop 3 (lines text) = Some <$> keys) ∧ (rc, keys) = spec.

Lemma files_session i command endpoint help name h prog arg st spec :
  write_cmds !! i = Some (mkCmd (str command) endpoint help) →
  aectl_handlers fuel !! i = Some (name, h) → reach fuel (ksys (u_world st)) →
  tree_ok (sfs (ksys (u_world st))) →
  answers (h arg (length arg)) (length arg) (ksys (u_world st)) file_abs spec →
  lists_files prog arg command st spec.
Proof.
  intros Hc Hh Hr Ht0 (rc & s' & Hrun & Hk).
  destruct (change_then_list i command endpoint help name h 3 "files" _ _ _ prog arg st _ s'
    Hc Hh eq_refl eq_refl Hr Ht0 Hrun) as (Hr' & text & Hs & Ht).
  exists rc, text, (file_abs s'). split; [done|]. split; [|done]. intros Hl Hall.
  unfold file_abs, pl_abs in Hl. rewrite length_fmap in Hl. rewrite Ht by (by right).
  destruct (reachable_typed fuel s' Hr') as ([_ Tf _] & _).
  destruct (file_lines (reg s') Tf Hall) as [_ Hlines]. unfold line_path.
  apply (f_equal (fmap (fmap fst))) in Hlines. rewrite <- !list_fmap_compose in Hlines.
  etransitivity; [|etransitivity; [exact Hlines|]]; [by apply list_fmap_ext|].
  unfold file_abs, pl_abs. rewrite <- list_fmap_compose. by apply list_fmap_ext.
Qed.

(** Without the tree both commands say so, and the module is left alone. *)
Lemma session_absent i c name h j listing title rname show prog arg st :
  write_cmds !! i = Some c → aectl_handlers fuel !! i = Some (name, h) →
  listings !! j = Some (listing, title) → aegis_read_files !! j = Some (rname, show) →
  sf_live (sfs (ksys (u_world st))) = [] →
  ∃ st1 st2, main [prog; c_name c; arg] st = (0, st1) ∧ main [prog; str listing] st1 = (0, st2) ∧
    ksys (u_world st1) = ksys (u_world st) ∧ u_out st1 = u_out st ++ absent_report name st1 ∧
    u_out st2 = u_out st1 ++ frame title ++ cannot_open rname st2.
Proof.
  intros Hc Hh Hl Hs Ht. destruct (command_endpoint i c name h Hc Hh) as [He Hp].
  destruct (write_secfs_absent i name h arg st Hh Ht Hp) as (st1 & Hw & Hk & Ho).
  assert (sf_live (sfs (ksys (u_world st1))) = []) as Ht1 by by rewrite Hk.
  destruct (listing_absent j listing title rname show prog st1 Hl Hs Ht1) as (st2 & H2 & Ho2).
  exists st1, st2. split; [|done]. rewrite (main_write_command i c prog arg [] Hc), He.
  unfold mbind, P_bind. rewrite Hw. reflexivity.
Qed.

(** C14: what an operator changes with aegisctl shows up in the next listing.
    With the securityfs tree in place, after [proc-add name] or [proc-del name] the
    command [procs] prints a text whose lines read as the process keys of the
    bounded list after the addition or the deletion of (name, 0); after
    [syscall-add n] or [syscall-del n] the command [symlist] one whose lines read
    as the numbers after it; and after [file-add path] or [file-del path] the
    command [files] one whose lines read as the paths after it, as long as these
    are at most twelve and none holds a newline or ends in a blank.  Without the
    tree every write command and every listing says that it cannot open its file,
    and the module is left alone. *)
Theorem aegisctl_change_then_list prog st :
  let s := ksys (u_world st) in
  reach fuel s → capable_mac_admin (world s) = true →
  let procs command w spec :=
    lists_answer prog w command "procs" "║     AEGIS Protected Processes            ║" st line_proc spec in
  let syscalls command n spec :=
    lists_answer prog (fmt_d n) command "symlist" "║     AEGIS Blocked Syscalls               ║" st line_number spec in
  (tree_ok (sfs s) →
   (∀ w, name_ok w →
      procs "proc-add" w (spec_add AEGIS_MAX_PROTECTED_PROCS (kmalloc_ok (world s)).1 (w, 0) (proc_abs s)) ∧
      procs "proc-del" w (spec_del (w, 0) (proc_abs s))) ∧
   (∀ n, 0 <= n <= INT_MAX →
      syscalls "syscall-add" n (spec_add AEGIS_MAX_BLOCKED_SYSCALLS (kmalloc_ok (world s)).1 n (syscall_abs s)) ∧
      syscalls "syscall-del" n (spec_del n (syscall_abs s))) ∧
   (∀ p, line_ok p → (length p < 256)%nat → kmalloc_total →
      (path_finite fuel p →
         lists_files prog p "file-add" st (spec_add AEGIS_MAX_PROTECTED_FILES true p (file_abs s))) ∧
      lists_files prog p "file-del" st (spec_del p (file_abs s)))) ∧
  (tree_ok (sfs s) ∨
   ∀ i c name h j listing title rname show arg,
     write_cmds !! i = Some c → aectl_handlers fuel !! i = Some (name, h) →
     listings !! j = Some (listing, title) → aegis_read_files !! j = Some (rname, show) →
     ∃ st1 st2, main [prog; c_name c; arg] st = (0, st1) ∧ main [prog; str listing] st1 = (0, st2) ∧
       ksys (u_world st1) = s ∧ u_out st1 = u_out st ++ absent_report name st1 ∧
       u_out st2 = u_out st1 ++ frame title ++ cannot_open rname st2).
Proof.
  intros s Hr Hcap procs syscalls. pose proof (reach_inv fuel s Hr) as Hi. split; [intros Ht; split; [|split]|].
  - intros w Hw. pose proof (inv_procs _ _ Hi). split.
    + by apply (procs_session 2 _ _ _ _ _ prog w st _ eq_refl eq_refl Hr Ht), procs_add_name.
    + by apply (procs_session 3 _ _ _ _ _ prog w st _ eq_refl eq_refl Hr Ht), procs_del_name.
  - intros n Hn. pose proof (inv_syscalls _ _ Hi).
    pose proof (fmt_d_int_length n Hn). pose proof (fmt_d_length n).
    pose proof (input_text _ 16 (fmt_d_line n (proj1 Hn)) ltac:(lia)). split.
    + apply (syscalls_session 4 _ _ _ _ _ prog (fmt_d n) st _ eq_refl eq_refl Hr Ht).
      apply syscalls_add_text; try done; lia.
    + apply (syscalls_session 5 _ _ _ _ _ prog (fmt_d n) st _ eq_refl eq_refl Hr Ht).
      apply syscalls_del_text; try done; lia.
  - intros p Hok Hl Hk. pose proof (inv_files _ _ Hi). split.
    + intros Hf. apply (files_session 0 _ _ _ _ _ prog p st _ eq_refl eq_refl Hr Ht).
      by apply (files_add_text Halloc).
    + apply (files_session 1 _ _ _ _ _ prog p st _ eq_refl eq_refl Hr Ht). by apply files_del_text.
  - destruct (tree_dichotomy fuel s Hr) as [Ht|Ht]; [by left|right].
    intros i c name h j listing title rname show arg Hc Hh Hl Hs.
    by apply (session_absent i c name h j listing title rname show).
Qed.

End session.

Lemma aegisctl_change_then_list_witness :
  let s := ksys (EndpointFiles := ref_endpoints) (u_world (ust s_tree)) in
  lists_answer (str "aegisctl") (str "nginx") "proc-add" "procs"
    "║     AEGIS Protected Processes            ║" (ust s_tree) line_proc
    (spec_add AEGIS_MAX_PROTECTED_PROCS (kmalloc_ok (world s)).1 (str "nginx", 0) (proc_abs s)) ∧
  lists_files (str "aegisctl") (str "/etc/passwd") "file-add" (ust s_tree)
    (spec_add AEGIS_MAX_PROTECTED_FILES true (str "/etc/passwd") (file_abs s)).
Proof.
  assert (Halloc : ∀ w err, (shash_alloc (Kernel := ref_kernel) w).1 = inl err → err ≠ 0) by discriminate.
  destruct (aegisctl_change_then_list (EF := ref_endpoints) (RF := ref_read_files) (L := ref_shash_laws)
    Halloc (str "aegisctl") (ust s_tree)) as [H _]; [exact s_tree_reach|reflexivity|].
  destruct (H s_tree_ok) as (H1 & _ & H2).
  split.
  - refine (proj1 (H1 (str "nginx") _)). apply name_ok_dec. by vm_compute.
  - refine (proj1 (H2 (str "/etc/passwd") passwd_line_ok _ _) _).
    + by_decision.
    + intros w. reflexivity.
    + by apply finite_paths.
Defined.
