(* ===== verification/DevInit.v ===== *)
(** * The init process of the test image (devkit/src/init/aegis_init.c)

    Init talks to the kernel and the C library all the time and is meant never
    to return, so it is an interaction tree: the calls it makes are the events
    [initE], and its two unbounded loops are [ITree.iter], without fuel.  What a
    call answers is up to the class [OS]; a call that never comes back, such as
    an exec that succeeds, has the answer [None].  [eventually] is total
    correctness of a tree on an [OS]: finitely many calls lead to a result or to
    a call that does not come back. *)

From ITree Require Import ITree.
From S2P Require Import Prelude CString.

(** ** Calls *)

Variant initE : Type → Type :=
| Signal (signum : Z) : initE unit                          (* to [sig_handler] *)
| Write (fd : Z) (buf : bytes) : initE Z
| Mkdir (path : bytes) (mode : Z) : initE Z
| Mount (source target fstype : bytes) (flags : Z) (data : option bytes) : initE Z
| Mknod (path : bytes) (mode dev : Z) : initE Z
| Setenv (name value : bytes) (overwrite : Z) : initE Z
| Sethostname (name : bytes) (len : Z) : initE Z
| Open (path : bytes) (flags : Z) : initE Z
| Read (fd : Z) (count : nat) : initE (option bytes)        (* None: -1 *)
| Close (fd : Z) : initE Z
| Popen (command type : bytes) : initE (option Z)           (* None: NULL *)
| Fgets (size : nat) (fp : Z) : initE (option bytes)
| Pclose (fp : Z) : initE Z
| Printf (text : bytes) : initE Z
| Perror (s : bytes) : initE unit
| Execlp (file : bytes) (args : list bytes) : initE unit.

#[export] Instance itree_ret {E} : MRet (itree E) := λ R r, Ret r.
#[export] Instance itree_bind {E} : MBind (itree E) := λ A B k t, ITree.bind t k.

Notation init := (itree initE).

Definition call {R} (c : initE R) : init R := ITree.trigger c.

(** ** Header constants *)

Definition STDOUT_FILENO : Z := 1.
Definition O_RDONLY : Z := 0.
Definition MS_NOSUID : Z := 2.
Definition MS_NODEV : Z := 4.
Definition MS_NOEXEC : Z := 8.
Definition SIGINT : Z := 2.
Definition SIGTERM : Z := 15.
Definition SIGCHLD : Z := 17.
Definition S_IFMT : Z := 61440.         (* 0170000 *)

(** [makedev] of sys/sysmacros.h. *)
Definition makedev (major minor : Z) : Z :=
  Z.lor (Z.shiftl (Z.land major 4294963200) 32)
 (Z.lor (Z.shiftl (Z.land major 4095) 8)
 (Z.lor (Z.shiftl (Z.land minor 4294967040) 12) (Z.land minor 255))).

(** ** Messages *)

Definition ESC : ascii := "027"%char.

Definition AEGIS_BANNER : bytes := concat ((λ l, str l ++ [LF]) <$>
  [""; "    ╔══════════════════════════════════════════════════╗";
   "    ║                                                  ║";
   "    ║       🛡️  AEGIS DevKit  v1.0.0                 ║";
   "    ║       Advanced Guardian for                     ║";
   "    ║       Integrated System Security                ║";
   "    ║                                                  ║";
   "    ║       Kernel: 7.3.0-rc1-aegis                   ║";
   "    ║       Userspace: Minimal Developer OS           ║";
   "    ║                                                  ║";
   "    ╚══════════════════════════════════════════════════╝"; ""]).

Definition AEGIS_COLORS : bytes :=
  ESC :: str "[1;33m" ++ str "  [AEGIS] " ++ ESC :: str "[0m".

(** The table ends with a row of NULLs, where the loop stops. *)
Definition mounts : list (string * string * string) :=
  [("proc", "/proc", "proc");
   ("sysfs", "/sys", "sysfs");
   ("securityfs", "/sys/kernel/security", "securityfs");
   ("tmpfs", "/tmp", "tmpfs");
   ("devtmpfs", "/dev", "devtmpfs");
   ("debugfs", "/sys/kernel/debug", "debugfs")].

(** [buf]: the memory from the pointer on; [len]: a size_t. *)
Definition safe_write (fd : Z) (buf : bytes) (len : Z) : init unit :=
  ITree.iter (λ '(buf, len),
    if 0 <? len then
      n ← call (Write fd (take (Z.to_nat len) buf));
      if n <=? 0 then mret (inr tt)
      else mret (inl (drop (Z.to_nat n) buf, wrap_u 64 (len - n)))
    else mret (inr tt)) (buf, len).

Definition print_msg (msg : bytes) : init unit :=
  safe_write STDOUT_FILENO AEGIS_COLORS (Z.of_nat (length AEGIS_COLORS));;
  safe_write STDOUT_FILENO msg (strlen msg);;
  safe_write STDOUT_FILENO [LF] 1.

Definition print_msg_raw (msg : bytes) : init unit :=
  safe_write STDOUT_FILENO msg (strlen msg).

(** ** The phases *)

Definition do_mount (source target fstype : bytes) (flags : Z) (data : option bytes) : init Z :=
  call (Mkdir target 493);;
  ret ← call (Mount source target fstype flags data);
  if ret =? 0 then
    print_msg target;;
    mret 0
  else mret (-1).

Fixpoint mount_all (rows : list (string * string * string)) : init unit :=
  match rows with
  | [] => mret tt
  | (source, target, fstype) :: rows' =>
      do_mount (str source) (str target) (str fstype) (Z.lor MS_NOEXEC MS_NOSUID) None;;
      mount_all rows'
  end.

Definition setup_filesystems : init unit :=
  print_msg (str "Mounting filesystems...");;
  mount_all mounts;;
  call (Mount (str "proc") (str "/proc") (str "proc")
              (Z.lor (Z.lor MS_NOSUID MS_NODEV) MS_NOEXEC) None);;
  call (Mount (str "sysfs") (str "/sys") (str "sysfs")
              (Z.lor (Z.lor MS_NOSUID MS_NODEV) MS_NOEXEC) None);;
  call (Mkdir (str "/dev/pts") 493);;
  call (Mount (str "devpts") (str "/dev/pts") (str "devpts") (Z.lor MS_NOEXEC MS_NOSUID) None);;
  call (Mkdir (str "/run") 493);;
  call (Mount (str "tmpfs") (str "/run") (str "tmpfs") (Z.lor MS_NOEXEC MS_NOSUID)
              (Some (str "size=64M,mode=0755")));;
  print_msg (str "Filesystems mounted").

(** [for (int i = 1; i <= 6; i++)]: [i] on, [n] rounds to go. *)
Fixpoint tty_nodes (i : Z) (n : nat) : init unit :=
  match n with
  | O => mret tt
  | S n' =>
      call (Mknod (take 31 (str "/dev/tty" ++ fmt_d i)) 400 (makedev 4 i));;
      tty_nodes (i + 1) n'
  end.

Definition create_device_nodes : init unit :=
  print_msg (str "Creating device nodes...");;
  call (Mknod (str "/dev/null") 438 (makedev 1 3));;
  call (Mknod (str "/dev/zero") 438 (makedev 1 5));;
  call (Mknod (str "/dev/full") 438 (makedev 1 7));;
  call (Mknod (str "/dev/random") 438 (makedev 1 8));;
  call (Mknod (str "/dev/urandom") 438 (makedev 1 9));;
  call (Mknod (str "/dev/tty") 438 (makedev 5 0));;
  call (Mknod (str "/dev/console") 384 (makedev 5 1));;
  call (Mknod (str "/dev/ptmx") 438 (makedev 5 2));;
  tty_nodes 1 6;;
  print_msg (str "Device nodes created").

Definition setup_environment : init unit :=
  print_msg (str "Setting up environment...");;
  call (Setenv (str "HOME") (str "/root") 1);;
  call (Setenv (str "PATH") (str "/usr/local/bin:/usr/bin:/bin:/usr/sbin:/sbin") 1);;
  call (Setenv (str "TERM") (str "linux") 1);;
  call (Setenv (str "PS1") (str "\033[1;32mAEGIS\033[0m:\w\$ ") 1);;
  call (Setenv (str "LANG") (str "en_US.UTF-8") 1);;
  call (Setenv (str "SHELL") (str "/bin/sh") 1);;
  call (Setenv (str "AEGIS_VERSION") (str "1.0.0") 1);;
  call (Setenv (str "AEGIS_KERNEL") (str "7.3.0-rc1-aegis") 1);;
  rc ← call (Sethostname (str "aegis-dev") 9);
  (if rc <? 0 then print_msg (str "Warning: sethostname failed") else mret tt);;
  print_msg (str "Environment ready").

Definition LSM_FILE : bytes := str "/proc/sys/kernel/lsm".
Definition STATUS_FILE : bytes := str "/sys/kernel/security/aegis/status".

(** [char buf[1024]]; [buf[n] = '\0'] after [read(fd, buf, sizeof(buf) - 1)]. *)
Definition check_lsm_chain : init unit :=
  fd ← call (Open LSM_FILE O_RDONLY);
  if 0 <=? fd then
    n ← call (Read fd 1023);
    match n with
    | Some (c :: data) =>
        let buf := cstr (c :: data) in
        (if strstr buf (str "aegis")
         then print_msg (str "✅ AEGIS is ACTIVE in kernel LSM chain")
         else print_msg (str "⚠️  AEGIS not found in LSM chain"));;
        call (Printf (str "  LSM chain: " ++ buf ++ [LF]));;
        mret tt
    | _ => mret tt
    end;;
    call (Close fd);;
    mret tt
  else print_msg (str "⚠️  Cannot read /proc/sys/kernel/lsm").

Definition check_status : init unit :=
  fd ← call (Open STATUS_FILE O_RDONLY);
  if 0 <=? fd then
    n ← call (Read fd 1023);
    match n with
    | Some (c :: data) => call (Printf ([LF] ++ cstr (c :: data) ++ [LF]));; mret tt
    | _ => mret tt
    end;;
    call (Close fd);;
    mret tt
  else
    print_msg (str "ℹ️  /sys/kernel/security/aegis/ not available (AEGIS may not be compiled in)").

Definition check_aegis : init unit :=
  print_msg (str "Checking AEGIS status...");;
  check_lsm_chain;;
  check_status.

(** [while (fgets(buf, sizeof(buf), fp)) printf("  %s", buf);] *)
Definition copy_lines (fp : Z) : init unit :=
  ITree.iter (λ _ : unit,
    l ← call (Fgets 256 fp);
    match l with
    | Some buf => call (Printf (str "  " ++ cstr buf));; mret (inl tt)
    | None => mret (inr tt)
    end) tt.

Definition show_output (command : bytes) : init unit :=
  fp ← call (Popen command (str "r"));
  match fp with
  | Some fp => copy_lines fp;; call (Pclose fp);; mret tt
  | None => mret tt
  end.

Definition show_system_info : init unit :=
  print_msg (str "System information:");;
  show_output (str "uname -a");;
  show_output (str "cat /proc/meminfo | head -5").

Definition run_shell : init unit :=
  let shell := str "/bin/sh" in
  print_msg (str "Starting AEGIS development shell...");;
  print_msg_raw (ESC :: str "[1;33m  Type 'help' for AEGIS commands" ++ ESC :: str "[0m" ++ [LF; LF]);;
  call (Execlp shell [shell; str "--login"]);;
  call (Execlp (str "/bin/sh") [str "sh"]);;
  call (Perror (str "Failed to exec shell")).

(** The handler of the three signals does nothing. *)
Definition sig_handler (sig : Z) : init unit := mret tt.

Definition init_main : init Z :=
  call (Signal SIGCHLD);;
  call (Signal SIGINT);;
  call (Signal SIGTERM);;
  print_msg_raw AEGIS_BANNER;;
  setup_filesystems;;
  create_device_nodes;;
  setup_environment;;
  check_aegis;;
  show_system_info;;
  run_shell;;
  mret 0.
