(* ===== verification/InitRun.v ===== *)
(** * Runs of interaction programs

    What it means for a tree of [initE] calls to run on an operating system:
    the inductive predicate [eventually], with the rules for results, calls,
    sequencing and loops.  The history of calls is part of the state, so that
    postconditions speak of what was done and in which order. *)

From ITree Require Import ITree Eq.Shallow.
From S2P Require Import Prelude CString DevInit.

(** ** The operating system *)

(** [None]: the call does not come back. *)
Class OS := {
  os_world : Type;
  os_call : ∀ {R}, initE R → os_world → option (R * os_world);
}.

Definition is_exec {R} (c : initE R) : bool :=
  match c with Execlp _ _ => true | _ => false end.

(** A call with its answer. *)
Inductive event :=
| Ev (R : Type) (c : initE R) (answer : option R).
Arguments Ev {R} c answer.

Section run.
Context `{O : OS}.

Record istate := mkI { history : list event; owrld : os_world }.

Definition after {R} (c : initE R) (a : option R) (w : os_world) (s : istate) : istate :=
  mkI (history s ++ [Ev c a]) w.

(** The program performs finitely many calls and then returns with [Q], or
    stays in a call that does not come back, with [G]. *)
Inductive eventually {R} (Q : R → istate → Prop) (G : istate → Prop) :
    init R → istate → Prop :=
| ev_ret t r s :
    observe t = RetF r → Q r s → eventually Q G t s
| ev_tau t t' s :
    observe t = TauF t' → eventually Q G t' s → eventually Q G t s
| ev_call t A (c : initE A) k a w s :
    observe t = VisF c k → os_call c (owrld s) = Some (a, w) →
    eventually Q G (k a) (after c (Some a) w s) → eventually Q G t s
| ev_gone t A (c : initE A) k s :
    observe t = VisF c k → os_call c (owrld s) = None →
    G (after c None (owrld s) s) → eventually Q G t s.

Definition never : istate → Prop := λ _, False.

Lemma eventually_mono {R} (Q Q' : R → istate → Prop) (G G' : istate → Prop) t s :
  eventually Q G t s → (∀ r s, Q r s → Q' r s) → (∀ s, G s → G' s) → eventually Q' G' t s.
Proof. intros H HQ HG. induction H; eauto using @eventually. Qed.

Lemma eventually_ret {R} (Q : R → istate → Prop) G r s : Q r s → eventually Q G (mret r) s.
Proof. by apply ev_ret. Qed.

Lemma eventually_observe {R} (Q : R → istate → Prop) G t t' s :
  observe t = observe t' → eventually Q G t s → eventually Q G t' s.
Proof.
  intros E H. inversion H; subst; rewrite E in *;
    [eapply ev_ret|eapply ev_tau|eapply ev_call|eapply ev_gone]; eauto.
Qed.

Lemma eventually_bind {A R} (t : init A) (k : A → init R) Q G s :
  eventually (λ a s, eventually Q G (k a) s) G t s → eventually Q G (t ≫= k) s.
Proof.
  assert (∀ t, observe (t ≫= k) = observe (ITree.bind t k)) as Hb by done.
  intros H. induction H as [t r s E H|t t' s E H IH|t X c k' a w s E Hc H IH|t X c k' s E Hc H].
  - eapply eventually_observe; [|exact H]. by rewrite Hb, observe_bind, E.
  - eapply ev_tau; [|exact IH]. by rewrite Hb, observe_bind, E.
  - eapply (ev_call _ _ _ _ _ (λ x, k' x ≫= k)); [|exact Hc|exact IH]. by rewrite Hb, observe_bind, E.
  - eapply (ev_gone _ _ _ _ _ (λ x, k' x ≫= k)); [|exact Hc|exact H]. by rewrite Hb, observe_bind, E.
Qed.

(** One round of a loop. *)
Lemma eventually_iter {A R} (body : A → init (A + R)) i Q G s :
  eventually (λ r s, match r with
                     | inl j => eventually Q G (ITree.iter body j) s
                     | inr r => Q r s
                     end) G (body i) s →
  eventually Q G (ITree.iter body i) s.
Proof.
  intros H. eapply (eventually_observe _ _
    (ITree.bind (body i) (λ lr, match lr with inl l => Tau (ITree.iter body l) | inr r => Ret r end)));
    [done|].
  apply (eventually_bind (body i) _). eapply eventually_mono; [exact H| |done].
  intros [j|r] s' H'; [by eapply ev_tau|by eapply ev_ret].
Qed.

Lemma eventually_call {R} (c : initE R) Q G s :
  match os_call c (owrld s) with
  | Some (a, w) => Q a (after c (Some a) w s)
  | None => G (after c None (owrld s) s)
  end → eventually Q G (call c) s.
Proof.
  intros H. destruct (os_call c (owrld s)) as [[a w]|] eqn:E.
  - eapply ev_call; [done|exact E|]. by eapply ev_ret.
  - by eapply ev_gone.
Qed.

Lemma eventually_inv {R} (Q : R → istate → Prop) G t s :
  eventually Q G t s →
  match observe t with
  | RetF r => Q r s
  | TauF t' => eventually Q G t' s
  | VisF c k => match os_call c (owrld s) with
                | Some (a, w) => eventually Q G (k a) (after c (Some a) w s)
                | None => G (after c None (owrld s) s)
                end
  end.
Proof.
  intros [? ? ? E H|? ? ? E H|? ? ? ? ? ? ? E Hc H|? ? ? ? ? E Hc H]; rewrite E; [done|done| |];
    by rewrite Hc.
Qed.

(** A program has one ending: two descriptions of it hold together. *)
Lemma eventually_and {R} (Q Q' : R → istate → Prop) G G' t s :
  eventually Q G t s → eventually Q' G' t s →
  eventually (λ r s, Q r s ∧ Q' r s) (λ s, G s ∧ G' s) t s.
Proof.
  intros H. induction H as [t r s E H|t t' s E H IH|t X c k a w s E Hc H IH|t X c k s E Hc H];
    intros H'%eventually_inv; rewrite E in H'.
  - by eapply ev_ret.
  - eapply ev_tau; eauto.
  - rewrite Hc in H'. eapply ev_call; eauto.
  - rewrite Hc in H'. by eapply ev_gone.
Qed.

(** [n] steps of a program; [None] in the result for a call that did not come
    back. *)
Fixpoint run {R} (n : nat) (t : init R) (s : istate) : option (option R * istate) :=
  match n with
  | 0%nat => None
  | S n' =>
      match observe t with
      | RetF r => Some (Some r, s)
      | TauF t' => run n' t' s
      | VisF c k => match os_call c (owrld s) with
                    | Some (a, w) => run n' (k a) (after c (Some a) w s)
                    | None => Some (None, after c None (owrld s) s)
                    end
      end
  end.

(** What is shown to hold eventually holds where a run ends. *)
Lemma run_eventually {R} n (t : init R) s o s' Q G :
  run n t s = Some (o, s') → eventually Q G t s →
  match o with Some r => Q r s' | None => G s' end.
Proof.
  revert t s. induction n as [|n IH]; intros t s Hr He; [done|]. cbn in Hr.
  pose proof (eventually_inv _ _ _ _ He) as H. destruct (observe t) as [r|t'|X c k]; [by simplify_eq|by eapply IH|].
  destruct (os_call c (owrld s)) as [[a w]|]; [by eapply IH|by simplify_eq].
Qed.

(** An invariant that every call keeps holds at the end. *)
Lemma eventually_invariant {R} (I : istate → Prop) (Q : R → istate → Prop) G t s :
  (∀ A (c : initE A) a w s, I s → os_call c (owrld s) = Some (a, w) → I (after c (Some a) w s)) →
  I s → eventually Q G t s → eventually (λ r s, Q r s ∧ I s) G t s.
Proof.
  intros Hk HI H. revert HI.
  induction H as [t r s E H|t t' s E H IH|t X c k a w s E Hc H IH|t X c k s E Hc H]; intros HI.
  - by eapply ev_ret.
  - eapply ev_tau; eauto.
  - eapply ev_call; eauto.
  - by eapply ev_gone.
Qed.

(** ** Programs by the calls they add

    [does t P]: from every state [t] comes back, and its result and the calls
    it made satisfy [P]. *)
Definition does {R} (t : init R) (P : R → list event → Prop) : Prop :=
  ∀ s G, eventually (λ r s', ∃ tr, history s' = history s ++ tr ∧ P r tr) G t s.

Lemma does_ret {R} (r : R) (P : R → list event → Prop) : P r [] → does (mret r) P.
Proof. intros H s G. apply eventually_ret. exists []. by rewrite app_nil_r. Qed.

Lemma does_mono {R} (t : init R) (P P' : R → list event → Prop) :
  does t P → (∀ r tr, P r tr → P' r tr) → does t P'.
Proof.
  intros H HP s G. eapply eventually_mono; [apply H| |done]. intros r s' (tr & ? & ?); eauto.
Qed.

Lemma does_bind {A R} (t : init A) (k : A → init R) P1 (P2 : A → R → list event → Prop) P :
  does t P1 → (∀ a, does (k a) (P2 a)) →
  (∀ a r tr1 tr2, P1 a tr1 → P2 a r tr2 → P r (tr1 ++ tr2)) →
  does (t ≫= k) P.
Proof.
  intros H1 H2 HP s G. apply eventually_bind. eapply eventually_mono; [apply H1| |done].
  intros a s1 (tr1 & E1 & HP1). eapply eventually_mono; [apply H2| |done].
  intros r s2 (tr2 & E2 & HP2). exists (tr1 ++ tr2). rewrite E2, E1, app_assoc. eauto.
Qed.

End run.

(** ** What is assumed of the system *)

(** The output read by [copy_lines] has an end. *)
Inductive drains `{O : OS} (fp : Z) : os_world → Prop :=
| drains_eof w w' : os_call (Fgets 256 fp) w = Some (None, w') → drains fp w
| drains_line w l w1 n w2 :
    os_call (Fgets 256 fp) w = Some (Some l, w1) →
    os_call (Printf (str "  " ++ cstr l)) w1 = Some (n, w2) →
    drains fp w2 → drains fp w.

(** The commands whose output init shows. *)
Definition info_commands : list bytes := [str "uname -a"; str "cat /proc/meminfo | head -5"].

(** Only an exec may fail to come back; write(2) takes at most what it is given;
    the output of the two commands is finite. *)
Class OsLaws `{O : OS} : Prop := {
  os_returns : ∀ R (c : initE R) w, is_exec c = false → is_Some (os_call c w);
  os_write_bound : ∀ fd buf w n w',
    os_call (Write fd buf) w = Some (n, w') → n <= Z.of_nat (length buf);
  os_drains : ∀ cmd w fp w', cmd ∈ info_commands →
    os_call (Popen cmd (str "r")) w = Some (Some fp, w') → drains fp w';
}.

Section laws.
Context `{O : OS} `{L : !OsLaws}.

Lemma eventually_syscall {R} (c : initE R) Q G s :
  is_exec c = false →
  (∀ a w, os_call c (owrld s) = Some (a, w) → Q a (after c (Some a) w s)) →
  eventually Q G (call c) s.
Proof.
  intros Hx H. apply eventually_call. destruct (os_returns R c (owrld s) Hx) as [[a w] E].
  rewrite E. by apply H.
Qed.

Lemma does_call {R} (c : initE R) (P : R → list event → Prop) :
  is_exec c = false → (∀ a, P a [Ev c (Some a)]) → does (call c) P.
Proof.
  intros Hx H s G. apply eventually_syscall; [done|]. intros a w _. by exists [Ev c (Some a)].
Qed.

End laws.
