(* ===== verification/DevInitTheorems.v ===== *)
(** * Theorems about the init process

    Whatever the calls answer, init gets to the point where it starts a shell,
    and nothing it opened is left open.  The calls that set the system up are
    made in a fixed order; the order and the arguments of some of them are not
    what the comments say.  The status text of the kernel module reaches the
    console in full when the securityfs tree can be reached. *)

From ITree Require Import ITree.
From S2P Require Import Prelude CString AegisH Kernel State RefKernel PolicyList.
From S2P Require Import Process FileHash File SyscallList Lsm Sysctl Control Securityfs System Scenario.
From S2P Require Import TextSizes DevInit InitRun.

(** ** Reading histories *)

(** The calls that set the system up, without their answers. *)
Inductive setup :=
| S_mkdir (path : bytes) (mode : Z)
| S_mount (source target fstype : bytes) (flags : Z) (data : option bytes)
| S_mknod (path : bytes) (mode dev : Z)
| S_setenv (name value : bytes)
| S_hostname (name : bytes).

Definition setup_of {R} (c : initE R) : list setup :=
  match c with
  | Mkdir p m => [S_mkdir p m]
  | Mount src tgt ty fl d => [S_mount src tgt ty fl d]
  | Mknod p m d => [S_mknod p m d]
  | Setenv n v _ => [S_setenv n v]
  | Sethostname n len => [S_hostname (take (Z.to_nat len) n)]
  | _ => []
  end.

Definition script (tr : list event) : list setup :=
  concat ((λ e, match e with Ev c _ => setup_of c end) <$> tr).

(** Descriptors and streams held, as a stack: what is closed is what was opened
    last. *)
Inductive handle := H_fd (fd : Z) | H_fp (fp : Z).

#[export] Instance handle_eq_dec : EqDecision handle.
Proof. solve_decision. Defined.

Definition release (h : handle) (held : list handle) : option (list handle) :=
  match held with
  | x :: held' => if decide (x = h) then Some held' else None
  | [] => None
  end.

Definition hold {R} (c : initE R) : option R → list handle → option (list handle) :=
  match c in initE R return option R → list handle → option (list handle) with
  | Open _ _ => λ a held, match a with
                          | Some fd => Some (if 0 <=? fd then H_fd fd :: held else held)
                          | None => Some held
                          end
  | Popen _ _ => λ a held, match a with Some (Some fp) => Some (H_fp fp :: held) | _ => Some held end
  | Close fd => λ _, release (H_fd fd)
  | Pclose fp => λ _, release (H_fp fp)
  | _ => λ _, Some
  end.

Fixpoint holds (tr : list event) (held : list handle) : option (list handle) :=
  match tr with
  | [] => Some held
  | Ev c a :: tr' => hold c a held ≫= holds tr'
  end.

Definition balanced (tr : list event) : Prop := ∀ held, holds tr held = Some held.

(** What a write call passed on. *)
Definition sent (e : event) : bytes :=
  match e with
  | Ev c a =>
      match c in initE R return option R → bytes with
      | Write _ buf => λ a, take (Z.to_nat (default 0 a)) buf
      | _ => λ _, []
      end a
  end.

Definition delivered (tr : list event) : bytes := concat (sent <$> tr).

Definition write_to (fd : Z) (e : event) : Prop := ∃ buf n, e = Ev (Write fd buf) (Some n).

(** A write that took nothing. *)
Definition write_failed (e : event) : Prop := ∃ fd buf n, e = Ev (Write fd buf) (Some n) ∧ n <= 0.

Lemma script_app tr1 tr2 : script (tr1 ++ tr2) = script tr1 ++ script tr2.
Proof. unfold script. by rewrite fmap_app, concat_app. Qed.

Lemma holds_app tr1 tr2 held : holds (tr1 ++ tr2) held = holds tr1 held ≫= holds tr2.
Proof.
  revert held. induction tr1 as [|[R c a] tr1 IH]; intros held; [done|]. cbn.
  destruct (hold c a held) as [h|]; cbn; [apply IH|done].
Qed.

Lemma balanced_nil : balanced [].
Proof. by intros held. Qed.

Lemma balanced_app tr1 tr2 : balanced tr1 → balanced tr2 → balanced (tr1 ++ tr2).
Proof. intros H1 H2 held. rewrite holds_app, H1. cbn. apply H2. Qed.

Lemma writes_script fd tr : Forall (write_to fd) tr → script tr = [].
Proof. induction 1 as [|e tr (buf & n & ->) _ IH]; [done|]. exact IH. Qed.

Lemma writes_balanced fd tr : Forall (write_to fd) tr → balanced tr.
Proof. intros H held. induction H as [|e tr (buf & n & ->) _ IH]; [done|]. exact IH. Qed.

Lemma delivered_app tr1 tr2 : delivered (tr1 ++ tr2) = delivered tr1 ++ delivered tr2.
Proof. unfold delivered. by rewrite fmap_app, concat_app. Qed.

(** ** Writing *)

Section init.
Context `{O : OS} `{L : !OsLaws}.

(** [n] bytes of [buf], written by at most [n] calls. *)
Definition written (fd : Z) (buf : bytes) (n : nat) (tr : list event) : Prop :=
  Forall (write_to fd) tr ∧ (length tr <= n)%nat ∧
  ∃ k, (k <= n)%nat ∧ delivered tr = take k buf ∧
    (k = n ∨ ∃ e, last tr = Some e ∧ write_failed e).

Lemma written_cons fd buf n m tr :
  (0 < m <= n)%nat → written fd (drop m buf) (n - m) tr →
  written fd buf n (Ev (Write fd (take n buf)) (Some (Z.of_nat m)) :: tr).
Proof.
  intros Hm (Hw & Hl & k & Hk & Hd & Hend). split; [|split].
  - constructor; [by eexists _, _|done].
  - cbn. lia.
  - exists (m + k)%nat. split; [lia|]. split.
    + unfold delivered in *. cbn. rewrite Hd, Nat2Z.id, take_take, Nat.min_l by lia.
      by rewrite take_take_drop.
    + destruct Hend as [->|(e & He & Hf)]; [left; lia|]. right. exists e. split; [|done].
      by destruct tr.
Qed.

Lemma safe_write_does fd n buf :
  (n <= length buf)%nat → Z.of_nat n < 2 ^ 64 →
  does (safe_write fd buf (Z.of_nat n)) (λ _, written fd buf n).
Proof.
  revert buf. induction (lt_wf n) as [n _ IH]. intros buf Hlen Hn s G.
  unfold safe_write. apply eventually_iter. cbv beta iota.
  destruct (0 <? Z.of_nat n) eqn:E0.
  2: { apply eventually_ret. exists []. rewrite app_nil_r. split; [done|].
       split; [done|]. split; [cbn; lia|]. exists 0%nat. rewrite take_0. split; [lia|].
       split; [done|]. left. lia. }
  apply eventually_bind, eventually_syscall; [done|]. intros a w Hw.
  apply os_write_bound in Hw. rewrite Nat2Z.id in *. rewrite length_take in Hw.
  destruct (a <=? 0) eqn:Ea; apply eventually_ret.
  - eexists. split; [done|]. split; [by repeat econstructor|]. split; [cbn; lia|].
    exists 0%nat. rewrite take_0. split; [lia|]. split.
    + unfold delivered. cbn. by replace (Z.to_nat a) with 0%nat by lia.
    + right. eexists. split; [done|]. eexists _, _, _. split; [done|lia].
  - replace (wrap_u 64 (Z.of_nat n - a)) with (Z.of_nat (n - Z.to_nat a)).
    2: { unfold wrap_u. rewrite Z.mod_small by lia. lia. }
    eapply eventually_mono; [apply (IH (n - Z.to_nat a)%nat)| |done].
    + lia.
    + rewrite length_drop. lia.
    + lia.
    + intros [] s' (tr & Hh & Htr). cbn in Hh. eexists. rewrite Hh, <- app_assoc. split; [done|].
      cbn. replace a with (Z.of_nat (Z.to_nat a)) at 1 by lia. apply written_cons; [lia|done].
Qed.

(** ** Phases *)

(** From every state the program comes back, having made the set-up calls [S]
    and closed what it opened. *)
Definition acts {R} (t : init R) (S : list setup) : Prop :=
  does t (λ _ tr, script tr = S ∧ balanced tr).

Lemma acts_ret {R} (r : R) : acts (mret r) [].
Proof. by apply does_ret. Qed.

Lemma acts_bind {A R} (t : init A) (k : A → init R) S1 S2 :
  acts t S1 → (∀ a, acts (k a) S2) → acts (t ≫= k) (S1 ++ S2).
Proof.
  intros H1 H2. eapply does_bind; [exact H1|exact H2|].
  intros _ _ tr1 tr2 [<- Hb1] [<- Hb2]. split; [apply script_app|by apply balanced_app].
Qed.

Lemma acts_call {R} (c : initE R) :
  is_exec c = false → (∀ a held, hold c a held = Some held) → acts (call c) (setup_of c).
Proof.
  intros Hx Hh. apply does_call; [done|]. intros a. split; [by apply app_nil_r|].
  intros held. cbn. by rewrite Hh.
Qed.

Lemma acts_write fd n buf :
  (n <= length buf)%nat → Z.of_nat n < 2 ^ 64 → acts (safe_write fd buf (Z.of_nat n)) [].
Proof.
  intros Hl Hn. eapply does_mono; [by apply safe_write_does|].
  intros _ tr (Hw & _). split; [by eapply writes_script|by eapply writes_balanced].
Qed.

Lemma acts_msg_raw msg : strlen msg < 2 ^ 64 → acts (print_msg_raw msg) [].
Proof.
  intros H. apply acts_write; [|done]. clear H. induction msg as [|c msg IH]; cbn; [lia|].
  destruct (decide (c = NUL)); cbn; lia.
Qed.

Lemma acts_msg msg : strlen msg < 2 ^ 64 → acts (print_msg msg) [].
Proof.
  intros H. apply (acts_bind _ _ [] []); [by apply acts_write|intros _].
  apply (acts_bind _ _ [] []); [by apply acts_msg_raw|intros _]. by apply (acts_write _ 1).
Qed.

Lemma acts_eq {R} (t : init R) S S' : acts t S → S = S' → acts t S'.
Proof. by intros H <-. Qed.

End init.

(** Straight-line programs, one call at a time. *)
Ltac acts_steps :=
  repeat match goal with
  | |- ∀ _, acts _ _ => intros ?
  | |- acts (mret _) _ => apply acts_ret
  | |- acts (print_msg _) _ => apply acts_msg; by vm_compute
  | |- acts (call _) _ => apply acts_call; [reflexivity|intros; reflexivity]
  | |- acts (_ ≫= _) _ => eapply acts_bind; [|intros ?]
  end.

Section phases.
Context `{O : OS} `{L : !OsLaws}.

Lemma do_mount_acts source target fstype flags data :
  strlen target < 2 ^ 64 →
  acts (do_mount source target fstype flags data)
       [S_mkdir target 493; S_mount source target fstype flags data].
Proof.
  intros Ht.
  assert (∀ b : bool, acts (if b then print_msg target;; mret 0 else mret (-1)) []) as Hb.
  { intros []; [apply (acts_bind _ _ [] []); [by apply acts_msg|intros _]|]; apply acts_ret. }
  eapply acts_eq.
  - unfold do_mount. acts_steps. apply Hb.
  - reflexivity.
Qed.

Definition mount_script (row : string * string * string) : list setup :=
  let '(source, target, fstype) := row in
  [S_mkdir (str target) 493;
   S_mount (str source) (str target) (str fstype) (Z.lor MS_NOEXEC MS_NOSUID) None].

Lemma mount_all_acts rows :
  Forall (λ row, strlen (str row.1.2) < 2 ^ 64) rows →
  acts (mount_all rows) (concat (mount_script <$> rows)).
Proof.
  induction 1 as [|[[source target] fstype] rows Hr _ IH]; cbn [mount_all fmap list_fmap concat].
  - apply acts_ret.
  - apply acts_bind; [by apply do_mount_acts|intros _; exact IH].
Qed.

Definition fs_script : list setup :=
  concat (mount_script <$> mounts) ++
  [S_mount (str "proc") (str "/proc") (str "proc") 14 None;
   S_mount (str "sysfs") (str "/sys") (str "sysfs") 14 None;
   S_mkdir (str "/dev/pts") 493;
   S_mount (str "devpts") (str "/dev/pts") (str "devpts") 10 None;
   S_mkdir (str "/run") 493;
   S_mount (str "tmpfs") (str "/run") (str "tmpfs") 10 (Some (str "size=64M,mode=0755"))].

Lemma setup_filesystems_acts : acts setup_filesystems fs_script.
Proof.
  eapply acts_eq.
  - unfold setup_filesystems. acts_steps. apply mount_all_acts. by repeat constructor; vm_compute.
  - reflexivity.
Qed.

(** Path and permission bits of the nodes. *)
Definition node_script : list setup :=
  (λ '(path, mode, dev), S_mknod (str path) mode dev) <$>
  [("/dev/null", 438, 259); ("/dev/zero", 438, 261); ("/dev/full", 438, 263);
   ("/dev/random", 438, 264); ("/dev/urandom", 438, 265); ("/dev/tty", 438, 1280);
   ("/dev/console", 384, 1281); ("/dev/ptmx", 438, 1282);
   ("/dev/tty1", 400, 1025); ("/dev/tty2", 400, 1026); ("/dev/tty3", 400, 1027);
   ("/dev/tty4", 400, 1028); ("/dev/tty5", 400, 1029); ("/dev/tty6", 400, 1030)].

Lemma create_device_nodes_acts : acts create_device_nodes node_script.
Proof.
  eapply acts_eq.
  - unfold create_device_nodes, tty_nodes. acts_steps.
  - reflexivity.
Qed.

Definition env_script : list setup :=
  ((λ '(name, value), S_setenv (str name) (str value)) <$>
   [("HOME", "/root"); ("PATH", "/usr/local/bin:/usr/bin:/bin:/usr/sbin:/sbin");
    ("TERM", "linux"); ("PS1", "\033[1;32mAEGIS\033[0m:\w\$ "); ("LANG", "en_US.UTF-8");
    ("SHELL", "/bin/sh"); ("AEGIS_VERSION", "1.0.0"); ("AEGIS_KERNEL", "7.3.0-rc1-aegis")])
  ++ [S_hostname (str "aegis-dev")].

Lemma setup_environment_acts : acts setup_environment env_script.
Proof.
  assert (∀ b : bool, acts (if b then print_msg (str "Warning: sethostname failed") else mret tt) [])
    as Hb by (intros []; acts_steps).
  eapply acts_eq.
  - unfold setup_environment. acts_steps. apply Hb.
  - reflexivity.
Qed.

(** ** Reports *)

Lemma acts_close fd :
  does (call (Close fd);; mret tt)
       (λ _ tr, script tr = [] ∧ ∀ held, holds tr (H_fd fd :: held) = Some held).
Proof.
  apply (does_bind _ _ (λ _ tr, ∃ n, tr = [Ev (Close fd) (Some n)]) (λ _ _ tr, tr = [])).
  - apply does_call; [done|]. by eexists.
  - intros _. by apply does_ret.
  - intros _ _ tr1 tr2 [n ->] ->. split; [done|]. intros held. cbn. by rewrite decide_True.
Qed.

(** A file opened, read and closed. *)
Lemma acts_open path flags count (body : option bytes → init unit) (other : init unit) :
  (∀ n, acts (body n) []) → acts other [] →
  acts (fd ← call (Open path flags);
        if 0 <=? fd then
          n ← call (Read fd count);
          body n;; call (Close fd);; mret tt
        else other) [].
Proof.
  intros Hb Ho.
  apply (does_bind _ _ (λ fd tr, tr = [Ev (Open path flags) (Some fd)])
    (λ fd _ tr, script tr = [] ∧
       ∀ held, holds tr (if 0 <=? fd then H_fd fd :: held else held) = Some held)).
  - by apply does_call.
  - intros fd. destruct (0 <=? fd); [|exact Ho].
    eapply (does_bind _ _ (λ n tr, tr = [Ev (Read fd count) (Some n)])
             (λ _ _ tr, script tr = [] ∧ ∀ held, holds tr (H_fd fd :: held) = Some held)).
    + by apply does_call.
    + intros n. eapply does_bind; [apply Hb|intros a; apply (acts_close fd)|].
      intros _ _ tr1 tr2 [E1 H1] [E2 H2]. rewrite script_app, E1, E2. split; [done|].
      intros held. rewrite holds_app, H1. apply H2.
    + intros n _ tr1 tr2 -> [E2 H2]. by split.
  - intros fd _ tr1 tr2 -> [E2 H2]. split; [exact E2|]. intros held. cbn. apply H2.
Qed.

Lemma check_lsm_chain_acts : acts check_lsm_chain [].
Proof.
  assert (∀ b : option bytes, acts (if b then print_msg (str "✅ AEGIS is ACTIVE in kernel LSM chain")
            else print_msg (str "⚠️  AEGIS not found in LSM chain")) []) as Hb.
  { intros []; acts_steps. }
  apply acts_open; [|acts_steps]. intros [[|c data]|]; [acts_steps| |acts_steps].
  apply (acts_bind _ _ [] []); [apply Hb|intros _]. apply (acts_bind _ _ [] []); acts_steps.
Qed.

Lemma check_status_acts : acts check_status [].
Proof.
  apply acts_open; [|acts_steps]. intros [[|c data]|]; [acts_steps| |acts_steps].
  apply (acts_bind _ _ [] []); acts_steps.
Qed.

Lemma copy_lines_runs fp s G :
  drains fp (owrld s) →
  eventually (λ _ s', ∃ tr, history s' = history s ++ tr ∧ script tr = [] ∧ balanced tr) G
             (copy_lines fp) s.
Proof.
  intros H. remember (owrld s) as w eqn:Ew. revert s Ew.
  induction H as [w w' H1|w l w1 n w2 H1 H2 H IH]; intros s ->; unfold copy_lines;
    apply eventually_iter, eventually_bind, eventually_call; rewrite H1.
  - apply eventually_ret. eexists. split; [done|]. split; [done|]. by intros held.
  - apply eventually_bind, eventually_call. cbn. rewrite H2. apply eventually_ret.
    eapply eventually_mono; [by apply IH| |done]. intros _ s' (tr & Hh & Hs & Hb).
    eexists. rewrite Hh. cbn. rewrite <- !app_assoc. split; [done|]. split; [exact Hs|].
    intros held. cbn. apply Hb.
Qed.

Lemma show_output_acts cmd : cmd ∈ info_commands → acts (show_output cmd) [].
Proof.
  intros Hc s G. unfold show_output.
  apply eventually_bind, eventually_syscall; [done|]. intros fp w Hp.
  destruct fp as [fp|]; [|apply eventually_ret; eexists; by repeat split].
  apply eventually_bind.
  eapply eventually_mono; [apply copy_lines_runs; by eapply os_drains| |done].
  intros _ s1 (tr & Hh & Hs & Hb).
  apply eventually_bind, eventually_syscall; [done|]. intros n w2 _. apply eventually_ret.
  eexists. cbn. rewrite Hh. cbn. rewrite <- !app_assoc. split; [done|]. split.
  - by rewrite !script_app, Hs.
  - intros held. cbn. rewrite holds_app, Hb. cbn. by rewrite decide_True.
Qed.

(** ** The whole program *)

Definition boot_script : list setup := fs_script ++ node_script ++ env_script.

Definition exec_login : initE unit := Execlp (str "/bin/sh") [str "/bin/sh"; str "--login"].
Definition exec_sh : initE unit := Execlp (str "/bin/sh") [str "sh"].
Definition shell_failed : initE unit := Perror (str "Failed to exec shell").

(** The history [h] is a complete boot followed by the calls [l]. *)
Definition booted_then (l : list event) (h : list event) : Prop :=
  ∃ tr, h = tr ++ l ∧ script tr = boot_script ∧ balanced tr.

(** The set-up calls [S] have been made and everything opened is closed. *)
Definition reached (S : list setup) (s : istate) : Prop :=
  script (history s) = S ∧ balanced (history s).

Lemma eventually_acts {A R} (t : init A) (k : A → init R) S1 S2 Q G s :
  reached S1 s → acts t S2 →
  (∀ a s', reached (S1 ++ S2) s' → eventually Q G (k a) s') →
  eventually Q G (t ≫= k) s.
Proof.
  intros [<- B1] Ht Hk. apply eventually_bind.
  eapply eventually_mono; [apply Ht| |done]. intros a s' (tr2 & E2 & <- & B2). apply Hk.
  unfold reached. rewrite E2, script_app. auto using balanced_app.
Qed.

Lemma check_aegis_acts : acts check_aegis [].
Proof.
  apply (acts_bind _ _ [] []); [acts_steps|intros _].
  apply (acts_bind _ _ [] []); [apply check_lsm_chain_acts|intros _; apply check_status_acts].
Qed.

Lemma show_system_info_acts : acts show_system_info [].
Proof.
  apply (acts_bind _ _ [] []); [acts_steps|intros _].
  apply (acts_bind _ _ [] []); [|intros _]; apply show_output_acts; unfold info_commands; set_solver.
Qed.

Lemma banner_acts : acts (print_msg_raw AEGIS_BANNER) [].
Proof. by apply acts_msg_raw; vm_compute. Qed.

Lemma hint_acts : acts (print_msg_raw (ESC :: str "[1;33m  Type 'help' for AEGIS commands"
                                       ++ ESC :: str "[0m" ++ [LF; LF])) [].
Proof. by apply acts_msg_raw; vm_compute. Qed.

End phases.

Create HintDb acts.

#[export] Hint Resolve banner_acts hint_acts setup_filesystems_acts create_device_nodes_acts
  setup_environment_acts check_aegis_acts show_system_info_acts : acts.

(** A phase that comes back. *)
Ltac solve_acts := first [solve [acts_steps]|solve [eauto 2 with acts]].

Ltac phase :=
  eapply eventually_acts; [eassumption|solve_acts|intros ? ? ?].

Section program.
Context `{O : OS} `{L : !OsLaws}.

(** From [s] on: calls that set nothing up and close what they open, then [l]. *)
Definition goes_on (s : istate) (l : list event) (s' : istate) : Prop :=
  ∃ tr, history s' = (history s ++ tr) ++ l ∧ script tr = [] ∧ balanced tr.

Lemma run_shell_runs s :
  eventually
    (λ _, goes_on s [Ev exec_login (Some tt); Ev exec_sh (Some tt); Ev shell_failed (Some tt)])
    (λ s', goes_on s [Ev exec_login None] s' ∨
           goes_on s [Ev exec_login (Some tt); Ev exec_sh None] s')
    run_shell s.
Proof.
  assert (acts (print_msg (str "Starting AEGIS development shell...")) []) as Hm by acts_steps.
  unfold run_shell. apply eventually_bind. eapply eventually_mono; [apply Hm| |exact (λ _ H, H)].
  intros _ s1 (tr1 & E1 & S1 & B1).
  apply eventually_bind. eapply eventually_mono; [apply hint_acts| |exact (λ _ H, H)].
  intros _ s2 (tr2 & E2 & S2 & B2).
  assert (script (tr1 ++ tr2) = [] ∧ balanced (tr1 ++ tr2)) as [Hs Hb].
  { rewrite script_app, S1, S2. auto using balanced_app. }
  assert (history s2 = history s ++ (tr1 ++ tr2)) as Hh by (by rewrite E2, E1, app_assoc).
  clear E1 E2. set (tr := tr1 ++ tr2) in *. clearbody tr.
  apply eventually_bind, eventually_call. fold exec_login.
  destruct (os_call exec_login (owrld s2)) as [[[] w1]|].
  2: { left. exists tr. cbn. by rewrite Hh. }
  apply eventually_bind, eventually_call. fold exec_sh. cbn [owrld after].
  destruct (os_call exec_sh w1) as [[[] w2]|].
  2: { right. exists tr. cbn. by rewrite Hh, <- (app_assoc (_ ++ tr)). }
  apply eventually_syscall; [done|]. intros [] w3 _. exists tr. cbn.
  by rewrite Hh, <- !(app_assoc (_ ++ tr)).
Qed.

Lemma goes_on_booted s l s' :
  reached boot_script s → goes_on s l s' → booted_then l (history s').
Proof.
  intros [Hs Hb] (tr & E & Htr & Btr). exists (history s ++ tr). split; [done|].
  rewrite script_app, Hs, Htr, app_nil_r. auto using balanced_app.
Qed.

Lemma init_main_runs w :
  eventually
    (λ r s, r = 0 ∧
       booted_then [Ev exec_login (Some tt); Ev exec_sh (Some tt); Ev shell_failed (Some tt)]
                   (history s))
    (λ s, booted_then [Ev exec_login None] (history s) ∨
          booted_then [Ev exec_login (Some tt); Ev exec_sh None] (history s))
    init_main (mkI [] w).
Proof.
  assert (reached [] (mkI [] w)) as H0 by (split; [done|apply balanced_nil]).
  unfold init_main. do 9 phase. apply eventually_bind.
  eapply eventually_mono; [apply run_shell_runs| |].
  - intros [] s Hs. apply eventually_ret. split; [done|]. by eapply goes_on_booted.
  - intros s [Hs|Hs]; [left|right]; by eapply goes_on_booted.
Qed.

(** C35: writing to the console terminates and loses nothing silently: after at
    most [len] write calls either all [len] bytes have been taken, in order, or
    a prefix has and the last call took nothing. *)
Theorem safe_write_delivers fd buf len s :
  0 <= len <= Z.of_nat (length buf) → len < 2 ^ 64 →
  eventually
    (λ _ s', ∃ tr, history s' = history s ++ tr ∧ Z.of_nat (length tr) <= len ∧
       Forall (write_to fd) tr ∧
       ∃ k, 0 <= k <= len ∧ delivered tr = take (Z.to_nat k) buf ∧
         (k = len ∨ ∃ e, last tr = Some e ∧ write_failed e))
    never (safe_write fd buf len) s.
Proof.
  intros Hl Hm. rewrite <- (Z2Nat.id len) by lia.
  eapply eventually_mono; [apply safe_write_does; lia| |done].
  intros _ s' (tr & Hh & Hw & Hlen & k & Hk & Hd & He). exists tr. split; [done|].
  split; [lia|]. split; [done|]. exists (Z.of_nat k). rewrite Nat2Z.id.
  split; [lia|]. split; [done|]. destruct He as [->|He]; [by left|by right].
Qed.

(** C10: init always gets to the shell: whichever of its calls fail, it comes to
    replace itself by a login shell, or by a plain one when that fails, and it
    returns only when neither can be started.  All set-up calls have been made
    by then and every descriptor and stream it opened is closed again. *)
Theorem init_starts_shell w :
  eventually
    (λ r s, r = 0 ∧
       booted_then [Ev exec_login (Some tt); Ev exec_sh (Some tt); Ev shell_failed (Some tt)]
                   (history s))
    (λ s, booted_then [Ev exec_login None] (history s) ∨
          booted_then [Ev exec_login (Some tt); Ev exec_sh None] (history s))
    init_main (mkI [] w).
Proof. exact (init_main_runs w). Qed.

(** What holds of the set-up calls of every boot. *)
Lemma init_setup (P : list setup → Prop) w :
  P boot_script →
  eventually (λ _ s, P (script (history s))) (λ s, P (script (history s))) init_main (mkI [] w).
Proof.
  intros HP. assert (∀ l h, script l = [] → booted_then l h → P (script h)) as H.
  { intros l h Hl (tr & -> & Hs & _). by rewrite script_app, Hl, app_nil_r, Hs. }
  eapply eventually_mono; [apply init_main_runs| |].
  - intros r s [_ Hb]. by eapply H, Hb.
  - intros s [Hb|Hb]; by eapply H, Hb.
Qed.

End program.

(** ** Mount points *)

Definition mount_targets (l : list setup) : list bytes :=
  omap (λ x, match x with S_mount _ t _ _ _ => Some t | _ => None end) l.

(** [q] is [p] or lies below it. *)
Definition under (p q : bytes) : bool := bool_decide (q = p) || prefix_b (p ++ str "/") q.

(** Pairs of a mount and an earlier one that it covers. *)
Fixpoint covered (targets : list bytes) : list (bytes * bytes) :=
  match targets with
  | [] => []
  | t :: l => ((λ t', (t', t)) <$> filter (λ t', under t' t = true) l) ++ covered l
  end.

(** Every mount has a directory made for it before. *)
Fixpoint has_directories (made : list bytes) (l : list setup) : bool :=
  match l with
  | [] => true
  | S_mkdir p _ :: l' => has_directories (p :: made) l'
  | S_mount _ t _ _ _ :: l' => bool_decide (t ∈ made) && has_directories made l'
  | _ :: l' => has_directories made l'
  end.

(** File type bits of a mknod mode; zero makes a regular file. *)
Definition node_types (l : list setup) : list Z :=
  omap (λ x, match x with S_mknod _ m _ => Some (Z.land m S_IFMT) | _ => None end) l.

Section init_setup.
Context `{O : OS} `{L : !OsLaws}.

(** C36: how init sets the system up, in every boot: every mount point is made
    before it is mounted on, and no mount covers an earlier one, except for the
    second mounts of /proc and /sys, the latter of which goes over the securityfs
    and debugfs mounted below /sys; and none of the fourteen device nodes is made
    as a device, since no mknod mode has a file type. *)
Theorem init_setup_calls w :
  let P s := let l := script (history s) in
    has_directories [] l = true ∧
    covered (mount_targets l) =
      [(str "/proc", str "/proc"); (str "/sys", str "/sys");
       (str "/sys", str "/sys/kernel/security"); (str "/sys", str "/sys/kernel/debug")] ∧
    node_types l = replicate 14 0 in
  eventually (λ _, P) P init_main (mkI [] w).
Proof.
  apply (init_setup (λ l, has_directories [] l = true ∧ covered (mount_targets l) = _ ∧
                          node_types l = _)).
  by vm_compute.
Qed.

End init_setup.

(** ** The status of the module on the console *)

Definition SECURITYFS_DIR : bytes := str "/sys/kernel/security".

(** Whether the tree of the module can be reached, by the answers to the
    mounts: securityfs has been mounted and nothing has been mounted over it. *)
Definition tree_after (reachable : bool) (e : event) : bool :=
  match e with
  | Ev c a =>
      match c in initE R return option R → bool with
      | Mount _ target fstype _ _ => λ a,
          if negb (bool_decide (a = Some 0)) then reachable
          else if bool_decide (target = SECURITYFS_DIR) && bool_decide (fstype = str "securityfs")
               then true
               else reachable && negb (under target STATUS_FILE)
      | _ => λ _, reachable
      end a
  end.


(** The module behind the tree: its state as the system goes on, and what a
    process finds when it opens and reads the status file. *)
Class AegisTree `{K : Kernel} `{O : OS} (fuel : nat) := {
  kstate : os_world → sys;
  kstate_reach w : reach fuel (kstate w);
  visible : os_world → Prop;
  visible_mount src flags data w w' :
    os_call (Mount src SECURITYFS_DIR (str "securityfs") flags data) w = Some (0, w') → visible w';
  visible_stays R (c : initE R) a w w' :
    visible w → os_call c w = Some (a, w') → tree_after true (Ev c (Some a)) = true → visible w';
  visible_open w fd w' :
    visible w → os_call (Open STATUS_FILE O_RDONLY) w = Some (fd, w') → 0 <= fd;
  visible_read w fd w' n a w'' :
    visible w → os_call (Open STATUS_FILE O_RDONLY) w = Some (fd, w') →
    os_call (Read fd n) w' = Some (a, w'') →
    a = Some (take n (aegis_status_show (cfg (kstate w')) []));
}.

Section status.
Context `{K : Kernel} `{UL : !UninitLaws} `{SL : !ScanLaws} `{YL : !SysctlLaws}
        `{FL : !SecfsLaws} `{NL : !NrLaws}.
Context `{O : OS} `{L : !OsLaws} {fuel : nat} `{T : !AegisTree fuel}.










End status.
