(* ===== verification/RefOs.v ===== *)
(** * A concrete system for the init process

    An instance of [OS] small enough to run: mounts are a list of targets, a
    target is mounted once, write(2) takes sixteen bytes at a time, the device
    nodes exist already, and a shell can be started.  The module behind the
    securityfs tree is in the state [s_boot].  It satisfies the laws that the
    theorems about init assume. *)

From ITree Require Import ITree.
From S2P Require Import Prelude CString AegisH Kernel State RefKernel PolicyList.
From S2P Require Import Process FileHash File SyscallList Lsm Sysctl Control Securityfs System Scenario.
From S2P Require Import TextSizes DevInit InitRun DevInitTheorems.

Record ros := mkRos { ro_mounts : list bytes; ro_file : bytes; ro_pipe : list bytes }.

(** The status file as long as the module is in [s_boot]. *)
Definition ref_status : bytes := aegis_status_show (cfg s_boot) [].

Definition ro_open (path : bytes) (w : ros) : Z * ros :=
  if bool_decide (path = LSM_FILE) && bool_decide (str "/proc" ∈ ro_mounts w) then
    (3, mkRos (ro_mounts w) (str "capability,landlock,aegis") (ro_pipe w))
  else if bool_decide (path = STATUS_FILE) && bool_decide (SECURITYFS_DIR ∈ ro_mounts w) then
    (3, mkRos (ro_mounts w) ref_status (ro_pipe w))
  else (-1, w).

Definition ref_call {R} (c : initE R) (w : ros) : option (R * ros) :=
  match c in initE R return option (R * ros) with
  | Signal _ => Some (tt, w)
  | Write _ buf => Some (Z.min 16 (Z.of_nat (length buf)), w)
  | Mkdir _ _ => Some (0, w)
  | Mount _ target _ _ _ =>
      if bool_decide (target ∈ ro_mounts w) then Some (-1, w)
      else Some (0, mkRos (target :: ro_mounts w) (ro_file w) (ro_pipe w))
  | Mknod _ _ _ => Some (-1, w)
  | Setenv _ _ _ => Some (0, w)
  | Sethostname _ _ => Some (0, w)
  | Open path _ => Some (ro_open path w)
  | Read _ count => Some (Some (take count (ro_file w)), w)
  | Close _ => Some (0, w)
  | Popen _ _ => Some (Some 5, mkRos (ro_mounts w) (ro_file w) [str "Linux aegis-dev" ++ [LF]])
  | Fgets _ _ => match ro_pipe w with
                 | [] => Some (None, w)
                 | l :: rest => Some (Some l, mkRos (ro_mounts w) (ro_file w) rest)
                 end
  | Pclose _ => Some (0, w)
  | Printf text => Some (Z.of_nat (length text), w)
  | Perror _ => Some (tt, w)
  | Execlp _ _ => None
  end.

#[export] Instance ref_os : OS := {| os_world := ros; os_call := @ref_call |}.

Lemma ro_open_status w :
  SECURITYFS_DIR ∈ ro_mounts w → ro_open STATUS_FILE w = (3, mkRos (ro_mounts w) ref_status (ro_pipe w)).
Proof. intros H. unfold ro_open. by rewrite (bool_decide_true (SECURITYFS_DIR ∈ _)). Qed.

Lemma ref_drains fp (w : ros) : drains fp w.
Proof.
  destruct w as [m f p]. induction p as [|l p IH].
  - by eapply drains_eof.
  - eapply drains_line; [done|done|exact IH].
Qed.

#[export] Instance ref_os_laws : OsLaws.
Proof.
  split.
  - intros R c w Hx. destruct c; try done; cbn; try (by eexists); case_match; by eexists.
  - intros fd buf w n w' H. injection H as <- <-. apply Z.le_min_r.
  - intros cmd w fp w' _ _. apply ref_drains.
Qed.

#[export] Instance ref_aegis_tree : AegisTree (K := ref_kernel) (O := ref_os) 20.
Proof.
  refine (@Build_AegisTree ref_kernel ref_os 20 (λ _, s_boot) _
            (λ w, SECURITYFS_DIR ∈ ro_mounts w) _ _ _ _).
  - intros w. exact (s_boot_reach 20).
  - intros src flags data w w'. cbn. case_bool_decide as Hin; intros [= <-]. apply list_elem_of_here.
  - intros R c a w w' Hv Hc _. destruct c; cbn in Hc; try discriminate Hc; try (by injection Hc as <- <-).
    + case_bool_decide; injection Hc as <- <-; [done|]. by apply list_elem_of_further.
    + injection Hc as Ho. unfold ro_open in Ho. repeat case_match; by injection Ho as <- <-.
    + case_match; by injection Hc as <- <-.
  - intros w fd w' Hv H. change (Some (ro_open STATUS_FILE w) = Some (fd, w')) in H.
    rewrite ro_open_status in H by done. assert (fd = 3) by congruence. lia.
  - intros w fd w' n a w'' Hv H Hr. change (Some (ro_open STATUS_FILE w) = Some (fd, w')) in H.
    rewrite ro_open_status in H by done.
    change (Some (Some (take n (ro_file w')), w') = Some (a, w'')) in Hr.
    assert (a = Some (take n (ro_file w'))) as -> by congruence.
    by assert (w' = mkRos (ro_mounts w) ref_status (ro_pipe w)) as -> by congruence.
Qed.

(** ** Instances *)

Definition ros0 : ros := mkRos [] [] [].
Definition init0 : istate := mkI [] ros0.

(** The last state of a run that ends in a call that does not come back. *)
Definition gone_state (r : option (option Z * istate)) (s : istate) : istate :=
  match r with Some (None, s') => s' | _ => s end.
Definition is_gone (r : option (option Z * istate)) : bool :=
  match r with Some (None, _) => true | _ => false end.

Lemma gone_state_spec r s : is_gone r = true → r = Some (None, gone_state r s).
Proof. by destruct r as [[[] s']|]. Qed.

Definition init_final : istate := gone_state (run 3000 init_main init0) init0.

Lemma init_gone : is_gone (run 3000 init_main init0) = true.
Proof. by vm_compute. Qed.

(** What init eventually does, it has done in [init_final]. *)
Lemma init_final_holds Q G : eventually Q G init_main init0 → G init_final.
Proof. exact (run_eventually _ _ _ _ _ _ _ (gone_state_spec _ init0 init_gone)). Qed.

Definition message : bytes := str "a message of thirty-four bytes....".
Definition message_run : option (option unit * istate) := run 100 (safe_write 1 message 34) init0.

(** Three calls of at most sixteen bytes each. *)
Lemma safe_write_delivers_witness :
  ∃ s' tr, message_run = Some (Some tt, s') ∧ history s' = tr ∧ Z.of_nat (length tr) <= 34 ∧
    Forall (write_to 1) tr.
Proof.
  assert (match message_run with Some (Some _, _) => true | _ => false end = true) as H by by vm_compute.
  destruct message_run as [[[[]|] s']|] eqn:E; [|discriminate H|discriminate H].
  destruct (run_eventually _ _ _ _ _ _ _ E
    (safe_write_delivers 1 message 34 init0 ltac:(by vm_compute) ltac:(by vm_compute)))
    as (tr & H0 & H1 & H2 & _).
  by exists s', tr.
Defined.

Lemma init_starts_shell_witness : booted_then [Ev exec_login None] (history init_final).
Proof.
  destruct (init_final_holds _ _ (init_starts_shell (O := ref_os) ros0)) as [H|H]; [exact H|].
  exfalso. destruct H as (tr & H & _). apply (f_equal last) in H. rewrite last_app in H. cbn in H.
  vm_compute in H. discriminate H.
Defined.

Lemma init_setup_calls_witness :
  node_types (script (history init_final)) = replicate 14 0.
Proof.
  destruct (init_final_holds _ _ (init_setup_calls (O := ref_os) ros0)) as (_ & _ & H). exact H.
Defined.

